(** * Circuit optimizer passes of the QFR library: a shallow embedding

    The development follows [CircuitOptimizer.cpp] and
    [operations/NonUnitaryOperation.cpp].  Operations are the values of a
    closed variant type that mirrors the C++ class hierarchy (a common
    base part plus the fields each subclass adds); the operation vector of
    a [QuantumComputation] is a [list]; iterators are positions in that
    list; pointers to vector slots (the entries of the lane DAG) are slot
    indices; C++ exceptions and undefined behaviour are the [Throw] results
    of a small error monad. *)

From Stdlib Require Import List Arith ZArith Lia Bool Sorted.
From stdpp Require Import base option list gmap.
From Equations Require Import Equations.
From Equations.Prop Require Import Logic.
Import ListNotations.

Set Default Proof Using "Type".
Set Warnings "-register-all".

(** ** Exceptions *)

(** The messages of the [QFRException]s raised by the optimizer. *)
Inductive QFRError :=
| UnexpectedOperation        (* "Unexpected operation encountered" *)
| DeferMultiTargetMeasure    (* "Deferring measurements with more than 1 target is not yet supported. ..." *)
| DeferReset                 (* "Reset encountered in deferMeasurements routine. ..." *)
| DeferMultiBitClassic       (* "Classic-controlled operations targeted at more than one bit are currently not supported. ..." *)
| DeferNotStandard           (* "Underlying operation of classic-controlled operation is not a StandardOperation." *)
| DeferImplicitReset.        (* "Implicit reset operation in circuit detected. ..." *)

Inductive Exception :=
| QFRException (e : QFRError)
| invalid_argument           (* std::invalid_argument *)
| out_of_range               (* std::out_of_range, from [at] *)
| UndefinedBehaviour         (* unchecked access outside a container, null dereference *)
| NonTermination             (* a loop that makes no progress and cannot exit *)
| FuelExhausted.             (* the step budget of a modelled loop ran out *)

Inductive result (A : Type) :=
| Ok (a : A)
| Throw (e : Exception).
Arguments Ok {A} a.
Arguments Throw {A} e.

#[global] Instance result_ret : MRet result := fun A a => Ok a.
#[global] Instance result_bind : MBind result := fun A B f m =>
  match m with
  | Ok a => f a
  | Throw e => Throw e
  end.

#[global] Instance QFRError_eq_dec : EqDecision QFRError.
Proof. solve_decision. Defined.
#[global] Instance Exception_eq_dec : EqDecision Exception.
Proof. solve_decision. Defined.

(** [v.at(i)]: bounds-checked access. *)
Definition at_ {A} (v : list A) (i : nat) : result A :=
  match v !! i with
  | Some a => Ok a
  | None => Throw out_of_range
  end.

(** [v[i]]: unchecked access; outside the vector the behaviour is undefined. *)
Definition subscript {A} (v : list A) (i : nat) : result A :=
  match v !! i with
  | Some a => Ok a
  | None => Throw UndefinedBehaviour
  end.

(** ** The operation model *)

Abbreviation Qubit := nat.

Module OpType.
(** The gate catalogue.  The entries the optimizer and
    [NonUnitaryOperation.cpp] name are listed; [Gate n] stands for every
    other entry of the enumeration. *)
Inductive t :=
| I | H | X | Y | Z | S | Sdg | T | Tdg | SX | SXdg | SWAP
| Compound | Measure | Reset | Snapshot | ShowProbabilities | Barrier
| ClassicControlled
| Gate (n : nat).
#[global] Instance eq_dec : EqDecision t.
Proof. solve_decision. Defined.
End OpType.

Module Control.
Inductive Type_ := Pos | Neg.
Record t := mk { qubit : Qubit; type : Type_ }.
#[global] Instance Type_eq_dec : EqDecision Type_.
Proof. solve_decision. Defined.
#[global] Instance eq_dec : EqDecision t.
Proof. solve_decision. Defined.
End Control.

(** [Control{q}] is a positive control. *)
Definition Control_ (q : Qubit) : Control.t := Control.mk q Control.Pos.

(** A [Controls] value is a [std::set<Control>]; the list holds its
    elements in iteration order, so [begin()] is the head. *)
Abbreviation Controls := (list Control.t).
Abbreviation Targets := (list Qubit).

(** The members of the base class [Operation] the passes read or write.
    Gate parameters (floating point angles) and the printable name are
    copied around but never inspected by a pass; they are left out. *)
Record Base := mkBase {
  type : OpType.t;
  controls : Controls;
  targets : Targets
}.

Inductive Operation :=
| StandardOperation (b : Base)
| CompoundOperation (b : Base) (ops : list Operation)
| NonUnitaryOperation (b : Base) (nqubits : nat)
                      (qubits : list Qubit) (classics : list nat)
| ClassicControlledOperation (b : Base) (op : Operation)
                             (controlRegister : nat * nat) (expectedValue : nat).

Definition base (o : Operation) : Base :=
  match o with
  | StandardOperation b => b
  | CompoundOperation b _ => b
  | NonUnitaryOperation b _ _ _ => b
  | ClassicControlledOperation b _ _ _ => b
  end.

Definition with_base (f : Base -> Base) (o : Operation) : Operation :=
  match o with
  | StandardOperation b => StandardOperation (f b)
  | CompoundOperation b ops => CompoundOperation (f b) ops
  | NonUnitaryOperation b nq qs cs => NonUnitaryOperation (f b) nq qs cs
  | ClassicControlledOperation b op r v => ClassicControlledOperation (f b) op r v
  end.

(** *** Constructors used by the passes *)

(** [StandardOperation(target, g)], [StandardOperation(Control, target, g)]
    and [StandardOperation(controls, targets, g)]. *)
Definition Standard1 (target : Qubit) (g : OpType.t) : Operation :=
  StandardOperation (mkBase g [] [target]).
Definition StandardC (c : Control.t) (target : Qubit) (g : OpType.t) : Operation :=
  StandardOperation (mkBase g [c] [target]).
Definition StandardN (cs : Controls) (ts : Targets) (g : OpType.t) : Operation :=
  StandardOperation (mkBase g cs ts).

(** [std::make_unique<CompoundOperation>()] followed by [emplace_back]s. *)
Definition Compound_ (ops : list Operation) : Operation :=
  CompoundOperation (mkBase OpType.Compound [] []) ops.

(** *** The constructors of [NonUnitaryOperation.cpp] *)

(** Measurement constructor on registers (lines 12-21). *)
Definition NonUnitaryOperation_measure (nq : nat)
    (qubitRegister : list Qubit) (classicalRegister : list nat) : result Operation :=
  if decide (length qubitRegister ≠ length classicalRegister) then
    Throw invalid_argument
  else
    Ok (NonUnitaryOperation (mkBase OpType.Measure [] []) nq
          qubitRegister classicalRegister).

(** Measurement constructor on one qubit and one bit (lines 22-28). *)
Definition NonUnitaryOperation_measure1 (nq : nat) (qubit : Qubit) (clbit : nat)
    : Operation :=
  NonUnitaryOperation (mkBase OpType.Measure [] []) nq [qubit] [clbit].

(** General constructor (lines 37-42). *)
Definition NonUnitaryOperation_general (nq : nat) (qubitRegister : list Qubit)
    (op : OpType.t) : Operation :=
  NonUnitaryOperation (mkBase op [] qubitRegister) nq [] [].

(** Snapshot constructor (lines 31-34); it delegates to the general one and
    stores [n] in a parameter, which the model does not keep. *)
Definition NonUnitaryOperation_snapshot (nq : nat) (qubitRegister : list Qubit)
    (n : nat) : Operation :=
  NonUnitaryOperation_general nq qubitRegister OpType.Snapshot.

(** The non-unitary operations that a constructor of the file can return. *)
Inductive constructed : Operation -> Prop :=
| constructed_measure nq qs cs o :
    NonUnitaryOperation_measure nq qs cs = Ok o -> constructed o
| constructed_measure1 nq q c :
    constructed (NonUnitaryOperation_measure1 nq q c)
| constructed_snapshot nq qs n :
    constructed (NonUnitaryOperation_snapshot nq qs n)
| constructed_general nq qs g :
    constructed (NonUnitaryOperation_general nq qs g).

(** *** Accessors *)

Definition getType (o : Operation) : OpType.t := type (base o).

Definition isStandardOperation (o : Operation) : bool :=
  match o with StandardOperation _ => true | _ => false end.
Definition isCompoundOperation (o : Operation) : bool :=
  match o with CompoundOperation _ _ => true | _ => false end.
Definition isClassicControlledOperation (o : Operation) : bool :=
  match o with ClassicControlledOperation _ _ _ _ => true | _ => false end.

(** Modelled from the spec: [isNonUnitaryOperation] is declared in the
    operation headers, which are not part of the sources at hand; the spec
    lists it among the queries of every operation.  The optimizer asks a
    Compound for it (line 758, [op->isCompoundOperation() &&
    op->isNonUnitaryOperation()], before it goes through the children), and
    tests it before the classic-controlled case (lines 410-414, 995,
    1201-1214).  So it holds for a [NonUnitaryOperation], for a Compound
    one of whose children it holds for, and for no gate and no
    classic-controlled operation. *)
Fixpoint isNonUnitaryOperation (o : Operation) : bool :=
  match o with
  | NonUnitaryOperation _ _ _ _ => true
  | CompoundOperation _ ops => existsb isNonUnitaryOperation ops
  | _ => false
  end.

(** The measured qubits and classical bits of a [NonUnitaryOperation]. *)
Definition getQubits (o : Operation) : list Qubit :=
  match o with NonUnitaryOperation _ _ qs _ => qs | _ => [] end.
Definition getClassics (o : Operation) : list nat :=
  match o with NonUnitaryOperation _ _ _ cs => cs | _ => [] end.

(** Modelled from the spec: [getTargets] and [getControls] are virtual
    accessors declared in the missing headers.  The base class returns its
    [targets] and [controls] members; a Measure answers with its measured
    qubits ("Measure pairs target qubits 1:1 with classical bit indices");
    a classic-controlled operation answers for the operation it wraps
    ("pushes onto the control/target qubits of its wrapped Standard
    operation"). *)
Fixpoint getTargets (o : Operation) : Targets :=
  match o with
  | NonUnitaryOperation b _ qs _ =>
      if decide (type b = OpType.Measure) then qs else targets b
  | ClassicControlledOperation _ op _ _ => getTargets op
  | _ => targets (base o)
  end.

Fixpoint getControls (o : Operation) : Controls :=
  match o with
  | ClassicControlledOperation _ op _ _ => getControls op
  | _ => controls (base o)
  end.

Definition getNcontrols (o : Operation) : nat := length (getControls o).
Definition getNtargets (o : Operation) : nat := length (getTargets o).

(** [NonUnitaryOperation::actsOn] (lines 236-243). *)
Definition NonUnitaryOperation_actsOn (ty : OpType.t) (qubits targets : list Qubit)
    (i : Qubit) : bool :=
  if decide (ty = OpType.Measure) then
    existsb (fun q => bool_decide (q = i)) qubits
  else if decide (ty = OpType.Reset) then
    existsb (fun t => bool_decide (t = i)) targets
  else false.

(** Modelled from the spec: [actsOn] of the other kinds lives in the
    missing headers.  A gate acts on its targets and controls, a Compound
    on what one of its children acts on, a classic-controlled operation on
    what the wrapped operation acts on. *)
Fixpoint actsOn (o : Operation) (i : Qubit) : bool :=
  match o with
  | StandardOperation b =>
      existsb (fun t => bool_decide (t = i)) (targets b)
      || existsb (fun c => bool_decide (Control.qubit c = i)) (controls b)
  | CompoundOperation _ ops => existsb (fun c => actsOn c i) ops
  | NonUnitaryOperation b _ qs _ => NonUnitaryOperation_actsOn (type b) qs (targets b) i
  | ClassicControlledOperation _ op _ _ => actsOn op i
  end.

(** *** Mutators *)

Definition setGate (g : OpType.t) : Operation -> Operation :=
  with_base (fun b => mkBase g (controls b) (targets b)).
Definition clearControls : Operation -> Operation :=
  with_base (fun b => mkBase (type b) [] (targets b)).
Definition setControls (cs : Controls) : Operation -> Operation :=
  with_base (fun b => mkBase (type b) cs (targets b)).
(** Called by the passes on Standard operations only, where it overwrites
    the base member. *)
Definition setTargets (ts : Targets) : Operation -> Operation :=
  with_base (fun b => mkBase (type b) (controls b) ts).

(** The pairs (qubit, bit) a Measure records: the i-th measured qubit with
    the i-th classical bit. *)
Definition measurements (o : Operation) : list (Qubit * nat) :=
  zip (getQubits o) (getClassics o).

(** Modelled from the spec: [isUnitary] is declared in the missing headers.
    Gates are unitary, non-unitary and classic-controlled operations are
    not, a Compound is unitary when all its children are. *)
Fixpoint isUnitary (o : Operation) : bool :=
  match o with
  | StandardOperation _ => true
  | CompoundOperation _ ops => forallb isUnitary ops
  | NonUnitaryOperation _ _ _ _ => false
  | ClassicControlledOperation _ _ _ _ => false
  end.

(** *** Sets of qubits

    A [std::set<Qubit>] is kept as the strictly ascending list of its
    elements, which is the order its iteration visits them in. *)
Fixpoint set_insert (q : Qubit) (s : list Qubit) : list Qubit :=
  match s with
  | [] => [q]
  | x :: s' =>
      if decide (q < x) then q :: s
      else if decide (q = x) then s
      else x :: set_insert q s'
  end.

Definition set_insert_all (qs : list Qubit) (s : list Qubit) : list Qubit :=
  fold_left (fun acc q => set_insert q acc) qs s.

(** Modelled from the spec: [getUsedQubits] is "the union of controls and
    targets across nested structure". *)
Fixpoint getUsedQubits (o : Operation) : list Qubit :=
  match o with
  | CompoundOperation _ ops =>
      fold_left (fun acc c => set_insert_all (getUsedQubits c) acc) ops []
  | _ =>
      set_insert_all (map Control.qubit (getControls o))
        (set_insert_all (getTargets o) [])
  end.

(** ** The circuit *)

Abbreviation Permutation_ := (gmap Qubit Qubit).

Record QuantumComputation := mkQC {
  ops : list Operation;
  nqubits : nat;
  initialLayout : Permutation_;
  outputPermutation : Permutation_
}.

Definition set_ops (qc : QuantumComputation) (v : list Operation) : QuantumComputation :=
  mkQC v (nqubits qc) (initialLayout qc) (outputPermutation qc).

(** ** removeIdentities (lines 256-286) *)

(** The inner loop over the children of a Compound: a child whose type is
    [I] is erased, any other child is stepped over. *)
Fixpoint removeIdentities_children (cit : list Operation) : list Operation :=
  match cit with
  | [] => []
  | cop :: rest =>
      if decide (getType cop = OpType.I) then removeIdentities_children rest
      else cop :: removeIdentities_children rest
  end.

(** The outer loop.  The argument is the part of the vector from [it] on;
    every iteration either erases the element at [it] or steps over it, and
    the result is what the vector holds from the old [it] to its end. *)
Fixpoint removeIdentities_loop (it : list Operation) : list Operation :=
  match it with
  | [] => []
  | o :: rest =>
      if decide (getType o = OpType.I) then removeIdentities_loop rest
      else
        match o with
        | CompoundOperation b children =>
            match removeIdentities_children children with
            | [] => removeIdentities_loop rest
            | [single] => single :: removeIdentities_loop rest
            | children' => CompoundOperation b children' :: removeIdentities_loop rest
            end
        | _ => o :: removeIdentities_loop rest
        end
  end.

Definition removeIdentities (qc : QuantumComputation) : QuantumComputation :=
  set_ops qc (removeIdentities_loop (ops qc)).

(** ** The lane DAG (lines 374-426)

    [DAG] is a vector with one deque per qubit; a deque entry is a pointer
    to a slot of the operation vector, kept as the index of the slot. *)

Abbreviation DAG := (list (list nat)).

Definition highestPhysicalQubit (layout : Permutation_) : Qubit :=
  map_fold (fun q _ acc => Nat.max q acc) 0 layout.

Definition DAG_ (n : nat) : DAG := replicate n [].

(** [dag.at(q).push_back(p)] *)
Definition push_back_at {A} (dag : list (list A)) (q : Qubit) (p : A)
    : result (list (list A)) :=
  lane ← at_ dag q;
  Ok (<[q := lane ++ [p]]> dag).

Fixpoint push_back_all {A} (dag : list (list A)) (qs : list Qubit) (p : A)
    : result (list (list A)) :=
  match qs with
  | [] => Ok dag
  | q :: qs' => dag' ← push_back_at dag q p; push_back_all dag' qs' p
  end.

(** [dag.at(q).pop_back()]; popping an empty deque is undefined. *)
Definition pop_back_at (dag : DAG) (q : Qubit) : result DAG :=
  lane ← at_ dag q;
  match lane with
  | [] => Throw UndefinedBehaviour
  | _ => Ok (<[q := removelast lane]> dag)
  end.

(** [addToDag(dag, op)] where the pointer [op] is [p] and points to [o]. *)
Definition addToDag {A} (dag : list (list A)) (o : Operation) (p : A)
    : result (list (list A)) :=
  dag' ← push_back_all dag (map Control.qubit (getControls o)) p;
  push_back_all dag' (getTargets o) p.

Definition addNonStandardOperationToDag (dag : DAG) (gate : Operation) (p : nat)
    : result DAG :=
  match gate with
  | CompoundOperation _ _ => push_back_all dag (getUsedQubits gate) p
  | NonUnitaryOperation _ _ _ _ => push_back_all dag (getTargets gate) p
  | ClassicControlledOperation _ cop _ _ =>
      dag' ← push_back_all dag (map Control.qubit (getControls cop)) p;
      push_back_all dag' (getTargets cop) p
  | StandardOperation _ => Throw (QFRException UnexpectedOperation)
  end.

(** The body of the loop of [constructDAG] for the slot [p]. *)
Definition constructDAG_step (v : list Operation) (dag : DAG) (p : nat) : result DAG :=
  it ← subscript v p;
  if negb (isStandardOperation it) then addNonStandardOperationToDag dag it p
  else addToDag dag it p.

Fixpoint for_each {S : Type} (f : S -> nat -> result S) (s : S) (ps : list nat)
    : result S :=
  match ps with
  | [] => Ok s
  | p :: ps' => s' ← f s p; for_each f s' ps'
  end.

Definition constructDAG (qc : QuantumComputation) : result DAG :=
  for_each (constructDAG_step (ops qc))
    (DAG_ (highestPhysicalQubit (initialLayout qc) + 1))
    (seq 0 (length (ops qc))).

(** ** swapReconstruction (lines 288-372) *)

(** "Operation is a CNOT": type [X], one control, and that control
    positive.  The control's polarity is looked at only when there is
    exactly one control. *)
Definition isCNOT (o : Operation) : bool :=
  bool_decide (getType o = OpType.X) &&
  match getControls o with
  | [c] => bool_decide (Control.type c = Control.Pos)
  | _ => false
  end.

(** [getControls().begin()->qubit] *)
Definition firstControl (o : Operation) : result Qubit :=
  match getControls o with
  | c :: _ => Ok (Control.qubit c)
  | [] => Throw UndefinedBehaviour
  end.

(** Overwrites the slot [p] of the vector with [f] of its content. *)
Definition update_slot (v : list Operation) (p : nat) (f : Operation -> Operation)
    : list Operation :=
  alter f p v.

Definition swapReconstruction_step (st : list Operation * DAG) (p : nat)
    : result (list Operation * DAG) :=
  let '(v, dag) := st in
  it ← subscript v p;
  let keep := (dag' ← addToDag dag it p; Ok (v, dag')) in
  if negb (isStandardOperation it) then
    dag' ← addNonStandardOperationToDag dag it p; Ok (v, dag')
  else if negb (isCNOT it) then keep
  else
    control ← firstControl it;
    target ← at_ (getTargets it) 0;
    laneC ← at_ dag control;
    laneT ← at_ dag target;
    match last laneC, last laneT with
    | Some opC, Some opT =>
        oC ← subscript v opC;
        oT ← subscript v opT;
        if negb (isCNOT oC && isCNOT oT) then keep
        else
          opCcontrol ← firstControl oC;
          opCtarget ← at_ (getTargets oC) 0;
          opTcontrol ← firstControl oT;
          opTtarget ← at_ (getTargets oT) 0;
          if negb (bool_decide (opCcontrol = opTcontrol)
                   && bool_decide (opCtarget = opTtarget)) then keep
          else if bool_decide (control = opCcontrol)
                  && bool_decide (target = opCtarget) then
            (* elimination *)
            dag1 ← pop_back_at dag control;
            dag2 ← pop_back_at dag1 target;
            let v1 := update_slot v opC (fun o => clearControls (setGate OpType.I o)) in
            let v2 := update_slot v1 p (fun o => clearControls (setGate OpType.I o)) in
            Ok (v2, dag2)
          else if bool_decide (control = opCtarget)
                  && bool_decide (target = opCcontrol) then
            dag1 ← pop_back_at dag control;
            dag2 ← pop_back_at dag1 target;
            (* replace with SWAP + CNOT *)
            let ts := if decide (control < target) then [control; target]
                      else [target; control] in
            let v1 := update_slot v opC
                        (fun o => clearControls (setTargets ts (setGate OpType.SWAP o))) in
            oC' ← subscript v1 opC;
            dag3 ← addToDag dag2 oC' opC;
            let v2 := update_slot v1 p
                        (fun o => setControls [Control_ target] (setTargets [control] o)) in
            it' ← subscript v2 p;
            dag4 ← addToDag dag3 it' p;
            Ok (v2, dag4)
          else keep
    | _, _ => keep   (* first operation on one of the two lanes *)
    end.

Definition swapReconstruction (qc : QuantumComputation) : result QuantumComputation :=
  '(v, _) ← for_each swapReconstruction_step
             (ops qc, DAG_ (highestPhysicalQubit (initialLayout qc) + 1))
             (seq 0 (length (ops qc)));
  Ok (removeIdentities (set_ops qc v)).

(** ** decomposeSWAP (lines 840-902) *)

Definition isSWAPgate (o : Operation) : bool :=
  isStandardOperation o && bool_decide (getType o = OpType.SWAP).

(** [targets[0]] and [targets[1]] of the SWAP; the accesses are unchecked. *)
Definition SWAP_targets (o : Operation) : result (Qubit * Qubit) :=
  t0 ← subscript (getTargets o) 0;
  t1 ← subscript (getTargets o) 1;
  Ok (t0, t1).

(** [it = v.insert(it, x)]: [x] goes in front of the element at [it], and
    [it] then points to [x].  The argument is the vector from [it] on. *)
Definition insert_at_it (x : Operation) (it : list Operation) : list Operation :=
  x :: it.

(** The inserts that follow the erase of a SWAP, in the order the source
    makes them; [it] is the vector from the erased position on. *)
Definition insert_decomposition (isDirectedArchitecture : bool) (t0 t1 : Qubit)
    (it : list Operation) : list Operation :=
  let it := insert_at_it (StandardC (Control_ t0) t1 OpType.X) it in
  let it :=
    if isDirectedArchitecture then
      let it := insert_at_it (Standard1 t0 OpType.H) it in
      let it := insert_at_it (Standard1 t1 OpType.H) it in
      let it := insert_at_it (StandardC (Control_ t0) t1 OpType.X) it in
      let it := insert_at_it (Standard1 t0 OpType.H) it in
      insert_at_it (Standard1 t1 OpType.H) it
    else
      insert_at_it (StandardC (Control_ t1) t0 OpType.X) it in
  insert_at_it (StandardC (Control_ t0) t1 OpType.X) it.

(** What bounds the remaining iterations: a SWAP costs its own visit plus
    the visits of the operations that replace it. *)
Definition swap_budget (isDirectedArchitecture : bool) (it : list Operation) : nat :=
  sum_list (map (fun o => if isSWAPgate o then 8 else 1) it).

(** The loop over the children of a Compound.  The argument is the child
    vector from [cit] on, the result what it holds from there on at the
    end. *)
Equations? decomposeSWAP_children (isDirectedArchitecture : bool)
    (cit : list Operation) : result (list Operation)
    by wf (swap_budget isDirectedArchitecture cit) lt :=
  decomposeSWAP_children d [] := Ok [];
  decomposeSWAP_children d (c :: rest) with inspect (isSWAPgate c) := {
    | exist _ true Hsw with SWAP_targets c := {
        | Throw e := Throw e
        | Ok t := decomposeSWAP_children d (insert_decomposition d (fst t) (snd t) rest) }
    | exist _ false Hsw := rest' ← decomposeSWAP_children d rest; Ok (c :: rest') }.
Proof.
  all: unfold swap_budget, insert_decomposition, insert_at_it; simpl.
  - rewrite Hsw. destruct d; simpl; lia.
  - rewrite Hsw. lia.
Qed.

(** The loop over the operation vector. *)
Equations? decomposeSWAP_loop (isDirectedArchitecture : bool)
    (it : list Operation) : result (list Operation)
    by wf (swap_budget isDirectedArchitecture it) lt :=
  decomposeSWAP_loop d [] := Ok [];
  decomposeSWAP_loop d (o :: rest) with inspect (isSWAPgate o) := {
    | exist _ true Hsw with SWAP_targets o := {
        | Throw e := Throw e
        | Ok t := decomposeSWAP_loop d (insert_decomposition d (fst t) (snd t) rest) }
    | exist _ false Hsw with o := {
        | CompoundOperation b children :=
            children' ← decomposeSWAP_children d children;
            rest' ← decomposeSWAP_loop d rest;
            Ok (CompoundOperation b children' :: rest')
        | _ := rest' ← decomposeSWAP_loop d rest; Ok (o :: rest') } }.
Proof.
  all: unfold swap_budget, insert_decomposition, insert_at_it; simpl.
  all: try (rewrite Hsw; destruct d; simpl; lia).
  all: lia.
Qed.

Definition decomposeSWAP (qc : QuantumComputation) (isDirectedArchitecture : bool)
    : result QuantumComputation :=
  v ← decomposeSWAP_loop isDirectedArchitecture (ops qc);
  Ok (set_ops qc v).

(** ** isDynamicCircuit (lines 1187-1274)

    The function only reads the operations the lanes point to, and never
    compares two lane entries, so a lane entry, a pointer to an operation,
    is kept as the operation it points to. *)

Abbreviation OpLanes := (list (list Operation)).






(** ** reorderOperations (lines 1279-1366)

    The pass moves operations out of the vector, so a slot holds either an
    operation or the null pointer a move leaves behind.  A lane iterator is
    a position in its lane. *)

Record Reorder := mkReorder {
  slots : list (option Operation);
  dagIterators : list nat;
  newOps : list Operation;
  moved : bool                     (* an operation was moved in this sweep *)
}.

(** The check "all qubits the gate acts on are at this operation", for the
    qubits [qbs] still to visit; it yields [executable]. *)
Fixpoint reorder_executable (dag : DAG) (iters : list nat) (o : Operation)
    (q p : nat) (qbs : list nat) : result bool :=
  match qbs with
  | [] => Ok true
  | qb :: rest =>
      if negb (bool_decide (qb = q)) && actsOn o qb then
        it_qb ← at_ iters qb;
        lane ← at_ dag qb;
        p' ← subscript lane it_qb;
        if negb (bool_decide (p' = p)) then Ok false
        else reorder_executable dag iters o q p rest
      else reorder_executable dag iters o q p rest
  end.

(** The vector [actsOn] at the end of the check, for an executable gate. *)
Definition reorder_actsOn (n : nat) (o : Operation) (q : nat) : list bool :=
  map (fun i => bool_decide (i = q) || actsOn o i) (seq 0 n).

(** [++dagIterators.at(i)] for every [i] with [actsOn[i]]. *)
Definition reorder_advance (acts : list bool) (iters : list nat) : list nat :=
  zip_with (fun (a : bool) it => if a then it + 1 else it) acts iters.

(** The body of the loop over the qubits; [done] is the flag of the
    enclosing loop. *)
Definition reorder_qubit (dag : DAG) (st : Reorder * bool) (q : nat)
    : result (Reorder * bool) :=
  let '(r, done) := st in
  it ← at_ (dagIterators r) q;
  lane ← at_ dag q;
  if bool_decide (it = length lane) then Ok (r, done)
  else
    p ← subscript lane it;
    slot ← subscript (slots r) p;
    match slot with
    | None => Throw UndefinedBehaviour
    | Some o =>
        executable ← reorder_executable dag (dagIterators r) o q p
                        (rev (seq 0 (length dag)));
        if negb executable then Ok (r, false)
        else
          Ok (mkReorder (<[p := None]> (slots r))
                (reorder_advance (reorder_actsOn (length dag) o q) (dagIterators r))
                (newOps r ++ [o]) true,
              false)
    end.

(** The outer loop.  A sweep that leaves [done] false without moving an
    operation is repeated unchanged for ever. *)
Fixpoint reorder_while (fuel : nat) (dag : DAG) (r : Reorder) : result Reorder :=
  match fuel with
  | 0 => Throw FuelExhausted
  | S fuel' =>
      '(r', done) ← for_each (reorder_qubit dag)
                      (mkReorder (slots r) (dagIterators r) (newOps r) false, true)
                      (rev (seq 0 (length dag)));
      if done : bool then Ok r'
      else if negb (moved r') then Throw NonTermination
      else reorder_while fuel' dag r'
  end.

Definition reorderOperations (qc : QuantumComputation) : result QuantumComputation :=
  dag ← constructDAG qc;
  r ← reorder_while (S (length (ops qc))) dag
        (mkReorder (map Some (ops qc)) (replicate (length dag) 0) [] false);
  Ok (set_ops qc (newOps r)).

(** ** deferMeasurements (lines 1006-1185) *)

(** [v.erase(it)] and [v.insert(it, x)] on positions; both return the
    position they were given. *)
Definition erase {A} (v : list A) (it : nat) : list A := delete it v.
Definition insert_before {A} (v : list A) (it : nat) (x : A) : list A :=
  take it v ++ x :: drop it v.

(** Modelled from the spec: the order of a [Controls] set is fixed by a
    comparison of the missing headers; controls are ordered by qubit, a
    negative control before a positive one on the same qubit.
    [controls.emplace(q, t)] adds the control unless it is already there. *)
Definition Control_lt (a b : Control.t) : bool :=
  bool_decide (Control.qubit a < Control.qubit b)
  || (bool_decide (Control.qubit a = Control.qubit b)
      && bool_decide (Control.type a = Control.Neg)
      && bool_decide (Control.type b = Control.Pos)).

Fixpoint Controls_emplace (c : Control.t) (cs : Controls) : Controls :=
  match cs with
  | [] => [c]
  | x :: cs' =>
      if Control_lt c x then c :: cs
      else if Control_lt x c then x :: Controls_emplace c cs'
      else cs
  end.

Definition is_dynamic_cast_NonUnitary (o : Operation) : bool :=
  match o with NonUnitaryOperation _ _ _ _ => true | _ => false end.

(** The type of [qubitsToAddMeasurements]. *)
Abbreviation MeasureMap := (gmap Qubit nat).

Section DeferMeasurements.

(** [QuantumComputation::initializeIOMapping] belongs to the circuit
    container, which is not part of the sources at hand. *)
Variable initializeIOMapping : QuantumComputation -> QuantumComputation.

(** The order in which a range-based loop visits the entries of
    [qubitsToAddMeasurements], which is left to the implementation of
    [std::unordered_map]. *)
Variable measurement_order : MeasureMap -> list (Qubit * nat).

(** Modelled from the spec: [qc.measure(qubit, clbit)] appends "one fresh
    trailing Measure" of that qubit into that bit. *)
Definition measure (qc : QuantumComputation) (qubit : Qubit) (clbit : nat)
    : QuantumComputation :=
  set_ops qc (ops qc ++ [NonUnitaryOperation_measure1 (nqubits qc) qubit clbit]).

(** The rewrite of a classic-controlled operation found at [opIt]; the
    result is the vector and the new [it], [opIt], [currentInsertionPoint]. *)
Definition defer_rewrite (v : list Operation) (it opIt currentInsertionPoint : nat)
    (measurementQubit : Qubit) (expectedValue : nat) (standardOp : Operation)
    : result (list Operation * nat * nat * nat) :=
  let type_ := getType standardOp in
  let targs := getTargets standardOp in
  if existsb (fun target => bool_decide (target = measurementQubit)) targs then
    Throw (QFRException DeferImplicitReset)
  else
    let controlType := if decide (expectedValue = 1) then Control.Pos else Control.Neg in
    let controls := Controls_emplace (Control.mk measurementQubit controlType)
                      (getControls standardOp) in
    let itInvalidated := bool_decide (opIt ≤ it) in
    let insertionPointInvalidated := bool_decide (opIt ≤ currentInsertionPoint) in
    let v := erase v opIt in
    let it := if itInvalidated then opIt else it in
    let currentInsertionPoint :=
      if insertionPointInvalidated then opIt else currentInsertionPoint in
    let itInvalidated := bool_decide (currentInsertionPoint ≤ it) in
    let v := insert_before v currentInsertionPoint (StandardN controls targs type_) in
    let it := if itInvalidated then currentInsertionPoint else it in
    let currentInsertionPoint := currentInsertionPoint + 1 in
    Ok (v, it, currentInsertionPoint, currentInsertionPoint).

(** The scan over the operations that follow an erased measurement.  An
    operation that is neither unitary, nor a Reset, nor a Measure, nor
    classic-controlled leaves every iterator where it is, and the loop
    never ends. *)
Fixpoint defer_scan (fuel : nat) (targets : list Qubit) (classics : list nat)
    (measurementQubit : Qubit) (measurementBit : nat)
    (v : list Operation) (it opIt currentInsertionPoint : nat)
    : result (list Operation * nat) :=
  match fuel with
  | 0 => Throw FuelExhausted
  | S fuel' =>
      let continue_ v it opIt cip :=
        defer_scan fuel' targets classics measurementQubit measurementBit v it opIt cip in
      if bool_decide (opIt = length v) then Ok (v, it)
      else
        operation ← subscript v opIt;
        if isUnitary operation then
          continue_ v it (opIt + 1)
            (if actsOn operation measurementQubit then currentInsertionPoint
             else currentInsertionPoint + 1)
        else if decide (getType operation = OpType.Reset) then
          Throw (QFRException DeferReset)
        else if is_dynamic_cast_NonUnitary operation
                && bool_decide (getType operation = OpType.Measure) then
          if bool_decide (targets = getTargets operation)
             && bool_decide (classics = getClassics operation)
          then Ok (v, it)
          else continue_ v it (opIt + 1) (currentInsertionPoint + 1)
        else
          match operation with
          | ClassicControlledOperation _ wrapped controlRegister expectedValue =>
              if negb (bool_decide (controlRegister.2 = 1))
                 && bool_decide (expectedValue ≤ 1) then
                Throw (QFRException DeferMultiBitClassic)
              else if bool_decide (controlRegister.1 = measurementBit) then
                match wrapped with
                | StandardOperation _ =>
                    '(v', it', opIt', cip') ←
                      defer_rewrite v it opIt currentInsertionPoint
                        measurementQubit expectedValue wrapped;
                    continue_ v' it' opIt' cip'
                | _ => Throw (QFRException DeferNotStandard)
                end
              else
                continue_ v it (opIt + 1)
                  (if actsOn operation measurementQubit then currentInsertionPoint
                   else currentInsertionPoint + 1)
          | _ => Throw NonTermination
          end
  end.

(** The loop over the operation vector. *)
Fixpoint defer_loop (fuel : nat) (v : list Operation) (it : nat)
    (qubitsToAddMeasurements : MeasureMap) : result (list Operation * MeasureMap) :=
  match fuel with
  | 0 => Throw FuelExhausted
  | S fuel' =>
      if bool_decide (it = length v) then Ok (v, qubitsToAddMeasurements)
      else
        o ← subscript v it;
        if is_dynamic_cast_NonUnitary o && bool_decide (getType o = OpType.Measure) then
          let targets := getTargets o in
          let classics := getClassics o in
          if negb (bool_decide (length targets = 1))
             && negb (bool_decide (length classics = 1)) then
            Throw (QFRException DeferMultiTargetMeasure)
          else if bool_decide (it + 1 = length v) then
            (* the last operation: nothing has to be done *)
            Ok (v, qubitsToAddMeasurements)
          else
            measurementQubit ← subscript targets 0;
            measurementBit ← subscript classics 0;
            let qubitsToAddMeasurements :=
              <[measurementQubit := measurementBit]> qubitsToAddMeasurements in
            let v := erase v it in
            '(v', it') ← defer_scan (S (length v) * S (length v)) targets classics
                           measurementQubit measurementBit v it it it;
            defer_loop fuel' v' (it' + 1) qubitsToAddMeasurements
        else defer_loop fuel' v (it + 1) qubitsToAddMeasurements
  end.

(** The trailing measurements are appended in the order in which the
    iteration visits the entries of the map. *)
Definition deferMeasurements (qc : QuantumComputation) : result QuantumComputation :=
  '(v, qubitsToAddMeasurements) ← defer_loop (S (length (ops qc))) (ops qc) 0 ∅;
  let qc := set_ops qc v in
  if bool_decide (qubitsToAddMeasurements = ∅) then Ok qc
  else
    let qc := mkQC (ops qc) (nqubits qc) (initialLayout qc) ∅ in
    let qc := fold_left (fun qc '(qubit, clbit) => measure qc qubit clbit)
                (measurement_order qubitsToAddMeasurements) qc in
    Ok (initializeIOMapping qc).

End DeferMeasurements.

(** ** collectBlocks and its disjoint-set union (lines 1740-1997) *)

(** The four maps of [DSU].  The member [maxBlockSize] is never read. *)
Record DSU := mkDSU {
  parent : gmap Qubit Qubit;
  bitBlocks : gmap Qubit (list Qubit);
  currentBlockInCircuit : gmap Qubit (option nat);
  currentBlockOperations : gmap Qubit (list Operation)
}.

(** [m[q]] on the three maps of block data; a key that is read has been
    entered by [findBlock] before. *)
Definition bitBlocks_at (dsu : DSU) (q : Qubit) : list Qubit :=
  default [] (bitBlocks dsu !! q).
Definition currentBlockInCircuit_at (dsu : DSU) (q : Qubit) : option nat :=
  default None (currentBlockInCircuit dsu !! q).
Definition currentBlockOperations_at (dsu : DSU) (q : Qubit) : list Operation :=
  default [] (currentBlockOperations dsu !! q).

Definition set_parent (dsu : DSU) (q p : Qubit) : DSU :=
  mkDSU (<[q := p]> (parent dsu)) (bitBlocks dsu) (currentBlockInCircuit dsu)
    (currentBlockOperations dsu).
Definition set_bitBlocks (dsu : DSU) (q : Qubit) (b : list Qubit) : DSU :=
  mkDSU (parent dsu) (<[q := b]> (bitBlocks dsu)) (currentBlockInCircuit dsu)
    (currentBlockOperations dsu).
Definition set_currentBlockInCircuit (dsu : DSU) (q : Qubit) (a : option nat) : DSU :=
  mkDSU (parent dsu) (bitBlocks dsu) (<[q := a]> (currentBlockInCircuit dsu))
    (currentBlockOperations dsu).
Definition set_currentBlockOperations (dsu : DSU) (q : Qubit) (b : list Operation) : DSU :=
  mkDSU (parent dsu) (bitBlocks dsu) (currentBlockInCircuit dsu)
    (<[q := b]> (currentBlockOperations dsu)).

(** A qubit becomes a block of its own, with no operations and no place in
    the circuit. *)
Definition singleton_block (dsu : DSU) (i : Qubit) : DSU :=
  set_currentBlockOperations
    (set_currentBlockInCircuit (set_bitBlocks (set_parent dsu i i) i [i]) i None)
    i [].

(** [DSU::findBlock], with path compression.  The recursion follows the
    parent chain; the budget stops a chain that never reaches a root. *)
Fixpoint findBlock (fuel : nat) (dsu : DSU) (index : Qubit) : result (DSU * Qubit) :=
  match fuel with
  | 0 => Throw FuelExhausted
  | S fuel' =>
      let dsu := if decide (parent dsu !! index = None)
                 then singleton_block dsu index else dsu in
      match parent dsu !! index with
      | None => Throw UndefinedBehaviour
      | Some p =>
          if decide (p = index) then Ok (dsu, index)
          else
            '(dsu', r) ← findBlock fuel' dsu p;
            Ok (set_parent dsu' index r, r)
      end
  end.

(** The budget given to [findBlock]: a chain without a cycle visits every
    key at most once. *)
Definition find_fuel (dsu : DSU) : nat := S (S (size (parent dsu))).

Definition find (dsu : DSU) (index : Qubit) : result (DSU * Qubit) :=
  findBlock (find_fuel dsu) dsu index.

(** [DSU::blockEmpty]. *)
Definition blockEmpty (dsu : DSU) (index : Qubit) : result (DSU * bool) :=
  '(dsu', block) ← find dsu index;
  Ok (dsu', bool_decide (currentBlockInCircuit_at dsu' block = None)).

(** The state of the pass: the operation vector, whose slots are null after
    a move, and the DSU.  [finalized] is a history variable: it lists the
    operations [finalizeBlock] has written back, in order, and is read by
    nothing. *)
Record Collect := mkCollect {
  circuit_slots : list (option Operation);
  dsu : DSU;
  finalized : list Operation
}.

Definition set_dsu (st : Collect) (d : DSU) : Collect :=
  mkCollect (circuit_slots st) d (finalized st).

(** A write through a pointer to a slot of the vector. *)
Definition write_slot (slots : list (option Operation)) (a : nat) (o : Operation)
    : result (list (option Operation)) :=
  if decide (a < length slots) then Ok (<[a := Some o]> slots)
  else Throw UndefinedBehaviour.

(** Modelled from the spec: [CompoundOperation::merge] appends the children
    of the other Compound. *)
Definition merge (ops1 ops2 : list Operation) : list Operation := ops1 ++ ops2.

(** [DSU::unionBlock]. *)
Definition unionBlock (st : Collect) (block1 block2 : Qubit) : result Collect :=
  '(d, parent1) ← find (dsu st) block1;
  '(d, parent2) ← find d block2;
  if decide (parent1 = parent2) then Ok (set_dsu st d)
  else
    let '(parent1, parent2) :=
      if decide (length (currentBlockOperations_at d parent1)
                 < length (currentBlockOperations_at d parent2))
      then (parent2, parent1) else (parent1, parent2) in
    let d := set_parent d parent2 parent1 in
    let d := set_currentBlockOperations d parent1
               (merge (currentBlockOperations_at d parent1)
                      (currentBlockOperations_at d parent2)) in
    let d := set_bitBlocks d parent1
               (bitBlocks_at d parent1 ++ bitBlocks_at d parent2) in
    slots ← match currentBlockInCircuit_at d parent2 with
            | Some a => write_slot (circuit_slots st) a (Standard1 0 OpType.I)
            | None => Ok (circuit_slots st)
            end;
    let d := set_currentBlockInCircuit d parent2 None in
    let d := set_currentBlockOperations d parent2 [] in
    let d := set_bitBlocks d parent2 [] in
    Ok (mkCollect slots d (finalized st)).

(** Modelled from the spec: a block body "degrades to a single operation
    when representable": it holds one operation, which is not a Compound or
    is a Compound that degrades itself. *)
Fixpoint collapseToSingleOperation (o : Operation) : option Operation :=
  match o with
  | CompoundOperation _ [c] => collapseToSingleOperation c
  | CompoundOperation _ _ => None
  | _ => Some o
  end.

(** What [finalizeBlock] writes back for the body of a block. *)
Definition written_back (body : list Operation) : Operation :=
  match collapseToSingleOperation (Compound_ body) with
  | Some single => single
  | None => Compound_ body
  end.

(** [DSU::finalizeBlock].  The last loop visits the members the block has
    on entry, each once: the round of the member [block] overwrites the
    vector the loop walks with [{block}], which changes its first cell and
    its length only, and the loop goes on to the end it read at its start. *)
Definition finalizeBlock (st : Collect) (index : Qubit) : result Collect :=
  '(d, block) ← find (dsu st) index;
  match currentBlockInCircuit_at d block with
  | None => Ok (set_dsu st d)
  | Some a =>
      let o := written_back (currentBlockOperations_at d block) in
      slots ← write_slot (circuit_slots st) a o;
      Ok (mkCollect slots
            (fold_left singleton_block (bitBlocks_at d block) d)
            (finalized st ++ [o]))
  end.

Section CollectBlocks.

Variable initializeIOMapping : QuantumComputation -> QuantumComputation.

(** The order in which [deferMeasurements] visits the entries of its
    [std::unordered_map]. *)
Variable measurement_order : MeasureMap -> list (Qubit * nat).

(** The entries of a [std::unordered_map<Qubit, std::size_t>], copied to a
    vector and put through [std::sort] with the comparison
    [a.second > b.second].  The sizes are kept in [Z]: the entries of
    [savings] are decremented, and a [std::size_t] that went below zero is
    the negative number its cast to [std::int64_t] reads. *)
Variable sort_descending : list (Qubit * Z) -> list (Qubit * Z).

(** The order in which a range-based loop visits the keys of [dsu.parent],
    which is left to the implementation of [std::unordered_map]. *)
Variable iteration_order : gmap Qubit Qubit -> list Qubit.

(** [static_cast<Qubit>(-1)], the largest value of the unsigned type
    [Qubit], whose width is fixed by a header that is not at hand. *)
Variable minus_one : Qubit.

Variable maxBlockSize : nat.

(** [findBlock] for every qubit of a list. *)
Fixpoint find_all (d : DSU) (qs : list Qubit) : result (DSU * list Qubit) :=
  match qs with
  | [] => Ok (d, [])
  | q :: qs' =>
      '(d', b) ← find d q;
      '(d'', bs) ← find_all d' qs';
      Ok (d'', b :: bs)
  end.

Fixpoint finalize_all (st : Collect) (qs : list Qubit) : result Collect :=
  match qs with
  | [] => Ok st
  | q :: qs' => st' ← finalizeBlock st q; finalize_all st' qs'
  end.

(** The map [blocksAndSizes], as the list of its entries in the order they
    are entered. *)
Fixpoint blocksAndSizes (d : DSU) (usedQubits : list Qubit)
    (entries : list (Qubit * Z)) : result (DSU * list (Qubit * Z)) :=
  match usedQubits with
  | [] => Ok (d, entries)
  | q :: qs =>
      '(d, block) ← find d q;
      '(d, empty) ← blockEmpty d block;
      if (empty : bool) || bool_decide (block ∈ map fst entries) then
        blocksAndSizes d qs entries
      else
        blocksAndSizes d qs
          (entries ++ [(block, Z.of_nat (length (bitBlocks_at d block)))])
  end.

(** The loop "fill up with as many blocks as possible": [nexts] is the
    vector from [nextIt] on; the result holds what is left of it. *)
Fixpoint fill_up (st : Collect) (block : Qubit) (size : Z)
    (nexts : list (Qubit * Z)) : result (Collect * list (Qubit * Z)) :=
  match nexts with
  | [] => Ok (st, [])
  | (nextBlock, nextSize) :: rest =>
      if decide (size < Z.of_nat maxBlockSize)%Z then
        if decide (size + nextSize ≤ Z.of_nat maxBlockSize)%Z then
          st' ← unionBlock st block nextBlock;
          fill_up st' block (size + nextSize)%Z rest
        else
          '(st', rest') ← fill_up st block size rest;
          Ok (st', (nextBlock, nextSize) :: rest')
      else Ok (st, nexts)
  end.

(** The loop over [sortedBlocks]; every round takes the entry at [it], so
    the length of the vector is a budget that is never used up. *)
Fixpoint combine_blocks (fuel : nat) (st : Collect) (sortedBlocks : list (Qubit * Z))
    : result Collect :=
  match sortedBlocks with
  | [] => Ok st
  | (block, size) :: rest =>
      match fuel with
      | 0 => Throw FuelExhausted
      | S fuel' =>
          if decide (size = Z.of_nat maxBlockSize) then
            st' ← finalizeBlock st block;
            combine_blocks fuel' st' rest
          else
            '(st', rest') ← fill_up st block size rest;
            st'' ← finalizeBlock st' block;
            combine_blocks fuel' st'' rest'
      end
  end.

(** [savings[block] -= 1] *)
Fixpoint decrement (block : Qubit) (savings : list (Qubit * Z)) : list (Qubit * Z) :=
  match savings with
  | [] => []
  | (b, s) :: rest =>
      if decide (b = block) then (b, s - 1)%Z :: rest
      else (b, s) :: decrement block rest
  end.

(** The map [savings], as the list of its entries in the order they are
    entered, and [totalSize]. *)
Fixpoint savings_of (d : DSU) (usedQubits : list Qubit)
    (savings : list (Qubit * Z)) (totalSize : nat)
    : result (DSU * list (Qubit * Z) * nat) :=
  match usedQubits with
  | [] => Ok (d, savings, totalSize)
  | q :: qs =>
      '(d, block) ← find d q;
      if bool_decide (block ∈ map fst savings) then
        savings_of d qs (decrement block savings) totalSize
      else
        savings_of d qs
          (savings ++ [(block, Z.of_nat (length (bitBlocks_at d block)) - 1)%Z])
          (totalSize + length (bitBlocks_at d block))
  end.

(** The loop over [sortedSavings]. *)
Fixpoint free_space (st : Collect) (sortedSavings : list (Qubit * Z))
    (savingsNeed : Z) : result Collect :=
  match sortedSavings with
  | [] => Ok st
  | (index, saving) :: rest =>
      if decide (0 < savingsNeed)%Z then
        st' ← finalizeBlock st index;
        free_space st' rest (savingsNeed - saving)%Z
      else free_space st rest savingsNeed
  end.

(** The unions of the used qubits, each with its predecessor; [prev] is
    [None] for the value -1. *)
Fixpoint union_all (st : Collect) (prev : option Qubit) (usedQubits : list Qubit)
    : result (Collect * option Qubit) :=
  match usedQubits with
  | [] => Ok (st, prev)
  | q :: qs =>
      st' ← match prev with
            | Some p => unionBlock st p q
            | None => Ok st
            end;
      union_all st' (Some q) qs
  end.

(** The body of the loop over the circuit; the result holds the iterator
    after its increment. *)
Definition collect_step (st : Collect) (opIt : nat) : result (Collect * nat) :=
  slot ← subscript (circuit_slots st) opIt;
  match slot with
  | None => Throw UndefinedBehaviour
  | Some op =>
      let canProcess := isUnitary op in
      let usedQubits := getUsedQubits op in
      '(st, makesTooBig) ←
        (if canProcess then
           '(d, blocks) ← find_all (dsu st) usedQubits;
           let blockQubits := remove_dups blocks in
           let totalSize := sum_list (map (fun q => length (bitBlocks_at d q)) blockQubits) in
           Ok (set_dsu st d, bool_decide (maxBlockSize < totalSize))
         else
           st' ← finalize_all st usedQubits; Ok (st', false));
      st ← (if makesTooBig : bool then
              if decide (maxBlockSize < length usedQubits) then
                '(d, entries) ← blocksAndSizes (dsu st) usedQubits [];
                let sortedBlocks := sort_descending entries in
                combine_blocks (length sortedBlocks) (set_dsu st d) sortedBlocks
              else
                '(d, savings, totalSize) ← savings_of (dsu st) usedQubits [] 0;
                free_space (set_dsu st d) (sort_descending savings)
                  (Z.of_nat totalSize - Z.of_nat maxBlockSize)%Z
            else Ok st);
      if canProcess then
        if decide (maxBlockSize < length usedQubits) then Ok (st, opIt + 1)
        else
          '(st, prev) ← union_all st None usedQubits;
          '(d, block) ← find (dsu st) (default minus_one prev);
          '(d, empty) ← blockEmpty d block;
          let d := if empty : bool then set_currentBlockInCircuit d block (Some opIt)
                   else d in
          let d := set_currentBlockOperations d block
                     (currentBlockOperations_at d block ++ [op]) in
          let slots := <[opIt := None]> (circuit_slots st) in
          if empty then Ok (mkCollect slots d (finalized st), opIt + 1)
          else
            (* the slot is erased and the iterator steps back before its increment *)
            if decide (opIt = 0) then Throw UndefinedBehaviour
            else Ok (mkCollect (erase slots opIt) d (finalized st), opIt - 1 + 1)
      else Ok (st, opIt + 1)
  end.

Fixpoint collect_loop (fuel : nat) (st : Collect) (opIt : nat) : result Collect :=
  match fuel with
  | 0 => Throw FuelExhausted
  | S fuel' =>
      if bool_decide (opIt = length (circuit_slots st)) then Ok st
      else
        '(st', opIt') ← collect_step st opIt;
        collect_loop fuel' st' opIt'
  end.

(** "finalize remaining blocks": the loop over [dsu.parent]; a round reads
    the entry as it is then. *)
Fixpoint finalize_roots (st : Collect) (keys : list Qubit) : result Collect :=
  match keys with
  | [] => Ok st
  | q :: rest =>
      if decide (parent (dsu st) !! q = Some q) then
        st' ← finalizeBlock st q; finalize_roots st' rest
      else finalize_roots st rest
  end.

(** The operations of the vector; a null slot cannot be read. *)
Fixpoint read_slots (slots : list (option Operation)) : result (list Operation) :=
  match slots with
  | [] => Ok []
  | None :: _ => Throw UndefinedBehaviour
  | Some o :: rest => v ← read_slots rest; Ok (o :: v)
  end.

(** [collectBlocks]; next to the circuit the result holds the history of the
    blocks written back. *)
Definition collectBlocks (qc : QuantumComputation)
    : result (QuantumComputation * list Operation) :=
  if decide (length (ops qc) ≤ 1) then Ok (qc, [])
  else
    qc ← reorderOperations qc;
    qc ← deferMeasurements initializeIOMapping measurement_order qc;
    st ← collect_loop (S (length (ops qc)))
           (mkCollect (map Some (ops qc)) (mkDSU ∅ ∅ ∅ ∅) []) 0;
    st ← finalize_roots st (iteration_order (parent (dsu st)));
    v ← read_slots (circuit_slots st);
    Ok (removeIdentities (set_ops qc v), finalized st).

End CollectBlocks.

(** ** flattenOperations (lines 1389-1427) *)

(** The loop of [flattenCompoundOperation] over the children of the
    Compound that [it] points to; [opIt] is the child vector from the child
    iterator on.  A child is inserted in front of the Compound, which
    moves the Compound one slot up, and [it] is stepped onto the Compound
    again.  The moved-from children stay behind as null pointers in a
    Compound that is erased right after the loop. *)
Fixpoint flattenCompoundOperation_loop (opIt : list Operation)
    (v : list Operation) (it : nat) (movedOperations : nat)
    : list Operation * nat * nat :=
  match opIt with
  | [] => (v, it, movedOperations)
  | child :: rest =>
      let v := insert_before v it child in
      flattenCompoundOperation_loop rest v (it + 1) (movedOperations + 1)
  end.

(** [flattenCompoundOperation(ops, it)] where the Compound at [it] holds
    [children]; the result is the vector and the iterator returned. *)
Definition flattenCompoundOperation (v : list Operation) (it : nat)
    (children : list Operation) : list Operation * nat :=
  let '(v, it, movedOperations) := flattenCompoundOperation_loop children v it 0 in
  let v := erase v it in
  (v, it - movedOperations).

(** The loop of [flattenOperations]; the budget bounds its iterations. *)
Fixpoint flattenOperations_loop (fuel : nat) (v : list Operation) (it : nat)
    : result (list Operation) :=
  match fuel with
  | 0 => Throw FuelExhausted
  | S fuel' =>
      if bool_decide (it = length v) then Ok v
      else
        o ← subscript v it;
        match o with
        | CompoundOperation _ children =>
            let '(v', it') := flattenCompoundOperation v it children in
            flattenOperations_loop fuel' v' it'
        | _ => flattenOperations_loop fuel' v (it + 1)
        end
  end.

(** The number of operations in the tree of [o]: every one of them is
    visited by the loop once. *)
Fixpoint nodes (o : Operation) : nat :=
  match o with
  | CompoundOperation _ children => S (sum_list (map nodes children))
  | _ => 1
  end.

Definition flattenOperations (qc : QuantumComputation) : result QuantumComputation :=
  v ← flattenOperations_loop (S (sum_list (map nodes (ops qc)))) (ops qc) 0;
  Ok (set_ops qc v).

(** ** replaceMCXWithMCZ (lines 1595-1627) *)

(** [op->getType() == qc::X && op->getNcontrols() > 0] *)
Definition isMCX (op : Operation) : bool :=
  bool_decide (getType op = OpType.X) && bool_decide (0 < getNcontrols op).

(** The array [replacementOps] built for [op]; [getTargets()[0]] is an
    unchecked access. *)
Definition replacementOps (op : Operation) : result (list Operation) :=
  let controls := getControls op in
  target ← subscript (getTargets op) 0;
  Ok [Standard1 target OpType.H;
      StandardN controls [target] OpType.Z;
      Standard1 target OpType.H].

(** One turn of the loop for the operation [op] at [it]: the result is
    what stands in the place of [op] when the loop steps on.  For a
    controlled X these are the three operations inserted in front of it
    (the X itself is erased, and [it] is set back onto the last of the
    three); for a Compound the function calls itself on the child vector,
    which is the inner [loop]. *)
Fixpoint replaceMCXWithMCZ_at (op : Operation) : result (list Operation) :=
  if isMCX op then replacementOps op
  else
    match op with
    | CompoundOperation b children =>
        children' ← (fix loop (it : list Operation) : result (list Operation) :=
                       match it with
                       | [] => Ok []
                       | c :: rest =>
                           r ← replaceMCXWithMCZ_at c;
                           rest' ← loop rest;
                           Ok (r ++ rest')
                       end) children;
        Ok [CompoundOperation b children']
    | _ => Ok [op]
    end.

(** [replaceMCXWithMCZ(ops)]: the loop over a vector. *)
Fixpoint replaceMCXWithMCZ_loop (it : list Operation) : result (list Operation) :=
  match it with
  | [] => Ok []
  | op :: rest =>
      r ← replaceMCXWithMCZ_at op;
      rest' ← replaceMCXWithMCZ_loop rest;
      Ok (r ++ rest')
  end.

Definition replaceMCXWithMCZ (qc : QuantumComputation) : result QuantumComputation :=
  v ← replaceMCXWithMCZ_loop (ops qc);
  Ok (set_ops qc v).

(** ** cancelCNOTs (lines 1429-1593) *)

(** "Operation is a SWAP": type [SWAP] and no control. *)
Definition isSWAP (o : Operation) : bool :=
  bool_decide (getType o = OpType.SWAP) && bool_decide (getNcontrols o = 0).

(** The qubit the pass calls [q1]: the second target of a SWAP, the control
    of a CNOT. *)
Definition secondQubit (isSWAP_ : bool) (o : Operation) : result Qubit :=
  if isSWAP_ then at_ (getTargets o) 1 else firstControl o.

(** [*(++lane.rbegin())], or [None] when the incremented iterator is
    [rend()]. *)
Definition secondLast (lane : list nat) : option nat := last (removelast lane).

(** [setGate(I); clearControls()] *)
Definition makeIdentity (o : Operation) : Operation := clearControls (setGate OpType.I o).

Definition cancelCNOTs_step (st : list Operation * DAG) (p : nat)
    : result (list Operation * DAG) :=
  let '(v, dag) := st in
  it ← subscript v p;
  let keep := (dag' ← addToDag dag it p; Ok (v, dag')) in
  if negb (isStandardOperation it) then
    dag' ← addNonStandardOperationToDag dag it p; Ok (v, dag')
  else
    let isCNOT_ := isCNOT it in
    let isSWAP_ := isSWAP it in
    if negb isCNOT_ && negb isSWAP_ then keep
    else
      q0 ← at_ (getTargets it) 0;
      q1 ← secondQubit isSWAP_ it;
      lane0 ← at_ dag q0;
      match last lane0 with
      | None => keep                       (* first operation *)
      | Some op0 =>
          lane1 ← at_ dag q1;
          match last lane1 with
          | None => keep                   (* first operation *)
          | Some op1 =>
              if negb (bool_decide (op0 = op1)) then keep
              else
                o0 ← subscript v op0;
                let prevOpIsCNOT := isCNOT o0 in
                let prevOpIsSWAP := isSWAP o0 in
                if negb prevOpIsCNOT && negb prevOpIsSWAP then keep
                else
                  prevQ0 ← at_ (getTargets o0) 0;
                  prevQ1 ← secondQubit prevOpIsSWAP o0;
                  if isCNOT_ && prevOpIsCNOT then
                    if bool_decide (q0 = prevQ0) && bool_decide (q1 = prevQ1) then
                      (* two identical CNOT gates cancel each other *)
                      dag1 ← pop_back_at dag q0;
                      dag2 ← pop_back_at dag1 q1;
                      let v1 := update_slot v op0 makeIdentity in
                      let v2 := update_slot v1 p makeIdentity in
                      Ok (v2, dag2)
                    else
                      (* is there a third CNOT that makes this a SWAP? *)
                      lane0 ← at_ dag q0;
                      lane1 ← at_ dag q1;
                      match secondLast lane0, secondLast lane1 with
                      | Some prevPrevOp0, Some prevPrevOp1 =>
                          if negb (bool_decide (prevPrevOp0 = prevPrevOp1)) then keep
                          else
                            oo ← subscript v prevPrevOp0;
                            if negb (isCNOT oo) then keep
                            else
                              prevPrevQ0 ← at_ (getTargets oo) 0;
                              prevPrevQ1 ← firstControl oo;
                              if bool_decide (q0 = prevPrevQ0)
                                 && bool_decide (q1 = prevPrevQ1) then
                                (* SWAP gate identified *)
                                let ts := if decide (prevQ1 < prevQ0) then [prevQ1; prevQ0]
                                          else [prevQ0; prevQ1] in
                                let v1 := update_slot v prevPrevOp0
                                            (fun o => setTargets ts
                                               (clearControls (setGate OpType.SWAP o))) in
                                let v2 := update_slot v1 op0 makeIdentity in
                                let v3 := update_slot v2 p makeIdentity in
                                dag1 ← pop_back_at dag q0;
                                dag2 ← pop_back_at dag1 q1;
                                Ok (v3, dag2)
                              else keep
                      | _, _ => keep
                      end
                  else if isSWAP_ && prevOpIsSWAP then
                    (* two identical SWAP gates cancel each other *)
                    if bool_decide (set_insert_all [q0; q1] []
                                    = set_insert_all [prevQ0; prevQ1] []) then
                      dag1 ← pop_back_at dag q0;
                      dag2 ← pop_back_at dag1 q1;
                      let v1 := update_slot v op0 makeIdentity in
                      let v2 := update_slot v1 p makeIdentity in
                      Ok (v2, dag2)
                    else keep
                  else if isCNOT_ && prevOpIsSWAP then
                    (* SWAP followed by a CNOT is equivalent to two CNOTs *)
                    let v1 := update_slot v op0
                                (fun o => setControls [Control_ q1]
                                   (setTargets [q0] (setGate OpType.X o))) in
                    let v2 := update_slot v1 p
                                (fun o => setControls [Control_ q0] (setTargets [q1] o)) in
                    it' ← subscript v2 p;
                    dag' ← addToDag dag it' p;
                    Ok (v2, dag')
                  else if isSWAP_ && prevOpIsCNOT then
                    (* CNOT followed by a SWAP is equivalent to two CNOTs *)
                    let v1 := update_slot v op0
                                (fun o => setControls [Control_ prevQ0]
                                   (setTargets [prevQ1] o)) in
                    let v2 := update_slot v1 p
                                (fun o => setControls [Control_ prevQ1]
                                   (setTargets [prevQ0] (setGate OpType.X o))) in
                    it' ← subscript v2 p;
                    dag' ← addToDag dag it' p;
                    Ok (v2, dag')
                  else Ok (v, dag)
          end
      end.

Definition cancelCNOTs (qc : QuantumComputation) : result QuantumComputation :=
  '(v, _) ← for_each cancelCNOTs_step
             (ops qc, DAG_ (highestPhysicalQubit (initialLayout qc) + 1))
             (seq 0 (length (ops qc)));
  Ok (removeIdentities (set_ops qc v)).

(** ** backpropagateOutputPermutation (lines 1629-1738) *)

(** Modelled from the spec: [isControlled] is declared in the missing
    headers; a SWAP the pass propagates is "uncontrolled", so the test holds
    when the operation has a control. *)
Definition isControlled (o : Operation) : bool :=
  negb (bool_decide (getNcontrols o = 0)).

Section Backpropagate.

(** [*s.begin()] for a non-empty [std::unordered_set]: which element comes
    first is left to the implementation. *)
Variable begin_ : gset Qubit -> Qubit.

(** The logical qubit given to the physical qubit [target]: [target]
    itself when it is still missing, else the first of the missing ones,
    which is taken from the set. *)
Definition take_missing (target : Qubit) (missingLogicalQubits : gset Qubit)
    : result (Qubit * gset Qubit) :=
  if decide (target ∈ missingLogicalQubits) then
    Ok (target, missingLogicalQubits ∖ {[target]})
  else if decide (missingLogicalQubits = ∅) then Throw UndefinedBehaviour
  else
    let first := begin_ missingLogicalQubits in
    Ok (first, missingLogicalQubits ∖ {[first]}).

(** The body of the loop for an operation that is no Compound. *)
Definition backpropagate_swap (o : Operation) (st : Permutation_ * gset Qubit)
    : result (Permutation_ * gset Qubit) :=
  let '(permutation, missingLogicalQubits) := st in
  if bool_decide (getType o = OpType.SWAP) && negb (isControlled o)
     && bool_decide (length (getTargets o) = 2) then
    t0 ← subscript (getTargets o) 0;
    t1 ← subscript (getTargets o) 1;
    match permutation !! t0, permutation !! t1 with
    | Some l0, Some l1 =>
        (* case 1: swap the entries *)
        Ok (<[t1 := l0]> (<[t0 := l1]> permutation), missingLogicalQubits)
    | Some l0, None =>
        (* case 2 *)
        let permutation := <[t1 := l0]> permutation in
        '(l, missingLogicalQubits) ← take_missing t0 missingLogicalQubits;
        Ok (<[t0 := l]> permutation, missingLogicalQubits)
    | None, Some l1 =>
        (* case 3 *)
        let permutation := <[t0 := l1]> permutation in
        '(l, missingLogicalQubits) ← take_missing t1 missingLogicalQubits;
        Ok (<[t1 := l]> permutation, missingLogicalQubits)
    | None, None => Ok st                      (* case 4: nothing to do *)
    end
  else Ok st.

(** One turn of the loop.  For a Compound the function calls itself on the
    child vector; a vector is walked from its end to its front, which is
    the recursion [loop] that handles the tail of the vector before its
    head. *)
Fixpoint backpropagate_at (o : Operation) (st : Permutation_ * gset Qubit)
    : result (Permutation_ * gset Qubit) :=
  match o with
  | CompoundOperation _ children =>
      (fix loop (v : list Operation) (st : Permutation_ * gset Qubit)
         : result (Permutation_ * gset Qubit) :=
         match v with
         | [] => Ok st
         | c :: rest => st' ← loop rest st; backpropagate_at c st'
         end) children st
  | _ => backpropagate_swap o st
  end.

(** [backpropagateOutputPermutation(ops, permutation, missingLogicalQubits)]:
    the loop over a vector, from its end to its front. *)
Fixpoint backpropagate_loop (v : list Operation) (st : Permutation_ * gset Qubit)
    : result (Permutation_ * gset Qubit) :=
  match v with
  | [] => Ok st
  | o :: rest => st' ← backpropagate_loop rest st; backpropagate_at o st'
  end.

(** The loop that fills the layout, for the physical qubits [is_]. *)
Fixpoint backpropagate_fill (is_ : list Qubit) (st : Permutation_ * gset Qubit)
    : result (Permutation_ * gset Qubit) :=
  match is_ with
  | [] => Ok st
  | i :: rest =>
      let '(permutation, missingLogicalQubits) := st in
      match permutation !! i with
      | None =>
          '(l, missingLogicalQubits) ← take_missing i missingLogicalQubits;
          backpropagate_fill rest (<[i := l]> permutation, missingLogicalQubits)
      | Some _ => backpropagate_fill rest st
      end
  end.

Definition set_initialLayout (qc : QuantumComputation) (layout : Permutation_)
    : QuantumComputation :=
  mkQC (ops qc) (nqubits qc) layout (outputPermutation qc).

(** [getNqubits()] is read as the member [nqubits]: the circuit container
    is not part of the sources at hand. *)
Definition backpropagateOutputPermutation (qc : QuantumComputation)
    : result QuantumComputation :=
  let permutation := outputPermutation qc in
  let logicalQubits : gset Qubit := map_img permutation in
  let missingLogicalQubits : gset Qubit :=
    list_to_set (filter (fun i => i ∉ logicalQubits) (seq 0 (nqubits qc))) in
  '(permutation, missingLogicalQubits) ←
    backpropagate_loop (ops qc) (permutation, missingLogicalQubits);
  if bool_decide (size permutation = nqubits qc) then
    Ok (set_initialLayout qc permutation)
  else
    '(permutation, _) ←
      backpropagate_fill (seq 0 (nqubits qc)) (permutation, missingLogicalQubits);
    Ok (set_initialLayout qc permutation).

End Backpropagate.

(** ** eliminateResets (lines 907-1004) *)

(** A [std::map<Qubit, Qubit>] is kept as the list of its entries in
    ascending order of the keys, which is the order its iteration visits
    them in. *)
Abbreviation ReplacementMap := (list (Qubit * Qubit)).

(** [m.find(k)] *)
Fixpoint map_find (m : ReplacementMap) (k : Qubit) : option Qubit :=
  match m with
  | [] => None
  | e :: m' => if decide (e.1 = k) then Some e.2 else map_find m' k
  end.

(** [it->second = v] for the entry of [k], or [m.try_emplace(k, v)] when
    there is none. *)
Fixpoint map_assign (k v : Qubit) (m : ReplacementMap) : ReplacementMap :=
  match m with
  | [] => [(k, v)]
  | e :: m' =>
      if decide (k < e.1) then (k, v) :: m
      else if decide (k = e.1) then (k, v) :: m'
      else e :: map_assign k v m'
  end.

(** [changeTargets] (lines 907-915). *)
Definition changeTargets (targets : Targets) (replacementMap : ReplacementMap)
    : Targets :=
  map (fun target =>
         match map_find replacementMap target with
         | Some newTarget => newTarget
         | None => target
         end) targets.

(** Modelled from the spec: [controls.find(q)] with a qubit as key looks
    for a control on that qubit, whatever its polarity ("controls carry
    their polarity through the rename"); the comparison is in the missing
    headers.  Of two controls on one qubit the set holds the negative one
    first, and that one is found. *)
Fixpoint Controls_find (q : Qubit) (cs : Controls) : option Control.t :=
  match cs with
  | [] => None
  | c :: cs' => if decide (Control.qubit c = q) then Some c else Controls_find q cs'
  end.

(** [controls.erase(it)] for the iterator to the element [c]. *)
Fixpoint Controls_erase (c : Control.t) (cs : Controls) : Controls :=
  match cs with
  | [] => []
  | x :: cs' => if decide (x = c) then cs' else x :: Controls_erase c cs'
  end.

(** [changeControls] (lines 917-932): the entries of the map are applied
    one after the other to the set as the earlier ones left it. *)
Definition changeControls (controls : Controls) (replacementMap : ReplacementMap)
    : Controls :=
  if bool_decide (controls = []) || bool_decide (replacementMap = []) then controls
  else
    fold_left
      (fun controls '(from, to) =>
         match Controls_find from controls with
         | Some controlIt =>
             let controlType := Control.type controlIt in
             Controls_emplace (Control.mk to controlType)
               (Controls_erase controlIt controls)
         | None => controls
         end)
      replacementMap controls.

(** Modelled from the spec: the non-const [getTargets()] and
    [getControls()] return references to what the const accessors read; a
    write through them changes the measured qubits of a Measure, the
    targets or controls of the wrapped operation of a classic-controlled
    operation, and the base members of any other operation. *)
Fixpoint updateTargets (f : Targets -> Targets) (o : Operation) : Operation :=
  match o with
  | NonUnitaryOperation b nq qs cs =>
      if decide (type b = OpType.Measure) then NonUnitaryOperation b nq (f qs) cs
      else NonUnitaryOperation (mkBase (type b) (controls b) (f (targets b))) nq qs cs
  | ClassicControlledOperation b op r e =>
      ClassicControlledOperation b (updateTargets f op) r e
  | _ => with_base (fun b => mkBase (type b) (controls b) (f (targets b))) o
  end.

Fixpoint updateControls (f : Controls -> Controls) (o : Operation) : Operation :=
  match o with
  | ClassicControlledOperation b op r e =>
      ClassicControlledOperation b (updateControls f op) r e
  | _ => with_base (fun b => mkBase (type b) (f (controls b)) (targets b)) o
  end.

(** Modelled from the spec: [getNqubits] and [addQubit] belong to the
    circuit container, which is not part of the sources at hand.  The new
    qubit is "appended to the circuit's qubit count, identity-mapped into
    both layouts". *)
Definition getNqubits (qc : QuantumComputation) : nat := nqubits qc.

Definition addQubit (qc : QuantumComputation)
    (logicalQubitIndex physicalQubitIndex outputQubitIndex : Qubit)
    : QuantumComputation :=
  mkQC (ops qc) (S (nqubits qc))
    (<[physicalQubitIndex := logicalQubitIndex]> (initialLayout qc))
    (<[physicalQubitIndex := outputQubitIndex]> (outputPermutation qc)).

(** The loop over the targets of a Reset: every target gets a fresh qubit
    and an entry in the map. *)
Definition replaceResetTargets (targets : Targets)
    (st : QuantumComputation * ReplacementMap) : QuantumComputation * ReplacementMap :=
  fold_left
    (fun '(qc, replacementMap) target =>
       let indexAddQubit := getNqubits qc in
       (addQubit qc indexAddQubit indexAddQubit indexAddQubit,
        map_assign target indexAddQubit replacementMap))
    targets st.

(** The renaming of an operation that is no Reset: targets and controls of
    a gate or a classic-controlled operation, targets of a non-unitary
    operation. *)
Definition renameQubits (replacementMap : ReplacementMap) (o : Operation) : Operation :=
  if isStandardOperation o || isClassicControlledOperation o then
    updateControls (fun controls => changeControls controls replacementMap)
      (updateTargets (fun targets => changeTargets targets replacementMap) o)
  else if isNonUnitaryOperation o then
    updateTargets (fun targets => changeTargets targets replacementMap) o
  else o.

(** The loop over the children of a Compound; the argument is the child
    vector from [compOpIt] on, the result what it holds from there on at
    the end. *)
Fixpoint eliminateResets_children (compOpIt : list Operation)
    (st : QuantumComputation * ReplacementMap)
    : list Operation * (QuantumComputation * ReplacementMap) :=
  match compOpIt with
  | [] => ([], st)
  | c :: rest =>
      if decide (getType c = OpType.Reset) then
        eliminateResets_children rest (replaceResetTargets (getTargets c) st)
      else
        let c' := renameQubits st.2 c in
        let '(rest', st') := eliminateResets_children rest st in
        (c' :: rest', st')
  end.

(** The loop over the operation vector. *)
Fixpoint eliminateResets_loop (it : list Operation)
    (st : QuantumComputation * ReplacementMap)
    : list Operation * (QuantumComputation * ReplacementMap) :=
  match it with
  | [] => ([], st)
  | o :: rest =>
      if decide (getType o = OpType.Reset) then
        eliminateResets_loop rest (replaceResetTargets (getTargets o) st)
      else if negb (bool_decide (st.2 = [])) then
        let '(o, st) :=
          match o with
          | CompoundOperation b children =>
              let '(children', st') := eliminateResets_children children st in
              (CompoundOperation b children', st')
          | _ => (o, st)
          end in
        let o' := renameQubits st.2 o in
        let '(rest', st') := eliminateResets_loop rest st in
        (o' :: rest', st')
      else
        let '(rest', st') := eliminateResets_loop rest st in
        (o :: rest', st')
  end.

Definition eliminateResets (qc : QuantumComputation) : QuantumComputation :=
  let '(v, (qc', _)) := eliminateResets_loop (ops qc) (qc, []) in
  set_ops qc' v.

(** ** NonUnitaryOperation::equals (lines 261-312) *)

(** The loop that fills a [std::set] of pairs (qubit, bit) from the two
    registers of a Measure; [qubitIt] and [classicIt] are the registers
    from the two iterators on.  The loop ends with the qubits, and reads a
    bit for every qubit.  [perm.at] checks its key. *)
Fixpoint measurements_under (perm : Permutation_)
    (qubitIt : list Qubit) (classicIt : list nat) (measurements : gset (Qubit * nat))
    : result (gset (Qubit * nat)) :=
  match qubitIt with
  | [] => Ok measurements
  | q :: qubitIt' =>
      match classicIt with
      | [] => Throw UndefinedBehaviour
      | c :: classicIt' =>
          if decide (perm = ∅) then
            measurements_under perm qubitIt' classicIt' ({[(q, c)]} ∪ measurements)
          else
            match perm !! q with
            | None => Throw out_of_range
            | Some q' =>
                measurements_under perm qubitIt' classicIt'
                  ({[(q', c)]} ∪ measurements)
            end
      end
  end.

Section Equals.

(** [Operation::equals] of the base class, which the function falls back
    on for operations that are no Measure, is in the missing headers. *)
Variable Operation_equals : Operation -> Operation -> Permutation_ -> Permutation_ -> bool.

(** [this->equals(op, perm1, perm2)] for the non-unitary operation [this]
    with the base part [b] and the registers [qubits] and [classics]. *)
Definition NonUnitaryOperation_equals (b : Base) (nq : nat)
    (qubits : list Qubit) (classics : list nat)
    (op : Operation) (perm1 perm2 : Permutation_) : result bool :=
  match op with
  | NonUnitaryOperation b2 _ qubits2 classics2 =>
      if negb (bool_decide (type b = type b2)) then Ok false
      else if decide (type b = OpType.Measure) then
        let nq1 := length qubits in
        let nq2 := length qubits2 in
        if negb (bool_decide (nq1 = nq2)) then Ok false
        else
          measurements1 ← measurements_under perm1 qubits classics ∅;
          measurements2 ← measurements_under perm2 qubits2 classics2 ∅;
          Ok (bool_decide (measurements1 = measurements2))
      else Ok (Operation_equals (NonUnitaryOperation b nq qubits classics) op perm1 perm2)
  | _ => Ok false
  end.

End Equals.

(** ** singleQubitGateFusion (lines 428-533) *)

(** [INVERSE_MAP.find(t)]; [None] is [INVERSE_MAP.end()]. *)
Definition INVERSE_MAP (t : OpType.t) : option OpType.t :=
  match t with
  | OpType.I => Some OpType.I
  | OpType.X => Some OpType.X
  | OpType.Y => Some OpType.Y
  | OpType.Z => Some OpType.Z
  | OpType.H => Some OpType.H
  | OpType.S => Some OpType.Sdg
  | OpType.Sdg => Some OpType.S
  | OpType.T => Some OpType.Tdg
  | OpType.Tdg => Some OpType.T
  | OpType.SX => Some OpType.SXdg
  | OpType.SXdg => Some OpType.SX
  | OpType.Barrier => Some OpType.Barrier
  | _ => None
  end.

(** "not a single qubit operation": the operation has a control or more
    than one target. *)
Definition notSingleQubit (o : Operation) : bool :=
  negb (bool_decide (getControls o = [])) || bool_decide (1 < length (getTargets o)).

(** The number of qubits of the DAG the operation acts on. *)
Definition involvedQubits (dag : DAG) (compop : Operation) : nat :=
  fold_left (fun n q => if actsOn compop q then S n else n) (seq 0 (length dag)) 0.

Definition singleQubitGateFusion_step (st : list Operation * DAG) (p : nat)
    : result (list Operation * DAG) :=
  let '(v, dag) := st in
  it ← subscript v p;
  let keep := (dag' ← addToDag dag it p; Ok (v, dag')) in
  if negb (isStandardOperation it) then
    dag' ← addNonStandardOperationToDag dag it p; Ok (v, dag')
  else if notSingleQubit it then keep
  else
    target ← at_ (getTargets it) 0;
    dagQubit ← at_ dag target;
    match last dagQubit with
    | None => keep                         (* first operation *)
    | Some op =>
        o ← subscript v op;
        if negb (isCompoundOperation o) && notSingleQubit o then keep
        else
          match o with
          | CompoundOperation b children =>
              if decide (1 < involvedQubits dag o) then keep
              else
                match last children with
                | None =>
                    (* the compound operation is empty *)
                    let v1 := update_slot v op (fun _ => CompoundOperation b [it]) in
                    Ok (update_slot v1 p (setGate OpType.I), dag)
                | Some lastop =>
                    if bool_decide (INVERSE_MAP (getType lastop) = Some (getType it)) then
                      let v1 := update_slot v op
                                  (fun _ => CompoundOperation b (removelast children)) in
                      Ok (update_slot v1 p (setGate OpType.I), dag)
                    else
                      let v1 := update_slot v op
                                  (fun _ => CompoundOperation b
                                     (children ++ [Standard1 target (getType it)])) in
                      Ok (update_slot v1 p (setGate OpType.I), dag)
                end
          | _ =>
              (* single qubit op *)
              if bool_decide (INVERSE_MAP (getType o) = Some (getType it)) then
                let v1 := update_slot v op (setGate OpType.I) in
                Ok (update_slot v1 p (setGate OpType.I), dag)
              else
                opTarget ← at_ (getTargets o) 0;
                let compop := Compound_ [Standard1 opTarget (getType o);
                                         Standard1 target (getType it)] in
                let v1 := update_slot v p (setGate OpType.I) in
                let v2 := update_slot v1 op (fun _ => compop) in
                dag' ← push_back_at dag target op;
                Ok (v2, dag')
          end
    end.

Definition singleQubitGateFusion (qc : QuantumComputation) : result QuantumComputation :=
  '(v, _) ← for_each singleQubitGateFusion_step
             (ops qc, DAG_ (highestPhysicalQubit (initialLayout qc) + 1))
             (seq 0 (length (ops qc)));
  Ok (removeIdentities (set_ops qc v)).

(** ** Notions used in the statements *)

(** An operation of type [I] at some nesting level of [o]: [o] itself, a
    child of [o], a child of a Compound child of [o], and so on. *)
Fixpoint containsIdentity (o : Operation) : bool :=
  bool_decide (getType o = OpType.I)
  || match o with
     | CompoundOperation _ children => existsb containsIdentity children
     | _ => false
     end.

(** No Compound of the vector has a Compound among its children. *)
Definition flat (v : list Operation) : Prop :=
  forall b children, CompoundOperation b children ∈ v ->
    forall c, c ∈ children -> isCompoundOperation c = false.

(** What [removeIdentities] leaves behind in a flat vector: operations
    that are not of type [I]; a Compound has at least two children, none of
    them of type [I] and none a Compound. *)
Definition clean (o : Operation) : Prop :=
  getType o ≠ OpType.I
  /\ match o with
     | CompoundOperation _ children =>
         2 ≤ length children
         /\ Forall (fun c => getType c ≠ OpType.I /\ isCompoundOperation c = false) children
     | _ => True
     end.

Definition X_ (t : Qubit) : Operation := Standard1 t OpType.X.
Definition H_ (t : Qubit) : Operation := Standard1 t OpType.H.
Definition I_ (t : Qubit) : Operation := Standard1 t OpType.I.
Definition CNOT (c t : Qubit) : Operation := StandardC (Control_ c) t OpType.X.
Definition SWAP_ (a b : Qubit) : Operation := StandardN [] [a; b] OpType.SWAP.

(** A circuit on [n] qubits with the identity as initial layout and output
    permutation. *)
Definition identityLayout (n : nat) : Permutation_ :=
  list_to_map (map (fun q => (q, q)) (seq 0 n)).
Definition circuit (n : nat) (v : list Operation) : QuantumComputation :=
  mkQC v n (identityLayout n) (identityLayout n).

(** The replacement of a SWAP on [(a, b)]. *)
Definition three_CNOTs (a b : Qubit) : list Operation :=
  [CNOT a b; CNOT b a; CNOT a b].

(** The two qubits of a SWAP: its first two targets. *)
Definition swapQubits (o : Operation) : Qubit * Qubit :=
  (nth 0 (getTargets o) 0, nth 1 (getTargets o) 0).

(** What becomes of a child of a Compound, and of an operation of the top
    level, when every SWAP at these two levels is replaced and everything
    else is kept. *)
Definition decomposed_child (c : Operation) : list Operation :=
  if isSWAPgate c then three_CNOTs (swapQubits c).1 (swapQubits c).2 else [c].

Definition decomposed (o : Operation) : list Operation :=
  if isSWAPgate o then three_CNOTs (swapQubits o).1 (swapQubits o).2
  else
    match o with
    | CompoundOperation b children =>
        [CompoundOperation b (flat_map decomposed_child children)]
    | _ => [o]
    end.

(** A SWAP names two qubits. *)
Definition two_targets (o : Operation) : Prop :=
  isSWAPgate o = true -> 2 ≤ length (getTargets o).

Definition swaps_two_targets (v : list Operation) : Prop :=
  forall o, o ∈ v ->
    two_targets o
    /\ forall b children, o = CompoundOperation b children ->
         forall c, c ∈ children -> two_targets c.

(** The lanes [isDynamicCircuit] pushes an operation onto: the targets of
    a non-unitary operation, the controls and then the targets of any
    other. *)
Definition laneQubits (o : Operation) : list Qubit :=
  if isNonUnitaryOperation o then getTargets o
  else map Control.qubit (getControls o) ++ getTargets o.

(** The lane entries an operation of the top level contributes, in the
    order they are pushed: its own for a gate or a non-unitary operation,
    and so for a Compound that holds a non-unitary operation; those of its
    children for any other Compound; none for a classic-controlled
    operation (the function has returned by then). *)
Definition laneEntries (o : Operation) : list (Qubit * Operation) :=
  match o with
  | CompoundOperation _ children =>
      if isNonUnitaryOperation o then map (fun q => (q, o)) (laneQubits o)
      else flat_map (fun c => map (fun q => (q, c)) (laneQubits c)) children
  | ClassicControlledOperation _ _ _ _ => []
  | _ => map (fun q => (q, o)) (laneQubits o)
  end.

(** The operations pushed onto lane [q], in order. *)
Definition entries_on {A} (q : Qubit) (es : list (Qubit * A)) : list A :=
  map snd (filter (fun e => e.1 = q) es).

(** The lane of qubit [q] in program order. *)
Definition lane (v : list Operation) (q : Qubit) : list Operation :=
  entries_on q (flat_map laneEntries v).

(** [dag] is [dag0] with the entries [es] pushed. *)
Definition filled {A} (dag0 : list (list A)) (es : list (Qubit * A))
    (dag : list (list A)) : Prop :=
  forall i, dag !! i = (fun l0 => l0 ++ entries_on i es) <$> dag0 !! i.













(** Modelled from the spec: the constructor of a classic-controlled
    operation is in the missing headers; it "wraps one Standard operation,
    adds a classical control register index and expected value".  The
    register is the pair of its first bit and its length. *)
Definition ClassicControlled_ (op : Operation) (controlRegister : nat * nat)
    (expectedValue : nat) : Operation :=
  ClassicControlledOperation (mkBase OpType.ClassicControlled [] []) op
    controlRegister expectedValue.

(** The test [deferMeasurements] makes for a measurement. *)
Definition isMeasurement (o : Operation) : bool :=
  is_dynamic_cast_NonUnitary o && bool_decide (getType o = OpType.Measure).

(** The lanes [constructDAG] pushes the slot of an operation onto. *)
Definition dagQubits (o : Operation) : list Qubit :=
  match o with
  | CompoundOperation _ _ => getUsedQubits o
  | NonUnitaryOperation _ _ _ _ => getTargets o
  | _ => map Control.qubit (getControls o) ++ getTargets o
  end.

(** The lane entries of slot [p], and of the slots [ps] in order. *)
Definition slotEntries (v : list Operation) (p : nat) : list (Qubit * nat) :=
  match v !! p with
  | Some o => map (fun q => (q, p)) (dagQubits o)
  | None => []
  end.

Definition dagEntries (v : list Operation) (ps : list nat) : list (Qubit * nat) :=
  flat_map (slotEntries v) ps.
(** The history of a run of [reorderOperations]: the slots moved so far,
    each with the vector [actsOn] of its move.  [passed q tr] are the slots
    whose move advanced the iterator of lane [q]. *)
Definition passed (q : Qubit) (tr : list (nat * list bool)) : list nat :=
  map fst (filter (fun e => e.2 !! q = Some true) tr).

(** The state of the loop after the moves [tr]: the new vector holds the
    moved operations, a slot is null exactly when it was moved, and each
    lane iterator has passed exactly the slots whose move advanced it. *)
Record ReorderInv (v : list Operation) (dag : DAG) (r : Reorder)
    (tr : list (nat * list bool)) : Prop := mkReorderInv {
  inv_ops : Forall2 (fun o e => v !! e.1 = Some o) (newOps r) tr;
  inv_nodup : NoDup (map fst tr);
  inv_slots : forall p o, v !! p = Some o ->
      slots r !! p = Some (if decide (p ∈ map fst tr) then None else Some o);
  inv_slots_len : length (slots r) = length v;
  inv_iters_len : length (dagIterators r) = length dag;
  inv_iters : forall q lane it, dag !! q = Some lane -> dagIterators r !! q = Some it ->
      it ≤ length lane /\ take it lane = passed q tr
}.

(** The iterator of lane [q] is at the end of the lane. *)
Definition at_end (dag : DAG) (r : Reorder) (q : Qubit) : Prop :=
  exists lane, dag !! q = Some lane /\ dagIterators r !! q = Some (length lane).
(** How often slot [p] is entered in lane [q]. *)
Definition laneCount (v : list Operation) (q : Qubit) (p : nat) : nat :=
  match v !! p with
  | Some o => length (filter (fun x => x = q) (dagQubits o))
  | None => 0
  end.
(** Two states of the loop that agree up to the renaming [f] of the [m]
    slots of the second. *)
Definition renamed (f : nat -> nat) (m : nat) (r1 r2 : Reorder) : Prop :=
  dagIterators r1 = dagIterators r2
  /\ newOps r1 = newOps r2
  /\ moved r1 = moved r2
  /\ length (slots r2) = m
  /\ forall j, j < m -> slots r1 !! f j = slots r2 !! j.

(** *** Notions for collectBlocks *)

(** The blocks the maps of the DSU stand for.  A qubit [findBlock] has not
    entered yet is read as what [findBlock] would enter: a root whose block
    is the qubit alone. *)
Definition isroot (d : DSU) (x : Qubit) : bool :=
  match parent d !! x with
  | Some p => bool_decide (p = x)
  | None => true
  end.

Definition blk (d : DSU) (x : Qubit) : list Qubit :=
  match parent d !! x with
  | Some _ => bitBlocks_at d x
  | None => [x]
  end.

(** [d'] stands for the same blocks, bodies and anchors as [d], and has
    the keys of [d] at least. *)
Definition same_blocks (d d' : DSU) : Prop :=
  (forall x, isroot d' x = isroot d x) /\
  (forall x, blk d' x = blk d x) /\
  (forall x, currentBlockInCircuit_at d' x = currentBlockInCircuit_at d x) /\
  (forall x, currentBlockOperations_at d' x = currentBlockOperations_at d x) /\
  (forall x, is_Some (parent d !! x) -> is_Some (parent d' !! x)).

(** The operation spans at most [k] qubits. *)
Definition spans (k : nat) (o : Operation) : Prop :=
  length (getUsedQubits o) <= k.

(** The blocks of the roots are disjoint lists without repetition, each
    holding its root; the operations of a body act within the block and
    span at most [k] qubits in all; a key and its parent lie in one block;
    a qubit that is no key has neither anchor nor body. *)
Record BlocksInv (k : nat) (d : DSU) : Prop := {
  blocks_disjoint : forall r1 r2 q,
    isroot d r1 = true -> isroot d r2 = true ->
    q ∈ blk d r1 -> q ∈ blk d r2 -> r1 = r2;
  blocks_own : forall r, isroot d r = true -> r ∈ blk d r;
  blocks_NoDup : forall r, isroot d r = true -> NoDup (blk d r);
  bodies_within : forall r o q,
    isroot d r = true -> o ∈ currentBlockOperations_at d r ->
    q ∈ getUsedQubits o -> q ∈ blk d r;
  bodies_bounded : forall r,
    isroot d r = true -> spans k (Compound_ (currentBlockOperations_at d r));
  parent_block : forall q p,
    parent d !! q = Some p ->
    exists r, isroot d r = true /\ q ∈ blk d r /\ p ∈ blk d r;
  unset_keys : forall q,
    parent d !! q = None ->
    currentBlockInCircuit_at d q = None /\ currentBlockOperations_at d q = []
}.

(** A block without a place in the circuit is a single qubit, unless it
    holds [x]. *)
Definition anchored_or_single (x : option Qubit) (d : DSU) : Prop :=
  forall r, isroot d r = true -> currentBlockInCircuit_at d r = None ->
    blk d r = [r] \/ exists y, x = Some y /\ y ∈ blk d r.

(** A [std::set<Qubit>] in the order of its iteration. *)
Definition ascending (s : list Qubit) : Prop := StronglySorted lt s.

(** The block of [l] has been hung below [w]. *)
Definition united (d d' : DSU) (w l : Qubit) : Prop :=
  (forall x, isroot d' x = isroot d x && bool_decide (x <> l)) /\
  (forall x, blk d' x =
     if decide (x = w) then blk d w ++ blk d l
     else if decide (x = l) then [] else blk d x) /\
  (forall x, currentBlockInCircuit_at d' x =
     if decide (x = l) then None else currentBlockInCircuit_at d x) /\
  (forall x, currentBlockOperations_at d' x =
     if decide (x = w)
     then currentBlockOperations_at d w ++ currentBlockOperations_at d l
     else if decide (x = l) then [] else currentBlockOperations_at d x) /\
  (forall x, is_Some (parent d !! x) -> is_Some (parent d' !! x)).

(** What [unionBlock] makes of the maps once the two roots are told apart. *)
Definition union_dsu (d : DSU) (w l : Qubit) : DSU :=
  let d := set_parent d l w in
  let d := set_currentBlockOperations d w
             (merge (currentBlockOperations_at d w) (currentBlockOperations_at d l)) in
  let d := set_bitBlocks d w (bitBlocks_at d w ++ bitBlocks_at d l) in
  let d := set_currentBlockInCircuit d l None in
  let d := set_currentBlockOperations d l [] in
  set_bitBlocks d l [].

(** The members of the block of [r] have become blocks of their own. *)
Definition reset_block (d d' : DSU) (r : Qubit) : Prop :=
  (forall x, isroot d' x = if decide (x ∈ blk d r) then true else isroot d x) /\
  (forall x, blk d' x = if decide (x ∈ blk d r) then [x] else blk d x) /\
  (forall x, currentBlockInCircuit_at d' x =
     if decide (x ∈ blk d r) then None else currentBlockInCircuit_at d x) /\
  (forall x, currentBlockOperations_at d' x =
     if decide (x ∈ blk d r) then [] else currentBlockOperations_at d x) /\
  (forall x, is_Some (parent d !! x) -> is_Some (parent d' !! x)).

(** What holds of the state of the pass between two statements of its loop:
    the blocks are in order, a block without a place in the circuit is a
    single qubit (but for the block of [x], which the unions are building),
    and every operation written back so far spans at most [k] qubits. *)
Definition CollectInv (k : nat) (x : option Qubit) (st : Collect) : Prop :=
  BlocksInv k (dsu st) /\ anchored_or_single x (dsu st) /\
  Forall (spans k) (finalized st).

(** [R] lists, once each, roots whose blocks hold the qubits [U]. *)
Definition covers (d : DSU) (U R : list Qubit) : Prop :=
  NoDup R /\ (forall r, r ∈ R -> isroot d r = true) /\
  (forall u, u ∈ U -> exists r, r ∈ R /\ u ∈ blk d r).

(** The number of qubits in the blocks of [R]. *)
Definition weight (d : DSU) (R : list Qubit) : nat :=
  sum_list (map (fun r => length (blk d r)) R).

(** [a] and [b] lie in one block. *)
Definition together (d : DSU) (a b : Qubit) : Prop :=
  exists r, isroot d r = true /\ a ∈ blk d r /\ b ∈ blk d r.

(** How many of the qubits [Us] lie in [L]. *)
Definition cnt (Us L : list Qubit) : nat := length (filter (fun u => u ∈ L) Us).

(** The entry [(b, s)] of [savings]: [b] is the root of a block of used
    qubits, and finalizing it frees [s] places. *)
Definition saves (d : DSU) (Us : list Qubit) (e : Qubit * Z) : Prop :=
  parent d !! e.1 = Some e.1 /\
  e.2 = (Z.of_nat (length (blk d e.1)) - Z.of_nat (cnt Us (blk d e.1)))%Z /\
  exists u, u ∈ Us /\ u ∈ blk d e.1.

(** The map [savings] and [totalSize] after the used qubits [Us]. *)
Definition SavingsInv (d : DSU) (Us : list Qubit) (sv : list (Qubit * Z)) (T : nat)
    : Prop :=
  NoDup (map fst sv) /\ (forall e, e ∈ sv -> saves d Us e) /\
  (forall u, u ∈ Us -> exists b, b ∈ map fst sv /\ u ∈ blk d b) /\
  T = weight d (map fst sv).

(** The qubit is a block of its own. *)
Definition single (d : DSU) (u : Qubit) : Prop :=
  isroot d u = true /\ blk d u = [u].

(** The entry [e] of the sorted savings, as the loop over them finds it. *)
Definition frees (d : DSU) (U R : list Qubit) (e : Qubit * Z) : Prop :=
  isroot d e.1 = true /\ e.1 ∈ R /\
  e.2 = (Z.of_nat (length (blk d e.1)) - Z.of_nat (cnt U (blk d e.1)))%Z /\
  exists u, u ∈ U /\ u ∈ blk d e.1.

(** The loop over the sorted savings, with the entries [rest] to go: the
    blocks of the used qubits hold at most [k + need] qubits, and as long
    as space is needed every used qubit is a block of its own or lies in a
    block that is still to come. *)
Definition FreeInv (k : nat) (U : list Qubit) (st : Collect)
    (rest : list (Qubit * Z)) (need : Z) : Prop :=
  CollectInv k None st /\
  exists R, covers (dsu st) U R /\
    (Z.of_nat (weight (dsu st) R) <= Z.of_nat k + need)%Z /\
    NoDup (map fst rest) /\
    (forall e, e ∈ rest -> frees (dsu st) U R e) /\
    ((0 < need)%Z -> forall u, u ∈ U ->
       single (dsu st) u \/ exists e, e ∈ rest /\ u ∈ blk (dsu st) e.1).

(** The entry [e] of [sortedBlocks]: the root of a block that has a place in
    the circuit, with the number of its qubits. *)
Definition packable (d : DSU) (e : Qubit * Z) : Prop :=
  isroot d e.1 = true /\ currentBlockInCircuit_at d e.1 <> None /\
  e.2 = Z.of_nat (length (blk d e.1)).

(** What the end of a round makes of the maps: the block takes the slot of
    the operation if it has none, and the operation joins its body. *)
Definition append_dsu (d : DSU) (block : Qubit) (empty : bool) (opIt : nat)
    (op : Operation) : DSU :=
  let d := if empty then set_currentBlockInCircuit d block (Some opIt) else d in
  set_currentBlockOperations d block (currentBlockOperations_at d block ++ [op]).

(** An instance of [std::sort] with [a.second > b.second], for the
    examples: insertion sort. *)
Fixpoint insert_descending (e : Qubit * Z) (l : list (Qubit * Z)) : list (Qubit * Z) :=
  match l with
  | [] => [e]
  | x :: l' =>
      if decide (x.2 < e.2)%Z then e :: l else x :: insert_descending e l'
  end.
Definition insertion_sort_descending (l : list (Qubit * Z)) : list (Qubit * Z) :=
  foldr insert_descending [] l.

(** An order of the keys of [dsu.parent], for the examples. *)
Definition keys_in_order (m : gmap Qubit Qubit) : list Qubit :=
  map fst (map_to_list m).

(** The blocks of the qubits [U] hold at most [k] qubits in all. *)
Definition covered (k : nat) (U : list Qubit) (st : Collect) : Prop :=
  exists R, covers (dsu st) U R /\ weight (dsu st) R <= k.


(** *** Notions for the step budgets of collectBlocks *)

(** [h] bounds the length of the parent chain of every qubit: it falls
    along every step to a parent and stays below the size of the block.
    Blocks of keys hold keys only. *)
Definition rank_ok (h : Qubit -> nat) (d : DSU) : Prop :=
  (forall q p, parent d !! q = Some p -> p <> q -> h p < h q) /\
  (forall r q, isroot d r = true -> q ∈ blk d r -> h q < length (blk d r)) /\
  (forall r q, parent d !! r = Some r -> q ∈ blk d r -> is_Some (parent d !! q)).

Definition Ranked (d : DSU) : Prop := exists h, rank_ok h d.

(** The maps of the DSU are in order, for some bound on the blocks. *)
Definition Sound (d : DSU) : Prop := (exists k, BlocksInv k d) /\ Ranked d.

(** The result is not the exhaustion of a step budget of the model. *)
Definition in_budget {A} (m : result A) : Prop := m <> Throw FuelExhausted.

(** [m] does not exhaust a budget, and its result satisfies [P]. *)
Definition keeps {A} (P : A -> Prop) (m : result A) : Prop :=
  in_budget m /\ forall a, m = Ok a -> P a.

(** The DSU of the state is in order and the circuit has [n] slots. *)
Definition Kept (n : nat) (st : Collect) : Prop :=
  Sound (dsu st) /\ length (circuit_slots st) = n.

(** The operations of the tree of [o] that are no Compound, from left to
    right. *)
Fixpoint leaves (o : Operation) : list Operation :=
  match o with
  | CompoundOperation _ children => flat_map leaves children
  | _ => [o]
  end.

(** A controlled X stands at [o] or inside it, at any depth of nested
    Compounds. *)
Fixpoint hasMCX (o : Operation) : bool :=
  isMCX o ||
  match o with
  | CompoundOperation _ children => existsb hasMCX children
  | _ => false
  end.

Definition MCX_free (v : list Operation) : Prop :=
  Forall (fun o => hasMCX o = false) v.

(** The operation is entered in lane [q] by [constructDAG]. *)
Definition onLane (q : Qubit) (o : Operation) : Prop := q ∈ dagQubits o.

#[global] Instance onLane_dec q o : Decision (onLane q o).
Proof. unfold onLane. apply _. Defined.

(** The operation is entered in no lane: it names no qubit. *)
Definition laneless (o : Operation) : Prop := dagQubits o = [].
#[global] Instance laneless_dec o : Decision (laneless o).
Proof. unfold laneless. apply _. Defined.

(** The operation stands in a slot of [v] that some lane of [dag] holds. *)
Definition inSomeLane (v : list Operation) (dag : DAG) (o : Operation) : Prop :=
  exists p q lane, v !! p = Some o /\ dag !! q = Some lane /\ p ∈ lane.

(** An operation on which the scan after a measurement comes to a halt: it
    is not unitary, no Reset, no measurement and not classic-controlled,
    so no branch of the loop body steps over it. *)
Definition stalls (o : Operation) : Prop :=
  isUnitary o = false /\ getType o ≠ OpType.Reset
  /\ isMeasurement o = false /\ isClassicControlledOperation o = false.

(** A Barrier, as the general constructor builds it. *)
Definition Barrier_ (nq : nat) (qs : list Qubit) : Operation :=
  NonUnitaryOperation_general nq qs OpType.Barrier.

(** No two physical qubits are given the same logical qubit. *)
Definition injective (permutation : Permutation_) : Prop :=
  forall k1 k2 l, permutation !! k1 = Some l -> permutation !! k2 = Some l -> k1 = k2.

(** The permutation maps the physical qubits [0 .. n-1] one-to-one onto the
    logical qubits [0 .. n-1]. *)
Definition complete_layout (n : nat) (permutation : Permutation_) : Prop :=
  dom permutation = (set_seq 0 n : gset Qubit)
  /\ map_img permutation = (set_seq 0 n : gset Qubit)
  /\ injective permutation.

(** The permutation maps some of the physical qubits [0 .. n-1] one-to-one
    into the logical qubits [0 .. n-1]. *)
Definition partial_layout (n : nat) (permutation : Permutation_) : Prop :=
  (forall k l, permutation !! k = Some l -> k < n /\ l < n)
  /\ injective permutation.

(** The SWAPs the pass propagates, at any depth of nested Compounds, name
    qubits below [n]. *)
Fixpoint swaps_below (n : nat) (o : Operation) : Prop :=
  match o with
  | CompoundOperation _ children => fold_right (fun c P => swaps_below n c /\ P) True children
  | _ =>
      getType o = OpType.SWAP -> isControlled o = false ->
      length (getTargets o) = 2 -> Forall (fun t => t < n) (getTargets o)
  end.

(** The state of the walk: the keys of the permutation lie below [n], it is
    one-to-one, and the logical qubits [0 .. n-1] are those it has given
    out together with those still missing. *)
Record BackpropInv (n : nat) (st : Permutation_ * gset Qubit) : Prop := {
  bp_dom : dom st.1 ⊆ (set_seq 0 n : gset Qubit);
  bp_all : map_img st.1 ∪ st.2 = (set_seq 0 n : gset Qubit);
  bp_disjoint : (map_img st.1 : gset Qubit) ## st.2;
  bp_injective : injective st.1;
  bp_size : size st.1 + size st.2 = n
}.

(** An instance of [*s.begin()], for the examples: the first element in
    the order of [elements]. *)
Definition first_element (s : gset Qubit) : Qubit := hd 0 (elements s).

(** The qubit [q] renamed to [n]. *)
Definition moveQubit (q n : Qubit) (t : Qubit) : Qubit :=
  if decide (t = q) then n else t.

(** The gate [o'] is the gate [o] with the qubit [q] renamed to [n] in its
    targets and in its controls, which keep their polarity. *)
Definition movedTo (q n : Qubit) (o o' : Operation) : Prop :=
  isStandardOperation o' = true
  /\ getType o' = getType o
  /\ getTargets o' = map (moveQubit q n) (getTargets o)
  /\ forall c, c ∈ getControls o' <->
       exists c0, c0 ∈ getControls o
                  /\ c = Control.mk (moveQubit q n (Control.qubit c0)) (Control.type c0).

(** A gate that is no Reset and has at most one control on a qubit. *)
Definition plainGate (o : Operation) : Prop :=
  isStandardOperation o = true /\ getType o ≠ OpType.Reset
  /\ NoDup (map Control.qubit (getControls o)).

(** The operation names the qubit [q] as a target or a control. *)
Definition touches (q : Qubit) (o : Operation) : Prop :=
  q ∈ getTargets o \/ q ∈ map Control.qubit (getControls o).

(** A Reset of the qubits [qs], as the general constructor builds it. *)
Definition Reset_ (nq : nat) (qs : list Qubit) : Operation :=
  NonUnitaryOperation_general nq qs OpType.Reset.

(** A Measure of the qubits [qs] into the bits [cs]. *)
Definition Measure_ (nq : nat) (qs : list Qubit) (cs : list nat) : Operation :=
  NonUnitaryOperation (mkBase OpType.Measure [] []) nq qs cs.

(** The logical qubits that [equals] reads for the measured qubits [qs]:
    the qubits themselves under the empty permutation, their images
    otherwise. *)
Definition logicalQubits (perm : Permutation_) (qs : list Qubit) : option (list Qubit) :=
  if decide (perm = ∅) then Some qs else mapM (fun q => perm !! q) qs.

(** The replacement of a SWAP on [(a, b)] for a directed architecture:
    three CNOTs from [a] to [b] with Hadamards on both qubits in
    between. *)
Definition directed_CNOTs (a b : Qubit) : list Operation :=
  [CNOT a b; H_ b; H_ a; CNOT a b; H_ b; H_ a; CNOT a b].

(** What the pass puts for a SWAP on [(a, b)]. *)
Definition swapReplacement (isDirectedArchitecture : bool) (a b : Qubit)
    : list Operation :=
  if isDirectedArchitecture then directed_CNOTs a b else three_CNOTs a b.

(** What becomes of a child of a Compound, and of an operation of the top
    level, in either mode. *)
Definition decomposed_child_in (d : bool) (c : Operation) : list Operation :=
  if isSWAPgate c then swapReplacement d (swapQubits c).1 (swapQubits c).2 else [c].

Definition decomposed_in (d : bool) (o : Operation) : list Operation :=
  if isSWAPgate o then swapReplacement d (swapQubits o).1 (swapQubits o).2
  else
    match o with
    | CompoundOperation b children =>
        [CompoundOperation b (flat_map (decomposed_child_in d) children)]
    | _ => [o]
    end.

(** No SWAP gate stands at the top level or among the children of a
    Compound of the top level. *)
Definition SWAP_free (v : list Operation) : Prop :=
  Forall (fun o => isSWAPgate o = false
                   /\ forall b children, o = CompoundOperation b children ->
                        Forall (fun c => isSWAPgate c = false) children) v.

(** The states that calls of [findBlock], [unionBlock] and
    [finalizeBlock] lead to from the empty DSU, over a circuit of [n]
    slots; [reachable_place] is the assignment to
    [dsu.currentBlockInCircuit[block]] of the pass, for the representative
    of a block. *)
Inductive reachable (n : nat) : Collect -> Prop :=
| reachable_empty slots :
    length slots = n -> reachable n (mkCollect slots (mkDSU ∅ ∅ ∅ ∅) [])
| reachable_find st q d r :
    reachable n st -> find (dsu st) q = Ok (d, r) -> reachable n (set_dsu st d)
| reachable_union st a b st' :
    reachable n st -> unionBlock st a b = Ok st' -> reachable n st'
| reachable_finalize st i st' :
    reachable n st -> finalizeBlock st i = Ok st' -> reachable n st'
| reachable_place st r pos :
    reachable n st -> parent (dsu st) !! r = Some r ->
    reachable n (set_dsu st (set_currentBlockInCircuit (dsu st) r (Some pos))).

(** *** Notions for singleQubitGateFusion *)

(** The circuit of the uncontrolled single-qubit gates [(q, t)]. *)
Definition gates (gs : list (Qubit * OpType.t)) : list Operation :=
  map (fun g => Standard1 g.1 g.2) gs.

(** The types of the gates on the qubit [q], in order. *)
Definition types_on (q : Qubit) (gs : list (Qubit * OpType.t)) : list OpType.t :=
  map snd (filter (fun g => g.1 = q) gs).

(** Cancellation of neighbours: a type that [INVERSE_MAP] gives for the
    last type kept removes that one; any other type is kept. *)
Definition reduce_step (kept : list OpType.t) (t : OpType.t) : list OpType.t :=
  match last kept with
  | Some l =>
      if bool_decide (INVERSE_MAP l = Some t) then removelast kept else kept ++ [t]
  | None => [t]
  end.
Definition reduce (ts : list OpType.t) : list OpType.t := fold_left reduce_step ts [].

(** What a run of gates of the types [ts] on the qubit [q] is fused to:
    nothing, one gate, or a Compound of the gates that are kept. *)
Definition fused (q : Qubit) (ts : list OpType.t) : list Operation :=
  match reduce ts with
  | [] => []
  | [t] => [Standard1 q t]
  | kept => [Compound_ (map (Standard1 q) kept)]
  end.

(** The first gate on a qubit is replaced by what all gates on that qubit
    are fused to; a gate on a qubit seen before leaves nothing. *)
Fixpoint fusion_result (seen : list Qubit) (gs : list (Qubit * OpType.t))
    : list Operation :=
  match gs with
  | [] => []
  | (q, t) :: rest =>
      (if decide (q ∈ seen) then [] else fused q (t :: types_on q rest))
      ++ fusion_result (q :: seen) rest
  end.

(** The slot of the first gate on a qubit while the pass runs: the gate
    itself, or a Compound. *)
Inductive FusedSlot :=
| Single (t : OpType.t)
| Comp (l : list OpType.t).

Definition fuse_step (c : FusedSlot) (t : OpType.t) : FusedSlot :=
  match c with
  | Single t0 =>
      if bool_decide (INVERSE_MAP t0 = Some t) then Single OpType.I
      else Comp [t0; t]
  | Comp l =>
      match last l with
      | None => Comp [t]
      | Some x =>
          if bool_decide (INVERSE_MAP x = Some t) then Comp (removelast l)
          else Comp (l ++ [t])
      end
  end.

Definition slot_repr (q : Qubit) (c : FusedSlot) : Operation :=
  match c with
  | Single t => Standard1 q t
  | Comp l => Compound_ (map (Standard1 q) l)
  end.

Definition stack_of (c : FusedSlot) : list OpType.t :=
  match c with Single t => [t] | Comp l => l end.

(** The operation vector after the pass has gone through the first [k]
    gates of the circuit [gates gs]. *)
Fixpoint fusion_slots (seen : list Qubit) (k : nat) (gs : list (Qubit * OpType.t))
    : list Operation :=
  match gs with
  | [] => []
  | (q, t) :: rest =>
      match k with
      | 0 => Standard1 q t :: fusion_slots seen 0 rest
      | S k' =>
          (if decide (q ∈ seen) then Standard1 q OpType.I
           else slot_repr q (fold_left fuse_step (types_on q (take k' rest)) (Single t)))
          :: fusion_slots (q :: seen) k' rest
      end
  end.

(** The lanes after the first [k] gates: the last entry of the lane of a
    qubit is the slot of the first gate on it. *)
Definition fusion_lanes (n k : nat) (gs : list (Qubit * OpType.t)) (dag : DAG) : Prop :=
  length dag = n /\
  forall q lane, dag !! q = Some lane ->
    match last lane with
    | None => q ∉ map fst (take k gs)
    | Some s => exists r1 t0 r2,
        gs = r1 ++ (q, t0) :: r2 /\ (q ∉ map fst r1) /\ s = length r1 /\ s < k
    end.

(** *** Notions for constructDAG *)

(** The slots of the operations that name the qubit [q], in program order;
    a slot stands as often as its operation names [q]. *)
Definition lane_slots (v : list Operation) (q : Qubit) : list nat :=
  flat_map (fun p => replicate (laneCount v q p) p) (seq 0 (length v)).

(** The qubits the operation is entered for are below [n]. *)
Definition names_below (n : nat) (o : Operation) : Prop :=
  Forall (fun q => q < n) (dagQubits o).

(** * Properties *)

(** ** NonUnitaryOperation *)

Lemma existsb_eq_elem (l : list Qubit) (i : Qubit) :
  existsb (fun q => bool_decide (q = i)) l = true <-> i ∈ l.
Proof.
  rewrite existsb_exists. split.
  - intros (q & Hin & Hq). apply bool_decide_eq_true in Hq. subst.
    by apply list_elem_of_In.
  - intros Hin. exists i. split; [by apply list_elem_of_In|].
    by apply bool_decide_eq_true.
Qed.

(** C10. A Barrier, Snapshot or ShowProbabilities acts on no qubit, whatever
    its target list holds; [actsOn] answers true exactly for a Measure with
    the qubit among its measured qubits and for a Reset with the qubit among
    its targets. *)
Theorem NonUnitaryOperation_actsOn_spec (b : Base) (nq : nat)
    (qs : list Qubit) (cs : list nat) (q : Qubit) :
  let o := NonUnitaryOperation b nq qs cs in
  ((type b = OpType.Barrier \/ type b = OpType.Snapshot
    \/ type b = OpType.ShowProbabilities) -> actsOn o q = false)
  /\ (actsOn o q = true <->
      (type b = OpType.Measure /\ q ∈ qs) \/ (type b = OpType.Reset /\ q ∈ targets b)).
Proof.
  simpl. unfold NonUnitaryOperation_actsOn. split.
  - intros [Hb|[Hb|Hb]]; rewrite Hb; reflexivity.
  - destruct (decide (type b = OpType.Measure)) as [Hm|Hm].
    + rewrite existsb_eq_elem. split; [by left|].
      intros [[_ Hin]|[Hr _]]; [done|congruence].
    + destruct (decide (type b = OpType.Reset)) as [Hr|Hr].
      * rewrite existsb_eq_elem. split; [by right|].
        intros [[? _]|[_ Hin]]; [congruence|done].
      * split; [discriminate|]. intros [[? _]|[? _]]; congruence.
Qed.

Lemma NonUnitaryOperation_actsOn_witness :
  actsOn (NonUnitaryOperation_general 2 [0; 1] OpType.Barrier) 0 = false.
Proof.
  apply (proj1 (NonUnitaryOperation_actsOn_spec
                  (mkBase OpType.Barrier [] [0; 1]) 2 [] [] 0)).
  left. reflexivity.
Defined.

Lemma constructed_lengths (o : Operation) :
  constructed o -> length (getQubits o) = length (getClassics o).
Proof.
  destruct 1 as [nq qs cs o Hc| | |]; try reflexivity.
  unfold NonUnitaryOperation_measure in Hc.
  destruct (decide _) as [|Heq]; [discriminate|].
  injection Hc as <-. simpl. lia.
Qed.

(** C9. The register constructor of a Measure throws when the two lists
    differ in length; every operation a constructor returns has as many
    measured qubits as classical bits; and the constructor keeps the order
    of both lists, so the i-th qubit is paired with the i-th bit. *)
Theorem Measure_registers_match :
  (forall nq qs cs, length qs ≠ length cs ->
     NonUnitaryOperation_measure nq qs cs = Throw invalid_argument)
  /\ (forall o, constructed o -> getType o = OpType.Measure ->
        length (getQubits o) = length (getClassics o))
  /\ (forall nq qs cs o, NonUnitaryOperation_measure nq qs cs = Ok o ->
        getType o = OpType.Measure /\ getQubits o = qs /\ getClassics o = cs
        /\ forall i q, qs !! i = Some q ->
             exists c, cs !! i = Some c /\ measurements o !! i = Some (q, c)).
Proof.
  split; [|split].
  - intros nq qs cs Hne. unfold NonUnitaryOperation_measure.
    destruct (decide _); [reflexivity|contradiction].
  - intros o Hc _. by apply constructed_lengths.
  - intros nq qs cs o Hc. unfold NonUnitaryOperation_measure in Hc.
    destruct (decide _) as [|Heq]; [discriminate|].
    injection Hc as <-. repeat split.
    intros i q Hq. unfold measurements. simpl.
    assert (Hlen : length qs = length cs) by lia.
    destruct (cs !! i) as [c|] eqn:Hci.
    + exists c. split; [reflexivity|].
      rewrite lookup_zip_with, Hq. simpl. rewrite Hci. reflexivity.
    + apply lookup_ge_None in Hci. apply lookup_lt_Some in Hq. lia.
Qed.

Lemma Measure_registers_match_witness :
  NonUnitaryOperation_measure 3 [0; 1] [0] = Throw invalid_argument.
Proof.
  apply (proj1 Measure_registers_match 3 [0; 1] [0]). simpl. lia.
Defined.

(** ** removeIdentities *)

Lemma removeIdentities_children_spec (cs : list Operation) :
  Forall (fun c => getType c ≠ OpType.I) (removeIdentities_children cs)
  /\ (forall c, c ∈ removeIdentities_children cs -> c ∈ cs).
Proof.
  induction cs as [|c cs [IH1 IH2]]; simpl.
  - split; [constructor|done].
  - destruct (decide (getType c = OpType.I)).
    + split; [done|]. intros x Hx. right. by apply IH2.
    + split; [by constructor|].
      intros x [->|Hx]%elem_of_cons; [left|right; by apply IH2].
Qed.

Lemma removeIdentities_children_fixed (cs : list Operation) :
  Forall (fun c => getType c ≠ OpType.I) cs -> removeIdentities_children cs = cs.
Proof.
  induction 1 as [|c cs Hc _ IH]; simpl; [done|].
  destruct (decide _); [contradiction|]. by rewrite IH.
Qed.

Lemma flat_cons (o : Operation) (v : list Operation) :
  flat (o :: v) -> flat v.
Proof. intros Hf b cs Hin. apply (Hf b cs). by right. Qed.

Lemma removeIdentities_loop_clean (v : list Operation) :
  flat v -> Forall clean (removeIdentities_loop v).
Proof.
  induction v as [|o v IH]; intros Hf; simpl; [constructor|].
  specialize (IH (flat_cons _ _ Hf)).
  destruct (decide (getType o = OpType.I)) as [|Hty]; [done|].
  destruct o as [b|b cs|b nq qs cls|b op r e]; try (constructor; [by split|done]).
  pose proof (removeIdentities_children_spec cs) as [Hni Hsub].
  assert (Hnc : forall c, c ∈ removeIdentities_children cs ->
                          isCompoundOperation c = false).
  { intros c Hc. apply (Hf b cs); [by left|by apply Hsub]. }
  destruct (removeIdentities_children cs) as [|c1 [|c2 cs']] eqn:Heq; [done| |].
  - constructor; [|done]. split.
    + by inversion Hni.
    + specialize (Hnc c1 ltac:(by left)). by destruct c1.
  - constructor; [|done]. split; [done|]. split; [simpl; lia|].
    apply Forall_forall. intros c Hc. split; [|by apply Hnc].
    rewrite Forall_forall in Hni. by apply Hni.
Qed.

Lemma removeIdentities_loop_fixed (v : list Operation) :
  Forall clean v -> removeIdentities_loop v = v.
Proof.
  induction 1 as [|o v [Hty Ho] _ IH]; simpl; [done|].
  destruct (decide _); [contradiction|]. rewrite IH.
  destruct o as [b|b cs|b nq qs cls|b op r e]; try done.
  destruct Ho as [Hlen Hcs].
  rewrite removeIdentities_children_fixed.
  - destruct cs as [|c1 [|c2 cs]]; simpl in Hlen; try lia. done.
  - eapply Forall_impl; [exact Hcs|]. by intros c [? _].
Qed.

Lemma containsIdentity_leaf (c : Operation) :
  getType c ≠ OpType.I -> isCompoundOperation c = false -> containsIdentity c = false.
Proof.
  intros Hty Hc. destruct c; try discriminate; simpl;
    rewrite orb_false_r; by apply bool_decide_eq_false_2.
Qed.

Lemma clean_containsIdentity (o : Operation) :
  clean o -> containsIdentity o = false.
Proof.
  intros [Hty Ho].
  destruct o as [b|b cs|b nq qs cls|b op r e];
    try (apply containsIdentity_leaf; done).
  simpl. apply orb_false_iff. split; [by apply bool_decide_eq_false_2|].
  destruct Ho as [_ Hcs].
  induction Hcs as [|c cs [Hc Hnc] _ IHcs]; simpl; [done|].
  by rewrite IHcs, containsIdentity_leaf.
Qed.

Lemma clean_no_identity (v : list Operation) :
  Forall clean v -> existsb containsIdentity v = false.
Proof.
  induction 1 as [|o v Ho _ IH]; simpl; [done|].
  by rewrite IH, clean_containsIdentity.
Qed.

Lemma removeIdentities_top_level (v : list Operation) :
  Forall (fun o => getType o ≠ OpType.I) (removeIdentities_loop v).
Proof.
  induction v as [|o v IH]; simpl; [constructor|].
  destruct (decide (getType o = OpType.I)) as [|Hty]; [done|].
  destruct o as [b|b cs|b nq qs cls|b op r e]; try by constructor.
  pose proof (removeIdentities_children_spec cs) as [Hni _].
  destruct (removeIdentities_children cs) as [|c1 [|c2 cs']]; [done| |].
  - constructor; [by inversion Hni|done].
  - by constructor.
Qed.

(** C2, as the code has it.  After a run no operation of the top level has
    type [I], for every circuit.  When no Compound of the circuit has a
    Compound among its children, a second run changes nothing and no
    operation of type [I] is left at any nesting level. *)
Theorem removeIdentities_flat_idempotent (qc : QuantumComputation) :
  Forall (fun o => getType o ≠ OpType.I) (ops (removeIdentities qc))
  /\ (flat (ops qc) ->
      removeIdentities (removeIdentities qc) = removeIdentities qc
      /\ existsb containsIdentity (ops (removeIdentities qc)) = false).
Proof.
  split; [apply removeIdentities_top_level|].
  intros Hf. pose proof (removeIdentities_loop_clean _ Hf) as Hc.
  split.
  - unfold removeIdentities, set_ops. simpl.
    by rewrite removeIdentities_loop_fixed.
  - by apply clean_no_identity.
Qed.

Lemma removeIdentities_flat_idempotent_witness :
  let qc := circuit 2 [I_ 0; Compound_ [I_ 1; X_ 1]; Compound_ [H_ 0; I_ 0; X_ 1]] in
  removeIdentities (removeIdentities qc) = removeIdentities qc
  /\ existsb containsIdentity (ops (removeIdentities qc)) = false.
Proof.
  intros qc. apply (proj2 (removeIdentities_flat_idempotent qc)).
  intros b children Hin c Hc.
  apply list_elem_of_In in Hin. simpl in Hin.
  destruct Hin as [Hin|[Hin|[Hin|[]]]]; try discriminate;
    injection Hin as <- <-; apply list_elem_of_In in Hc; simpl in Hc;
    intuition (subst; reflexivity).
Defined.

(** C2, counterexample.  A Compound whose only child is a Compound holding
    an identity: the first run replaces the outer Compound by the inner one
    without looking into it, so an identity survives among the children of
    a Compound, and the second run changes the circuit again. *)
Lemma removeIdentities_nested_counterexample :
  let qc := circuit 1 [Compound_ [Compound_ [I_ 0; X_ 0]]] in
  ops (removeIdentities qc) = [Compound_ [I_ 0; X_ 0]]
  /\ ops (removeIdentities (removeIdentities qc)) = [X_ 0]
  /\ removeIdentities (removeIdentities qc) ≠ removeIdentities qc
  /\ existsb containsIdentity (ops (removeIdentities qc)) = true.
Proof.
  simpl. repeat split. intros Heq. discriminate Heq.
Qed.

(** ** decomposeSWAP *)

Lemma if_true_eq {A} (b : bool) (x y : A) : b = true -> (if b then x else y) = x.
Proof. by intros ->. Qed.
Lemma if_false_eq {A} (b : bool) (x y : A) : b = false -> (if b then x else y) = y.
Proof. by intros ->. Qed.

(** The loops, unfolded once. *)
Lemma decomposeSWAP_children_cons d c rest :
  decomposeSWAP_children d (c :: rest) =
  if isSWAPgate c then
    match SWAP_targets c with
    | Throw e => Throw e
    | Ok t => decomposeSWAP_children d (insert_decomposition d t.1 t.2 rest)
    end
  else rest' ← decomposeSWAP_children d rest; Ok (c :: rest').
Proof.
  simp decomposeSWAP_children.
  destruct (inspect (isSWAPgate c)) as [[|] Hsw].
  - rewrite (if_true_eq _ _ _ Hsw). simp decomposeSWAP_children.
    destruct (SWAP_targets c); by simp decomposeSWAP_children.
  - rewrite (if_false_eq _ _ _ Hsw). by simp decomposeSWAP_children.
Qed.

Lemma decomposeSWAP_loop_cons d o rest :
  decomposeSWAP_loop d (o :: rest) =
  if isSWAPgate o then
    match SWAP_targets o with
    | Throw e => Throw e
    | Ok t => decomposeSWAP_loop d (insert_decomposition d t.1 t.2 rest)
    end
  else
    match o with
    | CompoundOperation b children =>
        children' ← decomposeSWAP_children d children;
        rest' ← decomposeSWAP_loop d rest;
        Ok (CompoundOperation b children' :: rest')
    | _ => rest' ← decomposeSWAP_loop d rest; Ok (o :: rest')
    end.
Proof.
  simp decomposeSWAP_loop.
  destruct (inspect (isSWAPgate o)) as [[|] Hsw].
  - rewrite (if_true_eq _ _ _ Hsw). simp decomposeSWAP_loop.
    destruct (SWAP_targets o); by simp decomposeSWAP_loop.
  - rewrite (if_false_eq _ _ _ Hsw). simp decomposeSWAP_loop.
    destruct o; by simp decomposeSWAP_loop.
Qed.

Lemma SWAP_targets_two (o : Operation) :
  2 ≤ length (getTargets o) -> SWAP_targets o = Ok (swapQubits o).
Proof.
  unfold SWAP_targets, swapQubits, subscript.
  destruct (getTargets o) as [|a [|b ts]]; simpl; try lia. done.
Qed.

Lemma decomposeSWAP_children_spec (cs : list Operation) :
  (forall c, c ∈ cs -> two_targets c) ->
  decomposeSWAP_children false cs = Ok (flat_map decomposed_child cs).
Proof.
  induction cs as [|c cs IH]; intros Hwf; [by simp decomposeSWAP_children|].
  rewrite decomposeSWAP_children_cons. simpl. unfold decomposed_child at 1.
  specialize (IH (fun x Hx => Hwf x (list_elem_of_further _ _ _ Hx))).
  destruct (isSWAPgate c) eqn:Hsw.
  - rewrite (SWAP_targets_two c) by (apply Hwf; [by left|done]).
    unfold insert_decomposition, insert_at_it.
    rewrite !decomposeSWAP_children_cons. simpl. by rewrite IH.
  - by rewrite IH.
Qed.

Lemma decomposeSWAP_loop_spec (v : list Operation) :
  swaps_two_targets v ->
  decomposeSWAP_loop false v = Ok (flat_map decomposed v).
Proof.
  induction v as [|o v IH]; intros Hwf; [by simp decomposeSWAP_loop|].
  rewrite decomposeSWAP_loop_cons. simpl. unfold decomposed at 1.
  specialize (IH (fun x Hx => Hwf x (list_elem_of_further _ _ _ Hx))).
  destruct (Hwf o ltac:(by left)) as [Ho Hcs].
  destruct (isSWAPgate o) eqn:Hsw.
  - rewrite (SWAP_targets_two o) by by apply Ho.
    unfold insert_decomposition, insert_at_it.
    rewrite !decomposeSWAP_loop_cons. simpl. by rewrite IH.
  - destruct o as [b|b cs|b nq qs cls|b op r e]; rewrite IH; try done.
    rewrite decomposeSWAP_children_spec; [done|]. by apply (Hcs b cs).
Qed.

(** C6, as the code has it.  With [directed = false] every SWAP that stands
    at the top level or is a child of a top-level Compound is replaced, in
    place, by CNOT(a,b); CNOT(b,a); CNOT(a,b) on its two qubits; every other
    operation, and with it whatever a Compound child of a Compound holds,
    stays as it is. *)
Theorem decomposeSWAP_undirected (qc : QuantumComputation) :
  swaps_two_targets (ops qc) ->
  decomposeSWAP qc false = Ok (set_ops qc (flat_map decomposed (ops qc))).
Proof.
  intros Hwf. unfold decomposeSWAP.
  by rewrite decomposeSWAP_loop_spec.
Qed.

Lemma decomposeSWAP_undirected_witness :
  decomposeSWAP (circuit 3 [H_ 2; SWAP_ 0 1; Compound_ [SWAP_ 1 2; X_ 0]]) false
  = Ok (circuit 3 [H_ 2; CNOT 0 1; CNOT 1 0; CNOT 0 1;
                   Compound_ [CNOT 1 2; CNOT 2 1; CNOT 1 2; X_ 0]]).
Proof.
  apply (decomposeSWAP_undirected
           (circuit 3 [H_ 2; SWAP_ 0 1; Compound_ [SWAP_ 1 2; X_ 0]])).
  intros o Ho. apply list_elem_of_In in Ho. simpl in Ho.
  destruct Ho as [<-|[<-|[<-|[]]]].
  - split; [discriminate|]. intros b cs Heq. discriminate Heq.
  - split; [intros _; simpl; lia|]. intros b cs Heq. discriminate Heq.
  - split; [discriminate|]. intros b cs Heq. injection Heq as <- <-.
    intros c Hc. apply list_elem_of_In in Hc. simpl in Hc.
    destruct Hc as [<-|[<-|[]]]; [intros _; simpl; lia|discriminate].
Defined.

(** C6, counterexample.  A SWAP inside a Compound that is itself a child of
    a Compound is not replaced: the pass returns the circuit unchanged. *)
Lemma decomposeSWAP_nested_counterexample :
  let qc := circuit 2 [Compound_ [Compound_ [SWAP_ 0 1; H_ 0]; H_ 1]] in
  decomposeSWAP qc false = Ok qc.
Proof.
  intros qc. unfold decomposeSWAP, qc. simpl ops.
  rewrite decomposeSWAP_loop_cons. simpl.
  rewrite !decomposeSWAP_children_cons. simpl.
  by simp decomposeSWAP_children decomposeSWAP_loop.
Qed.

(** ** isDynamicCircuit *)

Lemma filled_nil {A} (dag0 : list (list A)) : filled dag0 [] dag0.
Proof.
  intros i. unfold entries_on. simpl.
  destruct (dag0 !! i); simpl; [by rewrite app_nil_r|done].
Qed.

Lemma entries_on_app {A} q (es1 es2 : list (Qubit * A)) :
  entries_on q (es1 ++ es2) = entries_on q es1 ++ entries_on q es2.
Proof. unfold entries_on. by rewrite filter_app, map_app. Qed.

Lemma entries_on_single {A} q q' (o : A) :
  entries_on q [(q', o)] = if decide (q' = q) then [o] else [].
Proof.
  unfold entries_on. destruct (decide (q' = q)).
  - by rewrite filter_cons_True.
  - by rewrite filter_cons_False.
Qed.

Lemma filled_length {A} (dag0 : list (list A)) es dag :
  filled dag0 es dag -> length dag = length dag0.
Proof.
  intros Hf.
  destruct (Nat.lt_trichotomy (length dag) (length dag0)) as [Hlt|[Heq|Hlt]]; [|done|].
  - specialize (Hf (length dag)).
    rewrite (lookup_ge_None_2 dag) in Hf by lia.
    destruct (lookup_lt_is_Some_2 dag0 (length dag) Hlt) as [x Hx].
    rewrite Hx in Hf. discriminate.
  - specialize (Hf (length dag0)).
    rewrite (lookup_ge_None_2 dag0) in Hf by lia.
    destruct (lookup_lt_is_Some_2 dag (length dag0) Hlt) as [x Hx].
    rewrite Hx in Hf. discriminate.
Qed.

Lemma push_back_at_filled {A} (dag0 : list (list A)) es dag q (o : A) :
  filled dag0 es dag -> q < length dag0 ->
  exists dag', push_back_at dag q o = Ok dag' /\ filled dag0 (es ++ [(q, o)]) dag'.
Proof.
  intros Hf Hq. pose proof (filled_length _ _ _ Hf) as Hlen.
  destruct (lookup_lt_is_Some_2 dag q ltac:(lia)) as [l Hl].
  unfold push_back_at, at_. rewrite Hl. simpl.
  eexists. split; [reflexivity|].
  intros i. rewrite entries_on_app.
  destruct (decide (i = q)) as [->|Hne].
  - rewrite list_lookup_insert_eq by lia.
    pose proof (Hf q) as Hfq. rewrite Hl in Hfq.
    destruct (dag0 !! q) as [l0|]; [|discriminate]. simpl in Hfq.
    injection Hfq as ->. simpl fmap. rewrite entries_on_single.
    destruct (decide (q = q)); [|done]. by rewrite app_assoc.
  - rewrite list_lookup_insert_ne by done. rewrite Hf.
    rewrite entries_on_single. destruct (decide (q = i)); [congruence|].
    by rewrite app_nil_r.
Qed.

Lemma push_back_all_filled {A} (dag0 : list (list A)) es dag qs (o : A) :
  filled dag0 es dag -> (forall q, q ∈ qs -> q < length dag0) ->
  exists dag', push_back_all dag qs o = Ok dag'
               /\ filled dag0 (es ++ map (fun q => (q, o)) qs) dag'.
Proof.
  revert es dag. induction qs as [|q qs IH]; intros es dag Hf Hqs; simpl.
  - exists dag. by rewrite app_nil_r.
  - destruct (push_back_at_filled _ _ _ q o Hf) as (dag1 & -> & Hf1).
    { apply Hqs. by left. }
    simpl. destruct (IH _ _ Hf1) as (dag2 & -> & Hf2).
    { intros x Hx. apply Hqs. by right. }
    exists dag2. split; [done|]. by rewrite <- app_assoc in Hf2.
Qed.

Lemma push_back_all_app {A} (dag : list (list A)) a b (o : A) :
  push_back_all dag (a ++ b) o = dag' ← push_back_all dag a o; push_back_all dag' b o.
Proof.
  revert dag. induction a as [|q a IH]; intros dag; simpl; [done|].
  destruct (push_back_at dag q o); simpl; [apply IH|done].
Qed.























Lemma filled_lanes {A} n es (dag : list (list A)) :
  filled (replicate n []) es dag ->
  forall q, q < n -> dag !! q = Some (entries_on q es).
Proof.
  intros Hf q Hq. rewrite Hf, lookup_replicate_2 by done. done.
Qed.





(** ** swapReconstruction *)

Lemma at_ok {A} (v : list A) i a : v !! i = Some a -> at_ v i = Ok a.
Proof. intros H. unfold at_. by rewrite H. Qed.

Lemma push_back_at_ok (dag : DAG) q p lane :
  dag !! q = Some lane ->
  push_back_at dag q p = Ok (<[q := lane ++ [p]]> dag).
Proof. intros H. unfold push_back_at, at_. by rewrite H. Qed.

Lemma pop_back_at_ok (dag : DAG) q lane x :
  dag !! q = Some lane -> last lane = Some x ->
  pop_back_at dag q = Ok (<[q := removelast lane]> dag).
Proof.
  intros H Hl. unfold pop_back_at, at_. rewrite H. simpl.
  destruct lane; [discriminate|done].
Qed.

(** C1, as the code has it.  When the loop reaches a positive-control
    single-target CNOT and the last entry of both of its lanes is one and
    the same slot, holding the CNOT with control and target exchanged, the
    step turns that earlier operation into a SWAP whose targets are the two
    qubits in ascending order, and turns the current operation into the
    CNOT with control and target exchanged: it now has the direction of
    the earlier operation, not its own.  No other slot changes. *)
Theorem swapReconstruction_reversed_CNOT
    (v : list Operation) (dag : DAG) (p opC : nat) (control target : Qubit)
    (laneC laneT : list nat) :
  control ≠ target ->
  v !! p = Some (CNOT control target) ->
  dag !! control = Some laneC -> dag !! target = Some laneT ->
  last laneC = Some opC -> last laneT = Some opC ->
  v !! opC = Some (CNOT target control) ->
  exists v' dag',
    swapReconstruction_step (v, dag) p = Ok (v', dag')
    /\ v' !! opC = Some (SWAP_ (Nat.min control target) (Nat.max control target))
    /\ v' !! p = Some (CNOT target control)
    /\ forall i, i ≠ p -> i ≠ opC -> v' !! i = v !! i.
Proof.
  intros Hne Hp HlC HlT HlastC HlastT HopC.
  assert (Hpo : p ≠ opC).
  { intros ->. rewrite Hp in HopC. injection HopC as ? ?. by subst. }
  unfold swapReconstruction_step, subscript. rewrite Hp. simpl.
  rewrite (at_ok _ _ _ HlC). simpl. rewrite (at_ok _ _ _ HlT). simpl.
  rewrite HlastC, HlastT, HopC. simpl.
  rewrite !bool_decide_eq_true_2 by done. simpl.
  rewrite (bool_decide_eq_false_2 (control = target)) by done. simpl.
  rewrite (pop_back_at_ok _ _ _ _ HlC HlastC). simpl.
  assert (HlT1 : <[control := removelast laneC]> dag !! target = Some laneT).
  { by rewrite list_lookup_insert_ne. }
  rewrite (pop_back_at_ok _ _ _ _ HlT1 HlastT). simpl.
  set (dag2 := <[target := removelast laneT]> (<[control := removelast laneC]> dag)).
  set (ts := if decide (control < target) then [control; target] else [target; control]).
  assert (Hts : ts = [Nat.min control target; Nat.max control target]).
  { unfold ts. destruct (decide (control < target)).
    - by rewrite Nat.min_l, Nat.max_r by lia.
    - by rewrite Nat.min_r, Nat.max_l by lia. }
  assert (HltC : control < length dag) by (by eapply lookup_lt_Some).
  assert (HltT : target < length dag) by (by eapply lookup_lt_Some).
  assert (Hlen2 : length dag2 = length dag).
  { unfold dag2. by rewrite !length_insert. }
  unfold update_slot.
  assert (Hv1 : alter (fun o => clearControls (setTargets ts (setGate OpType.SWAP o)))
                  opC v !! opC
                = Some (SWAP_ (Nat.min control target) (Nat.max control target))).
  { rewrite list_lookup_alter_eq, HopC. simpl. by rewrite Hts. }
  rewrite Hv1. simpl. unfold addToDag. simpl.
  destruct (lookup_lt_is_Some_2 dag2 (Nat.min control target)) as [l1 Hl1]; [lia|].
  rewrite (push_back_at_ok _ _ _ _ Hl1). simpl.
  destruct (lookup_lt_is_Some_2
              (<[Nat.min control target := l1 ++ [opC]]> dag2)
              (Nat.max control target)) as [l2 Hl2]; [rewrite length_insert; lia|].
  rewrite (push_back_at_ok _ _ _ _ Hl2). simpl.
  set (dag3 := <[Nat.max control target := l2 ++ [opC]]> _).
  assert (Hlen3 : length dag3 = length dag).
  { unfold dag3. by rewrite !length_insert. }
  set (v1 := alter _ opC v) in *.
  assert (Hv2 : alter (fun o => setControls [Control_ target] (setTargets [control] o))
                  p v1 !! p = Some (CNOT target control)).
  { rewrite list_lookup_alter_eq. unfold v1.
    rewrite list_lookup_alter_ne by done. by rewrite Hp. }
  rewrite Hv2. simpl.
  destruct (lookup_lt_is_Some_2 dag3 target) as [l3 Hl3]; [lia|].
  rewrite (push_back_at_ok _ _ _ _ Hl3). simpl.
  destruct (lookup_lt_is_Some_2 (<[target := l3 ++ [p]]> dag3) control) as [l4 Hl4];
    [rewrite length_insert; lia|].
  rewrite (push_back_at_ok _ _ _ _ Hl4). simpl.
  eexists _, _. split; [reflexivity|]. split; [|split; [done|]].
  - rewrite list_lookup_alter_ne by done. exact Hv1.
  - intros i Hip Hio. unfold v1. by rewrite !list_lookup_alter_ne.
Qed.

Lemma swapReconstruction_reversed_CNOT_witness :
  exists v' dag',
    swapReconstruction_step ([CNOT 1 0; CNOT 0 1], [[0]; [0]]) 1 = Ok (v', dag')
    /\ v' !! 0 = Some (SWAP_ (Nat.min 0 1) (Nat.max 0 1))
    /\ v' !! 1 = Some (CNOT 1 0)
    /\ forall i, i ≠ 1 -> i ≠ 0 -> v' !! i = [CNOT 1 0; CNOT 0 1] !! i.
Proof.
  apply (swapReconstruction_reversed_CNOT
           [CNOT 1 0; CNOT 0 1] [[0]; [0]] 1 0 0 1 [0] [0]);
    (lia || reflexivity).
Defined.

(** C1, counterexample.  In [CNOT(1,0); CNOT(0,1)] the second operation has
    control 0 and target 1; the pass leaves a CNOT with control 1 and
    target 0 in its slot. *)
Lemma swapReconstruction_direction_counterexample :
  swapReconstruction_step ([CNOT 1 0; CNOT 0 1], [[0]; [0]]) 1
    = Ok ([SWAP_ 0 1; CNOT 1 0], [[0; 1]; [0; 1]])
  /\ swapReconstruction (circuit 2 [CNOT 1 0; CNOT 0 1])
     = Ok (circuit 2 [SWAP_ 0 1; CNOT 1 0])
  /\ firstControl (CNOT 1 0) ≠ firstControl (CNOT 0 1)
  /\ getTargets (CNOT 1 0) ≠ getTargets (CNOT 0 1).
Proof. repeat split; (reflexivity || discriminate). Qed.

(** ** deferMeasurements *)

Lemma constructed_NonUnitary o : constructed o -> is_dynamic_cast_NonUnitary o = true.
Proof.
  destruct 1 as [nq qs cs o Hc| | |]; try reflexivity.
  unfold NonUnitaryOperation_measure in Hc.
  destruct (decide _); [discriminate|]. by injection Hc as <-.
Qed.

Lemma defer_loop_multi_target fuel (v : list Operation) it (m : MeasureMap) o :
  v !! it = Some o -> constructed o -> getType o = OpType.Measure ->
  1 < length (getTargets o) ->
  defer_loop (S fuel) v it m = Throw (QFRException DeferMultiTargetMeasure).
Proof.
  intros Hv Hc Hty Hlen. simpl.
  rewrite bool_decide_eq_false_2 by (apply lookup_lt_Some in Hv; lia).
  unfold subscript. rewrite Hv. simpl.
  rewrite (constructed_NonUnitary o Hc), bool_decide_eq_true_2 by done. simpl.
  pose proof (constructed_lengths o Hc) as Heq.
  assert (Hq : getTargets o = getQubits o).
  { pose proof (constructed_NonUnitary o Hc) as Hnu.
    destruct o as [b|b cs|b nq qs cls|b op r e]; try discriminate.
    unfold getType in Hty. cbn [getTargets getQubits base] in *.
    by rewrite decide_True. }
  rewrite Hq in *.
  rewrite !bool_decide_eq_false_2 by lia. done.
Qed.

Lemma defer_loop_step_over fuel (v : list Operation) it (m : MeasureMap) o :
  v !! it = Some o -> isMeasurement o = false ->
  defer_loop (S fuel) v it m = defer_loop fuel v (it + 1) m.
Proof.
  intros Hv Hm. simpl.
  rewrite bool_decide_eq_false_2 by (apply lookup_lt_Some in Hv; lia).
  unfold subscript. rewrite Hv. simpl. fold (isMeasurement o). by rewrite Hm.
Qed.

Lemma defer_loop_prefix fuel (pre post : list Operation) o (m : MeasureMap) k :
  Forall (fun x => isMeasurement x = false) (drop k pre) -> k ≤ length pre ->
  constructed o -> getType o = OpType.Measure -> 1 < length (getTargets o) ->
  length pre - k < fuel ->
  defer_loop fuel (pre ++ o :: post) k m = Throw (QFRException DeferMultiTargetMeasure).
Proof.
  intros Hpre Hk Hc Hty Hlen. revert k Hpre Hk.
  induction fuel as [|fuel IH]; intros k Hpre Hk Hfuel; [lia|].
  destruct (decide (k = length pre)) as [->|Hne].
  - apply (defer_loop_multi_target _ _ _ _ o); try done.
    by rewrite list_lookup_middle.
  - destruct (lookup_lt_is_Some_2 pre k) as [x Hx]; [lia|].
    rewrite (defer_loop_step_over _ _ _ _ x).
    + replace (k + 1) with (S k) by lia. apply IH; [|lia|lia].
      rewrite (drop_S _ _ _ Hx) in Hpre. by inversion Hpre.
    + by rewrite lookup_app_l by lia.
    + rewrite (drop_S _ _ _ Hx) in Hpre. by inversion Hpre.
Qed.

(** The guard of the pass.  Whenever the cursor of the pass stands on a
    Measure with more than one target qubit, the pass throws the
    unsupported-shape error instead of deferring it; in particular the pass
    throws on every circuit whose first measurement is such a Measure.  The
    Measure is one a constructor can return, so its qubits and bits agree in
    number. *)
Lemma deferMeasurements_guard :
  (forall fuel (v : list Operation) it (m : MeasureMap) o,
     v !! it = Some o -> constructed o -> getType o = OpType.Measure ->
     1 < length (getTargets o) ->
     defer_loop (S fuel) v it m = Throw (QFRException DeferMultiTargetMeasure))
  /\ (forall initializeIOMapping measurement_order qc pre o post,
        ops qc = pre ++ o :: post ->
        Forall (fun x => isMeasurement x = false) pre ->
        constructed o -> getType o = OpType.Measure -> 1 < length (getTargets o) ->
        deferMeasurements initializeIOMapping measurement_order qc
          = Throw (QFRException DeferMultiTargetMeasure)).
Proof.
  split; [apply defer_loop_multi_target|].
  intros io mo qc pre o post Hops Hpre Hc Hty Hlen.
  unfold deferMeasurements. rewrite Hops.
  rewrite (defer_loop_prefix _ pre post o ∅ 0); try done.
  - lia.
  - rewrite length_app. simpl. lia.
Qed.

(** The end of the pass when one measurement has been deferred: the output
    permutation is cleared and the measurement is appended, whatever the
    order of the iteration over the map. *)
Lemma deferMeasurements_one
    (initializeIOMapping : QuantumComputation -> QuantumComputation)
    (measurement_order : MeasureMap -> list (Qubit * nat))
    (qc : QuantumComputation) (v : list Operation) (q : Qubit) (c : nat) :
  (forall m, measurement_order m ≡ₚ map_to_list m) ->
  defer_loop (S (length (ops qc))) (ops qc) 0 ∅ = Ok (v, {[q := c]}) ->
  deferMeasurements initializeIOMapping measurement_order qc
  = Ok (initializeIOMapping
          (mkQC (v ++ [NonUnitaryOperation_measure1 (nqubits qc) q c])
             (nqubits qc) (initialLayout qc) ∅)).
Proof.
  intros Hperm Hloop. unfold deferMeasurements. rewrite Hloop. simpl mbind.
  rewrite bool_decide_eq_false_2 by apply insert_non_empty.
  pose proof (Hperm {[q := c]}) as Hp. rewrite map_to_list_singleton in Hp.
  apply Permutation_singleton_r in Hp. rewrite Hp. reflexivity.
Qed.

(** C4, on the code.  A Measure of two qubits is rejected when the cursor
    of the pass comes to stand on it, as when it is the first measurement of
    the circuit.  It is not rejected when it directly follows a measurement
    the pass defers: the scan that follows the erased measurement passes
    it, the cursor steps over it, and the pass returns with the Measure left
    in place and no error.  The same step over the successor of an erased
    measurement leaves a Measure of one qubit in place that the pass defers
    when it comes first. *)
Theorem deferMeasurements_multi_target_skipped
    (initializeIOMapping : QuantumComputation -> QuantumComputation)
    (measurement_order : MeasureMap -> list (Qubit * nat)) :
  (forall m, measurement_order m ≡ₚ map_to_list m) ->
  constructed (NonUnitaryOperation (mkBase OpType.Measure [] []) 3 [1; 2] [1; 2])
  /\ 1 < length (getTargets
                   (NonUnitaryOperation (mkBase OpType.Measure [] []) 3 [1; 2] [1; 2]))
  /\ deferMeasurements initializeIOMapping measurement_order
       (circuit 3 [NonUnitaryOperation (mkBase OpType.Measure [] []) 3 [1; 2] [1; 2];
                   NonUnitaryOperation_measure1 3 0 0])
     = Throw (QFRException DeferMultiTargetMeasure)
  /\ deferMeasurements initializeIOMapping measurement_order
       (circuit 3 [NonUnitaryOperation_measure1 3 0 0;
                   NonUnitaryOperation (mkBase OpType.Measure [] []) 3 [1; 2] [1; 2]])
     = Ok (initializeIOMapping
             (mkQC [NonUnitaryOperation (mkBase OpType.Measure [] []) 3 [1; 2] [1; 2];
                    NonUnitaryOperation_measure1 3 0 0]
                3 (identityLayout 3) ∅))
  /\ deferMeasurements initializeIOMapping measurement_order
       (circuit 3 [NonUnitaryOperation_measure1 3 0 0;
                   NonUnitaryOperation_measure1 3 1 1; X_ 1])
     = Ok (initializeIOMapping
             (mkQC [NonUnitaryOperation_measure1 3 1 1; X_ 1;
                    NonUnitaryOperation_measure1 3 0 0]
                3 (identityLayout 3) ∅))
  /\ deferMeasurements initializeIOMapping measurement_order
       (circuit 3 [NonUnitaryOperation_measure1 3 1 1; X_ 1])
     = Ok (initializeIOMapping
             (mkQC [X_ 1; NonUnitaryOperation_measure1 3 1 1]
                3 (identityLayout 3) ∅)).
Proof.
  intros Hperm.
  split; [by apply (constructed_measure 3 [1; 2] [1; 2])|].
  split; [simpl; lia|].
  split; [reflexivity|].
  split; [|split].
  - by apply (deferMeasurements_one initializeIOMapping measurement_order
                (circuit 3 _) [_] 0 0 Hperm).
  - by apply (deferMeasurements_one initializeIOMapping measurement_order
                (circuit 3 _) [_; _] 0 0 Hperm).
  - by apply (deferMeasurements_one initializeIOMapping measurement_order
                (circuit 3 _) [_] 1 1 Hperm).
Qed.

Lemma deferMeasurements_multi_target_skipped_witness :
  deferMeasurements (fun qc => qc) map_to_list
    (circuit 3 [NonUnitaryOperation_measure1 3 0 0;
                NonUnitaryOperation (mkBase OpType.Measure [] []) 3 [1; 2] [1; 2]])
  = Ok (mkQC [NonUnitaryOperation (mkBase OpType.Measure [] []) 3 [1; 2] [1; 2];
              NonUnitaryOperation_measure1 3 0 0]
          3 (identityLayout 3) ∅).
Proof.
  apply (deferMeasurements_multi_target_skipped (fun qc => qc) map_to_list).
  intros m. reflexivity.
Defined.

(** C5, on the code.  A classic-controlled operation on a register of two
    bits is rejected when it expects the value 1, but with the expected
    value 2 the pass goes on and turns it into a gate with a negative
    control on the measured qubit. *)
Lemma deferMeasurements_multi_bit_expected_2
    (initializeIOMapping : QuantumComputation -> QuantumComputation)
    (measurement_order : MeasureMap -> list (Qubit * nat)) :
  (forall m, measurement_order m ≡ₚ map_to_list m) ->
  deferMeasurements initializeIOMapping measurement_order
    (circuit 2 [NonUnitaryOperation_measure1 2 0 0; ClassicControlled_ (X_ 1) (0, 2) 2])
  = Ok (initializeIOMapping
          (mkQC [StandardN [Control.mk 0 Control.Neg] [1] OpType.X;
                 NonUnitaryOperation_measure1 2 0 0]
             2 (identityLayout 2) ∅))
  /\ deferMeasurements initializeIOMapping measurement_order
       (circuit 2 [NonUnitaryOperation_measure1 2 0 0; ClassicControlled_ (X_ 1) (0, 2) 1])
     = Throw (QFRException DeferMultiBitClassic).
Proof.
  intros Hperm. split; [|reflexivity].
  by apply (deferMeasurements_one initializeIOMapping measurement_order
              (circuit 2 _) [_] 0 0 Hperm).
Qed.

Lemma deferMeasurements_multi_bit_expected_2_witness :
  deferMeasurements (fun qc => qc) map_to_list
    (circuit 2 [NonUnitaryOperation_measure1 2 0 0; ClassicControlled_ (X_ 1) (0, 2) 2])
  = Ok (mkQC [StandardN [Control.mk 0 Control.Neg] [1] OpType.X;
              NonUnitaryOperation_measure1 2 0 0]
          2 (identityLayout 2) ∅).
Proof.
  apply (deferMeasurements_multi_bit_expected_2 (fun qc => qc) map_to_list).
  intros m. reflexivity.
Defined.

(** ** reorderOperations *)

Lemma push_back_at_inv {A} (dag dag' : list (list A)) q (p : A) :
  push_back_at dag q p = Ok dag' -> q < length dag.
Proof.
  unfold push_back_at, at_. destruct (dag !! q) eqn:Hq; [|discriminate].
  intros _. by eapply lookup_lt_Some.
Qed.

Lemma push_back_all_inv {A} (dag0 : list (list A)) es dag dag' qs (p : A) :
  filled dag0 es dag -> push_back_all dag qs p = Ok dag' ->
  (forall q, q ∈ qs -> q < length dag0)
  /\ filled dag0 (es ++ map (fun q => (q, p)) qs) dag'.
Proof.
  revert es dag. induction qs as [|q qs IH]; intros es dag Hf Hp; simpl in *.
  - injection Hp as <-. split; [by intros ? ?%elem_of_nil|by rewrite app_nil_r].
  - destruct (push_back_at dag q p) as [dag1|] eqn:H1; [|discriminate]. simpl in Hp.
    pose proof (push_back_at_inv _ _ _ _ H1) as Hq.
    rewrite (filled_length _ _ _ Hf) in Hq.
    destruct (push_back_at_filled dag0 es dag q p Hf Hq) as (dag1' & H1' & Hf1).
    rewrite H1 in H1'. injection H1' as <-.
    destruct (IH _ _ Hf1 Hp) as [Hr Hf2]. split.
    + intros x [->|Hx]%elem_of_cons; [done|by apply Hr].
    + by rewrite <- app_assoc in Hf2.
Qed.

Lemma constructDAG_step_eq (v : list Operation) (dag : DAG) p o :
  v !! p = Some o ->
  constructDAG_step v dag p = push_back_all dag (dagQubits o) p.
Proof.
  intros Hv. unfold constructDAG_step, subscript. rewrite Hv. simpl.
  destruct o; simpl; unfold addToDag; simpl; try done;
    by rewrite push_back_all_app.
Qed.

Lemma constructDAG_steps_inv (v : list Operation) (dag0 : DAG) es dag dag' ps :
  filled dag0 es dag ->
  for_each (constructDAG_step v) dag ps = Ok dag' ->
  Forall (fun p => p < length v) ps
  /\ (forall q x, (q, x) ∈ dagEntries v ps -> q < length dag0)
  /\ filled dag0 (es ++ dagEntries v ps) dag'.
Proof.
  revert es dag. induction ps as [|p ps IH]; intros es dag Hf Hs; simpl in *.
  - injection Hs as <-. split; [constructor|]. split; [by intros ? ? ?%elem_of_nil|].
    by rewrite app_nil_r.
  - destruct (constructDAG_step v dag p) as [dag1|] eqn:H1; [|discriminate].
    simpl in Hs.
    destruct (v !! p) as [o|] eqn:Hv.
    2:{ unfold constructDAG_step, subscript in H1. by rewrite Hv in H1. }
    rewrite (constructDAG_step_eq _ _ _ _ Hv) in H1.
    destruct (push_back_all_inv dag0 es dag dag1 _ p Hf H1) as [Hr1 Hf1].
    destruct (IH _ _ Hf1 Hs) as (Hlt & Hr2 & Hf2).
    split; [constructor; [by eapply lookup_lt_Some|done]|].
    unfold dagEntries in *. simpl. unfold slotEntries at 1 3. rewrite Hv. split.
    + intros q x [Hx|Hx]%elem_of_app; [|by eapply Hr2].
      apply list_elem_of_fmap in Hx as (q' & [= -> ->] & Hq'). by apply Hr1.
    + by rewrite app_assoc.
Qed.

Lemma constructDAG_steps_ok (v : list Operation) (dag0 : DAG) es dag ps :
  filled dag0 es dag ->
  Forall (fun p => p < length v) ps ->
  (forall q x, (q, x) ∈ dagEntries v ps -> q < length dag0) ->
  exists dag', for_each (constructDAG_step v) dag ps = Ok dag'
               /\ filled dag0 (es ++ dagEntries v ps) dag'.
Proof.
  revert es dag. induction ps as [|p ps IH]; intros es dag Hf Hlt Hr; simpl.
  - exists dag. by rewrite app_nil_r.
  - inversion Hlt as [|? ? Hp Hps]; subst.
    destruct (lookup_lt_is_Some_2 v p Hp) as [o Hv].
    rewrite (constructDAG_step_eq _ _ _ _ Hv).
    unfold dagEntries in *. simpl in Hr. unfold slotEntries at 1 in Hr.
    rewrite Hv in Hr.
    destruct (push_back_all_filled dag0 es dag (dagQubits o) p Hf) as (dag1 & -> & Hf1).
    { intros q Hq. apply (Hr q p). apply elem_of_app. left.
      apply list_elem_of_fmap. by exists q. }
    simpl. destruct (IH _ _ Hf1 Hps) as (dag2 & -> & Hf2).
    { intros q x Hx. apply (Hr q x). apply elem_of_app. by right. }
    exists dag2. split; [done|]. simpl. unfold slotEntries at 1. rewrite Hv.
    by rewrite app_assoc.
Qed.


Lemma bind_Ok {A B} (a : A) (k : A -> result B) : (Ok a ≫= k) = k a.
Proof. reflexivity. Qed.

Lemma at_fmap {A B} (g : A -> B) (l : list A) i :
  at_ (map g l) i = match l !! i with Some x => Ok (g x) | None => Throw out_of_range end.
Proof. unfold at_. rewrite list_lookup_fmap. by destruct (l !! i). Qed.

Lemma subscript_fmap {A B} (g : A -> B) (l : list A) i :
  subscript (map g l) i
  = match l !! i with Some x => Ok (g x) | None => Throw UndefinedBehaviour end.
Proof. unfold subscript. rewrite list_lookup_fmap. by destruct (l !! i). Qed.

Lemma subscript_ok {A} (v : list A) i a : v !! i = Some a -> subscript v i = Ok a.
Proof. intros H. unfold subscript. by rewrite H. Qed.

Lemma at_inv {A} (v : list A) i a : at_ v i = Ok a -> v !! i = Some a.
Proof. unfold at_. destruct (v !! i); [by intros [= ->]|discriminate]. Qed.

Lemma subscript_inv {A} (v : list A) i a : subscript v i = Ok a -> v !! i = Some a.
Proof. unfold subscript. destruct (v !! i); [by intros [= ->]|discriminate]. Qed.

Lemma reorder_executable_true dag iters o q p qbs :
  reorder_executable dag iters o q p qbs = Ok true ->
  forall qb, qb ∈ qbs -> qb ≠ q -> actsOn o qb = true ->
    exists it lane, iters !! qb = Some it /\ dag !! qb = Some lane /\ lane !! it = Some p.
Proof.
  induction qbs as [|x qbs IH]; intros He qb Hin Hne Hact; simpl in He.
  - by apply elem_of_nil in Hin.
  - destruct (negb (bool_decide (x = q)) && actsOn o x) eqn:Hc.
    + destruct (at_ iters x) as [itx|] eqn:H1; [|discriminate]. simpl in He.
      destruct (at_ dag x) as [lane|] eqn:H2; [|discriminate]. simpl in He.
      destruct (subscript lane itx) as [p'|] eqn:H3; [|discriminate]. simpl in He.
      destruct (bool_decide (p' = p)) eqn:Hp; [|discriminate]. simpl in He.
      apply bool_decide_eq_true in Hp as ->.
      apply elem_of_cons in Hin as [->|Hin]; [|by apply IH].
      exists itx, lane. by rewrite (at_inv _ _ _ H1), (at_inv _ _ _ H2), (subscript_inv _ _ _ H3).
    + apply elem_of_cons in Hin as [->|Hin]; [|by apply IH].
      rewrite Hact, andb_true_r in Hc. apply negb_false_iff, bool_decide_eq_true in Hc.
      done.
Qed.

Lemma passed_app q tr1 tr2 : passed q (tr1 ++ tr2) = passed q tr1 ++ passed q tr2.
Proof. unfold passed. by rewrite filter_app, map_app. Qed.

Lemma passed_single q p a :
  passed q [(p, a)] = if decide (a !! q = Some true) then [p] else [].
Proof.
  unfold passed. destruct (decide (a !! q = Some true)).
  - by rewrite filter_cons_True.
  - by rewrite filter_cons_False.
Qed.

Lemma reorder_actsOn_lookup n o q x :
  x < n -> reorder_actsOn n o q !! x = Some (bool_decide (x = q) || actsOn o x).
Proof.
  intros Hx. unfold reorder_actsOn. rewrite list_lookup_fmap.
  by rewrite lookup_seq_lt.
Qed.

Lemma reorder_advance_lookup (acts : list bool) (iters : list nat) x (a : bool) it :
  acts !! x = Some a -> iters !! x = Some it ->
  reorder_advance acts iters !! x = Some (if a then it + 1 else it).
Proof.
  intros Ha Hi. unfold reorder_advance. rewrite lookup_zip_with, Ha. simpl.
  by rewrite Hi.
Qed.

Lemma reorder_qubit_inv v dag r d q r' d' tr :
  ReorderInv v dag r tr ->
  reorder_qubit dag (r, d) q = Ok (r', d') ->
  (r' = r /\ d' = d /\ at_end dag r q)
  \/ (r' = r /\ d' = false)
  \/ (d' = false /\ moved r' = true
      /\ exists p a o, ReorderInv v dag r' (tr ++ [(p, a)])
                       /\ newOps r' = newOps r ++ [o]).
Proof.
  intros Hinv Hq. unfold reorder_qubit in Hq.
  destruct (at_ (dagIterators r) q) as [it|] eqn:Hit; [|discriminate]. simpl in Hq.
  destruct (at_ dag q) as [lane|] eqn:Hlane; [|discriminate]. simpl in Hq.
  apply at_inv in Hit, Hlane.
  destruct (bool_decide (it = length lane)) eqn:Hend.
  { apply bool_decide_eq_true in Hend as ->. injection Hq as <- <-.
    left. repeat split. by exists lane. }
  apply bool_decide_eq_false in Hend.
  destruct (subscript lane it) as [p|] eqn:Hp; [|discriminate]. simpl in Hq.
  destruct (subscript (slots r) p) as [slot|] eqn:Hslot; [|discriminate]. simpl in Hq.
  apply subscript_inv in Hp, Hslot.
  destruct slot as [o|]; [|discriminate].
  destruct (reorder_executable _ _ _ _ _ _) as [ex|] eqn:Hex; [|discriminate].
  simpl in Hq. destruct ex; simpl in Hq; injection Hq as <- <-.
  2:{ right. left. done. }
  right. right. split; [done|]. split; [done|].
  set (a := reorder_actsOn (length dag) o q).
  exists p, a, o. split; [|done].
  destruct Hinv as [Hops Hnd Hsl Hsll Hil Hi].
  assert (Hpv : v !! p = Some o /\ p ∉ map fst tr).
  { destruct (lookup_lt_is_Some_2 v p) as [o' Ho'].
    { rewrite <- Hsll. by eapply lookup_lt_Some. }
    specialize (Hsl p o' Ho'). rewrite Hslot in Hsl.
    destruct (decide (p ∈ map fst tr)); [discriminate|].
    by injection Hsl as ->. }
  destruct Hpv as [Hvp Hnin].
  constructor; simpl.
  - apply Forall2_app; [done|]. by repeat constructor.
  - rewrite map_app. simpl. apply NoDup_app. split; [done|]. split.
    + intros x Hx [->|[]%elem_of_nil]%elem_of_cons. done.
    + apply NoDup_singleton.
  - intros p' o' Hv'. rewrite map_app. simpl.
    destruct (decide (p' = p)) as [->|Hne].
    + rewrite list_lookup_insert_eq by (by eapply lookup_lt_Some).
      rewrite decide_True; [done|]. apply elem_of_app. right. by left.
    + rewrite list_lookup_insert_ne by done. rewrite (Hsl p' o' Hv').
      destruct (decide (p' ∈ map fst tr)) as [Hin|Hin].
      * rewrite decide_True; [done|]. apply elem_of_app. by left.
      * rewrite decide_False; [done|].
        intros [?|[?|[]%elem_of_nil]%elem_of_cons]%elem_of_app; done.
  - by rewrite length_insert.
  - unfold reorder_advance, a, reorder_actsOn. rewrite length_zip_with.
    rewrite length_map, length_seq. lia.
  - intros x lx itx' Hlx Hitx'.
    assert (Hxlt : x < length dag) by (by eapply lookup_lt_Some).
    destruct (lookup_lt_is_Some_2 (dagIterators r) x) as [itx Hitx]; [lia|].
    unfold a in Hitx'.
    rewrite (reorder_advance_lookup _ _ _ _ itx
               (reorder_actsOn_lookup _ o q x Hxlt) Hitx) in Hitx'.
    injection Hitx' as <-.
    destruct (Hi x lx itx Hlx Hitx) as [Hle Htake].
    rewrite passed_app, passed_single. unfold a.
    rewrite (reorder_actsOn_lookup _ o q x Hxlt).
    destruct (bool_decide (x = q) || actsOn o x) eqn:Hax.
    + rewrite decide_True by done.
      assert (Hlxp : lx !! itx = Some p).
      { destruct (decide (x = q)) as [Heq|Hne].
        - subst x. assert (lx = lane) by congruence.
          assert (itx = it) by congruence. by subst.
        - rewrite bool_decide_eq_false_2 in Hax by done. simpl in Hax.
          destruct (reorder_executable_true _ _ _ _ _ _ Hex x) as (i' & l' & H1 & H2 & H3);
            [|done|done|].
          + apply list_elem_of_In, in_rev. rewrite rev_involutive.
            apply in_seq. lia.
          + assert (l' = lx) by congruence. assert (i' = itx) by congruence.
            by subst. }
      split; [apply lookup_lt_Some in Hlxp; lia|].
      replace (itx + 1) with (S itx) by lia.
      by rewrite (take_S_r _ _ _ Hlxp), Htake.
    + rewrite decide_False by (intros [=]). by rewrite app_nil_r.
Qed.

Lemma for_each_cons {S} (f : S -> nat -> result S) s p ps :
  for_each f s (p :: ps) = s' ← f s p; for_each f s' ps.
Proof. reflexivity. Qed.

Lemma reorder_while_S fuel dag r :
  reorder_while (S fuel) dag r =
  '(r', done) ← for_each (reorder_qubit dag)
                  (mkReorder (slots r) (dagIterators r) (newOps r) false, true)
                  (rev (seq 0 (length dag)));
  if done : bool then Ok r'
  else if negb (moved r') then Throw NonTermination
  else reorder_while fuel dag r'.
Proof. reflexivity. Qed.

Lemma reorder_qubit_unfold dag r d q :
  reorder_qubit dag (r, d) q =
  (it ← at_ (dagIterators r) q;
   lane ← at_ dag q;
   if bool_decide (it = length lane) then Ok (r, d)
   else
     p ← subscript lane it;
     slot ← subscript (slots r) p;
     match slot with
     | None => Throw UndefinedBehaviour
     | Some o =>
         executable ← reorder_executable dag (dagIterators r) o q p
                         (rev (seq 0 (length dag)));
         if negb executable then Ok (r, false)
         else
           Ok (mkReorder (<[p := None]> (slots r))
                 (reorder_advance (reorder_actsOn (length dag) o q) (dagIterators r))
                 (newOps r ++ [o]) true,
               false)
     end).
Proof. reflexivity. Qed.

Lemma reorder_qubit_mono dag r d q r' d' :
  reorder_qubit dag (r, d) q = Ok (r', d') ->
  length (newOps r) ≤ length (newOps r')
  /\ (moved r' = true -> moved r = true \/ length (newOps r) < length (newOps r')).
Proof.
  intros Hq. unfold reorder_qubit in Hq.
  destruct (at_ (dagIterators r) q) as [it|]; [|discriminate]. simpl in Hq.
  destruct (at_ dag q) as [lane|]; [|discriminate]. simpl in Hq.
  destruct (bool_decide (it = length lane)).
  { injection Hq as <- <-. split; [lia|by left]. }
  destruct (subscript lane it) as [p|]; [|discriminate]. simpl in Hq.
  destruct (subscript (slots r) p) as [[o|]|]; try discriminate. simpl in Hq.
  destruct (reorder_executable _ _ _ _ _ _) as [[|]|]; simpl in Hq;
    try discriminate; injection Hq as <- <-; simpl.
  - rewrite length_app. simpl. split; [lia|]. intros _. right. lia.
  - split; [lia|by left].
Qed.

Lemma reorder_sweep_mono dag qs r d r' d' :
  for_each (reorder_qubit dag) (r, d) qs = Ok (r', d') ->
  length (newOps r) ≤ length (newOps r')
  /\ (moved r' = true -> moved r = true \/ length (newOps r) < length (newOps r')).
Proof.
  revert r d. induction qs as [|q qs IH]; intros r d Hs.
  - injection Hs as <- <-. split; [lia|by left].
  - rewrite for_each_cons in Hs.
    destruct (reorder_qubit dag (r, d) q) as [[r1 d1]|] eqn:H1; [|discriminate].
    simpl in Hs. destruct (reorder_qubit_mono _ _ _ _ _ _ H1) as [Hle1 Hm1].
    destruct (IH _ _ Hs) as [Hle2 Hm2]. split; [lia|].
    intros Hm. destruct (Hm2 Hm) as [Hm'|Hlt]; [|right; lia].
    destruct (Hm1 Hm') as [?|?]; [by left|right; lia].
Qed.

Lemma reorder_sweep_inv v dag qs r d r' d' tr :
  ReorderInv v dag r tr ->
  for_each (reorder_qubit dag) (r, d) qs = Ok (r', d') ->
  (exists tr', ReorderInv v dag r' tr')
  /\ (d' = true -> d = true /\ r' = r /\ forall q, q ∈ qs -> at_end dag r q).
Proof.
  revert r d tr. induction qs as [|q qs IH]; intros r d tr Hinv Hs.
  - injection Hs as <- <-. split; [by exists tr|].
    intros ->. repeat split. by intros ? ?%elem_of_nil.
  - rewrite for_each_cons in Hs.
    destruct (reorder_qubit dag (r, d) q) as [[r1 d1]|] eqn:H1; [|discriminate].
    simpl in Hs.
    destruct (reorder_qubit_inv _ _ _ _ _ _ _ _ Hinv H1)
      as [(-> & -> & Hend)|[(-> & ->)|(-> & _ & p & a & o & Hinv1 & _)]].
    + destruct (IH _ _ _ Hinv Hs) as [Hex Hd]. split; [done|].
      intros Hd'. destruct (Hd Hd') as (-> & -> & Hall). repeat split.
      intros x [->|Hx]%elem_of_cons; [done|by apply Hall].
    + destruct (IH _ _ _ Hinv Hs) as [Hex Hd]. split; [done|].
      intros Hd'. by destruct (Hd Hd') as (? & _).
    + destruct (IH _ _ _ Hinv1 Hs) as [Hex Hd]. split; [done|].
      intros Hd'. by destruct (Hd Hd') as (? & _).
Qed.

Lemma ReorderInv_moved v dag r tr b :
  ReorderInv v dag r tr ->
  ReorderInv v dag (mkReorder (slots r) (dagIterators r) (newOps r) b) tr.
Proof. intros [? ? ? ? ? ?]. by constructor. Qed.

Lemma reorder_while_inv v dag fuel r res tr :
  ReorderInv v dag r tr ->
  reorder_while fuel dag r = Ok res ->
  (exists tr', ReorderInv v dag res tr')
  /\ forall q, q < length dag -> at_end dag res q.
Proof.
  revert r tr. induction fuel as [|fuel IH]; intros r tr Hinv Hw; [discriminate|].
  rewrite reorder_while_S in Hw.
  destruct (for_each _ _ _) as [[r1 d1]|] eqn:Hs; [|discriminate].
  simpl in Hw.
  destruct (reorder_sweep_inv _ _ _ _ _ _ _ _ (ReorderInv_moved _ _ _ _ false Hinv) Hs)
    as [[tr1 Hinv1] Hd].
  destruct d1.
  - injection Hw as <-. split; [by exists tr1|].
    destruct (Hd eq_refl) as (_ & -> & Hall).
    intros q Hq. apply Hall. apply list_elem_of_In, in_rev. rewrite rev_involutive.
    apply in_seq. lia.
  - destruct (moved r1); [|discriminate]. simpl in Hw. by apply (IH _ _ Hinv1).
Qed.

Lemma reorder_while_fuel dag fuel r res :
  reorder_while fuel dag r = Ok res ->
  length (newOps r) ≤ length (newOps res)
  /\ forall fuel', length (newOps res) - length (newOps r) < fuel' ->
       reorder_while fuel' dag r = Ok res.
Proof.
  revert r. induction fuel as [|fuel IH]; intros r Hw; [discriminate|].
  rewrite reorder_while_S in Hw.
  destruct (for_each _ _ _) as [[r1 d1]|] eqn:Hs; [|discriminate].
  simpl in Hw.
  destruct (reorder_sweep_mono _ _ _ _ _ _ Hs) as [Hle Hm]. simpl in Hle, Hm.
  destruct d1.
  - injection Hw as <-. split; [done|]. intros [|fuel'] Hf; [lia|].
    rewrite reorder_while_S. by rewrite Hs.
  - destruct (moved r1) eqn:Hmv; [|discriminate]. simpl in Hw.
    destruct (IH _ Hw) as [Hle' Hfuel].
    destruct (Hm eq_refl) as [|Hlt]; [discriminate|].
    split; [lia|]. intros [|fuel'] Hf; [lia|].
    rewrite reorder_while_S, Hs. simpl. rewrite Hmv. simpl. apply Hfuel. lia.
Qed.


Lemma entries_on_flat_map {A B} q (g : B -> list (Qubit * A)) (ps : list B) :
  entries_on q (flat_map g ps) = flat_map (fun p => entries_on q (g p)) ps.
Proof.
  induction ps as [|p ps IH]; simpl; [done|].
  by rewrite entries_on_app, IH.
Qed.

Lemma entries_on_slot v q p :
  entries_on q (slotEntries v p) = replicate (laneCount v q p) p.
Proof.
  unfold slotEntries, laneCount. destruct (v !! p) as [o|]; [|done].
  unfold entries_on. induction (dagQubits o) as [|x xs IH]; simpl; [done|].
  destruct (decide (x = q)) as [->|Hne].
  - rewrite filter_cons_True by done. rewrite (filter_cons_True (fun x => x = q)) by done.
    simpl. by rewrite IH.
  - rewrite filter_cons_False by done. rewrite (filter_cons_False (fun x => x = q)) by done.
    done.
Qed.

Lemma lane_over v q ps :
  entries_on q (dagEntries v ps) = flat_map (fun p => replicate (laneCount v q p) p) ps.
Proof.
  unfold dagEntries. rewrite entries_on_flat_map.
  induction ps as [|p ps IH]; simpl; [done|]. by rewrite entries_on_slot, IH.
Qed.

Lemma elem_of_lane_over v q ps p :
  p ∈ flat_map (fun p => replicate (laneCount v q p) p) ps
  <-> p ∈ ps /\ 0 < laneCount v q p.
Proof.
  rewrite list_elem_of_In, in_flat_map. split.
  - intros (p' & Hp' & Hin). apply list_elem_of_In, elem_of_replicate in Hin as [-> Hc].
    split; [by apply list_elem_of_In|lia].
  - intros [Hp Hc]. exists p. split; [by apply list_elem_of_In|].
    apply list_elem_of_In, elem_of_replicate. split; [done|lia].
Qed.

Lemma NoDup_lane_over v q ps p :
  NoDup (flat_map (fun p => replicate (laneCount v q p) p) ps) ->
  p ∈ ps -> laneCount v q p ≤ 1.
Proof.
  intros Hnd Hp. apply list_elem_of_split in Hp as (ps1 & ps2 & ->).
  rewrite flat_map_app in Hnd. simpl in Hnd.
  apply NoDup_app in Hnd as (_ & _ & Hnd). apply NoDup_app in Hnd as (Hnd & _ & _).
  destruct (laneCount v q p) as [|[|c]]; [lia|lia|].
  simpl in Hnd. inversion Hnd as [|? ? Hnin _]; subst.
  exfalso. apply Hnin. by left.
Qed.

Lemma passed_flat_map q tr :
  passed q tr = flat_map (fun e => if decide (e.2 !! q = Some true) then [e.1] else []) tr.
Proof.
  induction tr as [|e tr IH]; [done|].
  change (e :: tr) with ([e] ++ tr). rewrite passed_app, IH. simpl.
  destruct e as [p a]. by rewrite passed_single.
Qed.

Lemma elem_of_passed q tr p :
  p ∈ passed q tr <-> exists a, (p, a) ∈ tr /\ a !! q = Some true.
Proof.
  unfold passed. rewrite list_elem_of_fmap. split.
  - intros ([p' a] & -> & Hin). apply list_elem_of_filter in Hin as [Ha Hin].
    by exists a.
  - intros (a & Hin & Ha). exists (p, a). split; [done|].
    by apply list_elem_of_filter.
Qed.

Lemma NoDup_passed q tr : NoDup (map fst tr) -> NoDup (passed q tr).
Proof.
  intros Hnd. unfold passed. induction tr as [|e tr IH]; [constructor|].
  simpl in Hnd. inversion Hnd as [|? ? Hnin Hnd']; subst.
  destruct (decide (e.2 !! q = Some true)).
  - rewrite filter_cons_True by done. simpl. constructor; [|by apply IH].
    intros Hin. apply Hnin. apply list_elem_of_fmap in Hin as (e' & -> & He').
    apply list_elem_of_filter in He' as [_ He']. apply list_elem_of_fmap. by exists e'.
  - rewrite filter_cons_False by done. by apply IH.
Qed.

Lemma flat_map_fmap {A B C} (g : B -> list C) (h : A -> B) (l : list A) :
  flat_map g (map h l) = flat_map (fun x => g (h x)) l.
Proof. induction l as [|x l IH]; simpl; [done|]. by rewrite IH. Qed.

Lemma flat_map_ext_elem {A B} (g h : A -> list B) (l : list A) :
  (forall x, x ∈ l -> g x = h x) -> flat_map g l = flat_map h l.
Proof.
  induction l as [|x l IH]; intros Hgh; simpl; [done|].
  rewrite Hgh by (by left). rewrite IH; [done|].
  intros y Hy. apply Hgh. by right.
Qed.

Lemma lane_over_order v q tr ps :
  NoDup (map fst tr) ->
  (forall e, e ∈ tr -> e.1 ∈ ps) ->
  flat_map (fun p => replicate (laneCount v q p) p) ps = passed q tr ->
  flat_map (fun p => replicate (laneCount v q p) p) (map fst tr) = passed q tr.
Proof.
  intros Hnd Hin HL. rewrite passed_flat_map.
  rewrite flat_map_fmap.
  apply flat_map_ext_elem. intros [p a] He. simpl.
  pose proof (NoDup_passed q tr Hnd) as HndL. rewrite <- HL in HndL.
  pose proof (NoDup_lane_over v q ps p HndL (Hin _ He)) as Hle.
  destruct (decide (a !! q = Some true)) as [Ha|Ha].
  - assert (Hp : p ∈ passed q tr) by (apply elem_of_passed; by exists a).
    rewrite <- HL in Hp. apply elem_of_lane_over in Hp as [_ Hc].
    replace (laneCount v q p) with 1 by lia. done.
  - destruct (laneCount v q p) eqn:Hc; [done|].
    assert (Hp : p ∈ passed q tr).
    { rewrite <- HL. apply elem_of_lane_over. split; [by apply (Hin _ He)|lia]. }
    apply elem_of_passed in Hp as (a' & Hin' & Ha').
    assert (a' = a); [|by subst].
    clear -Hnd He Hin'. induction tr as [|e tr IH]; [by apply elem_of_nil in He|].
    simpl in Hnd. inversion Hnd as [|? ? Hnin Hnd']; subst.
    apply elem_of_cons in He as [<-|He]; apply elem_of_cons in Hin' as [Heq|Hin'].
    + by injection Heq.
    + exfalso. apply Hnin. simpl. apply list_elem_of_fmap. by exists (p, a').
    + subst e. exfalso. apply Hnin. simpl. apply list_elem_of_fmap. by exists (p, a).
    + by apply IH.
Qed.


Section Renaming.
Variable f : nat -> nat.
Variable m : nat.
Variable dag2 : DAG.
Hypothesis f_inj : forall j1 j2, j1 < m -> j2 < m -> f j1 = f j2 -> j1 = j2.
Hypothesis dag_bound : forall q lane p, dag2 !! q = Some lane -> p ∈ lane -> p < m.

Lemma renamed_executable iters o q p qbs :
  p < m ->
  reorder_executable (map (map f) dag2) iters o q (f p) qbs
  = reorder_executable dag2 iters o q p qbs.
Proof using f_inj dag_bound.
  intros Hp. induction qbs as [|x qbs IH]; simpl; [done|].
  destruct (negb (bool_decide (x = q)) && actsOn o x); [|done].
  destruct (at_ iters x) as [itx|]; [|done]. simpl.
  unfold at_. rewrite list_lookup_fmap.
  destruct (dag2 !! x) as [lane2|] eqn:Hl2; [|done]. simpl.
  unfold subscript. rewrite list_lookup_fmap.
  destruct (lane2 !! itx) as [p'|] eqn:Hp'; [|done]. simpl.
  assert (p' < m).
  { apply (dag_bound x lane2); [done|]. by eapply list_elem_of_lookup_2. }
  destruct (decide (p' = p)) as [->|Hne].
  - rewrite !bool_decide_eq_true_2 by done. simpl. apply IH.
  - rewrite !bool_decide_eq_false_2; [done|done|].
    intros Heq. by apply Hne, f_inj.
Qed.

Lemma renamed_qubit r1 r2 d q r1' d' :
  renamed f m r1 r2 ->
  reorder_qubit (map (map f) dag2) (r1, d) q = Ok (r1', d') ->
  exists r2', reorder_qubit dag2 (r2, d) q = Ok (r2', d') /\ renamed f m r1' r2'.
Proof using f_inj dag_bound.
  intros (Hit & Hops & Hmv & Hlen & Hsl) Hq. rewrite reorder_qubit_unfold in Hq |- *.
  rewrite <- Hit.
  destruct (at_ (dagIterators r1) q) as [it|] eqn:Hi; [|discriminate].
  rewrite bind_Ok in Hq |- *.
  rewrite at_fmap in Hq.
  destruct (dag2 !! q) as [lane2|] eqn:Hl2; [|discriminate].
  rewrite (at_ok _ _ _ Hl2). rewrite bind_Ok in Hq |- *.
  rewrite length_map in Hq.
  destruct (bool_decide (it = length lane2)).
  { injection Hq as <- <-. exists r2. by repeat split. }
  rewrite subscript_fmap in Hq.
  destruct (lane2 !! it) as [p|] eqn:Hp; [|discriminate].
  rewrite bind_Ok in Hq.
  assert (Hpm : p < m).
  { apply (dag_bound q lane2); [done|]. by eapply list_elem_of_lookup_2. }
  rewrite (subscript_ok _ _ _ Hp), bind_Ok.
  unfold subscript at 1 in Hq. unfold subscript at 1. rewrite (Hsl p Hpm) in Hq.
  destruct (slots r2 !! p) as [[o|]|] eqn:Hs2; try discriminate.
  rewrite bind_Ok in Hq |- *.
  rewrite length_map in Hq.
  rewrite (renamed_executable _ _ _ _ _ Hpm) in Hq.
  destruct (reorder_executable dag2 _ _ _ _ _) as [[|]|]; try discriminate;
    rewrite bind_Ok in Hq |- *; simpl negb in *; cbv iota in Hq |- *;
    injection Hq as <- <-; eexists; (split; [reflexivity|]).
  - repeat split; simpl; try congruence.
    + by rewrite length_insert.
    + intros j Hj. destruct (decide (j = p)) as [->|Hne].
      * rewrite !list_lookup_insert_eq; [done| |].
        -- by rewrite Hlen.
        -- apply lookup_lt_Some with (x := Some o). by rewrite (Hsl p Hpm).
      * rewrite !list_lookup_insert_ne; [by apply Hsl|done|].
        intros Heq. by apply Hne, f_inj.
  - by repeat split.
Qed.

Lemma renamed_sweep qs r1 r2 d r1' d' :
  renamed f m r1 r2 ->
  for_each (reorder_qubit (map (map f) dag2)) (r1, d) qs = Ok (r1', d') ->
  exists r2', for_each (reorder_qubit dag2) (r2, d) qs = Ok (r2', d')
              /\ renamed f m r1' r2'.
Proof using f_inj dag_bound.
  revert r1 r2 d. induction qs as [|q qs IH]; intros r1 r2 d Hr Hs.
  - injection Hs as <- <-. by exists r2.
  - rewrite for_each_cons in Hs |- *.
    destruct (reorder_qubit _ (r1, d) q) as [[r1a d1]|] eqn:H1; [|discriminate].
    destruct (renamed_qubit _ _ _ _ _ _ Hr H1) as (r2a & -> & Hra).
    simpl in *. by apply (IH r1a).
Qed.

Lemma renamed_while fuel r1 r2 res1 :
  renamed f m r1 r2 ->
  reorder_while fuel (map (map f) dag2) r1 = Ok res1 ->
  exists res2, reorder_while fuel dag2 r2 = Ok res2 /\ renamed f m res1 res2.
Proof using f_inj dag_bound.
  revert r1 r2. induction fuel as [|fuel IH]; intros r1 r2 Hr Hw; [discriminate|].
  rewrite reorder_while_S in Hw |- *. rewrite length_map in Hw.
  destruct (for_each _ _ _) as [[r1a d1]|] eqn:Hs; [|discriminate].
  assert (Hr0 : renamed f m
            (mkReorder (slots r1) (dagIterators r1) (newOps r1) false)
            (mkReorder (slots r2) (dagIterators r2) (newOps r2) false)).
  { destruct Hr as (? & ? & ? & ? & ?). by repeat split. }
  destruct (renamed_sweep _ _ _ _ _ _ Hr0 Hs) as (r2a & -> & Hra).
  simpl in *. destruct d1.
  - injection Hw as <-. by exists r2a.
  - pose proof Hra as (_ & _ & Hmv & _ & _). rewrite <- Hmv.
    destruct (moved r1a) eqn:Hm1; [|discriminate]. simpl in *.
    by apply (IH r1a).
Qed.

End Renaming.

Lemma map_flat_map_replicate (f : nat -> nat) (c : nat -> nat) (ps : list nat) :
  map f (flat_map (fun j => replicate (c j) j) ps)
  = flat_map (fun j => replicate (c j) (f j)) ps.
Proof.
  induction ps as [|p ps IH]; simpl; [done|].
  rewrite map_app, IH. f_equal.
  induction (c p) as [|k IHk]; simpl; [done|]. by rewrite IHk.
Qed.

Lemma map_nth_seq {A} (l : list A) (d : A) :
  map (fun j => nth j l d) (seq 0 (length l)) = l.
Proof.
  apply list_eq. intros i. rewrite list_lookup_fmap.
  destruct (decide (i < length l)) as [Hlt|Hge].
  - rewrite lookup_seq_lt by done. simpl.
    destruct (lookup_lt_is_Some_2 l i Hlt) as [x Hx]. rewrite Hx.
    f_equal. by apply nth_lookup_Some with (d := d) in Hx.
  - rewrite lookup_seq_ge by lia. simpl. symmetry. apply lookup_ge_None. lia.
Qed.

Lemma trace_lookup (v v' : list Operation) (tr : list (nat * list bool)) j :
  Forall2 (fun o e => v !! e.1 = Some o) v' tr ->
  j < length tr ->
  exists o, v' !! j = Some o /\ v !! (nth j (map fst tr) 0) = Some o.
Proof.
  intros HF Hj.
  destruct (lookup_lt_is_Some_2 tr j Hj) as [e He].
  destruct (Forall2_lookup_r _ _ _ _ _ HF He) as (o & Ho & Hv).
  exists o. split; [done|].
  assert (Hn : map fst tr !! j = Some e.1) by (by rewrite list_lookup_fmap, He).
  by rewrite (nth_lookup_Some _ _ 0 _ Hn).
Qed.

Lemma ReorderInv_init (v : list Operation) (dag : DAG) :
  ReorderInv v dag (mkReorder (map Some v) (replicate (length dag) 0) [] false) [].
Proof.
  constructor; simpl.
  - constructor.
  - constructor.
  - intros p o Hv. by rewrite list_lookup_fmap, Hv.
  - by rewrite length_map.
  - by rewrite length_replicate.
  - intros q lane it Hl Hit. apply lookup_replicate in Hit as [-> _].
    split; [lia|done].
Qed.

Lemma for_each_throw {S} (f : S -> nat -> result S) s ps e :
  for_each f s ps = Throw e -> exists s' p, f s' p = Throw e.
Proof.
  revert s. induction ps as [|p ps IH]; intros s H; [discriminate|].
  rewrite for_each_cons in H. destruct (f s p) as [s1|e1] eqn:H1.
  - by apply (IH s1).
  - injection H as <-. by exists s, p.
Qed.

Lemma at_throw {A} (v : list A) i e : at_ v i = Throw e -> e = out_of_range.
Proof. unfold at_. destruct (v !! i); [discriminate|by intros [= <-]]. Qed.

Lemma subscript_throw {A} (v : list A) i e :
  subscript v i = Throw e -> e = UndefinedBehaviour.
Proof. unfold subscript. destruct (v !! i); [discriminate|by intros [= <-]]. Qed.

Lemma push_back_all_throw {A} (dag : list (list A)) qs (p : A) e :
  push_back_all dag qs p = Throw e -> e = out_of_range.
Proof.
  revert dag. induction qs as [|q qs IH]; intros dag H; [discriminate|].
  simpl in H. unfold push_back_at in H.
  destruct (at_ dag q) as [lane|e1] eqn:H1.
  - rewrite bind_Ok in H. simpl in H. by apply IH in H.
  - injection H as <-. by apply at_throw in H1.
Qed.

Lemma constructDAG_step_throw v (dag : DAG) p e :
  constructDAG_step v dag p = Throw e -> e ≠ FuelExhausted.
Proof.
  unfold constructDAG_step. destruct (subscript v p) as [o|e1] eqn:H1.
  - rewrite bind_Ok.
    destruct o; simpl; unfold addToDag; intros H;
      repeat match type of H with
        | (?m ≫= _) = Throw _ =>
            let E := fresh in
            destruct m eqn:E;
              [rewrite bind_Ok in H|
               injection H as <-; apply push_back_all_throw in E; by subst]
        end;
      try (apply push_back_all_throw in H; by subst).
  - intros [= <-]. apply subscript_throw in H1. by subst.
Qed.

Lemma reorder_executable_throw dag iters o q p qbs e :
  reorder_executable dag iters o q p qbs = Throw e -> e ≠ FuelExhausted.
Proof.
  induction qbs as [|x qbs IH]; intros H; [discriminate|]. simpl in H.
  destruct (negb (bool_decide (x = q)) && actsOn o x); [|by apply IH].
  destruct (at_ iters x) as [itx|] eqn:H1;
    [rewrite bind_Ok in H|injection H as <-; apply at_throw in H1; by subst].
  destruct (at_ dag x) as [lane|] eqn:H2;
    [rewrite bind_Ok in H|injection H as <-; apply at_throw in H2; by subst].
  destruct (subscript lane itx) as [p'|] eqn:H3;
    [rewrite bind_Ok in H|injection H as <-; apply subscript_throw in H3; by subst].
  destruct (negb (bool_decide (p' = p))); [discriminate|by apply IH].
Qed.

Lemma reorder_qubit_throw dag st q e :
  reorder_qubit dag st q = Throw e -> e ≠ FuelExhausted.
Proof.
  destruct st as [r d]. rewrite reorder_qubit_unfold. intros H.
  destruct (at_ (dagIterators r) q) as [it|] eqn:H1;
    [rewrite bind_Ok in H|injection H as <-; apply at_throw in H1; by subst].
  destruct (at_ dag q) as [lane|] eqn:H2;
    [rewrite bind_Ok in H|injection H as <-; apply at_throw in H2; by subst].
  destruct (bool_decide (it = length lane)); [discriminate|].
  destruct (subscript lane it) as [p|] eqn:H3;
    [rewrite bind_Ok in H|injection H as <-; apply subscript_throw in H3; by subst].
  destruct (subscript (slots r) p) as [slot|] eqn:H4;
    [rewrite bind_Ok in H|injection H as <-; apply subscript_throw in H4; by subst].
  destruct slot as [o|]; [|by injection H as <-].
  destruct (reorder_executable _ _ _ _ _ _) as [ex|] eqn:H5;
    [rewrite bind_Ok in H|injection H as <-; by apply reorder_executable_throw in H5].
  by destruct (negb ex).
Qed.

Lemma ReorderInv_length v dag r tr :
  ReorderInv v dag r tr -> length (newOps r) ≤ length v.
Proof.
  intros Hinv. pose proof (inv_ops _ _ _ _ Hinv) as HF.
  rewrite (Forall2_length _ _ _ HF).
  assert (H : length (map fst tr) ≤ length (seq 0 (length v))).
  2:{ by rewrite length_map, length_seq in H. }
  apply submseteq_length, NoDup_submseteq; [apply (inv_nodup _ _ _ _ Hinv)|].
  intros p Hp. apply list_elem_of_fmap in Hp as (e & -> & He).
  apply list_elem_of_lookup in He as [j Hj].
  destruct (Forall2_lookup_r _ _ _ _ _ HF Hj) as (o & _ & Ho).
  apply list_elem_of_In, in_seq. apply lookup_lt_Some in Ho. lia.
Qed.

Lemma reorder_sweep_inv_moved v dag qs r d r' d' tr :
  ReorderInv v dag r tr ->
  for_each (reorder_qubit dag) (r, d) qs = Ok (r', d') ->
  exists tr', ReorderInv v dag r' tr'.
Proof. intros Hinv Hs. by destruct (reorder_sweep_inv _ _ _ _ _ _ _ _ Hinv Hs). Qed.

Lemma reorder_while_fuel_suffices v dag fuel r tr :
  ReorderInv v dag r tr ->
  length v < length (newOps r) + fuel ->
  reorder_while fuel dag r ≠ Throw FuelExhausted.
Proof.
  revert r tr. induction fuel as [|fuel IH]; intros r tr Hinv Hfuel.
  - pose proof (ReorderInv_length _ _ _ _ Hinv). lia.
  - rewrite reorder_while_S.
    destruct (for_each _ _ _) as [[r1 d1]|e] eqn:Hs.
    + rewrite bind_Ok.
      destruct (reorder_sweep_mono _ _ _ _ _ _ Hs) as [Hle Hm]. simpl in Hle, Hm.
      destruct (reorder_sweep_inv_moved _ _ _ _ _ _ _ _
                  (ReorderInv_moved _ _ _ _ false Hinv) Hs) as [tr1 Hinv1].
      destruct d1; [discriminate|].
      destruct (moved r1) eqn:Hmv; [|discriminate]. simpl.
      destruct (Hm eq_refl) as [|Hlt]; [discriminate|].
      apply (IH _ _ Hinv1). lia.
    + intros [= ->]. apply for_each_throw in Hs as (s' & p & Hq).
      by apply reorder_qubit_throw in Hq.
Qed.

(** The step budget of the model is never what stops the pass. *)
Lemma reorderOperations_fuel_suffices (qc : QuantumComputation) :
  reorderOperations qc ≠ Throw FuelExhausted.
Proof.
  unfold reorderOperations, constructDAG.
  destruct (for_each (constructDAG_step _) _ _) as [dag|e] eqn:Hdag.
  - rewrite bind_Ok.
    destruct (reorder_while _ dag _) as [res|e] eqn:Hrun; [discriminate|].
    intros [= ->]. revert Hrun.
    apply (reorder_while_fuel_suffices (ops qc) dag _ _ [] (ReorderInv_init _ _)).
    simpl. lia.
  - intros [= ->]. apply for_each_throw in Hdag as (s' & p & Hq).
    by apply constructDAG_step_throw in Hq.
Qed.

(** C8. When [reorderOperations] returns, a second run on its result
    returns too and leaves the circuit as it is. *)
Theorem reorderOperations_idempotent (qc qc' : QuantumComputation) :
  reorderOperations qc = Ok qc' -> reorderOperations qc' = Ok qc'.
Proof.
  unfold reorderOperations, constructDAG.
  set (v := ops qc). set (n := highestPhysicalQubit (initialLayout qc) + 1).
  destruct (for_each (constructDAG_step v) (DAG_ n) (seq 0 (length v)))
    as [dag1|] eqn:Hdag1; [|discriminate].
  rewrite bind_Ok.
  destruct (reorder_while _ dag1 _) as [res|] eqn:Hrun; [|discriminate].
  rewrite bind_Ok. intros [= <-].
  change (ops (set_ops qc (newOps res))) with (newOps res).
  change (initialLayout (set_ops qc (newOps res))) with (initialLayout qc).
  fold n. set (v' := newOps res).
  (* the lanes of the first run *)
  destruct (constructDAG_steps_inv v (DAG_ n) [] (DAG_ n) dag1 _
              (filled_nil _) Hdag1) as (Hlt1 & Hrange1 & Hf1).
  rewrite app_nil_l in Hf1. unfold DAG_ in Hrange1, Hf1.
  rewrite length_replicate in Hrange1.
  pose proof (filled_length _ _ _ Hf1) as Hlen1. rewrite length_replicate in Hlen1.
  (* the first run *)
  destruct (reorder_while_inv v dag1 _ _ _ [] (ReorderInv_init v dag1) Hrun)
    as [[tr Hinv] Hend].
  pose proof (inv_ops _ _ _ _ Hinv) as Htr. fold v' in Htr.
  pose proof (Forall2_length _ _ _ Htr) as Hm.
  set (f := fun j => nth j (map fst tr) 0).
  assert (Hv' : forall j, j < length v' ->
            exists o, v' !! j = Some o /\ v !! f j = Some o).
  { intros j Hj. apply trace_lookup; [done|lia]. }
  assert (Hlane1 : forall q, q < n ->
            flat_map (fun p => replicate (laneCount v q p) p) (seq 0 (length v))
            = passed q tr).
  { intros q Hq. rewrite <- lane_over.
    destruct (Hend q ltac:(lia)) as (lane & Hl & Hit).
    rewrite (filled_lanes n _ _ Hf1 q Hq) in Hl. injection Hl as <-.
    destruct (inv_iters _ _ _ _ Hinv q _ _ (filled_lanes n _ _ Hf1 q Hq) Hit) as [_ Ht].
    by rewrite firstn_all in Ht. }
  (* the lanes of the second run *)
  destruct (constructDAG_steps_ok v' (DAG_ n) [] (DAG_ n) (seq 0 (length v'))
              (filled_nil _)) as (dag2 & Hdag2 & Hf2).
  { apply Forall_forall. intros j Hj. apply list_elem_of_In, in_seq in Hj. lia. }
  { unfold DAG_. rewrite length_replicate. intros q x Hx.
    unfold dagEntries in Hx. apply list_elem_of_In, in_flat_map in Hx as (j & Hj & Hx).
    apply in_seq in Hj. destruct (Hv' j ltac:(lia)) as (o & Ho' & Ho).
    unfold slotEntries in Hx. rewrite Ho' in Hx.
    apply list_elem_of_In, list_elem_of_fmap in Hx as (q' & [= -> ->] & Hq').
    apply (Hrange1 q' (f j)). unfold dagEntries.
    apply list_elem_of_In, in_flat_map. exists (f j). split.
    - apply in_seq. apply lookup_lt_Some in Ho. lia.
    - apply list_elem_of_In. unfold slotEntries. rewrite Ho.
      apply list_elem_of_fmap. by exists q'. }
  rewrite app_nil_l in Hf2. unfold DAG_ in Hf2.
  pose proof (filled_length _ _ _ Hf2) as Hlen2. rewrite length_replicate in Hlen2.
  rewrite Hdag2, bind_Ok.
  (* the first lanes are the second ones, renamed *)
  assert (Hren : dag1 = map (map f) dag2).
  { apply list_eq. intros q. rewrite list_lookup_fmap.
    destruct (decide (q < n)) as [Hq|Hq].
    - rewrite (filled_lanes n _ _ Hf1 q Hq), (filled_lanes n _ _ Hf2 q Hq). simpl.
      f_equal. rewrite !lane_over, (Hlane1 q Hq), map_flat_map_replicate.
      rewrite (flat_map_ext_elem _ (fun j => replicate (laneCount v q (f j)) (f j))).
      + rewrite <- (flat_map_fmap (fun p => replicate (laneCount v q p) p) f).
        rewrite Hm. unfold f.
        replace (length tr) with (length (map fst tr)) by apply length_map.
        rewrite map_nth_seq. symmetry.
        apply (lane_over_order v q tr (seq 0 (length v))).
        * apply (inv_nodup _ _ _ _ Hinv).
        * intros e He. apply list_elem_of_lookup in He as [j Hj].
          destruct (Forall2_lookup_r _ _ _ _ _ Htr Hj) as (o & _ & Ho).
          apply list_elem_of_In, in_seq. apply lookup_lt_Some in Ho. lia.
        * by apply Hlane1.
      + intros j Hj. apply list_elem_of_In, in_seq in Hj.
        destruct (Hv' j ltac:(lia)) as (o & Ho' & Ho).
        unfold laneCount. by rewrite Ho', Ho.
    - rewrite (lookup_ge_None_2 dag1), (lookup_ge_None_2 dag2) by lia. done. }
  assert (Hinj : forall j1 j2, j1 < length v' -> j2 < length v' -> f j1 = f j2 -> j1 = j2).
  { intros j1 j2 H1 H2. unfold f. apply NoDup_nth.
    - apply NoDup_ListNoDup, (inv_nodup _ _ _ _ Hinv).
    - rewrite length_map. lia.
    - rewrite length_map. lia. }
  assert (Hbound : forall q lane p, dag2 !! q = Some lane -> p ∈ lane -> p < length v').
  { intros q lane p Hl Hp.
    assert (Hq : q < n) by (apply lookup_lt_Some in Hl; lia).
    rewrite (filled_lanes n _ _ Hf2 q Hq) in Hl. injection Hl as <-.
    rewrite lane_over in Hp. apply elem_of_lane_over in Hp as [Hp _].
    apply list_elem_of_In, in_seq in Hp. lia. }
  (* the second run follows the first *)
  rewrite Hren in Hrun. rewrite length_map in Hrun.
  assert (Hr0 : renamed f (length v')
            (mkReorder (map Some v) (replicate (length dag2) 0) [] false)
            (mkReorder (map Some v') (replicate (length dag2) 0) [] false)).
  { repeat split; simpl.
    - by rewrite length_map.
    - intros j Hj. destruct (Hv' j Hj) as (o & Ho' & Ho).
      by rewrite !list_lookup_fmap, Ho', Ho. }
  destruct (renamed_while f (length v') dag2 Hinj Hbound _ _ _ _ Hr0 Hrun)
    as (res2 & Hrun2 & Hres2).
  destruct Hres2 as (_ & Hnew & _).
  destruct (reorder_while_fuel _ _ _ _ Hrun2) as [_ Hfuel].
  rewrite (Hfuel (S (length v'))).
  - rewrite bind_Ok. unfold set_ops. simpl. by rewrite <- Hnew.
  - simpl. rewrite <- Hnew. fold v'. lia.
Qed.

Lemma reorderOperations_idempotent_witness :
  reorderOperations (circuit 2 [H_ 1; H_ 0; CNOT 0 1; X_ 0; X_ 1])
  = Ok (circuit 2 [H_ 1; H_ 0; CNOT 0 1; X_ 0; X_ 1]).
Proof.
  apply (reorderOperations_idempotent
           (circuit 2 [H_ 0; H_ 1; CNOT 0 1; X_ 0; X_ 1])).
  vm_compute. reflexivity.
Defined.

(** ** collectBlocks *)

(** *** Sets of qubits and the qubits of a block body *)

Lemma bind_inv {A B} (m : result A) (f : A -> result B) b :
  m ≫= f = Ok b -> exists a, m = Ok a /\ f a = Ok b.
Proof. destruct m; [eauto|discriminate]. Qed.

Lemma elem_of_set_insert q x s : q ∈ set_insert x s <-> q = x \/ q ∈ s.
Proof.
  induction s as [|y s IH]; simpl.
  - rewrite elem_of_cons. tauto.
  - destruct (decide (x < y)); [by rewrite elem_of_cons|].
    destruct (decide (x = y)) as [->|].
    + rewrite elem_of_cons. tauto.
    + rewrite !elem_of_cons, IH. tauto.
Qed.

Lemma elem_of_set_insert_all q xs s : q ∈ set_insert_all xs s <-> q ∈ xs \/ q ∈ s.
Proof.
  unfold set_insert_all. revert s.
  induction xs as [|x xs IH]; intros s; simpl.
  - split; [by right|]. intros [H|H]; [by apply elem_of_nil in H|done].
  - rewrite IH, elem_of_set_insert, elem_of_cons. tauto.
Qed.

Lemma set_insert_ascending x s : ascending s -> ascending (set_insert x s).
Proof.
  unfold ascending. induction 1 as [|y s Hs IH Hy]; simpl.
  - repeat constructor.
  - destruct (decide (x < y)).
    + constructor; [by constructor|]. constructor; [done|].
      eapply Forall_impl; [exact Hy|]. simpl. lia.
    + destruct (decide (x = y)); [by constructor|].
      constructor; [done|].
      apply Forall_forall. intros z Hz.
      apply elem_of_set_insert in Hz as [->|Hz]; [lia|].
      rewrite Forall_forall in Hy. by apply Hy.
Qed.

Lemma set_insert_all_ascending xs s : ascending s -> ascending (set_insert_all xs s).
Proof.
  unfold set_insert_all. revert s.
  induction xs as [|x xs IH]; intros s Hs; simpl; [done|].
  apply IH. by apply set_insert_ascending.
Qed.

Lemma ascending_NoDup s : ascending s -> NoDup s.
Proof.
  induction 1 as [|y s Hs IH Hy]; constructor; [|done].
  intros Hin. rewrite Forall_forall in Hy.
  apply Hy in Hin. lia.
Qed.

Lemma fold_used_ascending (body : list Operation) s :
  ascending s ->
  ascending (fold_left (fun acc c => set_insert_all (getUsedQubits c) acc) body s).
Proof.
  revert s. induction body as [|c body IH]; intros s Hs; simpl; [done|].
  apply IH. by apply set_insert_all_ascending.
Qed.

Lemma elem_of_fold_used q (body : list Operation) s :
  q ∈ fold_left (fun acc c => set_insert_all (getUsedQubits c) acc) body s
  <-> q ∈ s \/ exists c, c ∈ body /\ q ∈ getUsedQubits c.
Proof.
  revert s. induction body as [|c body IH]; intros s; simpl.
  - split; [by left|]. intros [H|(c & Hc & _)]; [done|]. by apply elem_of_nil in Hc.
  - rewrite IH, elem_of_set_insert_all. split.
    + intros [[H|H]|(c' & Hc' & H)]; [right; exists c; split; [left|done]|by left|].
      right. exists c'. split; [by right|done].
    + intros [H|(c' & Hc' & H)]; [left; by right|].
      apply elem_of_cons in Hc' as [->|Hc']; [left; by left|].
      right. eauto.
Qed.

Lemma getUsedQubits_ascending o : ascending (getUsedQubits o).
Proof.
  assert (Hnil : ascending []) by constructor.
  destruct o; simpl;
    solve [ by apply fold_used_ascending
          | by apply set_insert_all_ascending, set_insert_all_ascending ].
Qed.

Lemma getUsedQubits_NoDup o : NoDup (getUsedQubits o).
Proof. apply ascending_NoDup, getUsedQubits_ascending. Qed.

Lemma elem_of_used_Compound q body :
  q ∈ getUsedQubits (Compound_ body) <-> exists c, c ∈ body /\ q ∈ getUsedQubits c.
Proof.
  unfold Compound_. simpl. rewrite elem_of_fold_used. split; [|eauto].
  intros [H|H]; [by apply elem_of_nil in H|done].
Qed.

Lemma used_Compound_snoc body o :
  getUsedQubits (Compound_ (body ++ [o]))
  = set_insert_all (getUsedQubits o) (getUsedQubits (Compound_ body)).
Proof. unfold Compound_. simpl. by rewrite fold_left_app. Qed.

(* a list without repetition inside another is no longer *)
Lemma NoDup_incl_length (l1 l2 : list Qubit) :
  NoDup l1 -> (forall x, x ∈ l1 -> x ∈ l2) -> length l1 <= length l2.
Proof.
  intros Hnd Hsub. apply submseteq_length, NoDup_submseteq; done.
Qed.

Lemma collapse_used :
  forall o s q, collapseToSingleOperation o = Some s ->
    q ∈ getUsedQubits s -> q ∈ getUsedQubits o.
Proof.
  fix collapse_used 1.
  intros o s q. destruct o as [b|b cs|b n qs cl|b w r v];
    try (simpl; by intros [= <-]).
  destruct cs as [|c [|c' cs]]; try (simpl; discriminate).
  intros Hc Hq.
  change (collapseToSingleOperation c = Some s) in Hc.
  pose proof (collapse_used c s q Hc Hq) as Hin.
  simpl. rewrite elem_of_set_insert_all. by left.
Qed.

Lemma written_back_spans k body :
  spans k (Compound_ body) -> spans k (written_back body).
Proof.
  unfold spans, written_back. intros H.
  destruct (collapseToSingleOperation (Compound_ body)) as [s|] eqn:Hc; [|done].
  etransitivity; [|exact H].
  apply NoDup_incl_length; [apply getUsedQubits_NoDup|].
  intros q. by apply collapse_used.
Qed.

(** *** findBlock

    A qubit that is no key yet counts as a block of its own, so that
    [findBlock] leaves the blocks as they are: it enters keys and shortens
    parent chains. *)

Lemma same_blocks_refl d : same_blocks d d.
Proof. repeat split; done. Qed.

Lemma same_blocks_trans d1 d2 d3 :
  same_blocks d1 d2 -> same_blocks d2 d3 -> same_blocks d1 d3.
Proof.
  intros (A1 & A2 & A3 & A4 & A5) (B1 & B2 & B3 & B4 & B5).
  repeat split; intros x.
  - by rewrite B1.
  - by rewrite B2.
  - by rewrite B3.
  - by rewrite B4.
  - intros H. by apply B5, A5.
Qed.

Lemma BlocksInv_same k d d' :
  same_blocks d d' -> BlocksInv k d ->
  (forall q p, parent d' !! q = Some p ->
     exists r, isroot d' r = true /\ q ∈ blk d' r /\ p ∈ blk d' r) ->
  BlocksInv k d'.
Proof.
  intros (S1 & S2 & S3 & S4 & S5) [I1 I2 I3 I4 I5 I6 I7] HP.
  split.
  - intros r1 r2 q. rewrite !S1, !S2. apply I1.
  - intros r. rewrite S1, S2. apply I2.
  - intros r. rewrite S1, S2. apply I3.
  - intros r o q. rewrite S1, S2, S4. apply I4.
  - intros r. rewrite S1, S4. apply I5.
  - exact HP.
  - intros q Hq. rewrite S3, S4. apply I7.
    destruct (parent d !! q) eqn:E; [|done].
    destruct (S5 q) as [? Hs]; [by eexists|]. congruence.
Qed.

Lemma anchored_or_single_same x d d' :
  same_blocks d d' -> anchored_or_single x d -> anchored_or_single x d'.
Proof.
  intros (S1 & S2 & S3 & S4 & S5) H r. rewrite S1, S2, S3.
  intros Hr Ha. destruct (H r Hr Ha) as [?|(y & ? & ?)]; [by left|].
  right. by exists y.
Qed.

Lemma isroot_key d r : parent d !! r = Some r -> isroot d r = true.
Proof. unfold isroot. intros ->. by apply bool_decide_eq_true. Qed.

Lemma blk_key d r p : parent d !! r = Some p -> blk d r = bitBlocks_at d r.
Proof. unfold blk. by intros ->. Qed.

Lemma blocks_one_root k d r q :
  BlocksInv k d -> isroot d r = true -> q ∈ blk d r -> isroot d q = true -> q = r.
Proof.
  intros Hinv Hr Hq Hqr.
  eapply (blocks_disjoint k d Hinv q r q); try done.
  by apply (blocks_own k d Hinv).
Qed.

(** A qubit [findBlock] has not seen yet is entered as the block it stood
    for before. *)
Lemma singleton_block_same k d q :
  BlocksInv k d -> parent d !! q = None -> same_blocks d (singleton_block d q).
Proof.
  intros Hinv Hq.
  destruct (unset_keys k d Hinv q Hq) as [Ha Hb].
  repeat split; intros x.
  - unfold isroot, singleton_block; simpl.
    destruct (decide (x = q)) as [->|Hne].
    + rewrite lookup_insert_eq, Hq. by apply bool_decide_eq_true.
    + by rewrite lookup_insert_ne.
  - unfold blk, singleton_block, bitBlocks_at; simpl.
    destruct (decide (x = q)) as [->|Hne].
    + by rewrite !lookup_insert_eq, Hq.
    + by rewrite !lookup_insert_ne.
  - unfold currentBlockInCircuit_at, singleton_block; simpl.
    destruct (decide (x = q)) as [->|Hne].
    + rewrite lookup_insert_eq. symmetry. exact Ha.
    + by rewrite lookup_insert_ne.
  - unfold currentBlockOperations_at, singleton_block; simpl.
    destruct (decide (x = q)) as [->|Hne].
    + rewrite lookup_insert_eq. symmetry. exact Hb.
    + by rewrite lookup_insert_ne.
  - unfold singleton_block; simpl.
    destruct (decide (x = q)) as [->|Hne].
    + rewrite lookup_insert_eq. by eexists.
    + by rewrite lookup_insert_ne.
Qed.

Lemma singleton_block_inv k d q :
  BlocksInv k d -> parent d !! q = None -> BlocksInv k (singleton_block d q).
Proof.
  intros Hinv Hq.
  pose proof (singleton_block_same k d q Hinv Hq) as Hs.
  apply (BlocksInv_same k d); [done..|].
  intros x p Hx.
  destruct Hs as (S1 & S2 & _).
  unfold singleton_block in Hx; simpl in Hx.
  destruct (decide (x = q)) as [->|Hne].
  - rewrite lookup_insert_eq in Hx. injection Hx as <-.
    exists q. rewrite S1, S2.
    assert (isroot d q = true) as Hr by (unfold isroot; by rewrite Hq).
    split; [done|]. split; by apply (blocks_own k d Hinv).
  - rewrite lookup_insert_ne in Hx by done.
    destruct (parent_block k d Hinv x p Hx) as (r & ? & ? & ?).
    exists r. by rewrite S1, S2.
Qed.

(** Path compression: a key that is not a root is hung below the root of
    its block. *)
Lemma set_parent_same d q p r :
  parent d !! q = Some p -> p <> q -> r <> q -> same_blocks d (set_parent d q r).
Proof.
  intros Hq Hp Hr.
  repeat split; intros x; try reflexivity.
  - unfold isroot, set_parent; simpl.
    destruct (decide (x = q)) as [->|Hne].
    + rewrite lookup_insert_eq, Hq.
      rewrite !bool_decide_eq_false_2; done.
    + by rewrite lookup_insert_ne.
  - unfold blk, set_parent; simpl.
    destruct (decide (x = q)) as [->|Hne].
    + by rewrite lookup_insert_eq, Hq.
    + by rewrite lookup_insert_ne.
  - unfold set_parent; simpl.
    destruct (decide (x = q)) as [->|Hne].
    + rewrite lookup_insert_eq. by eexists.
    + by rewrite lookup_insert_ne.
Qed.

Lemma findBlock_spec k fuel : forall d q d' r,
  BlocksInv k d -> findBlock fuel d q = Ok (d', r) ->
  BlocksInv k d' /\ same_blocks d d' /\ parent d' !! r = Some r /\ q ∈ blk d' r.
Proof.
  induction fuel as [|fuel IH]; intros d q d' r Hinv Hf; [discriminate|].
  cbn [findBlock] in Hf.
  set (d0 := if decide (parent d !! q = None) then singleton_block d q else d) in Hf.
  assert (H0 : BlocksInv k d0 /\ same_blocks d d0 /\ is_Some (parent d0 !! q)).
  { subst d0. destruct (decide (parent d !! q = None)) as [Hn|Hn].
    - split; [by apply singleton_block_inv|].
      split; [by eapply singleton_block_same|].
      unfold singleton_block; simpl. rewrite lookup_insert_eq. by eexists.
    - split; [done|]. split; [apply same_blocks_refl|].
      destruct (parent d !! q); [by eexists|done]. }
  clearbody d0. destruct H0 as (Hinv0 & Hsame0 & [p Hp]).
  rewrite Hp in Hf.
  destruct (decide (p = q)) as [->|Hne].
  - injection Hf as <- <-.
    split; [done|]. split; [done|]. split; [done|].
    apply (blocks_own k d0 Hinv0). by apply isroot_key.
  - apply bind_inv in Hf as ([d1 r1] & Hrec & Hf).
    injection Hf as <- <-.
    apply IH in Hrec as (Hinv1 & Hsame1 & Hr & Hpin); [|done].
    assert (Hrq : r1 <> q).
    { intros ->. destruct Hsame1 as (S1 & _).
      pose proof (S1 q) as E. rewrite (isroot_key d1 q Hr) in E.
      unfold isroot in E. rewrite Hp in E.
      symmetry in E. apply bool_decide_eq_true in E. done. }
    assert (Hq1 : exists p1, parent d1 !! q = Some p1 /\ p1 <> q).
    { destruct Hsame1 as (S1 & _ & _ & _ & S5).
      destruct (S5 q) as [p1 Hp1]; [by eexists|].
      exists p1. split; [done|]. intros ->.
      pose proof (S1 q) as E. rewrite (isroot_key d1 q Hp1) in E.
      unfold isroot in E. rewrite Hp in E.
      symmetry in E. apply bool_decide_eq_true in E. done. }
    destruct Hq1 as (p1 & Hp1 & Hp1q).
    pose proof (set_parent_same d1 q p1 r1 Hp1 Hp1q Hrq) as Hsame2.
    assert (Hqin : q ∈ blk d1 r1).
    { destruct (parent_block k d0 Hinv0 q p Hp) as (r0 & Hr0 & Hq0 & Hp0).
      destruct Hsame1 as (S1 & S2 & _).
      rewrite <- S1, <- S2 in *.
      assert (r0 = r1) as <-; [|done].
      eapply (blocks_disjoint k d1 Hinv1); eauto using isroot_key. }
    split; [|split; [|split]].
    + apply (BlocksInv_same k d1); [done..|].
      intros x y Hx.
      destruct Hsame2 as (S1 & S2 & _).
      unfold set_parent in Hx; simpl in Hx.
      destruct (decide (x = q)) as [->|Hxq].
      * rewrite lookup_insert_eq in Hx. injection Hx as <-.
        exists r1. rewrite S1, !S2.
        split; [by apply isroot_key|]. split; [done|].
        apply (blocks_own k d1 Hinv1). by apply isroot_key.
      * rewrite lookup_insert_ne in Hx by done.
        destruct (parent_block k d1 Hinv1 x y Hx) as (r & ? & ? & ?).
        exists r. by rewrite S1, !S2.
    + eapply same_blocks_trans; [done|]. eapply same_blocks_trans; done.
    + unfold set_parent; simpl. by rewrite lookup_insert_ne.
    + destruct Hsame2 as (_ & S2 & _). by rewrite S2.
Qed.

Lemma find_spec k d q d' r :
  BlocksInv k d -> find d q = Ok (d', r) ->
  BlocksInv k d' /\ same_blocks d d' /\ parent d' !! r = Some r /\ q ∈ blk d' r.
Proof. apply findBlock_spec. Qed.

(** *** unionBlock *)

Lemma unionBlock_unfold st b1 b2 st' :
  unionBlock st b1 b2 = Ok st' ->
  exists d1 r1 d2 r2,
    find (dsu st) b1 = Ok (d1, r1) /\ find d1 b2 = Ok (d2, r2) /\
    ((r1 = r2 /\ st' = set_dsu st d2) \/
     (r1 <> r2 /\ exists w l slots,
        ((w = r1 /\ l = r2) \/ (w = r2 /\ l = r1)) /\
        st' = mkCollect slots (union_dsu d2 w l) (finalized st))).
Proof.
  unfold unionBlock. intros H.
  apply bind_inv in H as ([d1 r1] & H1 & H).
  apply bind_inv in H as ([d2 r2] & H2 & H).
  exists d1, r1, d2, r2. split; [done|]. split; [done|].
  destruct (decide (r1 = r2)) as [->|Hne].
  - left. split; [done|]. by injection H as <-.
  - right. split; [done|].
    destruct (decide (length (currentBlockOperations_at d2 r1)
                      < length (currentBlockOperations_at d2 r2))).
    + apply bind_inv in H as (slots & _ & H). injection H as <-.
      exists r2, r1, slots. split; [by right|done].
    + apply bind_inv in H as (slots & _ & H). injection H as <-.
      exists r1, r2, slots. split; [by left|done].
Qed.

Lemma union_dsu_united d w l :
  parent d !! w = Some w -> parent d !! l = Some l -> w <> l ->
  united d (union_dsu d w l) w l /\
  parent (union_dsu d w l) = <[l := w]> (parent d).
Proof.
  intros Hw Hl Hwl. split; [|done].
  unfold united, union_dsu, isroot, blk, merge,
    currentBlockInCircuit_at, currentBlockOperations_at, bitBlocks_at,
    set_parent, set_bitBlocks, set_currentBlockInCircuit, set_currentBlockOperations.
  cbn [parent bitBlocks currentBlockInCircuit currentBlockOperations].
  repeat split; intros x.
  - destruct (decide (x = l)) as [->|Hxl].
    + rewrite lookup_insert_eq, Hl.
      rewrite (bool_decide_eq_false_2 (w = l)) by done.
      rewrite (bool_decide_eq_false_2 (l <> l)) by (intros ?; done).
      by rewrite andb_false_r.
    + rewrite lookup_insert_ne by done.
      rewrite (bool_decide_eq_true_2 (x <> l)) by done.
      by rewrite andb_true_r.
  - destruct (decide (x = w)) as [->|Hxw].
    + rewrite (lookup_insert_ne (parent d) l w) by done. rewrite Hw, Hl.
      rewrite (lookup_insert_ne _ l w) by done.
      by rewrite lookup_insert_eq.
    + destruct (decide (x = l)) as [->|Hxl].
      * by rewrite !lookup_insert_eq.
      * rewrite !(lookup_insert_ne _ l x) by done.
        by rewrite !(lookup_insert_ne _ w x) by done.
  - destruct (decide (x = l)) as [->|Hxl].
    + by rewrite lookup_insert_eq.
    + by rewrite lookup_insert_ne.
  - destruct (decide (x = w)) as [->|Hxw].
    + rewrite (lookup_insert_ne _ l w) by done.
      rewrite lookup_insert_eq. simpl. done.
    + destruct (decide (x = l)) as [->|Hxl].
      * by rewrite !lookup_insert_eq.
      * rewrite !(lookup_insert_ne _ l x) by done.
        by rewrite !(lookup_insert_ne _ w x) by done.
  - destruct (decide (x = l)) as [->|Hxl].
    + rewrite lookup_insert_eq. by eexists.
    + by rewrite lookup_insert_ne.
Qed.

Lemma key_root d d' r :
  same_blocks d d' -> parent d !! r = Some r -> parent d' !! r = Some r.
Proof.
  intros (S1 & _ & _ & _ & S5) Hr.
  destruct (S5 r) as [p Hp]; [by eexists|].
  pose proof (S1 r) as E. rewrite (isroot_key d r Hr) in E.
  unfold isroot in E. rewrite Hp in E. apply bool_decide_eq_true in E.
  by subst.
Qed.

Lemma united_parent_block k d w l :
  BlocksInv k d ->
  parent d !! w = Some w -> parent d !! l = Some l -> w <> l ->
  forall q p, parent (union_dsu d w l) !! q = Some p ->
    exists r, isroot (union_dsu d w l) r = true /\
      q ∈ blk (union_dsu d w l) r /\ p ∈ blk (union_dsu d w l) r.
Proof.
  intros Hinv Hw Hl Hwl q p Hq.
  destruct (union_dsu_united d w l Hw Hl Hwl) as ((U1 & U2 & _) & HP).
  rewrite HP in Hq.
  assert (Hrw : isroot (union_dsu d w l) w = true).
  { rewrite U1, (isroot_key d w Hw). by rewrite bool_decide_eq_true_2. }
  assert (Hbw : blk (union_dsu d w l) w = blk d w ++ blk d l).
  { rewrite U2. by rewrite decide_True. }
  pose proof (blocks_own k d Hinv w (isroot_key d w Hw)) as Hww.
  pose proof (blocks_own k d Hinv l (isroot_key d l Hl)) as Hll.
  destruct (decide (q = l)) as [->|Hql].
  - rewrite lookup_insert_eq in Hq. injection Hq as <-.
    exists w. rewrite Hbw. split; [done|].
    split; apply elem_of_app; [by right|by left].
  - rewrite lookup_insert_ne in Hq by done.
    destruct (parent_block k d Hinv q p Hq) as (r & Hr & Hqr & Hpr).
    destruct (decide (r = w)) as [->|Hrw'].
    + exists w. rewrite Hbw. split; [done|].
      split; apply elem_of_app; by left.
    + destruct (decide (r = l)) as [->|Hrl].
      * exists w. rewrite Hbw. split; [done|].
        split; apply elem_of_app; by right.
      * exists r. rewrite U1, U2, Hr.
        rewrite decide_False by done. rewrite decide_False by done.
        by rewrite bool_decide_eq_true_2.
Qed.

Lemma united_inv k d d' w l :
  BlocksInv k d -> united d d' w l ->
  parent d !! w = Some w -> parent d !! l = Some l -> w <> l ->
  length (blk d w) + length (blk d l) <= k ->
  (forall q p, parent d' !! q = Some p ->
     exists r, isroot d' r = true /\ q ∈ blk d' r /\ p ∈ blk d' r) ->
  BlocksInv k d'.
Proof.
  intros Hinv (U1 & U2 & U3 & U4 & U5) Hw Hl Hwl Hk HP.
  pose proof (isroot_key d w Hw) as Hrw.
  pose proof (isroot_key d l Hl) as Hrl.
  assert (Hroot : forall r, isroot d' r = true -> isroot d r = true /\ r <> l).
  { intros r. rewrite U1. intros [? E]%andb_true_iff.
    by apply bool_decide_eq_true in E. }
  assert (Hin : forall q, q ∈ blk d w ++ blk d l -> q ∈ blk d w \/ q ∈ blk d l).
  { intros q. by rewrite elem_of_app. }
  assert (Hnd : NoDup (blk d w ++ blk d l)).
  { apply NoDup_app. split; [by apply (blocks_NoDup k d Hinv)|].
    split; [|by apply (blocks_NoDup k d Hinv)].
    intros q Hq1 Hq2. apply Hwl.
    by apply (blocks_disjoint k d Hinv w l q). }
  assert (Hwithin : forall r o q, isroot d' r = true ->
            o ∈ currentBlockOperations_at d' r -> q ∈ getUsedQubits o -> q ∈ blk d' r).
  { intros r o q Hr. destruct (Hroot r Hr) as [Hr0 Hrl'].
    rewrite U2, U4. destruct (decide (r = w)) as [->|Hrw'].
    - intros [Ho|Ho]%elem_of_app Hq; apply elem_of_app; [left|right];
        by eapply (bodies_within k d Hinv).
    - rewrite !decide_False by done. by apply (bodies_within k d Hinv). }
  split.
  - intros r1 r2 q Hr1 Hr2.
    destruct (Hroot r1 Hr1) as [Hr1' Hn1], (Hroot r2 Hr2) as [Hr2' Hn2].
    rewrite !U2.
    destruct (decide (r1 = w)) as [->|H1], (decide (r2 = w)) as [->|H2]; [done|..].
    + rewrite decide_False by done.
      intros [Hq|Hq]%Hin Hq2; exfalso.
      * apply H2. by apply (blocks_disjoint k d Hinv r2 w q).
      * apply Hn2. by apply (blocks_disjoint k d Hinv r2 l q).
    + rewrite decide_False by done.
      intros Hq1 [Hq|Hq]%Hin; exfalso.
      * apply H1. by apply (blocks_disjoint k d Hinv r1 w q).
      * apply Hn1. by apply (blocks_disjoint k d Hinv r1 l q).
    + rewrite !decide_False by done. by apply (blocks_disjoint k d Hinv).
  - intros r Hr. destruct (Hroot r Hr) as [Hr' Hn]. rewrite U2.
    destruct (decide (r = w)) as [->|H1].
    + apply elem_of_app. left. by apply (blocks_own k d Hinv).
    + rewrite decide_False by done. by apply (blocks_own k d Hinv).
  - intros r Hr. destruct (Hroot r Hr) as [Hr' Hn]. rewrite U2.
    destruct (decide (r = w)) as [->|H1]; [done|].
    rewrite decide_False by done. by apply (blocks_NoDup k d Hinv).
  - exact Hwithin.
  - intros r Hr. destruct (Hroot r Hr) as [Hr' Hn].
    destruct (decide (r = w)) as [->|H1].
    + unfold spans. etransitivity; [|exact Hk].
      rewrite <- length_app.
      apply NoDup_incl_length; [apply getUsedQubits_NoDup|].
      intros q (o & Ho & Hq)%elem_of_used_Compound.
      pose proof (Hwithin w o q Hr Ho Hq) as Hb.
      rewrite U2 in Hb. by rewrite decide_True in Hb.
    + rewrite U4. rewrite !decide_False by done.
      by apply (bodies_bounded k d Hinv).
  - exact HP.
  - intros q Hq.
    assert (Hq0 : parent d !! q = None).
    { destruct (parent d !! q) eqn:E; [|done].
      destruct (U5 q) as [? Hs]; [by eexists|]. congruence. }
    destruct (unset_keys k d Hinv q Hq0) as [Ha Hb].
    rewrite U3, U4.
    split; [by destruct (decide (q = l))|].
    rewrite decide_False by congruence.
    by destruct (decide (q = l)).
Qed.

(** [unionBlock] on a state whose blocks are in order. *)
Lemma unionBlock_spec k st b1 b2 st' :
  BlocksInv k (dsu st) -> unionBlock st b1 b2 = Ok st' ->
  finalized st' = finalized st /\
  exists r1 r2,
    isroot (dsu st) r1 = true /\ b1 ∈ blk (dsu st) r1 /\
    isroot (dsu st) r2 = true /\ b2 ∈ blk (dsu st) r2 /\
    ((r1 = r2 /\ same_blocks (dsu st) (dsu st') /\ BlocksInv k (dsu st')) \/
     (r1 <> r2 /\ exists d2 w l,
        ((w = r1 /\ l = r2) \/ (w = r2 /\ l = r1)) /\
        same_blocks (dsu st) d2 /\ BlocksInv k d2 /\
        parent d2 !! w = Some w /\ parent d2 !! l = Some l /\
        dsu st' = union_dsu d2 w l)).
Proof.
  intros Hinv H.
  apply unionBlock_unfold in H as (d1 & r1 & d2 & r2 & H1 & H2 & H).
  apply (find_spec k) in H1 as (Hinv1 & Hs1 & Hr1 & Hb1); [|done].
  apply (find_spec k) in H2 as (Hinv2 & Hs2 & Hr2 & Hb2); [|done].
  pose proof (key_root d1 d2 r1 Hs2 Hr1) as Hr1'.
  pose proof (same_blocks_trans _ _ _ Hs1 Hs2) as Hs.
  assert (Hfacts : isroot (dsu st) r1 = true /\ b1 ∈ blk (dsu st) r1 /\
                   isroot (dsu st) r2 = true /\ b2 ∈ blk (dsu st) r2).
  { destruct Hs as (S1 & S2 & _). destruct Hs2 as (_ & T2 & _).
    rewrite <- !S1, <- !S2. rewrite (T2 r1).
    repeat split; try done; by apply isroot_key. }
  destruct H as [[-> ->]|(Hne & w & l & slots & Hwl & ->)].
  - split; [done|]. exists r2, r2.
    destruct Hfacts as (? & ? & ? & ?). repeat split; try done.
    left. done.
  - split; [done|]. exists r1, r2.
    destruct Hfacts as (? & ? & ? & ?). repeat split; try done.
    right. split; [done|]. exists d2, w, l.
    split; [done|]. split; [done|]. split; [done|].
    destruct Hwl as [[-> ->]|[-> ->]]; done.
Qed.

(** *** finalizeBlock *)

Lemma reset_lookup L : forall d x,
  parent (fold_left singleton_block L d) !! x
    = (if decide (x ∈ L) then Some x else parent d !! x) /\
  bitBlocks (fold_left singleton_block L d) !! x
    = (if decide (x ∈ L) then Some [x] else bitBlocks d !! x) /\
  currentBlockInCircuit (fold_left singleton_block L d) !! x
    = (if decide (x ∈ L) then Some None else currentBlockInCircuit d !! x) /\
  currentBlockOperations (fold_left singleton_block L d) !! x
    = (if decide (x ∈ L) then Some [] else currentBlockOperations d !! x).
Proof.
  induction L as [|a L IH]; intros d x.
  - cbn [fold_left].
    destruct (decide (x ∈ [])) as [H|_]; [by apply elem_of_nil in H|done].
  - cbn [fold_left].
    destruct (IH (singleton_block d a) x) as (E1 & E2 & E3 & E4).
    rewrite E1, E2, E3, E4. clear IH E1 E2 E3 E4.
    unfold singleton_block, set_parent, set_bitBlocks, set_currentBlockInCircuit,
      set_currentBlockOperations.
    cbn [parent bitBlocks currentBlockInCircuit currentBlockOperations].
    destruct (decide (x ∈ L)) as [HL|HL].
    + rewrite !decide_True by (apply elem_of_cons; tauto). done.
    + destruct (decide (x = a)) as [->|Hxa].
      * rewrite !decide_True by (apply elem_of_cons; tauto). by rewrite !lookup_insert_eq.
      * rewrite !decide_False by (rewrite elem_of_cons; tauto).
        by rewrite !lookup_insert_ne.
Qed.

Lemma reset_fold_spec d L :
  (forall x, isroot (fold_left singleton_block L d) x
     = if decide (x ∈ L) then true else isroot d x) /\
  (forall x, blk (fold_left singleton_block L d) x
     = if decide (x ∈ L) then [x] else blk d x) /\
  (forall x, currentBlockInCircuit_at (fold_left singleton_block L d) x
     = if decide (x ∈ L) then None else currentBlockInCircuit_at d x) /\
  (forall x, currentBlockOperations_at (fold_left singleton_block L d) x
     = if decide (x ∈ L) then [] else currentBlockOperations_at d x) /\
  (forall x, is_Some (parent d !! x) ->
     is_Some (parent (fold_left singleton_block L d) !! x)).
Proof.
  unfold isroot, blk, currentBlockInCircuit_at, currentBlockOperations_at,
    bitBlocks_at.
  repeat split; intros x; destruct (reset_lookup L d x) as (E1 & E2 & E3 & E4).
  - rewrite E1. destruct (decide (x ∈ L)); [|done].
    by apply bool_decide_eq_true.
  - rewrite E1, E2. by destruct (decide (x ∈ L)).
  - rewrite E3. by destruct (decide (x ∈ L)).
  - rewrite E4. by destruct (decide (x ∈ L)).
  - rewrite E1. destruct (decide (x ∈ L)); [by eexists|done].
Qed.

Lemma reset_dsu_spec d r :
  parent d !! r = Some r ->
  reset_block d (fold_left singleton_block (bitBlocks_at d r) d) r.
Proof.
  intros Hr. unfold reset_block. rewrite (blk_key d r r Hr).
  apply reset_fold_spec.
Qed.

Lemma reset_block_same d0 d d' r :
  same_blocks d0 d -> reset_block d d' r -> reset_block d0 d' r.
Proof.
  intros (S1 & S2 & S3 & S4 & S5) (R1 & R2 & R3 & R4 & R5).
  repeat split; intros x.
  - rewrite R1, S2, S1. done.
  - rewrite R2, !S2. done.
  - rewrite R3, S2, S3. done.
  - rewrite R4, S2, S4. done.
  - intros H. by apply R5, S5.
Qed.

Lemma reset_inv k d d' r :
  BlocksInv k d -> reset_block d d' r -> isroot d r = true ->
  (forall q p, parent d' !! q = Some p ->
     exists r0, isroot d' r0 = true /\ q ∈ blk d' r0 /\ p ∈ blk d' r0) ->
  BlocksInv k d'.
Proof.
  intros Hinv (R1 & R2 & R3 & R4 & R5) Hr HP.
  assert (Hout : forall x q, isroot d x = true -> x ∉ blk d r ->
                   q ∈ blk d x -> q ∉ blk d r).
  { intros x q Hx Hxr Hq Hqr. apply Hxr.
    assert (x = r) as -> by (by eapply (blocks_disjoint k d Hinv x r q)).
    by apply (blocks_own k d Hinv). }
  split.
  - intros r1 r2 q. rewrite !R1, !R2.
    destruct (decide (r1 ∈ blk d r)) as [M1|M1],
             (decide (r2 ∈ blk d r)) as [M2|M2]; intros Hr1 Hr2 Hq1 Hq2.
    + apply list_elem_of_singleton in Hq1, Hq2. congruence.
    + apply list_elem_of_singleton in Hq1. subst q.
      exfalso. by eapply (Hout r2 r1).
    + apply list_elem_of_singleton in Hq2. subst q.
      exfalso. by eapply (Hout r1 r2).
    + by eapply (blocks_disjoint k d Hinv r1 r2 q).
  - intros x. rewrite R1, R2. destruct (decide (x ∈ blk d r)).
    + intros _. by apply list_elem_of_singleton.
    + apply (blocks_own k d Hinv).
  - intros x. rewrite R1, R2. destruct (decide (x ∈ blk d r)).
    + intros _. apply NoDup_singleton.
    + apply (blocks_NoDup k d Hinv).
  - intros x o q. rewrite R1, R2, R4. destruct (decide (x ∈ blk d r)).
    + intros _ Ho. by apply elem_of_nil in Ho.
    + apply (bodies_within k d Hinv).
  - intros x. rewrite R1, R4. destruct (decide (x ∈ blk d r)).
    + intros _. unfold spans. simpl. lia.
    + apply (bodies_bounded k d Hinv).
  - exact HP.
  - intros q Hq.
    assert (Hq0 : parent d !! q = None).
    { destruct (parent d !! q) eqn:E; [|done].
      destruct (R5 q) as [? Hs]; [by eexists|]. congruence. }
    destruct (unset_keys k d Hinv q Hq0) as [Ha Hb].
    rewrite R3, R4. by destruct (decide (q ∈ blk d r)).
Qed.

Lemma reset_anchored_or_single x d d' r :
  reset_block d d' r -> anchored_or_single x d -> anchored_or_single x d'.
Proof.
  intros (R1 & R2 & R3 & R4 & R5) H r0. rewrite R1, R2, R3.
  destruct (decide (r0 ∈ blk d r)); [by left|]. apply H.
Qed.

Lemma finalizeBlock_spec k st i st' :
  BlocksInv k (dsu st) -> finalizeBlock st i = Ok st' ->
  BlocksInv k (dsu st') /\
  exists r, isroot (dsu st) r = true /\ i ∈ blk (dsu st) r /\
    ((currentBlockInCircuit_at (dsu st) r = None /\
      same_blocks (dsu st) (dsu st') /\ finalized st' = finalized st) \/
     (currentBlockInCircuit_at (dsu st) r <> None /\
      reset_block (dsu st) (dsu st') r /\
      finalized st' =
        finalized st ++ [written_back (currentBlockOperations_at (dsu st) r)])).
Proof.
  intros Hinv H. unfold finalizeBlock in H.
  apply bind_inv in H as ([d1 r] & Hf & H).
  apply (find_spec k) in Hf as (Hinv1 & Hs & Hr & Hi); [|done].
  pose proof Hs as (S1 & S2 & S3 & S4 & S5).
  assert (Hroot : isroot (dsu st) r = true)
    by (rewrite <- S1; by apply isroot_key).
  destruct (currentBlockInCircuit_at d1 r) as [a|] eqn:Ha.
  - apply bind_inv in H as (slots & _ & H). injection H as <-.
    cbn [dsu finalized].
    pose proof (reset_dsu_spec d1 r Hr) as Hreset.
    assert (HP : forall q p,
      parent (fold_left singleton_block (bitBlocks_at d1 r) d1) !! q = Some p ->
      exists r0, isroot (fold_left singleton_block (bitBlocks_at d1 r) d1) r0 = true /\
        q ∈ blk (fold_left singleton_block (bitBlocks_at d1 r) d1) r0 /\
        p ∈ blk (fold_left singleton_block (bitBlocks_at d1 r) d1) r0).
    { intros q p Hq.
      destruct Hreset as (R1 & R2 & _).
      destruct (reset_lookup (bitBlocks_at d1 r) d1 q) as (E1 & _).
      rewrite E1 in Hq. rewrite <- (blk_key d1 r r Hr) in Hq.
      destruct (decide (q ∈ blk d1 r)) as [M|M].
      - injection Hq as <-. exists q. rewrite R1, R2.
        rewrite !decide_True by done.
        split; [done|]. split; by apply list_elem_of_singleton.
      - destruct (parent_block k d1 Hinv1 q p Hq) as (r0 & Hr0 & Hq0 & Hp0).
        assert (r0 ∉ blk d1 r) as M0.
        { intros M0. apply M.
          assert (r0 = r) as ->; [|done].
          eapply (blocks_one_root k d1); eauto using isroot_key. }
        exists r0. rewrite R1, R2. by rewrite !decide_False by done. }
    split.
    + eapply (reset_inv k d1); eauto using isroot_key.
    + exists r. split; [done|]. split; [by rewrite <- S2|].
      right. rewrite <- S3, <- S4, Ha. split; [done|].
      split; [|done]. by eapply reset_block_same.
  - injection H as <-. cbn [dsu finalized set_dsu].
    split; [done|].
    exists r. split; [done|]. split; [by rewrite <- S2|].
    left. rewrite <- S3. done.
Qed.

(** *** Roots that cover the used qubits *)

Lemma covers_same d d' U R : same_blocks d d' -> covers d U R -> covers d' U R.
Proof.
  intros (S1 & S2 & _) (C1 & C2 & C3). split; [done|]. split.
  - intros r Hr. rewrite S1. by apply C2.
  - intros u Hu. destruct (C3 u Hu) as (r & ? & ?). exists r. by rewrite S2.
Qed.

Lemma weight_same d d' R : same_blocks d d' -> weight d' R = weight d R.
Proof.
  intros (_ & S2 & _). unfold weight. f_equal.
  apply map_ext. intros r. by rewrite S2.
Qed.

Lemma together_same d d' a b : same_blocks d d' -> together d a b -> together d' a b.
Proof.
  intros (S1 & S2 & _) (r & ? & ? & ?). exists r. by rewrite S1, S2.
Qed.

Lemma weight_cons d r R : weight d (r :: R) = length (blk d r) + weight d R.
Proof. reflexivity. Qed.

Lemma weight_perm d R R' : R ≡ₚ R' -> weight d R = weight d R'.
Proof.
  induction 1 as [|x l l' _ IH|x y l|l1 l2 l3 _ IH1 _ IH2].
  - done.
  - rewrite !weight_cons. lia.
  - rewrite !weight_cons. lia.
  - congruence.
Qed.

Lemma weight_ext d d' R :
  (forall r, r ∈ R -> blk d' r = blk d r) -> weight d' R = weight d R.
Proof.
  induction R as [|r R IH]; intros H; [done|].
  rewrite !weight_cons, H by (by left). rewrite IH; [done|].
  intros r' Hr'. apply H. by right.
Qed.

Lemma weight_elem d R r : r ∈ R -> length (blk d r) <= weight d R.
Proof.
  intros (R0 & HR)%elem_of_Permutation.
  rewrite (weight_perm d _ _ HR), weight_cons. lia.
Qed.

Lemma NoDup_two {A} (R : list A) (a b : A) :
  NoDup R -> a ∈ R -> b ∈ R -> a <> b ->
  exists R0, R ≡ₚ a :: b :: R0 /\ (a ∉ R0) /\ (b ∉ R0) /\ NoDup R0.
Proof.
  intros Hnd (R1 & HR1)%elem_of_Permutation Hb Hab.
  rewrite HR1 in Hb, Hnd.
  apply elem_of_cons in Hb as [->|Hb]; [done|].
  apply elem_of_Permutation in Hb as (R0 & HR0).
  exists R0. rewrite HR0 in HR1, Hnd. split; [done|].
  apply NoDup_cons in Hnd as (Ha & Hnd).
  apply NoDup_cons in Hnd as (Hb' & Hnd).
  rewrite elem_of_cons in Ha. tauto.
Qed.

(** *** The loops over finalizeBlock and findBlock *)

Lemma finalizeBlock_inv k x st i st' :
  CollectInv k x st -> finalizeBlock st i = Ok st' -> CollectInv k x st'.
Proof.
  intros (Hinv & Ha & Hlog) H.
  apply (finalizeBlock_spec k) in H as (Hinv' & r & Hr & Hi & H); [|done].
  split; [done|].
  destruct H as [(_ & Hs & ->)|(_ & Hreset & ->)].
  - split; [by eapply anchored_or_single_same|done].
  - split; [by eapply reset_anchored_or_single|].
    apply Forall_app. split; [done|].
    apply Forall_singleton, written_back_spans.
    by apply (bodies_bounded k _ Hinv).
Qed.

Section Loops.

Variable k : nat.

Lemma finalize_all_inv x qs : forall st st',
  CollectInv k x st -> finalize_all st qs = Ok st' -> CollectInv k x st'.
Proof.
  induction qs as [|q qs IH]; intros st st' Hinv H; simpl in H.
  - by injection H as <-.
  - apply bind_inv in H as (st1 & H1 & H).
    eapply IH; [|exact H]. by eapply finalizeBlock_inv.
Qed.

Lemma finalize_roots_inv x keys : forall st st',
  CollectInv k x st -> finalize_roots st keys = Ok st' -> CollectInv k x st'.
Proof.
  induction keys as [|q keys IH]; intros st st' Hinv H; simpl in H.
  - by injection H as <-.
  - destruct (decide (parent (dsu st) !! q = Some q)).
    + apply bind_inv in H as (st1 & H1 & H).
      eapply IH; [|exact H]. by eapply finalizeBlock_inv.
    + by eapply IH.
Qed.

Lemma find_all_spec U : forall d d' blocks,
  BlocksInv k d -> find_all d U = Ok (d', blocks) ->
  BlocksInv k d' /\ same_blocks d d' /\
  Forall2 (fun u b => parent d' !! b = Some b /\ u ∈ blk d' b) U blocks.
Proof.
  induction U as [|u U IH]; intros d d' blocks Hinv H; simpl in H.
  - injection H as <- <-. split; [done|]. split; [apply same_blocks_refl|constructor].
  - apply bind_inv in H as ([d1 b] & H1 & H).
    apply bind_inv in H as ([d2 bs] & H2 & H). injection H as <- <-.
    apply (find_spec k) in H1 as (Hinv1 & Hs1 & Hb & Hu); [|done].
    apply IH in H2 as (Hinv2 & Hs2 & Hall); [|done].
    split; [done|]. split; [by eapply same_blocks_trans|].
    constructor; [|done].
    split; [by eapply key_root|].
    destruct Hs2 as (_ & S2 & _). by rewrite S2.
Qed.

Lemma find_all_covers U d blocks :
  Forall2 (fun u b => parent d !! b = Some b /\ u ∈ blk d b) U blocks ->
  covers d U (remove_dups blocks) /\
  sum_list (map (fun q => length (bitBlocks_at d q)) (remove_dups blocks))
    = weight d (remove_dups blocks).
Proof.
  intros Hall. split; [split; [apply NoDup_remove_dups|split]|].
  - intros r Hr. rewrite elem_of_remove_dups in Hr.
    apply list_elem_of_lookup in Hr as (i & Hi).
    destruct (Forall2_lookup_r _ _ _ _ _ Hall Hi) as (u & _ & Hr & _).
    by apply isroot_key.
  - intros u Hu. apply list_elem_of_lookup in Hu as (i & Hi).
    destruct (Forall2_lookup_l _ _ _ _ _ Hall Hi) as (b & Hb & _ & Hub).
    exists b. split; [|done].
    apply elem_of_remove_dups. by eapply list_elem_of_lookup_2.
  - unfold weight. f_equal. apply map_ext_in.
    intros r Hr. rewrite <- list_elem_of_In in Hr.
    rewrite elem_of_remove_dups in Hr.
    apply list_elem_of_lookup in Hr as (i & Hi).
    destruct (Forall2_lookup_r _ _ _ _ _ Hall Hi) as (u & _ & Hr & _).
    by rewrite (blk_key d r r Hr).
Qed.

End Loops.

(** *** The unions of the used qubits *)

Lemma united_root d d' w l r :
  united d d' w l -> isroot d r = true -> r <> l -> isroot d' r = true.
Proof.
  intros (U1 & _) Hr Hrl. rewrite U1, Hr. by rewrite bool_decide_eq_true_2.
Qed.

Lemma united_blk_w d d' w l : united d d' w l -> blk d' w = blk d w ++ blk d l.
Proof. intros (_ & U2 & _). rewrite U2. by rewrite decide_True. Qed.

Lemma united_blk_other d d' w l r :
  united d d' w l -> r <> w -> r <> l -> blk d' r = blk d r.
Proof. intros (_ & U2 & _) ? ?. rewrite U2. by rewrite !decide_False. Qed.

Lemma united_together d d' w l a b :
  united d d' w l -> isroot d w = true -> w <> l ->
  together d a b -> together d' a b.
Proof.
  intros HU Hw Hwl (r & Hr & Ha & Hb).
  destruct (decide (r = w)) as [->|Hrw].
  - exists w. rewrite (united_blk_w _ _ _ _ HU).
    split; [by eapply united_root|]. split; apply elem_of_app; by left.
  - destruct (decide (r = l)) as [->|Hrl].
    + exists w. rewrite (united_blk_w _ _ _ _ HU).
      split; [by eapply united_root|]. split; apply elem_of_app; by right.
    + exists r. rewrite (united_blk_other _ _ _ _ _ HU) by done.
      split; [by eapply united_root|done].
Qed.

Lemma united_covers d d' w l U R :
  united d d' w l -> covers d U R -> w ∈ R -> l ∈ R -> w <> l ->
  length (blk d w) + length (blk d l) <= weight d R /\
  exists R', covers d' U R' /\ weight d' R' = weight d R.
Proof.
  intros HU (C1 & C2 & C3) Hw Hl Hwl.
  destruct (NoDup_two R w l C1 Hw Hl Hwl) as (R0 & HR & Hw0 & Hl0 & Hnd0).
  assert (HW : weight d R = length (blk d w) + length (blk d l) + weight d R0).
  { rewrite (weight_perm d _ _ HR), !weight_cons. lia. }
  split; [lia|].
  exists (w :: R0). split; [split; [|split]|].
  - by apply NoDup_cons.
  - intros r [->|Hr]%elem_of_cons.
    + eapply united_root; [done| |done]. by apply C2.
    + eapply united_root; [done| |].
      * apply C2. rewrite HR. by do 2 right.
      * by intros ->.
  - intros u Hu. destruct (C3 u Hu) as (r & Hr & Hur).
    rewrite HR in Hr. apply elem_of_cons in Hr as [->|Hr].
    { exists w. split; [by left|]. rewrite (united_blk_w _ _ _ _ HU).
      apply elem_of_app. by left. }
    apply elem_of_cons in Hr as [->|Hr].
    { exists w. split; [by left|]. rewrite (united_blk_w _ _ _ _ HU).
      apply elem_of_app. by right. }
    exists r. split; [by right|].
    rewrite (united_blk_other _ _ _ _ _ HU); [done|by intros ->..].
  - rewrite weight_cons, (united_blk_w _ _ _ _ HU), length_app, HW.
    rewrite (weight_ext d d' R0); [lia|].
    intros r Hr. apply (united_blk_other _ _ _ _ _ HU); by intros ->.
Qed.

Lemma covers_root k d U R u r :
  BlocksInv k d -> covers d U R -> u ∈ U ->
  isroot d r = true -> u ∈ blk d r -> r ∈ R.
Proof.
  intros Hinv (C1 & C2 & C3) Hu Hr Hur.
  destruct (C3 u Hu) as (r' & Hr' & Hur').
  assert (r' = r) as <-; [|done].
  eapply (blocks_disjoint k d Hinv); eauto.
Qed.

Lemma anchored_or_single_weaken x d :
  anchored_or_single None d -> anchored_or_single x d.
Proof.
  intros H r Hr Ha. destruct (H r Hr Ha) as [?|(y & ? & _)]; [by left|done].
Qed.

Section Unions.

Variable k : nat.
Variable U : list Qubit.

Lemma union_step st p q st' :
  CollectInv k (Some p) st -> covered k U st -> p ∈ U -> q ∈ U ->
  unionBlock st p q = Ok st' ->
  CollectInv k (Some q) st' /\ covered k U st' /\ together (dsu st') p q /\
  (forall a b, together (dsu st) a b -> together (dsu st') a b).
Proof.
  intros (Hinv & Ha & Hlog) (R & HR & HW) Hp Hq H.
  apply (unionBlock_spec k) in H
    as (Hfin & r1 & r2 & Hr1 & Hp1 & Hr2 & Hq2 & H); [|done].
  destruct H as [(-> & Hs & Hinv')|(Hne & d2 & w & l & Hwl & Hs & Hinv2 & Hw & Hl & Hd')].
  - split; [split; [done|split]|split; [|split]].
    + eapply anchored_or_single_same; [done|].
      intros r Hr Hanch. destruct (Ha r Hr Hanch) as [?|(y & Ey & Hy)]; [by left|].
      injection Ey as <-.
      right. exists q. split; [done|].
      assert (r = r2) as ->; [|done].
      by eapply (blocks_disjoint k _ Hinv r r2 p).
    + by rewrite Hfin.
    + exists R. split; [by eapply covers_same|]. by rewrite (weight_same _ _ R Hs).
    + eapply together_same; [done|]. by exists r2.
    + intros a b. by apply together_same.
  - assert (Hwl' : w <> l) by (destruct Hwl as [[-> ->]|[-> ->]]; congruence).
    destruct (union_dsu_united d2 w l Hw Hl Hwl') as (HU & _).
    rewrite <- Hd' in HU.
    pose proof (covers_same _ _ U R Hs HR) as HR2.
    pose proof Hs as (S1 & S2 & S3 & _).
    assert (Hr1' : isroot d2 r1 = true) by (by rewrite S1).
    assert (Hr2' : isroot d2 r2 = true) by (by rewrite S1).
    assert (Hp1' : p ∈ blk d2 r1) by (by rewrite S2).
    assert (Hq2' : q ∈ blk d2 r2) by (by rewrite S2).
    assert (HwR : w ∈ R /\ l ∈ R).
    { pose proof (covers_root k d2 U R p r1 Hinv2 HR2 Hp Hr1' Hp1').
      pose proof (covers_root k d2 U R q r2 Hinv2 HR2 Hq Hr2' Hq2').
      destruct Hwl as [[-> ->]|[-> ->]]; done. }
    destruct HwR as [HwR HlR].
    destruct (united_covers d2 (dsu st') w l U R HU HR2 HwR HlR Hwl')
      as (Hsize & R' & HR' & HW').
    rewrite (weight_same _ _ R Hs) in Hsize, HW'.
    assert (Hinv' : BlocksInv k (dsu st')).
    { eapply (united_inv k d2 (dsu st') w l); try done; [lia|].
      rewrite Hd'. by apply (united_parent_block k). }
    assert (Hpw : p ∈ blk (dsu st') w /\ q ∈ blk (dsu st') w).
    { rewrite (united_blk_w _ _ _ _ HU), !elem_of_app.
      destruct Hwl as [[-> ->]|[-> ->]]; tauto. }
    assert (Hrw : isroot (dsu st') w = true).
    { eapply united_root; [done| |done]. by apply isroot_key. }
    split; [split; [done|split]|split; [|split]].
    + intros r Hr Hanch.
      destruct HU as (U1 & U2 & U3 & _).
      rewrite U1 in Hr. apply andb_true_iff in Hr as [Hr Hrl].
      apply bool_decide_eq_true in Hrl.
      rewrite U3, decide_False in Hanch by done.
      destruct (decide (r = w)) as [->|Hrw'].
      { right. exists q. split; [done|]. apply Hpw. }
      rewrite U2, !decide_False by done.
      rewrite S1 in Hr. rewrite S3 in Hanch.
      destruct (Ha r Hr Hanch) as [E|(y & Ey & Hy)].
      { left. by rewrite S2. }
      injection Ey as <-. exfalso.
      assert (r = r1) as -> by (by eapply (blocks_disjoint k _ Hinv r r1 p)).
      destruct Hwl as [[-> ->]|[-> ->]]; done.
    + by rewrite Hfin.
    + exists R'. split; [done|lia].
    + exists w. tauto.
    + intros a b Hab. eapply united_together; [done|by apply isroot_key|done|].
      by eapply together_same.
Qed.

Lemma union_all_spec : forall qs st prev st' prev',
  CollectInv k prev st -> covered k U st ->
  (forall q, q ∈ qs -> q ∈ U) -> (forall p, prev = Some p -> p ∈ U) ->
  (forall u, u ∈ U -> u ∉ qs -> exists p, prev = Some p /\ together (dsu st) u p) ->
  union_all st prev qs = Ok (st', prev') ->
  CollectInv k prev' st' /\ covered k U st' /\
  (forall p, prev' = Some p -> p ∈ U) /\
  (forall u, u ∈ U -> exists p, prev' = Some p /\ together (dsu st') u p).
Proof.
  induction qs as [|q qs IH]; intros st prev st' prev' Hinv Hcov Hqs Hprev Htog H;
    simpl in H.
  - injection H as <- <-. split; [done|]. split; [done|]. split; [done|].
    intros u Hu. apply Htog; [done|]. apply not_elem_of_nil.
  - apply bind_inv in H as (st1 & H1 & H).
    assert (HqU : q ∈ U) by (apply Hqs; by left).
    assert (Hstep : CollectInv k (Some q) st1 /\ covered k U st1 /\
              (forall u, u ∈ U -> u ∉ qs ->
                 exists p, Some q = Some p /\ together (dsu st1) u p)).
    { destruct prev as [p|].
      - apply union_step in H1 as (Hinv1 & Hcov1 & Hpq & Hmono); auto.
        split; [done|]. split; [done|].
        intros u Hu Hn. exists q. split; [done|].
        destruct (decide (u = q)) as [->|Huq].
        + destruct Hpq as (r & ? & ? & ?). by exists r.
        + destruct (Htog u Hu) as (p' & Ep & Hup).
          { rewrite elem_of_cons. tauto. }
          injection Ep as <-.
          apply Hmono in Hup.
          destruct Hup as (r & Hr & Hur & Hpr), Hpq as (r' & Hr' & Hpr' & Hqr').
          destruct Hinv1 as (Hb1 & _).
          assert (r = r') as -> by (by eapply (blocks_disjoint k _ Hb1 r r' p)).
          by exists r'.
      - injection H1 as <-.
        split; [|split; [done|]].
        { destruct Hinv as (? & ? & ?). split; [done|]. split; [|done].
          by apply anchored_or_single_weaken. }
        intros u Hu Hn. exists q. split; [done|].
        destruct (decide (u = q)) as [->|Huq].
        + destruct Hcov as (R & (_ & C2 & C3) & _).
          destruct (C3 q HqU) as (r & Hr & Hqr). exists r. auto.
        + destruct (Htog u Hu) as (p' & [=] & _).
          rewrite elem_of_cons. tauto. }
    destruct Hstep as (Hinv1 & Hcov1 & Htog1).
    eapply (IH st1 (Some q)); try done.
    + intros q' Hq'. apply Hqs. by right.
    + by intros p [= <-].
Qed.

End Unions.

(** *** Freeing space: the savings *)

Lemma cnt_snoc Us q L :
  cnt (Us ++ [q]) L = cnt Us L + (if decide (q ∈ L) then 1 else 0).
Proof.
  unfold cnt. rewrite filter_app, length_app. f_equal.
  rewrite filter_cons, filter_nil. by destruct (decide (q ∈ L)).
Qed.

Lemma cnt_none Us L : (forall u, u ∈ Us -> u ∉ L) -> cnt Us L = 0.
Proof.
  intros H. unfold cnt. induction Us as [|u Us IH]; [done|].
  rewrite filter_cons. destruct (decide (u ∈ L)) as [Hu|Hu].
  - exfalso. apply (H u); [by left|done].
  - apply IH. intros u' Hu'. apply H. by right.
Qed.

Lemma cnt_elem Us L u : u ∈ Us -> u ∈ L -> 1 <= cnt Us L.
Proof.
  intros Hu HL. unfold cnt.
  assert (u ∈ filter (fun u => u ∈ L) Us) as Hin by (by apply list_elem_of_filter).
  destruct (filter _ Us); [by apply elem_of_nil in Hin|simpl; lia].
Qed.

Lemma fst_decrement b sv : map fst (decrement b sv) = map fst sv.
Proof.
  induction sv as [|[b0 s0] sv IH]; [done|]. simpl.
  destruct (decide (b0 = b)); simpl; [done|]. by rewrite IH.
Qed.

Lemma elem_of_decrement b sv e :
  NoDup (map fst sv) -> e ∈ decrement b sv ->
  (e.1 <> b /\ e ∈ sv) \/ (e.1 = b /\ (b, (e.2 + 1)%Z) ∈ sv).
Proof.
  induction sv as [|[b0 s0] sv IH]; simpl; intros Hnd He.
  - by apply elem_of_nil in He.
  - apply NoDup_cons in Hnd as [Hb0 Hnd].
    destruct (decide (b0 = b)) as [->|Hne].
    + apply elem_of_cons in He as [->|He].
      * right. simpl. split; [done|]. apply elem_of_cons. left. f_equal. lia.
      * left. split; [|by right]. intros E. apply Hb0.
        rewrite <- E. apply list_elem_of_fmap. by exists e.
    + apply elem_of_cons in He as [->|He].
      * left. split; [done|by left].
      * destruct (IH Hnd He) as [[? ?]|[? ?]]; [left|right]; split; try done; by right.
Qed.

Lemma saves_same d d' Us e : same_blocks d d' -> saves d Us e -> saves d' Us e.
Proof.
  intros Hs (H1 & H2 & u & Hu & Hub).
  pose proof Hs as (_ & S2 & _).
  split; [by eapply key_root|]. rewrite S2. split; [done|]. by exists u.
Qed.

Lemma SavingsInv_same d d' Us sv T :
  same_blocks d d' -> SavingsInv d Us sv T -> SavingsInv d' Us sv T.
Proof.
  intros Hs (H1 & H2 & H3 & H4). split; [done|]. split; [|split].
  - intros e He. eapply saves_same; eauto.
  - intros u Hu. destruct (H3 u Hu) as (b & ? & ?). exists b.
    destruct Hs as (_ & S2 & _). by rewrite S2.
  - by rewrite (weight_same d d').
Qed.

Lemma weight_snoc d R r : weight d (R ++ [r]) = weight d R + length (blk d r).
Proof.
  induction R as [|x R IH]; [unfold weight; simpl; lia|].
  change ((x :: R) ++ [r]) with (x :: (R ++ [r])).
  rewrite !weight_cons, IH. lia.
Qed.

Section Savings.

Variable k : nat.

Lemma savings_of_spec : forall qs d Us sv T d' sv' T',
  BlocksInv k d -> SavingsInv d Us sv T ->
  savings_of d qs sv T = Ok (d', sv', T') ->
  BlocksInv k d' /\ same_blocks d d' /\ SavingsInv d' (Us ++ qs) sv' T'.
Proof.
  induction qs as [|q qs IH]; intros d Us sv T d' sv' T' Hinv HS H; simpl in H.
  - injection H as <- <- <-. rewrite app_nil_r.
    split; [done|]. split; [apply same_blocks_refl|done].
  - apply bind_inv in H as ([d1 block] & H1 & H).
    apply (find_spec k) in H1 as (Hinv1 & Hs1 & Hb & Hq); [|done].
    pose proof (SavingsInv_same _ _ _ _ _ Hs1 HS) as (S1 & S2 & S3 & S4).
    assert (Hother : forall b, b ∈ map fst sv -> b <> block -> q ∉ blk d1 b).
    { intros b Hbin Hne Hqb. apply Hne.
      apply list_elem_of_fmap in Hbin as (e & -> & He).
      destruct (S2 e He) as (Hr & _).
      eapply (blocks_disjoint k d1 Hinv1); eauto using isroot_key. }
    assert (HS1 : SavingsInv d1 (Us ++ [q])
              (if bool_decide (block ∈ map fst sv) then decrement block sv
               else sv ++ [(block, (Z.of_nat (length (bitBlocks_at d1 block)) - 1)%Z)])
              (if bool_decide (block ∈ map fst sv) then T
               else T + length (bitBlocks_at d1 block))).
    { destruct (bool_decide (block ∈ map fst sv)) eqn:Hmem.
      - apply bool_decide_eq_true in Hmem.
        split; [by rewrite fst_decrement|]. split; [|split].
        + intros e He. apply elem_of_decrement in He as [[Hne He]|[He1 He]]; [| |done].
          * destruct (S2 e He) as (Hr & Hv & u & Hu & Hub).
            split; [done|]. split.
            { rewrite cnt_snoc, decide_False; [by rewrite Nat.add_0_r|].
              apply Hother; [|done]. apply list_elem_of_fmap. by exists e. }
            exists u. split; [|done]. apply elem_of_app. by left.
          * destruct (S2 _ He) as (Hr & Hv & u & Hu & Hub). simpl in *.
            unfold saves. rewrite He1. split; [done|]. split.
            { rewrite cnt_snoc, decide_True by done. lia. }
            exists u. split; [|done]. apply elem_of_app. by left.
        + intros u [Hu|Hu]%elem_of_app.
          * destruct (S3 u Hu) as (b & ? & ?). exists b. by rewrite fst_decrement.
          * apply list_elem_of_singleton in Hu as ->. exists block.
            by rewrite fst_decrement.
        + by rewrite fst_decrement.
      - apply bool_decide_eq_false in Hmem.
        rewrite <- (blk_key d1 block block Hb).
        split; [|split; [|split]].
        + rewrite map_app. apply NoDup_app. split; [done|].
          split; [|apply NoDup_singleton].
          intros b Hbin Hb'. apply list_elem_of_singleton in Hb'. by subst.
        + intros e [He|He]%elem_of_app.
          * destruct (S2 e He) as (Hr & Hv & u & Hu & Hub).
            split; [done|]. split.
            { rewrite cnt_snoc, decide_False; [by rewrite Nat.add_0_r|].
              apply Hother; [apply list_elem_of_fmap; by exists e|].
              intros E. apply Hmem. rewrite <- E. apply list_elem_of_fmap. by exists e. }
            exists u. split; [|done]. apply elem_of_app. by left.
          * apply list_elem_of_singleton in He as ->. unfold saves. cbn [fst snd].
            split; [done|]. split.
            { rewrite cnt_snoc, decide_True by done.
              rewrite cnt_none; [lia|].
              intros u Hu Hub. apply Hmem.
              destruct (S3 u Hu) as (b & Hbin & Hub').
              assert (b = block) as <-; [|done].
              apply list_elem_of_fmap in Hbin as (e & -> & He).
              destruct (S2 e He) as (Hr & _).
              eapply (blocks_disjoint k d1 Hinv1); eauto using isroot_key. }
            exists q. split; [|done]. apply elem_of_app. right. by left.
        + intros u [Hu|Hu]%elem_of_app.
          * destruct (S3 u Hu) as (b & ? & ?). exists b. split; [|done].
            rewrite map_app. apply elem_of_app. by left.
          * apply list_elem_of_singleton in Hu as ->. exists block. split; [|done].
            rewrite map_app. apply elem_of_app. right. by left.
        + rewrite map_app. simpl. rewrite weight_snoc. by rewrite S4. }
    destruct (bool_decide (block ∈ map fst sv)).
    + apply (IH d1 (Us ++ [q])) in H as (Hinv' & Hs' & HS'); [|done..].
      rewrite <- app_assoc in HS'.
      split; [done|]. split; [by eapply same_blocks_trans|done].
    + apply (IH d1 (Us ++ [q])) in H as (Hinv' & Hs' & HS'); [|done..].
      rewrite <- app_assoc in HS'.
      split; [done|]. split; [by eapply same_blocks_trans|done].
Qed.

End Savings.

Lemma weight_app d A B : weight d (A ++ B) = weight d A + weight d B.
Proof.
  induction A as [|x A IH]; [done|].
  change ((x :: A) ++ B) with (x :: (A ++ B)).
  rewrite !weight_cons, IH. lia.
Qed.

Lemma weight_singles d L :
  (forall x, x ∈ L -> blk d x = [x]) -> weight d L = length L.
Proof.
  induction L as [|x L IH]; intros H; [done|].
  rewrite weight_cons, H by (by left). simpl. f_equal.
  apply IH. intros y Hy. apply H. by right.
Qed.

Section FreeSpace.

Variable k : nat.
Variable U : list Qubit.
Hypothesis U_NoDup : NoDup U.
Hypothesis U_small : length U <= k.

Lemma free_space_base st need :
  FreeInv k U st [] need -> CollectInv k None st /\ covered k U st.
Proof using U_NoDup U_small.
  intros (Hinv & R & HR & HW & _ & _ & HP). split; [done|].
  destruct (decide (0 < need)%Z) as [Hpos|Hneg].
  - exists U. split; [split; [done|split]|].
    + intros u Hu. destruct (HP Hpos u Hu) as [[? _]|(e & He & _)]; [done|].
      by apply elem_of_nil in He.
    + intros u Hu. exists u. split; [done|].
      destruct (HP Hpos u Hu) as [[_ ->]|(e & He & _)]; [by left|].
      by apply elem_of_nil in He.
    + rewrite weight_singles; [done|].
      intros u Hu. destruct (HP Hpos u Hu) as [[_ ?]|(e & He & _)]; [done|].
      by apply elem_of_nil in He.
  - exists R. split; [done|]. lia.
Qed.

Lemma free_space_step st b s rest need st1 :
  FreeInv k U st ((b, s) :: rest) need -> (0 < need)%Z ->
  finalizeBlock st b = Ok st1 ->
  FreeInv k U st1 rest (need - s).
Proof using U_NoDup U_small.
  intros (Hinv & R & HR & HW & Hnd & Hent & HP) Hpos H1.
  pose proof (finalizeBlock_inv k None st b st1 Hinv H1) as Hinv1.
  split; [done|].
  destruct Hinv as (Hb & Ha & _).
  apply (finalizeBlock_spec k) in H1 as (Hb1 & r & Hr & Hbr & H1); [|done].
  simpl in Hnd. apply NoDup_cons in Hnd as [Hbrest Hnd].
  destruct (Hent (b, s)) as (Hrb & HbR & Hs & u0 & Hu0 & Hu0b); [by left|].
  simpl in Hrb, HbR, Hs, Hu0b.
  assert (r = b) as ->.
  { apply (blocks_disjoint k (dsu st) Hb r b b Hr Hrb Hbr).
    by apply (blocks_own k _ Hb). }
  specialize (HP Hpos).
  destruct H1 as [(Hanch & Hs1 & _)|(_ & Hreset & _)].
  - (* the block has no place in the circuit: it is the qubit [b] alone *)
    destruct (Ha b Hrb Hanch) as [Hsingle|(y & ? & _)]; [|done].
    rewrite Hsingle in Hu0b. apply list_elem_of_singleton in Hu0b as ->.
    assert (s <= 0)%Z.
    { pose proof (cnt_elem U (blk (dsu st) b) b Hu0) as Hc.
      rewrite Hsingle in Hc, Hs. simpl in Hs.
      specialize (Hc ltac:(by left)). lia. }
    pose proof Hs1 as (S1 & S2 & _).
    exists R. split; [by eapply covers_same|].
    split; [rewrite (weight_same _ _ R Hs1); lia|]. split; [done|]. split.
    + intros e He. destruct (Hent e) as (? & ? & ? & u & ? & ?); [by right|].
      unfold frees. rewrite S1, S2. repeat split; try done. by exists u.
    + intros _ u Hu. unfold single. rewrite S1, S2.
      destruct (HP u Hu) as [?|(e & [->|He]%elem_of_cons & Hue)]; [by left| |].
      * left. cbn [fst] in Hue. rewrite Hsingle in Hue.
        apply list_elem_of_singleton in Hue as ->. done.
      * right. exists e. by rewrite S2.
  - (* the block is written back: its members become blocks of their own *)
    destruct Hreset as (R1 & R2 & _).
    destruct HR as (C1 & C2 & C3).
    apply elem_of_Permutation in HbR as (R0 & HR0).
    assert (HndR : NoDup (b :: R0)) by (by rewrite <- HR0).
    apply NoDup_cons in HndR as [HbR0 HndR0].
    assert (Hout : forall x, x ∈ R0 -> x ∉ blk (dsu st) b).
    { intros x Hx Hxb.
      assert (x = b) as ->; [|done].
      apply (blocks_one_root k (dsu st) b x Hb Hrb Hxb).
      apply C2. rewrite HR0. by right. }
    set (F := filter (fun u => u ∈ blk (dsu st) b) U).
    assert (HF : forall x, x ∈ F <-> x ∈ blk (dsu st) b /\ x ∈ U).
    { intros x. unfold F. by rewrite list_elem_of_filter. }
    assert (Hkeep : forall x, x ∉ blk (dsu st) b ->
              isroot (dsu st1) x = isroot (dsu st) x /\
              blk (dsu st1) x = blk (dsu st) x).
    { intros x Hx. by rewrite R1, R2, !decide_False. }
    assert (Hnew : forall x, x ∈ blk (dsu st) b -> single (dsu st1) x).
    { intros x Hx. unfold single. by rewrite R1, R2, !decide_True. }
    exists (F ++ R0). split; [split; [|split]|split; [|split; [|split]]].
    + apply NoDup_app. split; [by apply NoDup_filter|]. split; [|done].
      intros x [Hx _]%HF Hx0. by apply (Hout x).
    + intros x [[Hx _]%HF|Hx]%elem_of_app.
      * by apply Hnew.
      * destruct (Hkeep x (Hout x Hx)) as [-> _]. apply C2.
        rewrite HR0. by right.
    + intros u Hu. destruct (C3 u Hu) as (r & Hr' & Hur).
      rewrite HR0 in Hr'. apply elem_of_cons in Hr' as [->|Hr'].
      * exists u. split; [apply elem_of_app; left; by apply HF|].
        destruct (Hnew u Hur) as [_ ->]. by left.
      * exists r. split; [apply elem_of_app; by right|].
        by destruct (Hkeep r (Hout r Hr')) as [_ ->].
    + rewrite weight_app.
      rewrite (weight_singles _ F) by (intros x [Hx _]%HF; by apply Hnew).
      rewrite (weight_ext (dsu st) (dsu st1) R0)
        by (intros x Hx; by apply Hkeep, Hout).
      rewrite (weight_perm _ _ _ HR0), weight_cons in HW.
      change (length F) with (cnt U (blk (dsu st) b)). lia.
    + done.
    + intros e He.
      destruct (Hent e) as (Hre & HeR & Hse & u & Hu & Hue); [by right|].
      assert (He0 : e.1 ∈ R0).
      { rewrite HR0 in HeR. apply elem_of_cons in HeR as [E|?]; [|done].
        exfalso. apply Hbrest. rewrite <- E. apply list_elem_of_fmap. by exists e. }
      destruct (Hkeep e.1 (Hout _ He0)) as [E1 E2].
      unfold frees. rewrite E1, E2. repeat split; try done.
      * apply elem_of_app. by right.
      * by exists u.
    + intros _ u Hu.
      destruct (decide (u ∈ blk (dsu st) b)) as [Hub|Hub]; [left; by apply Hnew|].
      destruct (Hkeep u Hub) as [E1 E2].
      destruct (HP u Hu) as [[? ?]|(e & [->|He]%elem_of_cons & Hue)].
      * left. unfold single. by rewrite E1, E2.
      * done.
      * right. exists e. split; [done|].
        destruct (Hent e) as (_ & HeR & _); [by right|].
        assert (He0 : e.1 ∈ R0).
        { rewrite HR0 in HeR. apply elem_of_cons in HeR as [E|?]; [|done].
          exfalso. apply Hbrest. rewrite <- E. apply list_elem_of_fmap. by exists e. }
        by destruct (Hkeep e.1 (Hout _ He0)) as [_ ->].
Qed.

Lemma free_space_spec : forall rest st need st',
  FreeInv k U st rest need -> free_space st rest need = Ok st' ->
  CollectInv k None st' /\ covered k U st'.
Proof using U_NoDup U_small.
  induction rest as [|[b s] rest IH]; intros st need st' HF H; simpl in H.
  - injection H as <-. by eapply free_space_base.
  - destruct (decide (0 < need)%Z) as [Hpos|Hneg].
    + apply bind_inv in H as (st1 & H1 & H).
      eapply IH; [|exact H]. by eapply free_space_step.
    + eapply IH; [|exact H].
      destruct HF as (Hinv & R & HR & HW & Hnd & Hent & HP).
      split; [done|]. exists R. split; [done|]. split; [done|].
      simpl in Hnd. apply NoDup_cons in Hnd as [_ Hnd]. split; [done|]. split.
      * intros e He. apply Hent. by right.
      * intros Hpos. done.
Qed.

End FreeSpace.

(** *** Packing blocks below an operation that is too wide *)

Lemma packable_same d d' e : same_blocks d d' -> packable d e -> packable d' e.
Proof.
  intros (S1 & S2 & S3 & _) (? & ? & ?). unfold packable.
  by rewrite S1, S2, S3.
Qed.

Lemma united_packable d d' w l e :
  united d d' w l -> packable d e -> e.1 <> w -> e.1 <> l -> packable d' e.
Proof.
  intros (U1 & U2 & U3 & _) (H1 & H2 & H3) Hw Hl. unfold packable.
  rewrite U1, U2, U3, H1, !decide_False by done.
  by rewrite bool_decide_eq_true_2.
Qed.

Lemma elem_of_keys (e : Qubit * Z) l : e ∈ l -> e.1 ∈ map fst l.
Proof. intros He. apply list_elem_of_fmap. by exists e. Qed.

Section Packing.

Variable k : nat.

Lemma blockEmpty_spec d q d' e :
  BlocksInv k d -> blockEmpty d q = Ok (d', e) ->
  BlocksInv k d' /\ same_blocks d d' /\
  exists r, parent d' !! r = Some r /\ q ∈ blk d' r /\
    e = bool_decide (currentBlockInCircuit_at d' r = None).
Proof.
  intros Hinv H. unfold blockEmpty in H.
  apply bind_inv in H as ([d1 r] & H1 & H). injection H as <- <-.
  apply (find_spec k) in H1 as (? & ? & ? & ?); [|done].
  split; [done|]. split; [done|]. by exists r.
Qed.

Lemma finalize_packable st i st' e :
  BlocksInv k (dsu st) -> finalizeBlock st i = Ok st' ->
  packable (dsu st) e -> i ∉ blk (dsu st) e.1 -> packable (dsu st') e.
Proof.
  intros Hinv H (H1 & H2 & H3) Hi.
  apply (finalizeBlock_spec k) in H as (_ & r & Hr & Hir & H); [|done].
  destruct H as [(_ & Hs & _)|(_ & (R1 & R2 & R3 & _) & _)].
  - by eapply packable_same.
  - assert (e.1 ∉ blk (dsu st) r) as Hout.
    { intros Hin. apply Hi.
      by rewrite (blocks_one_root k (dsu st) r e.1 Hinv Hr Hin H1). }
    unfold packable. by rewrite R1, R2, R3, !decide_False.
Qed.

Lemma blocksAndSizes_spec : forall qs d entries d' entries',
  BlocksInv k d -> NoDup (map fst entries) ->
  (forall e, e ∈ entries -> packable d e) ->
  blocksAndSizes d qs entries = Ok (d', entries') ->
  BlocksInv k d' /\ same_blocks d d' /\ NoDup (map fst entries') /\
  (forall e, e ∈ entries' -> packable d' e).
Proof.
  induction qs as [|q qs IH]; intros d entries d' entries' Hinv Hnd Hent H;
    simpl in H.
  - injection H as <- <-. split; [done|]. split; [apply same_blocks_refl|done].
  - apply bind_inv in H as ([d1 block] & H1 & H).
    apply bind_inv in H as ([d2 empty] & H2 & H).
    apply (find_spec k) in H1 as (Hinv1 & Hs1 & Hb & Hq); [|done].
    apply blockEmpty_spec in H2 as (Hinv2 & Hs2 & r & Hr & Hbr & He); [|done].
    pose proof (key_root _ _ _ Hs2 Hb) as Hb2.
    assert (r = block) as ->.
    { apply (blocks_disjoint k d2 Hinv2 r block block); auto using isroot_key.
      apply (blocks_own k d2 Hinv2). by apply isroot_key. }
    pose proof (same_blocks_trans _ _ _ Hs1 Hs2) as Hs.
    assert (Hent2 : forall e, e ∈ entries -> packable d2 e).
    { intros e Hin. eapply packable_same; eauto. }
    destruct (empty || bool_decide (block ∈ map fst entries)) eqn:Hskip.
    + apply IH in H as (? & ? & ? & ?); [|done..].
      split; [done|]. split; [by eapply same_blocks_trans|done].
    + apply orb_false_iff in Hskip as [-> Hmem].
      apply bool_decide_eq_false in Hmem.
      symmetry in He. apply bool_decide_eq_false in He.
      apply IH in H as (? & ? & ? & ?); [| done | |].
      * split; [done|]. split; [by eapply same_blocks_trans|done].
      * rewrite map_app. apply NoDup_app. split; [done|].
        split; [|apply NoDup_singleton].
        intros b Hbin Hb'. apply list_elem_of_singleton in Hb'. by subst.
      * intros e [Hin|Hin]%elem_of_app; [by apply Hent2|].
        apply list_elem_of_singleton in Hin as ->.
        unfold packable. cbn [fst snd].
        rewrite (blk_key d2 block block Hb2).
        split; [by apply isroot_key|done].
Qed.

Lemma fill_up_spec : forall nexts st block size w st' rest',
  CollectInv k None st -> NoDup (map fst nexts) ->
  (forall e, e ∈ nexts -> packable (dsu st) e) ->
  isroot (dsu st) w = true -> block ∈ blk (dsu st) w ->
  currentBlockInCircuit_at (dsu st) w <> None ->
  size = Z.of_nat (length (blk (dsu st) w)) -> w ∉ map fst nexts ->
  fill_up k st block size nexts = Ok (st', rest') ->
  CollectInv k None st' /\ NoDup (map fst rest') /\
  (forall e, e ∈ rest' -> e ∈ nexts) /\
  (forall e, e ∈ rest' -> packable (dsu st') e) /\
  (exists w', isroot (dsu st') w' = true /\ block ∈ blk (dsu st') w' /\
     (w' = w \/ w' ∈ map fst nexts) /\ w' ∉ map fst rest') /\
  (forall e, packable (dsu st) e -> e.1 <> w -> e.1 ∉ map fst nexts ->
     packable (dsu st') e).
Proof.
  induction nexts as [|[nb ns] rest IH];
    intros st block size w st' rest' Hinv Hnd Hent Hw Hbw Haw Hsize Hwn H;
    simpl in H.
  { injection H as <- <-.
    split; [done|]. split; [done|]. split; [done|].
    split; [intros e He; by apply elem_of_nil in He|]. split; [|done].
    exists w. split; [done|]. split; [done|]. split; [by left|done]. }
  simpl in Hnd. apply NoDup_cons in Hnd as [Hnb Hnd].
  assert (Hwnb : w <> nb) by (intros ->; apply Hwn; by left).
  assert (Hwrest : w ∉ map fst rest) by (intros ?; apply Hwn; by right).
  destruct (Hent (nb, ns)) as (Hrnb & Hanb & Hns); [by left|].
  simpl in Hrnb, Hanb, Hns.
  destruct (decide (size < Z.of_nat k)%Z) as [Hlt|Hge].
  - destruct (decide (size + ns <= Z.of_nat k)%Z) as [Hfit|Hnofit].
    + apply bind_inv in H as (st1 & H1 & H).
      destruct Hinv as (Hb & Ha & Hlog).
      apply (unionBlock_spec k) in H1
        as (Hfin & r1 & r2 & Hr1 & Hp1 & Hr2 & Hq2 & H1); [|done].
      assert (r1 = w) as -> by (by apply (blocks_disjoint k _ Hb r1 w block)).
      assert (r2 = nb) as ->.
      { apply (blocks_disjoint k _ Hb r2 nb nb); try done.
        by apply (blocks_own k _ Hb). }
      destruct H1 as [(E & _)|(_ & d2 & w0 & l0 & Hwl & Hs & Hinv2 & Hw0 & Hl0 & Hd')];
        [done|].
      assert (Hwl' : w0 <> l0) by (destruct Hwl as [[-> ->]|[-> ->]]; congruence).
      destruct (union_dsu_united d2 w0 l0 Hw0 Hl0 Hwl') as (HU & _).
      rewrite <- Hd' in HU.
      pose proof Hs as (S1 & S2 & S3 & _).
      assert (Hsum : length (blk d2 w0) + length (blk d2 l0)
                     = length (blk (dsu st) w) + length (blk (dsu st) nb)).
      { rewrite !S2. destruct Hwl as [[-> ->]|[-> ->]]; lia. }
      assert (Hinv1 : BlocksInv k (dsu st1)).
      { eapply (united_inv k d2 (dsu st1) w0 l0); try done; [lia|].
        rewrite Hd'. by apply (united_parent_block k). }
      assert (Haw0 : currentBlockInCircuit_at (dsu st) w0 <> None)
        by (destruct Hwl as [[-> _]|[-> _]]; done).
      assert (Hrw0 : isroot (dsu st1) w0 = true).
      { eapply united_root; [done| |done]. by apply isroot_key. }
      assert (Hframe1 : forall e, packable (dsu st) e -> e.1 <> w -> e.1 <> nb ->
                packable (dsu st1) e).
      { intros e He ? ?. eapply (united_packable d2); [done| |..].
        - by eapply packable_same.
        - destruct Hwl as [[-> _]|[-> _]]; done.
        - destruct Hwl as [[_ ->]|[_ ->]]; done. }
      apply (IH st1 block (size + ns)%Z w0) in H
        as (Hinv' & Hnd' & Hsub & Hpack & (w' & Hw' & Hbw' & Hw'w & Hw'n) & Hframe).
      * split; [done|]. split; [done|]. split; [intros e He; right; by apply Hsub|].
        split; [done|]. split.
        { exists w'. split; [done|]. split; [done|]. split; [|done].
          destruct Hw'w as [->|?]; [|right; by right].
          destruct Hwl as [[-> _]|[-> _]]; [by left|right; by left]. }
        intros e He Hew Hen. apply Hframe.
        -- apply Hframe1; [done..|]. intros E. apply Hen. rewrite E. by left.
        -- intros E. destruct Hwl as [[-> _]|[-> _]]; [done|].
           apply Hen. rewrite E. by left.
        -- intros Hin. apply Hen. by right.
      * split; [done|]. split; [|by rewrite Hfin].
        intros r Hr Hanch.
        destruct HU as (U1 & U2 & U3 & _).
        rewrite U1 in Hr. apply andb_true_iff in Hr as [Hr Hrl].
        apply bool_decide_eq_true in Hrl.
        rewrite U3, decide_False in Hanch by done.
        rewrite S3 in Hanch.
        destruct (decide (r = w0)) as [->|Hrw']; [done|].
        rewrite U2, !decide_False by done.
        rewrite S1 in Hr.
        destruct (Ha r Hr Hanch) as [E|(y & ? & _)]; [|done].
        left. by rewrite S2.
      * done.
      * intros e He. apply Hframe1; [apply Hent; by right| |].
        -- intros E. apply Hwrest. rewrite <- E. by apply elem_of_keys.
        -- intros E. apply Hnb. rewrite <- E. by apply elem_of_keys.
      * done.
      * rewrite (united_blk_w _ _ _ _ HU), !S2, elem_of_app.
        destruct Hwl as [[-> ->]|[-> ->]]; tauto.
      * destruct HU as (_ & _ & U3 & _). rewrite U3, decide_False by done.
        by rewrite S3.
      * rewrite (united_blk_w _ _ _ _ HU), length_app. lia.
      * destruct Hwl as [[-> _]|[-> _]]; done.
    + apply bind_inv in H as ([st1 rest1] & H1 & H). injection H as <- <-.
      apply (IH st block size w) in H1
        as (Hinv' & Hnd' & Hsub & Hpack & (w' & Hw' & Hbw' & Hw'w & Hw'n) & Hframe);
        try done.
      2: { intros e He. apply Hent. by right. }
      assert (Hnb1 : nb ∉ map fst rest1).
      { intros (e & E & He)%list_elem_of_fmap. apply Hnb. rewrite E.
        by apply elem_of_keys, Hsub. }
      split; [done|]. split; [simpl; by apply NoDup_cons|]. split; [|split; [|split]].
      * intros e [->|He]%elem_of_cons; [by left|right; by apply Hsub].
      * intros e [->|He]%elem_of_cons; [|by apply Hpack].
        apply Hframe; [apply Hent; by left| |]; simpl; [by intros <-|done].
      * exists w'. split; [done|]. split; [done|]. split.
        { destruct Hw'w; [by left|right; by right]. }
        simpl. intros [E|Hin]%elem_of_cons; [|done].
        destruct Hw'w as [->|Hin]; [done|]. by rewrite E in Hin.
      * intros e He Hew Hen. apply Hframe; [done..|].
        intros Hin. apply Hen. by right.
  - injection H as <- <-. split; [done|]. split; [simpl; by apply NoDup_cons|].
    split; [done|]. split; [done|]. split; [|done].
    exists w. split; [done|]. split; [done|]. split; [by left|done].
Qed.

Lemma combine_blocks_spec : forall fuel sortedBlocks st st',
  CollectInv k None st -> NoDup (map fst sortedBlocks) ->
  (forall e, e ∈ sortedBlocks -> packable (dsu st) e) ->
  combine_blocks k fuel st sortedBlocks = Ok st' ->
  CollectInv k None st'.
Proof.
  induction fuel as [|fuel IH]; intros [|[block size] rest] st st' Hinv Hnd Hent H;
    simpl in H; try discriminate; try (by injection H as <-).
  simpl in Hnd. apply NoDup_cons in Hnd as [Hb Hnd].
  destruct (Hent (block, size)) as (Hrb & Hab & Hsz); [by left|].
  simpl in Hrb, Hab, Hsz.
  pose proof Hinv as (Hbi & _).
  pose proof (blocks_own k _ Hbi block Hrb) as Hown.
  destruct (decide (size = Z.of_nat k)) as [Hk|Hk].
  - apply bind_inv in H as (st1 & H1 & H).
    eapply IH; [| |  |exact H]; [by eapply finalizeBlock_inv|done|].
    intros e He. eapply finalize_packable; [done..|apply Hent; by right|].
    intros Hin. apply Hb.
    destruct (Hent e) as (Hre & _); [by right|].
    rewrite (blocks_disjoint k _ Hbi block e.1 block Hrb Hre Hown Hin).
    by apply elem_of_keys.
  - apply bind_inv in H as ([st1 rest1] & H1 & H).
    apply bind_inv in H as (st2 & H2 & H).
    apply (fill_up_spec rest st block size block) in H1
      as (Hinv1 & Hnd1 & Hsub & Hpack & (w' & Hw' & Hbw' & _ & Hw'n) & _);
      try done.
    2: { intros e He. apply Hent. by right. }
    eapply IH; [| | |exact H]; [by eapply finalizeBlock_inv|done|].
    pose proof Hinv1 as (Hbi1 & _).
    intros e He. eapply finalize_packable; [done..|by apply Hpack|].
    intros Hin. apply Hw'n.
    destruct (Hpack e He) as (Hre & _).
    rewrite (blocks_disjoint k _ Hbi1 w' e.1 block Hw' Hre Hbw' Hin).
    by apply elem_of_keys.
Qed.

End Packing.

(** *** One round of the loop over the circuit *)

Lemma append_dsu_spec d block empty opIt op :
  (forall x, isroot (append_dsu d block empty opIt op) x = isroot d x) /\
  (forall x, blk (append_dsu d block empty opIt op) x = blk d x) /\
  (forall x, currentBlockInCircuit_at (append_dsu d block empty opIt op) x =
     if decide (x = block)
     then (if empty then Some opIt else currentBlockInCircuit_at d block)
     else currentBlockInCircuit_at d x) /\
  (forall x, currentBlockOperations_at (append_dsu d block empty opIt op) x =
     if decide (x = block) then currentBlockOperations_at d block ++ [op]
     else currentBlockOperations_at d x) /\
  parent (append_dsu d block empty opIt op) = parent d.
Proof.
  unfold append_dsu, isroot, blk, currentBlockInCircuit_at,
    currentBlockOperations_at, bitBlocks_at, set_currentBlockInCircuit,
    set_currentBlockOperations.
  destruct empty; cbn [parent bitBlocks currentBlockInCircuit currentBlockOperations];
    repeat split; intros x; try done;
    destruct (decide (x = block)) as [->|Hne];
    rewrite ?lookup_insert_eq, ?lookup_insert_ne by done; done.
Qed.

Section Step.

Variable k : nat.

Lemma append_inv d prev block empty opIt op :
  BlocksInv k d -> anchored_or_single prev d ->
  parent d !! block = Some block ->
  empty = bool_decide (currentBlockInCircuit_at d block = None) ->
  (forall q, q ∈ getUsedQubits op -> q ∈ blk d block) ->
  (getUsedQubits op = [] \/ length (blk d block) <= k) ->
  (forall p, prev = Some p -> p ∈ blk d block) ->
  BlocksInv k (append_dsu d block empty opIt op) /\
  anchored_or_single None (append_dsu d block empty opIt op).
Proof.
  intros Hinv Ha Hb He Hused Hsize Hprev.
  destruct (append_dsu_spec d block empty opIt op) as (A1 & A2 & A3 & A4 & A5).
  pose proof (isroot_key d block Hb) as Hrb.
  assert (Hwithin : forall r o q, isroot d r = true ->
            o ∈ (if decide (r = block) then currentBlockOperations_at d block ++ [op]
                 else currentBlockOperations_at d r) ->
            q ∈ getUsedQubits o -> q ∈ blk d r).
  { intros r o q Hr. destruct (decide (r = block)) as [->|Hne].
    - intros [Ho|Ho]%elem_of_app Hq.
      + by apply (bodies_within k d Hinv block o q).
      + apply list_elem_of_singleton in Ho as ->. by apply Hused.
    - apply (bodies_within k d Hinv r o q Hr). }
  split; [split|].
  - intros r1 r2 q. rewrite !A1, !A2. apply (blocks_disjoint k d Hinv).
  - intros r. rewrite A1, A2. apply (blocks_own k d Hinv).
  - intros r. rewrite A1, A2. apply (blocks_NoDup k d Hinv).
  - intros r o q. rewrite A1, A2, A4. apply Hwithin.
  - intros r. rewrite A1, A4. intros Hr.
    destruct (decide (r = block)) as [->|Hne]; [|by apply (bodies_bounded k d Hinv)].
    destruct Hsize as [Hnil|Hsize].
    + unfold spans. rewrite used_Compound_snoc, Hnil.
      by apply (bodies_bounded k d Hinv).
    + unfold spans. etransitivity; [|exact Hsize].
      apply NoDup_incl_length; [apply getUsedQubits_NoDup|].
      intros q (o & Ho & Hq)%elem_of_used_Compound.
      apply (Hwithin block o q Hrb); [|done]. by rewrite decide_True.
  - intros q p. rewrite A5. intros Hq.
    destruct (parent_block k d Hinv q p Hq) as (r & ? & ? & ?).
    exists r. by rewrite A1, A2.
  - intros q. rewrite A5, A3, A4. intros Hq.
    rewrite !decide_False by congruence. by apply (unset_keys k d Hinv).
  - intros r. rewrite A1, A2, A3. intros Hr Hanch.
    destruct (decide (r = block)) as [->|Hne].
    + exfalso. destruct empty; [done|].
      symmetry in He. by apply bool_decide_eq_false in He.
    + destruct (Ha r Hr Hanch) as [?|(y & Hy & Hyr)]; [by left|].
      exfalso. apply Hne.
      apply (blocks_disjoint k d Hinv r block y Hr Hrb Hyr). by apply Hprev.
Qed.

Section Pass.

Variable initializeIOMapping : QuantumComputation -> QuantumComputation.
Variable sort_descending : list (Qubit * Z) -> list (Qubit * Z).
Variable iteration_order : gmap Qubit Qubit -> list Qubit.
Variable minus_one : Qubit.
Hypothesis sort_descending_perm : forall l, sort_descending l ≡ₚ l.

Lemma set_dsu_inv x st d :
  CollectInv k x st -> BlocksInv k d -> same_blocks (dsu st) d ->
  CollectInv k x (set_dsu st d).
Proof.
  intros (_ & Ha & Hlog) Hinv Hs. split; [done|]. split; [|done].
  by eapply anchored_or_single_same.
Qed.

Lemma covered_same U st d :
  covered k U st -> same_blocks (dsu st) d -> covered k U (set_dsu st d).
Proof.
  intros (R & HR & HW) Hs. exists R. split; [by eapply covers_same|].
  cbn [dsu set_dsu]. by rewrite (weight_same _ _ R Hs).
Qed.

Lemma collect_step_inv st opIt st' opIt' :
  CollectInv k None st ->
  collect_step sort_descending minus_one k st opIt = Ok (st', opIt') ->
  CollectInv k None st'.
Proof using sort_descending_perm.
  intros Hinv H. unfold collect_step in H.
  apply bind_inv in H as (slot & _ & H).
  destruct slot as [op|]; [|discriminate].
  cbv zeta in H.
  set (U := getUsedQubits op) in *.
  apply bind_inv in H as ([st1 big] & H1 & H).
  apply bind_inv in H as (st2 & H2 & H).
  assert (Hphase1 : CollectInv k None st1 /\
            (isUnitary op = true -> big = false -> covered k U st1)).
  { destruct (isUnitary op).
    - apply bind_inv in H1 as ([d blocks] & Hf & H1). injection H1 as <- <-.
      pose proof Hinv as (Hb & _).
      apply (find_all_spec k) in Hf as (Hb' & Hs & Hall); [|done].
      split; [by apply set_dsu_inv|].
      intros _ Hbig. apply bool_decide_eq_false in Hbig.
      destruct (find_all_covers U d blocks Hall) as [HR HW].
      exists (remove_dups blocks). split; [done|].
      cbn [dsu set_dsu]. rewrite <- HW. lia.
    - apply bind_inv in H1 as (st1' & Hfa & H1). injection H1 as <- <-.
      split; [by eapply finalize_all_inv|]. discriminate. }
  clear H1. destruct Hphase1 as [Hinv1 Hcov1].
  assert (Hphase2 : CollectInv k None st2 /\
            (isUnitary op = true -> length U <= k -> covered k U st2)).
  { destruct big.
    - destruct (decide (k < length U)) as [Hbig|Hsmall].
      + apply bind_inv in H2 as ([d entries] & Hbs & H2).
        pose proof Hinv1 as (Hb & _).
        apply (blocksAndSizes_spec k) in Hbs as (Hb' & Hs & Hnd & Hent);
          [|done|apply NoDup_nil_2|by intros e He%elem_of_nil].
        split; [|intros; lia].
        eapply (combine_blocks_spec k); [| | |exact H2].
        * by apply set_dsu_inv.
        * by rewrite (sort_descending_perm entries).
        * intros e He. rewrite (sort_descending_perm entries) in He. by apply Hent.
      + apply bind_inv in H2 as ([[d sv] T] & Hsv & H2).
        pose proof Hinv1 as (Hb & _).
        apply (savings_of_spec k U (dsu st1) [] [] 0) in Hsv
          as (Hb' & Hs & Hnd & Hsaves & Hcover & HT); [|done|].
        2: { split; [apply NoDup_nil_2|]. split; [by intros e He%elem_of_nil|].
             split; [by intros u Hu%elem_of_nil|done]. }
        rewrite app_nil_l in Hsaves, Hcover.
        assert (Hfree : CollectInv k None st2 /\ covered k U st2); [|tauto].
        eapply (free_space_spec k U); [apply getUsedQubits_NoDup|lia| |exact H2].
        split; [by apply set_dsu_inv|].
        exists (map fst sv). cbn [dsu set_dsu].
        split; [split; [done|split]|split; [|split; [|split]]].
        * intros r (e & -> & He)%list_elem_of_fmap.
          destruct (Hsaves e He) as (Hr & _). by apply isroot_key.
        * done.
        * lia.
        * by rewrite (sort_descending_perm sv).
        * intros e He. rewrite (sort_descending_perm sv) in He.
          destruct (Hsaves e He) as (Hr & Hv & Hu).
          split; [by apply isroot_key|]. split; [by apply elem_of_keys|done].
        * intros _ u Hu. right.
          destruct (Hcover u Hu) as (b & (e & -> & He)%list_elem_of_fmap & Hub).
          exists e. by rewrite (sort_descending_perm sv).
    - injection H2 as <-. split; [done|]. intros Hu _. by apply Hcov1. }
  clear H2. destruct Hphase2 as [Hinv2 Hcov2].
  destruct (isUnitary op) eqn:Hun; [|by injection H as <- _].
  destruct (decide (k < length U)) as [Hbig|Hsmall]; [by injection H as <- _|].
  specialize (Hcov2 eq_refl ltac:(lia)).
  apply bind_inv in H as ([st3 prev] & H3 & H).
  apply bind_inv in H as ([d4 block] & H4 & H).
  apply bind_inv in H as ([d5 empty] & H5 & H).
  apply (union_all_spec k U U st2 None) in H3
    as ((Hb3 & Ha3 & Hlog3) & Hcov3 & HprevU & Htog); [|done..| |].
  2: { intros p. discriminate. }
  2: { intros u Hu Hn. done. }
  apply (find_spec k) in H4 as (Hb4 & Hs4 & Hblock & Hx); [|done].
  apply (blockEmpty_spec k) in H5 as (Hb5 & Hs5 & r & Hr & Hbr & He); [|done].
  pose proof (key_root _ _ _ Hs5 Hblock) as Hblock5.
  assert (r = block) as ->.
  { apply (blocks_disjoint k d5 Hb5 r block block); auto using isroot_key.
    apply (blocks_own k d5 Hb5). by apply isroot_key. }
  pose proof (same_blocks_trans _ _ _ Hs4 Hs5) as Hs.
  pose proof Hs as (S1 & S2 & _).
  assert (Hx5 : default minus_one prev ∈ blk d5 block).
  { destruct Hs5 as (_ & T2 & _). by rewrite T2. }
  assert (Hin : forall q, q ∈ U -> q ∈ blk d5 block).
  { intros q Hq. destruct (Htog q Hq) as (p & -> & r' & Hr' & Hqr' & Hpr').
    rewrite <- S1, <- S2 in *.
    by rewrite <- (blocks_disjoint k d5 Hb5 r' block p Hr' (isroot_key _ _ Hblock5) Hpr' Hx5). }
  assert (Hfinal : BlocksInv k (append_dsu d5 block empty opIt op) /\
            anchored_or_single None (append_dsu d5 block empty opIt op)).
  { eapply (append_inv d5 prev); try done.
    - by eapply anchored_or_single_same.
    - fold U. destruct U as [|u U'] eqn:EU; [by left|]. right.
      destruct (Htog u ltac:(by left)) as (p & Hp & _).
      destruct Hcov3 as (R & HR & HW).
      pose proof (covers_same _ _ _ R Hs HR) as HR5.
      rewrite <- (weight_same _ _ R Hs) in HW.
      etransitivity; [|exact HW]. apply weight_elem.
      eapply (covers_root k d5 _ R (default minus_one prev) block);
        eauto using isroot_key.
      subst prev. by apply HprevU.
    - intros p ->. exact Hx5. }
  destruct Hfinal as [Hbf Haf].
  destruct empty.
  - injection H as <- _. done.
  - destruct (decide (opIt = 0)); [discriminate|]. injection H as <- _. done.
Qed.

Lemma collect_loop_inv : forall fuel st opIt st',
  CollectInv k None st ->
  collect_loop sort_descending minus_one k fuel st opIt = Ok st' ->
  CollectInv k None st'.
Proof using sort_descending_perm.
  induction fuel as [|fuel IH]; intros st opIt st' Hinv H; [discriminate|].
  cbn [collect_loop] in H.
  destruct (bool_decide (opIt = length (circuit_slots st))).
  - by injection H as <-.
  - apply bind_inv in H as ([st1 opIt1] & H1 & H).
    eapply IH; [|exact H]. by eapply collect_step_inv.
Qed.

Lemma empty_lookup {A} (x : Qubit) : (∅ : gmap Qubit A) !! x = None.
Proof. apply lookup_empty. Qed.

Lemma empty_dsu_inv slots :
  CollectInv k None (mkCollect slots (mkDSU ∅ ∅ ∅ ∅) []).
Proof.
  split; [split|split; [|constructor]]; cbn [dsu];
    unfold isroot, blk, currentBlockInCircuit_at, currentBlockOperations_at;
    cbn [parent currentBlockInCircuit currentBlockOperations].
  - intros r1 r2 q _ _. rewrite !empty_lookup.
    intros ->%list_elem_of_singleton ->%list_elem_of_singleton. done.
  - intros r _. rewrite empty_lookup. by apply list_elem_of_singleton.
  - intros r _. rewrite empty_lookup. apply NoDup_singleton.
  - intros r o q _. rewrite empty_lookup. by intros ?%elem_of_nil.
  - intros r _. rewrite empty_lookup. unfold spans. simpl. lia.
  - intros q p. by rewrite empty_lookup.
  - intros q _. by rewrite !empty_lookup.
  - intros r _ _. unfold blk. cbn [parent]. rewrite empty_lookup. by left.
Qed.

End Pass.
End Step.

(** *** The step budgets *)

Lemma keys_length (m : gmap Qubit Qubit) (l : list Qubit) :
  NoDup l -> (forall x, x ∈ l -> is_Some (m !! x)) -> length l <= size m.
Proof.
  intros Hnd Hkeys. rewrite <- length_map_to_list.
  rewrite <- (length_map fst (map_to_list m)).
  apply NoDup_incl_length; [done|].
  intros x Hx. destruct (Hkeys x Hx) as [v Hv].
  apply list_elem_of_fmap. exists (x, v). split; [done|].
  by apply elem_of_map_to_list.
Qed.

Lemma rank_bound k h d q :
  BlocksInv k d -> rank_ok h d -> h q < S (size (parent d)).
Proof.
  intros Hinv (_ & Hb & Hc).
  destruct (parent d !! q) as [p|] eqn:Hq.
  - destruct (parent_block k d Hinv q p Hq) as (r & Hr & Hqr & _).
    assert (Hreal : parent d !! r = Some r).
    { unfold isroot in Hr. unfold blk in Hqr.
      destruct (parent d !! r) as [p'|] eqn:E.
      - apply bool_decide_eq_true in Hr. by subst.
      - apply list_elem_of_singleton in Hqr. congruence. }
    pose proof (Hb r q Hr Hqr) as Hlt.
    pose proof (keys_length (parent d) (blk d r)
                  (blocks_NoDup k d Hinv r Hr) (fun x => Hc r x Hreal)).
    lia.
  - assert (Hr : isroot d q = true) by (unfold isroot; by rewrite Hq).
    assert (Hblk : blk d q = [q]) by (unfold blk; by rewrite Hq).
    pose proof (Hb q q Hr) as Hlt. rewrite Hblk in Hlt.
    specialize (Hlt ltac:(by left)). simpl in Hlt. lia.
Qed.

Lemma singleton_block_rank k h d q :
  BlocksInv k d -> parent d !! q = None -> rank_ok h d ->
  rank_ok h (singleton_block d q).
Proof.
  intros Hinv Hq (Ha & Hb & Hc).
  pose proof (singleton_block_same k d q Hinv Hq) as (S1 & S2 & _).
  assert (HP : parent (singleton_block d q) = <[q := q]> (parent d)) by done.
  split; [|split].
  - intros x p. rewrite HP. destruct (decide (x = q)) as [->|Hne].
    + rewrite lookup_insert_eq. by intros [= <-].
    + rewrite lookup_insert_ne by done. apply Ha.
  - intros r x. rewrite S1, S2. apply Hb.
  - intros r x. rewrite HP, S2. destruct (decide (r = q)) as [->|Hne].
    + intros _. unfold blk. rewrite Hq. intros ->%list_elem_of_singleton.
      rewrite lookup_insert_eq. by eexists.
    + rewrite lookup_insert_ne by done. intros Hr Hx.
      destruct (Hc r x Hr Hx) as [v Hv].
      destruct (decide (x = q)) as [->|Hxq]; [congruence|].
      rewrite lookup_insert_ne by done. by eexists.
Qed.

Lemma findBlock_total k h : forall fuel d q,
  BlocksInv k d -> rank_ok h d -> h q < fuel ->
  exists d' r, findBlock fuel d q = Ok (d', r) /\ rank_ok h d' /\ h r <= h q.
Proof.
  induction fuel as [|fuel IH]; intros d q Hinv Hrank Hfuel; [lia|].
  cbn [findBlock].
  set (d0 := if decide (parent d !! q = None) then singleton_block d q else d).
  assert (H0 : BlocksInv k d0 /\ rank_ok h d0 /\ is_Some (parent d0 !! q)).
  { subst d0. destruct (decide (parent d !! q = None)) as [Hn|Hn].
    - split; [by apply singleton_block_inv|].
      split; [by eapply singleton_block_rank|].
      unfold singleton_block; simpl. rewrite lookup_insert_eq. by eexists.
    - split; [done|]. split; [done|].
      destruct (parent d !! q); [by eexists|done]. }
  clearbody d0. destruct H0 as (Hinv0 & Hrank0 & [p Hp]).
  rewrite Hp. destruct (decide (p = q)) as [->|Hne].
  - exists d0, q. split; [done|]. split; [done|lia].
  - pose proof Hrank0 as (Ha & Hb & Hc).
    pose proof (Ha q p Hp Hne) as Hlt.
    destruct (IH d0 p Hinv0 Hrank0 ltac:(lia)) as (d1 & r1 & Hrec & Hrank1 & Hr1).
    rewrite Hrec. simpl.
    exists (set_parent d1 q r1), r1. split; [done|]. split; [|lia].
    apply (findBlock_spec k) in Hrec as (Hinv1 & Hs1 & Hroot1 & _); [|done].
    assert (Hrq : r1 <> q) by (intros ->; lia).
    assert (Hq1 : exists p1, parent d1 !! q = Some p1 /\ p1 <> q).
    { destruct Hs1 as (S1 & _ & _ & _ & S5).
      destruct (S5 q) as [p1 Hp1]; [by eexists|].
      exists p1. split; [done|]. intros ->.
      pose proof (S1 q) as E. rewrite (isroot_key d1 q Hp1) in E.
      unfold isroot in E. rewrite Hp in E.
      symmetry in E. apply bool_decide_eq_true in E. done. }
    destruct Hq1 as (p1 & Hp1 & Hp1q).
    pose proof (set_parent_same d1 q p1 r1 Hp1 Hp1q Hrq) as (T1 & T2 & _).
    destruct Hrank1 as (Ha1 & Hb1 & Hc1).
    assert (HP : parent (set_parent d1 q r1) = <[q := r1]> (parent d1)) by done.
    split; [|split].
    + intros x y. rewrite HP. destruct (decide (x = q)) as [->|Hxq].
      * rewrite lookup_insert_eq. intros [= <-] _. lia.
      * rewrite lookup_insert_ne by done. apply Ha1.
    + intros r x. rewrite T1, T2. apply Hb1.
    + intros r x. rewrite HP, T2. destruct (decide (r = q)) as [->|Hrq'].
      * rewrite lookup_insert_eq. by intros [= ->].
      * rewrite lookup_insert_ne by done. intros Hr Hx.
        destruct (Hc1 r x Hr Hx) as [v Hv].
        destruct (decide (x = q)) as [->|Hxq].
        -- rewrite lookup_insert_eq. by eexists.
        -- rewrite lookup_insert_ne by done. by eexists.
Qed.

Lemma find_total k h d q :
  BlocksInv k d -> rank_ok h d ->
  exists d' r, find d q = Ok (d', r) /\ rank_ok h d'.
Proof.
  intros Hinv Hrank.
  destruct (findBlock_total k h (find_fuel d) d q Hinv Hrank) as (d' & r & ? & ? & _).
  { pose proof (rank_bound k h d q Hinv Hrank). unfold find_fuel. lia. }
  by exists d', r.
Qed.

Lemma BlocksInv_mono k k' d : k <= k' -> BlocksInv k d -> BlocksInv k' d.
Proof.
  intros Hk [I1 I2 I3 I4 I5 I6 I7]. split; try done.
  intros r Hr. specialize (I5 r Hr). unfold spans in *. lia.
Qed.

Lemma real_root d r : isroot d r = true -> is_Some (parent d !! r) ->
  parent d !! r = Some r.
Proof.
  unfold isroot. intros Hr [p Hp]. rewrite Hp in Hr.
  apply bool_decide_eq_true in Hr. by subst.
Qed.

(** [unionBlock] lengthens the chains of the block that is hung below the
    other. *)
Lemma union_dsu_rank k d w l :
  BlocksInv k d -> Ranked d ->
  parent d !! w = Some w -> parent d !! l = Some l -> w <> l ->
  Ranked (union_dsu d w l).
Proof.
  intros Hinv (h & Ha & Hb & Hc) Hw Hl Hwl.
  destruct (union_dsu_united d w l Hw Hl Hwl) as ((U1 & U2 & _) & HP).
  pose proof (isroot_key d w Hw) as Hrw.
  pose proof (isroot_key d l Hl) as Hrl.
  pose proof (blocks_own k d Hinv w Hrw) as Hww.
  pose proof (blocks_own k d Hinv l Hrl) as Hll.
  assert (Hsep : forall r x, isroot d r = true -> r <> l -> x ∈ blk d r -> x ∉ blk d l).
  { intros r x Hr Hne Hx Hxl. apply Hne.
    by apply (blocks_disjoint k d Hinv r l x). }
  exists (fun x => if decide (x ∈ blk d l) then h x + h w + 1 else h x).
  split; [|split].
  - intros q p. rewrite HP. destruct (decide (q = l)) as [->|Hql].
    + rewrite lookup_insert_eq. intros [= <-] _.
      rewrite decide_False by (by apply (Hsep w)).
      rewrite decide_True by done. lia.
    + rewrite lookup_insert_ne by done. intros Hq Hpq.
      pose proof (Ha q p Hq Hpq) as Hlt.
      destruct (parent_block k d Hinv q p Hq) as (r & Hr & Hqr & Hpr).
      destruct (decide (r = l)) as [->|Hrl'].
      * rewrite !decide_True by done. lia.
      * rewrite !decide_False by (by apply (Hsep r)). done.
  - intros r x. rewrite U1, U2. intros [Hr Hrl']%andb_true_iff.
    apply bool_decide_eq_true in Hrl'.
    destruct (decide (r = w)) as [->|Hrw'].
    + rewrite length_app. intros [Hx|Hx]%elem_of_app.
      * rewrite decide_False by (by apply (Hsep w)).
        pose proof (Hb w x Hrw Hx). lia.
      * rewrite decide_True by done.
        pose proof (Hb l x Hrl Hx). pose proof (Hb w w Hrw Hww). lia.
    + rewrite decide_False by done. intros Hx.
      rewrite decide_False by (by apply (Hsep r)). by apply Hb.
  - intros r x. rewrite HP, U2. destruct (decide (r = l)) as [->|Hrl'].
    + rewrite lookup_insert_eq. by intros [= ->].
    + rewrite lookup_insert_ne by done. intros Hr Hx.
      assert (Hkey : is_Some (parent d !! x)).
      { destruct (decide (r = w)) as [->|Hrw'].
        - apply elem_of_app in Hx as [Hx|Hx]; [by apply (Hc w)|by apply (Hc l)].
        - by apply (Hc r). }
      destruct (decide (x = l)) as [->|Hxl].
      * rewrite lookup_insert_eq. by eexists.
      * by rewrite lookup_insert_ne.
Qed.

(** [finalizeBlock] cuts the chains of the block. *)
Lemma reset_rank k d r :
  BlocksInv k d -> Ranked d -> parent d !! r = Some r ->
  Ranked (fold_left singleton_block (bitBlocks_at d r) d).
Proof.
  intros Hinv (h & Ha & Hb & Hc) Hr.
  pose proof (isroot_key d r Hr) as Hroot.
  pose proof (reset_dsu_spec d r Hr) as (R1 & R2 & _).
  assert (HP : forall x, parent (fold_left singleton_block (bitBlocks_at d r) d) !! x
                 = if decide (x ∈ blk d r) then Some x else parent d !! x).
  { intros x. rewrite (blk_key d r r Hr).
    by destruct (reset_lookup (bitBlocks_at d r) d x) as (-> & _). }
  assert (Hsep : forall r0 x, isroot d r0 = true -> r0 ∉ blk d r ->
            x ∈ blk d r0 -> x ∉ blk d r).
  { intros r0 x Hr0 Hout Hx Hxr. apply Hout.
    rewrite (blocks_disjoint k d Hinv r0 r x Hr0 Hroot Hx Hxr).
    by apply (blocks_own k d Hinv). }
  exists (fun x => if decide (x ∈ blk d r) then 0 else h x).
  split; [|split].
  - intros q p. rewrite HP. destruct (decide (q ∈ blk d r)) as [Hq|Hq].
    + by intros [= <-].
    + intros Hqp Hne. pose proof (Ha q p Hqp Hne).
      destruct (parent_block k d Hinv q p Hqp) as (r0 & Hr0 & Hq0 & Hp0).
      assert (r0 ∉ blk d r) as Hout.
      { intros Hin. apply Hq.
        by rewrite (blocks_one_root k d r r0 Hinv Hroot Hin Hr0) in Hq0. }
      rewrite decide_False by (by apply (Hsep r0)). done.
  - intros r0 x. rewrite R1, R2. destruct (decide (r0 ∈ blk d r)) as [Hin|Hout].
    + intros _ ->%list_elem_of_singleton. rewrite decide_True by done. simpl. lia.
    + intros Hr0 Hx. rewrite decide_False by (by apply (Hsep r0)). by apply Hb.
  - intros r0 x. rewrite !HP, R2. destruct (decide (r0 ∈ blk d r)) as [Hin|Hout].
    + intros _ ->%list_elem_of_singleton. rewrite decide_True by done. by eexists.
    + intros Hr0 Hx. destruct (decide (x ∈ blk d r)); [by eexists|].
      by apply (Hc r0).
Qed.

Lemma same_parent_rank d d' :
  (forall x, isroot d' x = isroot d x) -> (forall x, blk d' x = blk d x) ->
  parent d' = parent d -> Ranked d -> Ranked d'.
Proof.
  intros S1 S2 HP (h & Ha & Hb & Hc). exists h. split; [|split].
  - intros q p. rewrite HP. apply Ha.
  - intros r q. rewrite S1, S2. apply Hb.
  - intros r q. rewrite HP, S2. apply Hc.
Qed.

Lemma bind_Throw {A B} (e : Exception) (f : A -> result B) :
  (Throw e ≫= f) = Throw e.
Proof. reflexivity. Qed.

Lemma keeps_bind {A B} (P : A -> Prop) (Q : B -> Prop) (m : result A)
    (f : A -> result B) :
  keeps P m -> (forall a, P a -> keeps Q (f a)) -> keeps Q (m ≫= f).
Proof.
  intros [Hb Hok] Hf. destruct m as [a|e].
  - apply Hf. by apply Hok.
  - rewrite bind_Throw. split; [|discriminate].
    intros [= ->]. by apply Hb.
Qed.

Lemma keeps_Ok {A} (P : A -> Prop) (a : A) : P a -> keeps P (Ok a).
Proof. intros Ha. split; [discriminate|]. by intros a' [= <-]. Qed.

Lemma keeps_Throw {A} (P : A -> Prop) e : e <> FuelExhausted -> keeps P (Throw e).
Proof. intros He. split; [congruence|discriminate]. Qed.

Lemma keeps_impl {A} (P Q : A -> Prop) (m : result A) :
  (forall a, P a -> Q a) -> keeps P m -> keeps Q m.
Proof. intros HPQ [Hb Hok]. split; [done|]. intros a Ha. by apply HPQ, Hok. Qed.

Lemma find_keeps d q :
  Sound d ->
  keeps (fun r => Sound r.1 /\ same_blocks d r.1 /\ parent r.1 !! r.2 = Some r.2)
    (find d q).
Proof.
  intros ([k Hinv] & h & Hrank).
  destruct (find_total k h d q Hinv Hrank) as (d' & r & E & Hrank').
  rewrite E. apply keeps_Ok. cbn [fst snd].
  apply (find_spec k) in E as (Hinv' & Hs & Hr & _); [|done].
  split; [split; [by exists k|by exists h]|done].
Qed.

Lemma blockEmpty_keeps d q :
  Sound d -> keeps (fun r => Sound r.1) (blockEmpty d q).
Proof.
  intros HS. unfold blockEmpty.
  eapply keeps_bind; [by apply find_keeps|].
  intros [d' r] (HS' & _). by apply keeps_Ok.
Qed.

Lemma write_slot_keeps slots a o :
  keeps (fun slots' => length slots' = length slots) (write_slot slots a o).
Proof.
  unfold write_slot. destruct (decide (a < length slots)).
  - apply keeps_Ok. apply length_insert.
  - by apply keeps_Throw.
Qed.

Lemma union_dsu_sound d w l :
  Sound d -> parent d !! w = Some w -> parent d !! l = Some l -> w <> l ->
  Sound (union_dsu d w l).
Proof.
  intros ([k Hinv] & Hrank) Hw Hl Hwl. split; [|by eapply union_dsu_rank].
  exists (Nat.max k (length (blk d w) + length (blk d l))).
  destruct (union_dsu_united d w l Hw Hl Hwl) as (HU & _).
  eapply (united_inv _ d (union_dsu d w l) w l); try done.
  - eapply BlocksInv_mono; [|done]. lia.
  - lia.
  - apply (united_parent_block k); done.
Qed.

Lemma unionBlock_keeps n st b1 b2 :
  Kept n st -> keeps (Kept n) (unionBlock st b1 b2).
Proof.
  intros [HS Hn]. unfold unionBlock.
  eapply keeps_bind; [by apply find_keeps|].
  intros [d1 r1] (HS1 & Hs1 & Hr1). cbn [fst snd] in *.
  eapply keeps_bind; [by apply find_keeps|].
  intros [d2 r2] (HS2 & Hs2 & Hr2). cbn [fst snd] in *.
  pose proof (key_root _ _ _ Hs2 Hr1) as Hr1'.
  destruct (decide (r1 = r2)) as [->|Hne]; [by apply keeps_Ok|].
  destruct (decide (length (currentBlockOperations_at d2 r1)
                    < length (currentBlockOperations_at d2 r2))).
  - eapply keeps_bind.
    { destruct (currentBlockInCircuit_at _ r1);
        [apply write_slot_keeps|by apply keeps_Ok]. }
    intros slots Hlen. apply keeps_Ok. split; [|by rewrite <- Hn].
    by apply (union_dsu_sound d2 r2 r1).
  - eapply keeps_bind.
    { destruct (currentBlockInCircuit_at _ r2);
        [apply write_slot_keeps|by apply keeps_Ok]. }
    intros slots Hlen. apply keeps_Ok. split; [|by rewrite <- Hn].
    by apply (union_dsu_sound d2 r1 r2).
Qed.

Lemma finalizeBlock_keeps n st i :
  Kept n st -> keeps (Kept n) (finalizeBlock st i).
Proof.
  intros [HS Hn]. unfold finalizeBlock.
  eapply keeps_bind; [by apply find_keeps|].
  intros [d1 r] (HS1 & Hs1 & Hr). cbn [fst snd] in *.
  destruct (currentBlockInCircuit_at d1 r) as [a|] eqn:Ha; [|by apply keeps_Ok].
  eapply keeps_bind; [apply write_slot_keeps|].
  intros slots Hlen. apply keeps_Ok. split; [|by rewrite <- Hn].
  destruct HS1 as ([k Hinv] & Hrank). split; [|by eapply reset_rank].
  exists k. cbn [dsu].
  pose proof (reset_dsu_spec d1 r Hr) as Hreset.
  eapply (reset_inv k d1); [done|done|by apply isroot_key|].
  intros q p Hq.
  destruct Hreset as (R1 & R2 & _).
  destruct (reset_lookup (bitBlocks_at d1 r) d1 q) as (E1 & _).
  rewrite E1 in Hq. rewrite <- (blk_key d1 r r Hr) in Hq.
  destruct (decide (q ∈ blk d1 r)) as [M|M].
  - injection Hq as <-. exists q. rewrite R1, R2.
    rewrite !decide_True by done.
    split; [done|]. split; by apply list_elem_of_singleton.
  - destruct (parent_block k d1 Hinv q p Hq) as (r0 & Hr0 & Hq0 & Hp0).
    assert (r0 ∉ blk d1 r) as M0.
    { intros M0. apply M.
      assert (r0 = r) as ->; [|done].
      eapply (blocks_one_root k d1); eauto using isroot_key. }
    exists r0. rewrite R1, R2. by rewrite !decide_False by done.
Qed.

Section Budget.

Variable k : nat.
Variable sort_descending : list (Qubit * Z) -> list (Qubit * Z).
Variable minus_one : Qubit.
Hypothesis sort_descending_perm : forall l, sort_descending l ≡ₚ l.

Lemma finalize_all_keeps n qs : forall st,
  Kept n st -> keeps (Kept n) (finalize_all st qs).
Proof.
  induction qs as [|q qs IH]; intros st HK; simpl; [by apply keeps_Ok|].
  eapply keeps_bind; [by apply finalizeBlock_keeps|]. exact IH.
Qed.

Lemma finalize_roots_keeps n keys : forall st,
  Kept n st -> keeps (Kept n) (finalize_roots st keys).
Proof.
  induction keys as [|q keys IH]; intros st HK; simpl; [by apply keeps_Ok|].
  destruct (decide (parent (dsu st) !! q = Some q)); [|by apply IH].
  eapply keeps_bind; [by apply finalizeBlock_keeps|]. exact IH.
Qed.

Lemma find_all_keeps qs : forall d,
  Sound d -> keeps (fun r => Sound r.1) (find_all d qs).
Proof.
  induction qs as [|q qs IH]; intros d HS; simpl; [by apply keeps_Ok|].
  eapply keeps_bind; [by apply find_keeps|].
  intros [d1 b] (HS1 & _). cbn [fst] in HS1.
  eapply keeps_bind; [by apply IH|].
  intros [d2 bs] HS2. by apply keeps_Ok.
Qed.

Lemma blocksAndSizes_keeps qs : forall d entries,
  Sound d -> keeps (fun r => Sound r.1) (blocksAndSizes d qs entries).
Proof.
  induction qs as [|q qs IH]; intros d entries HS; simpl; [by apply keeps_Ok|].
  eapply keeps_bind; [by apply find_keeps|].
  intros [d1 block] (HS1 & _). cbn [fst] in HS1.
  eapply keeps_bind; [by apply blockEmpty_keeps|].
  intros [d2 empty] HS2. cbn [fst] in HS2.
  destruct (empty || _); by apply IH.
Qed.

Lemma savings_of_keeps qs : forall d savings totalSize,
  Sound d -> keeps (fun r => Sound r.1.1) (savings_of d qs savings totalSize).
Proof.
  induction qs as [|q qs IH]; intros d savings totalSize HS; simpl;
    [by apply keeps_Ok|].
  eapply keeps_bind; [by apply find_keeps|].
  intros [d1 block] (HS1 & _). cbn [fst] in HS1.
  destruct (bool_decide _); by apply IH.
Qed.

Lemma fill_up_keeps n nexts : forall st block size,
  Kept n st ->
  keeps (fun r => Kept n r.1 /\ length r.2 <= length nexts)
    (fill_up k st block size nexts).
Proof.
  induction nexts as [|[nb ns] rest IH]; intros st block size HK; simpl.
  { by apply keeps_Ok. }
  destruct (decide (size < Z.of_nat k)%Z); [|by apply keeps_Ok].
  destruct (decide (size + ns <= Z.of_nat k)%Z).
  - eapply keeps_bind; [by apply unionBlock_keeps|].
    intros st1 HK1. eapply keeps_impl; [|by apply IH].
    intros [st' rest'] [? ?]. split; [done|]. cbn [snd] in *. lia.
  - eapply keeps_bind; [by apply IH|].
    intros [st1 rest1] [HK1 Hlen]. apply keeps_Ok. split; [done|].
    cbn [snd] in *. simpl. lia.
Qed.

Lemma combine_blocks_keeps n : forall fuel sortedBlocks st,
  length sortedBlocks <= fuel -> Kept n st ->
  keeps (Kept n) (combine_blocks k fuel st sortedBlocks).
Proof.
  induction fuel as [|fuel IH]; intros [|[block size] rest] st Hfuel HK;
    simpl in *; try (by apply keeps_Ok); [lia|].
  destruct (decide (size = Z.of_nat k)).
  - eapply keeps_bind; [by apply finalizeBlock_keeps|].
    intros st1 HK1. apply IH; [lia|done].
  - eapply keeps_bind; [by apply fill_up_keeps|].
    intros [st1 rest1] [HK1 Hlen]. cbn [fst snd] in *.
    eapply keeps_bind; [by apply finalizeBlock_keeps|].
    intros st2 HK2. apply IH; [lia|done].
Qed.

Lemma free_space_keeps n sortedSavings : forall st need,
  Kept n st -> keeps (Kept n) (free_space st sortedSavings need).
Proof.
  induction sortedSavings as [|[index saving] rest IH]; intros st need HK; simpl;
    [by apply keeps_Ok|].
  destruct (decide (0 < need)%Z); [|by apply IH].
  eapply keeps_bind; [by apply finalizeBlock_keeps|].
  intros st1 HK1. by apply IH.
Qed.

Lemma union_all_keeps n qs : forall st prev,
  Kept n st -> keeps (fun r => Kept n r.1) (union_all st prev qs).
Proof.
  induction qs as [|q qs IH]; intros st prev HK; simpl; [by apply keeps_Ok|].
  eapply keeps_bind; [|intros st1 HK1; apply IH; exact HK1].
  destruct prev; [by apply unionBlock_keeps|by apply keeps_Ok].
Qed.

Lemma set_dsu_Kept n st d : Kept n st -> Sound d -> Kept n (set_dsu st d).
Proof. intros [_ Hn] HS. split; done. Qed.

Lemma collect_step_keeps st opIt :
  Sound (dsu st) ->
  keeps (fun r => Ranked (dsu r.1) /\
           S (length (circuit_slots r.1) - r.2) <= length (circuit_slots st) - opIt)
    (collect_step sort_descending minus_one k st opIt).
Proof.
  intros HS. unfold collect_step, subscript.
  destruct (circuit_slots st !! opIt) as [slot|] eqn:Hslot;
    [|by apply keeps_Throw].
  rewrite bind_Ok.
  destruct slot as [op|]; [|by apply keeps_Throw].
  cbv zeta.
  pose proof (lookup_lt_Some _ _ _ Hslot) as Hlt.
  set (n := length (circuit_slots st)) in *.
  assert (HK : Kept n st) by (split; done).
  eapply keeps_bind.
  { instantiate (1 := fun r => Kept n r.1).
    destruct (isUnitary op).
    - eapply keeps_bind; [by apply find_all_keeps|].
      intros [d blocks] HSd. apply keeps_Ok. by apply set_dsu_Kept.
    - eapply keeps_bind; [by apply finalize_all_keeps|].
      intros st1 HK1. by apply keeps_Ok. }
  intros [st1 big] HK1. cbn [fst] in HK1.
  eapply keeps_bind.
  { instantiate (1 := Kept n).
    destruct big; [|by apply keeps_Ok].
    destruct (decide (k < length (getUsedQubits op))).
    - eapply keeps_bind; [apply blocksAndSizes_keeps, HK1|].
      intros [d entries] HSd. apply combine_blocks_keeps; [done|].
      by apply set_dsu_Kept.
    - eapply keeps_bind; [apply savings_of_keeps, HK1|].
      intros [[d sv] T] HSd. apply free_space_keeps. by apply set_dsu_Kept. }
  intros st2 [HS2 Hn2].
  assert (Hstay : Ranked (dsu st2) /\
            S (length (circuit_slots st2) - (opIt + 1)) <= n - opIt).
  { split; [apply HS2|]. rewrite Hn2. lia. }
  destruct (isUnitary op); [|by apply keeps_Ok].
  destruct (decide (k < length (getUsedQubits op))); [by apply keeps_Ok|].
  eapply keeps_bind; [apply (union_all_keeps n); by split|].
  intros [st3 prev] [HS3 Hn3]. cbn [fst] in *.
  eapply keeps_bind; [by apply find_keeps|].
  intros [d4 block] (HS4 & _). cbn [fst] in HS4.
  eapply keeps_bind; [by apply blockEmpty_keeps|].
  intros [d5 empty] HS5. cbn [fst] in HS5.
  assert (Hrank : Ranked (append_dsu d5 block empty opIt op)).
  { destruct (append_dsu_spec d5 block empty opIt op) as (A1 & A2 & _ & _ & A5).
    eapply same_parent_rank; [exact A1|exact A2|exact A5|apply HS5]. }
  assert (Hins : length (<[opIt := None]> (circuit_slots st3)) = n).
  { by rewrite length_insert. }
  destruct empty.
  - apply keeps_Ok. cbn [fst snd dsu circuit_slots]. split; [done|].
    rewrite Hins. lia.
  - destruct (decide (opIt = 0)); [by apply keeps_Throw|].
    apply keeps_Ok. cbn [fst snd dsu circuit_slots]. split; [done|].
    unfold erase. rewrite length_delete; [rewrite Hins; lia|].
    apply lookup_lt_is_Some. rewrite Hins. lia.
Qed.

Lemma collect_loop_keeps : forall fuel st opIt,
  CollectInv k None st -> Ranked (dsu st) ->
  length (circuit_slots st) - opIt < fuel ->
  keeps (fun st' => Sound (dsu st'))
    (collect_loop sort_descending minus_one k fuel st opIt).
Proof using sort_descending_perm.
  induction fuel as [|fuel IH]; intros st opIt Hinv Hrank Hfuel; [lia|].
  cbn [collect_loop].
  assert (HS : Sound (dsu st)) by (split; [exists k; apply Hinv|done]).
  destruct (bool_decide (opIt = length (circuit_slots st))); [by apply keeps_Ok|].
  pose proof (collect_step_keeps st opIt HS) as [Hb Hok].
  destruct (collect_step sort_descending minus_one k st opIt) as [[st1 opIt1]|e]
    eqn:Hstep.
  - rewrite bind_Ok. destruct (Hok _ eq_refl) as [Hrank1 Hprog]. cbn [fst snd] in *.
    apply IH; [|done|lia].
    by eapply (collect_step_inv k sort_descending minus_one sort_descending_perm).
  - rewrite bind_Throw. split; [|discriminate].
    intros [= ->]. by apply Hb.
Qed.

Lemma read_slots_in_budget slots : in_budget (read_slots slots).
Proof.
  induction slots as [|[o|] slots IH]; simpl; try discriminate.
  destruct (read_slots slots); [discriminate|exact IH].
Qed.

End Budget.

Section Adequacy.

Variable initializeIOMapping : QuantumComputation -> QuantumComputation.
Variable measurement_order : MeasureMap -> list (Qubit * nat).
Variable sort_descending : list (Qubit * Z) -> list (Qubit * Z).
Variable iteration_order : gmap Qubit Qubit -> list Qubit.
Variable minus_one : Qubit.

(** The step budgets of the loops of [collectBlocks] and of [findBlock] are
    never what stops the pass: a run that ends on a budget ends on the one
    of [deferMeasurements]. *)
Lemma collectBlocks_fuel_suffices (k : nat) (qc : QuantumComputation) :
  (forall l, sort_descending l ≡ₚ l) ->
  collectBlocks initializeIOMapping measurement_order sort_descending iteration_order
    minus_one k qc = Throw FuelExhausted ->
  exists qc1, reorderOperations qc = Ok qc1 /\
    deferMeasurements initializeIOMapping measurement_order qc1 = Throw FuelExhausted.
Proof.
  intros Hsort H. unfold collectBlocks in H.
  destruct (decide (length (ops qc) <= 1)); [discriminate|].
  destruct (reorderOperations qc) as [qc1|e] eqn:Hre.
  2: { injection H as ->. by apply reorderOperations_fuel_suffices in Hre. }
  rewrite bind_Ok in H. exists qc1. split; [done|].
  destruct (deferMeasurements initializeIOMapping measurement_order qc1)
    as [qc2|e] eqn:Hde.
  2: { by injection H as ->. }
  rewrite bind_Ok in H. exfalso.
  pose proof (empty_dsu_inv k (map Some (ops qc2))) as Hinv0.
  assert (Hrank0 : Ranked (mkDSU ∅ ∅ ∅ ∅)).
  { exists (fun _ => 0). unfold rank_ok, isroot, blk.
    cbn [parent]. split; [|split].
    - intros q p. by rewrite empty_lookup.
    - intros r q _. rewrite empty_lookup. simpl. lia.
    - intros r q. by rewrite empty_lookup. }
  destruct (collect_loop_keeps k sort_descending minus_one Hsort
              (S (length (ops qc2)))
              (mkCollect (map Some (ops qc2)) (mkDSU ∅ ∅ ∅ ∅) []) 0 Hinv0 Hrank0)
    as [Hb Hok].
  { cbn [circuit_slots]. rewrite length_map. lia. }
  destruct (collect_loop _ _ _ _ _ _) as [st1|e] eqn:Hloop.
  2: { injection H as ->. by apply Hb. }
  rewrite bind_Ok in H. specialize (Hok st1 eq_refl).
  destruct (finalize_roots_keeps (length (circuit_slots st1))
              (iteration_order (parent (dsu st1))) st1) as [Hb2 _]; [by split|].
  destruct (finalize_roots _ _) as [st2|e] eqn:Hfin.
  2: { injection H as ->. by apply Hb2. }
  rewrite bind_Ok in H.
  pose proof (read_slots_in_budget (circuit_slots st2)) as Hb3.
  destruct (read_slots _) as [v|e]; [discriminate|].
  injection H as ->. by apply Hb3.
Qed.

End Adequacy.

(** *** The bound *)

Lemma insert_descending_perm e l : insert_descending e l ≡ₚ e :: l.
Proof.
  induction l as [|x l IH]; simpl; [done|].
  destruct (decide (x.2 < e.2)%Z); [done|].
  rewrite IH. apply Permutation_swap.
Qed.

Lemma insertion_sort_descending_perm l : insertion_sort_descending l ≡ₚ l.
Proof.
  induction l as [|e l IH]; simpl; [done|].
  by rewrite insert_descending_perm, IH.
Qed.

Section Bound.

Variable initializeIOMapping : QuantumComputation -> QuantumComputation.
Variable measurement_order : MeasureMap -> list (Qubit * nat).
Variable sort_descending : list (Qubit * Z) -> list (Qubit * Z).
Variable iteration_order : gmap Qubit Qubit -> list Qubit.
Variable minus_one : Qubit.

(** Claim C3.  For every circuit and every cap [k], when
    [collectBlocks(qc, k)] returns, every block it has finalized, that is
    every operation [finalizeBlock] has written back into the circuit, be it
    the single operation a body degrades to or a Compound, spans at most [k]
    qubits.  The order [std::sort] and the iteration over [dsu.parent] work
    in is arbitrary, and so is the order in which [deferMeasurements]
    appends the measurements it deferred. *)
Theorem collectBlocks_bound (k : nat) (qc qc' : QuantumComputation)
    (blocks : list Operation) :
  (forall l, sort_descending l ≡ₚ l) ->
  collectBlocks initializeIOMapping measurement_order sort_descending iteration_order
    minus_one k qc = Ok (qc', blocks) ->
  Forall (spans k) blocks.
Proof.
  intros Hsort H. unfold collectBlocks in H.
  destruct (decide (length (ops qc) <= 1)); [injection H as _ <-; constructor|].
  apply bind_inv in H as (qc1 & _ & H).
  apply bind_inv in H as (qc2 & _ & H).
  apply bind_inv in H as (st1 & H1 & H).
  apply bind_inv in H as (st2 & H2 & H).
  apply bind_inv in H as (v & _ & H). injection H as _ <-.
  apply (collect_loop_inv k sort_descending minus_one Hsort) in H1;
    [|apply empty_dsu_inv].
  apply (finalize_roots_inv k None) in H2; [|done].
  by destruct H2 as (_ & _ & ?).
Qed.

End Bound.

Lemma collectBlocks_bound_witness :
  collectBlocks (fun qc => qc) map_to_list insertion_sort_descending keys_in_order 255 2
    (circuit 3 [H_ 0; CNOT 0 1; CNOT 1 2; H_ 2; X_ 0])
  = Ok (circuit 3 [Compound_ [H_ 0; CNOT 0 1; X_ 0]; Compound_ [CNOT 1 2; H_ 2]],
        [Compound_ [H_ 0; CNOT 0 1; X_ 0]; Compound_ [CNOT 1 2; H_ 2]])
  /\ Forall (spans 2) [Compound_ [H_ 0; CNOT 0 1; X_ 0]; Compound_ [CNOT 1 2; H_ 2]].
Proof.
  assert (E : collectBlocks (fun qc => qc) map_to_list insertion_sort_descending keys_in_order 255 2
    (circuit 3 [H_ 0; CNOT 0 1; CNOT 1 2; H_ 2; X_ 0])
  = Ok (circuit 3 [Compound_ [H_ 0; CNOT 0 1; X_ 0]; Compound_ [CNOT 1 2; H_ 2]],
        [Compound_ [H_ 0; CNOT 0 1; X_ 0]; Compound_ [CNOT 1 2; H_ 2]])).
  { vm_compute. reflexivity. }
  split; [exact E|].
  exact (collectBlocks_bound (fun qc => qc) map_to_list insertion_sort_descending
           keys_in_order 255 2 _ _ _ insertion_sort_descending_perm E).
Defined.

(** ** flattenOperations *)

Lemma flattenCompoundOperation_loop_spec cs : forall pre suf m,
  flattenCompoundOperation_loop cs (pre ++ suf) (length pre) m
  = (pre ++ cs ++ suf, length pre + length cs, m + length cs).
Proof.
  induction cs as [|c cs IH]; intros pre suf m; simpl.
  - by rewrite !Nat.add_0_r.
  - unfold insert_before. rewrite take_app_length, drop_app_length.
    replace (pre ++ c :: suf) with ((pre ++ [c]) ++ suf) by (by rewrite <- app_assoc).
    replace (length pre + 1) with (length (pre ++ [c])) by (rewrite length_app; simpl; lia).
    rewrite IH. rewrite length_app, <- !app_assoc. simpl.
    f_equal; [f_equal|]; lia.
Qed.

(** The call splices the children in at the place of the Compound and
    returns the position of the first of them. *)
Lemma flattenCompoundOperation_spec pre b cs suf :
  flattenCompoundOperation (pre ++ CompoundOperation b cs :: suf) (length pre) cs
  = (pre ++ cs ++ suf, length pre).
Proof.
  unfold flattenCompoundOperation. rewrite flattenCompoundOperation_loop_spec.
  unfold erase. f_equal.
  - rewrite app_assoc. replace (length pre + length cs) with (length (pre ++ cs))
      by (by rewrite length_app).
    rewrite delete_middle. by rewrite <- app_assoc.
  - simpl. lia.
Qed.

Lemma sum_list_app_nat (l1 l2 : list nat) :
  sum_list (l1 ++ l2) = sum_list l1 + sum_list l2.
Proof. induction l1; simpl; lia. Qed.

Lemma nodes_pos o : 1 <= nodes o.
Proof. destruct o; simpl; lia. Qed.

Lemma flattenOperations_loop_spec fuel : forall pre suf,
  sum_list (map nodes suf) < fuel ->
  flattenOperations_loop fuel (pre ++ suf) (length pre)
  = Ok (pre ++ flat_map leaves suf).
Proof.
  induction fuel as [|fuel IH]; intros pre suf Hf; [lia|].
  simpl. destruct suf as [|o suf].
  - simpl. rewrite !app_nil_r, bool_decide_true by done. done.
  - rewrite bool_decide_false; [|rewrite length_app; simpl; lia].
    unfold subscript. rewrite lookup_app_r, Nat.sub_diag by done. simpl.
    simpl in Hf.
    assert (Hstep : flattenOperations_loop fuel (pre ++ o :: suf) (length pre + 1)
                    = Ok (pre ++ o :: flat_map leaves suf)).
    { replace (pre ++ o :: suf) with ((pre ++ [o]) ++ suf) by (by rewrite <- app_assoc).
      replace (length pre + 1) with (length (pre ++ [o])) by (rewrite length_app; simpl; lia).
      rewrite IH; [|pose proof (nodes_pos o); lia].
      by rewrite <- app_assoc. }
    destruct o as [b|b cs|b nq qs cls|b op r e]; try exact Hstep.
    rewrite flattenCompoundOperation_spec.
    rewrite IH.
    + by rewrite flat_map_app.
    + rewrite map_app, sum_list_app_nat. simpl in Hf. lia.
Qed.

(** The loop, started at the front with the budget of the pass. *)
Lemma flattenOperations_loop_run v :
  flattenOperations_loop (S (sum_list (map nodes v))) v 0 = Ok (flat_map leaves v).
Proof. apply (flattenOperations_loop_spec _ [] v). lia. Qed.

Lemma leaves_not_Compound o : Forall (fun l => isCompoundOperation l = false) (leaves o).
Proof.
  revert o. fix IH 1. intros [b|b cs|b nq qs cls|b op r e]; simpl;
    try (by repeat constructor).
  induction cs as [|c cs IHcs]; simpl; [constructor|].
  apply Forall_app. split; [apply IH|apply IHcs].
Qed.

Lemma leaves_flat v :
  Forall (fun l => isCompoundOperation l = false) v -> flat_map leaves v = v.
Proof.
  induction 1 as [|o v Ho _ IH]; simpl; [done|].
  rewrite IH. by destruct o.
Qed.

(** X1.  [flattenOperations] returns on every circuit, and what it returns
    are the operations that are no Compound, in the order of a walk through
    the circuit from left to right that enters every Compound, however deep
    it is nested.  The Compounds themselves are gone, and nothing else of
    the circuit changes. *)
Theorem flattenOperations_leaves (qc : QuantumComputation) :
  flattenOperations qc = Ok (set_ops qc (flat_map leaves (ops qc))).
Proof.
  unfold flattenOperations.
  rewrite flattenOperations_loop_run.
  reflexivity.
Qed.

(** X2.  The result of [flattenOperations] holds no Compound, and a second
    run returns it unchanged. *)
Theorem flattenOperations_Compound_free (qc : QuantumComputation) :
  exists qc', flattenOperations qc = Ok qc'
    /\ Forall (fun o => isCompoundOperation o = false) (ops qc')
    /\ flattenOperations qc' = Ok qc'.
Proof.
  exists (set_ops qc (flat_map leaves (ops qc))).
  assert (Hfree : Forall (fun o => isCompoundOperation o = false)
                    (flat_map leaves (ops qc))).
  { induction (ops qc) as [|o v IH]; simpl; [constructor|].
    apply Forall_app. split; [apply leaves_not_Compound|apply IH]. }
  split; [|split].
  - unfold flattenOperations. by rewrite flattenOperations_loop_run.
  - exact Hfree.
  - unfold flattenOperations. rewrite flattenOperations_loop_run. simpl.
    by rewrite (leaves_flat _ Hfree).
Qed.

(** ** replaceMCXWithMCZ *)

Lemma replaceMCXWithMCZ_at_Compound b children :
  isMCX (CompoundOperation b children) = false ->
  replaceMCXWithMCZ_at (CompoundOperation b children)
  = (children' ← replaceMCXWithMCZ_loop children; Ok [CompoundOperation b children']).
Proof.
  intros H. simpl. rewrite H. f_equal.
Qed.

Lemma isMCX_Compound b cs cs' :
  isMCX (CompoundOperation b cs') = isMCX (CompoundOperation b cs).
Proof. done. Qed.

Lemma MCX_free_existsb v : MCX_free v <-> existsb hasMCX v = false.
Proof.
  unfold MCX_free. induction v as [|o v IH]; simpl.
  - split; [done|constructor].
  - rewrite Forall_cons, orb_false_iff, IH. done.
Qed.

Lemma MCX_free_app v w : MCX_free v -> MCX_free w -> MCX_free (v ++ w).
Proof. intros; by apply Forall_app. Qed.

Lemma replaceMCXWithMCZ_at_free : forall o r,
  replaceMCXWithMCZ_at o = Ok r -> MCX_free r.
Proof.
  fix IH 1. intros o r.
  destruct (isMCX o) eqn:Hm.
  - assert (E : replaceMCXWithMCZ_at o = replacementOps o)
      by (destruct o; simpl in *; by rewrite Hm).
    rewrite E. unfold replacementOps.
    destruct (subscript (getTargets o) 0) as [t|e]; simpl; [|done].
    intros [= <-]. by repeat constructor.
  - destruct o as [b|b cs|b nq qs cls|b op rg e].
    + simpl. rewrite Hm. intros [= <-]. repeat constructor. simpl. by rewrite Hm.
    + rewrite replaceMCXWithMCZ_at_Compound by done.
      intros H. apply bind_inv in H as (cs' & Hcs & [= <-]).
      repeat constructor. simpl.
      rewrite (isMCX_Compound b cs cs'), Hm. simpl.
      apply MCX_free_existsb.
      revert cs' Hcs. induction cs as [|c cs IHcs]; simpl; intros cs' Hcs.
      * injection Hcs as <-. constructor.
      * apply bind_inv in Hcs as (r1 & H1 & Hcs).
        apply bind_inv in Hcs as (r2 & H2 & [= <-]).
        apply MCX_free_app; [by eapply IH|by apply IHcs].
    + simpl. rewrite Hm. intros [= <-]. repeat constructor. simpl. by rewrite Hm.
    + simpl. rewrite Hm. intros [= <-]. repeat constructor. simpl. by rewrite Hm.
Qed.

Lemma replaceMCXWithMCZ_loop_free v : forall v',
  replaceMCXWithMCZ_loop v = Ok v' -> MCX_free v'.
Proof.
  induction v as [|o v IH]; simpl; intros v' H.
  - injection H as <-. constructor.
  - apply bind_inv in H as (r1 & H1 & H).
    apply bind_inv in H as (r2 & H2 & [= <-]).
    apply MCX_free_app; [by eapply replaceMCXWithMCZ_at_free|by apply IH].
Qed.

Lemma replaceMCXWithMCZ_at_fixed : forall o,
  hasMCX o = false -> replaceMCXWithMCZ_at o = Ok [o].
Proof.
  fix IH 1. intros o Ho.
  destruct o as [b|b cs|b nq qs cls|b op rg e]; simpl in Ho;
    apply orb_false_iff in Ho as [Hm Hc].
  - simpl. by rewrite Hm.
  - rewrite replaceMCXWithMCZ_at_Compound by done.
    assert (E : replaceMCXWithMCZ_loop cs = Ok cs).
    { clear Hm. induction cs as [|c cs IHcs]; simpl; [done|].
      simpl in Hc. apply orb_false_iff in Hc as [Hc1 Hc2].
      rewrite (IH c Hc1). simpl. rewrite (IHcs Hc2). done. }
    by rewrite E.
  - simpl. by rewrite Hm.
  - simpl. by rewrite Hm.
Qed.

Lemma replaceMCXWithMCZ_loop_fixed v :
  MCX_free v -> replaceMCXWithMCZ_loop v = Ok v.
Proof.
  induction 1 as [|o v Ho _ IH]; simpl; [done|].
  rewrite (replaceMCXWithMCZ_at_fixed o Ho). simpl. by rewrite IH.
Qed.

(** X3.  When [replaceMCXWithMCZ] returns, no operation of type X that has
    a control is left: not at the top level and not inside a Compound,
    however deep it is nested. *)
Theorem replaceMCXWithMCZ_no_MCX (qc qc' : QuantumComputation) :
  replaceMCXWithMCZ qc = Ok qc' -> MCX_free (ops qc').
Proof.
  unfold replaceMCXWithMCZ. intros H.
  apply bind_inv in H as (v & Hv & [= <-]). simpl.
  by eapply replaceMCXWithMCZ_loop_free.
Qed.

Lemma replaceMCXWithMCZ_no_MCX_witness :
  MCX_free [H_ 1; StandardN [Control_ 0] [1] OpType.Z; H_ 1;
            Compound_ [Compound_ [H_ 2; StandardN [Control_ 1] [2] OpType.Z; H_ 2];
                       X_ 0]].
Proof.
  apply (replaceMCXWithMCZ_no_MCX
           (circuit 3 [CNOT 0 1; Compound_ [Compound_ [CNOT 1 2]; X_ 0]])
           (circuit 3 [H_ 1; StandardN [Control_ 0] [1] OpType.Z; H_ 1;
                       Compound_ [Compound_ [H_ 2; StandardN [Control_ 1] [2] OpType.Z;
                                             H_ 2];
                                  X_ 0]])).
  reflexivity.
Defined.

(** X4.  A circuit that holds no controlled X, at no depth, is returned as
    it is: the pass touches nothing else. *)
Theorem replaceMCXWithMCZ_unchanged (qc : QuantumComputation) :
  MCX_free (ops qc) -> replaceMCXWithMCZ qc = Ok qc.
Proof.
  intros H. unfold replaceMCXWithMCZ.
  rewrite (replaceMCXWithMCZ_loop_fixed _ H). simpl. by destruct qc.
Qed.

Lemma replaceMCXWithMCZ_unchanged_witness :
  let qc := circuit 2 [X_ 0; Compound_ [StandardC (Control_ 0) 1 OpType.Z; H_ 1]] in
  replaceMCXWithMCZ qc = Ok qc.
Proof.
  intros qc. apply (replaceMCXWithMCZ_unchanged qc).
  repeat constructor.
Defined.

(** X5.  A second run of [replaceMCXWithMCZ] returns the result of the
    first unchanged. *)
Theorem replaceMCXWithMCZ_idempotent (qc qc' : QuantumComputation) :
  replaceMCXWithMCZ qc = Ok qc' -> replaceMCXWithMCZ qc' = Ok qc'.
Proof.
  unfold replaceMCXWithMCZ at 1. intros H.
  apply bind_inv in H as (v & Hv & [= <-]).
  unfold replaceMCXWithMCZ. simpl.
  rewrite (replaceMCXWithMCZ_loop_fixed v); [done|].
  by eapply replaceMCXWithMCZ_loop_free.
Qed.

Lemma replaceMCXWithMCZ_idempotent_witness :
  let qc' := circuit 2 [H_ 1; StandardN [Control_ 0] [1] OpType.Z; H_ 1] in
  replaceMCXWithMCZ qc' = Ok qc'.
Proof.
  intros qc'. apply (replaceMCXWithMCZ_idempotent (circuit 2 [CNOT 0 1]) qc').
  reflexivity.
Defined.

(** ** cancelCNOTs *)

Lemma lookup_DAG_ n q : q < n -> DAG_ n !! q = Some [].
Proof. intros. unfold DAG_. by apply lookup_replicate_2. Qed.

Lemma cancelCNOTs_steps_untouched ps : forall v dag v' dag',
  Forall (fun o => isStandardOperation o = true ->
                   isCNOT o = false /\ isSWAP o = false) v ->
  for_each cancelCNOTs_step (v, dag) ps = Ok (v', dag') -> v' = v.
Proof.
  induction ps as [|p ps IH]; intros v dag v' dag' Hv H; simpl in H.
  - by injection H as <- <-.
  - apply bind_inv in H as ([v1 dag1] & Hstep & H).
    assert (v1 = v) as ->; [|by eapply IH].
    unfold cancelCNOTs_step in Hstep.
    apply bind_inv in Hstep as (it & Hit & Hstep).
    apply subscript_inv in Hit.
    destruct (isStandardOperation it) eqn:Hstd; simpl in Hstep.
    + rewrite Forall_forall in Hv.
      destruct (Hv it) as [Hc Hs]; [by eapply list_elem_of_lookup_2|done|].
      rewrite Hc, Hs in Hstep. simpl in Hstep.
      apply bind_inv in Hstep as (d & _ & Hstep). by injection Hstep as <- <-.
    + apply bind_inv in Hstep as (d & _ & Hstep). by injection Hstep as <- <-.
Qed.

(** X6.  [cancelCNOTs] rewrites CNOTs and SWAPs only: on a circuit whose
    gates are neither a CNOT (type X with one positive control) nor an
    uncontrolled SWAP, a run that returns has done what [removeIdentities]
    does and nothing more. *)
Theorem cancelCNOTs_touches_only_CNOT_SWAP (qc qc' : QuantumComputation) :
  Forall (fun o => isStandardOperation o = true ->
                   isCNOT o = false /\ isSWAP o = false) (ops qc) ->
  cancelCNOTs qc = Ok qc' ->
  qc' = removeIdentities qc.
Proof.
  intros Hv H. unfold cancelCNOTs in H.
  apply bind_inv in H as ([v dag] & Hrun & H). injection H as <-.
  apply cancelCNOTs_steps_untouched in Hrun as ->; [|done].
  by destruct qc.
Qed.

Lemma cancelCNOTs_touches_only_CNOT_SWAP_witness :
  circuit 3 [H_ 0; StandardN [Control_ 0; Control_ 1] [2] OpType.X;
             Compound_ [CNOT 0 1; CNOT 0 1]]
  = removeIdentities
      (circuit 3 [H_ 0; I_ 1; StandardN [Control_ 0; Control_ 1] [2] OpType.X;
                  Compound_ [CNOT 0 1; CNOT 0 1]]).
Proof.
  apply cancelCNOTs_touches_only_CNOT_SWAP; [|reflexivity].
  repeat constructor; simpl; discriminate.
Defined.

Lemma secondLast_two (x y : nat) : secondLast [x; y] = Some x.
Proof. done. Qed.

(** X7.  [cancelCNOTs] undoes [decomposeSWAP]: the three CNOTs that
    [decomposeSWAP] puts for a SWAP on two different qubits of the layout
    are collapsed into one SWAP again, with its two qubits in ascending
    order. *)
Theorem cancelCNOTs_after_decomposeSWAP (qc : QuantumComputation) (a b : Qubit) :
  ops qc = [SWAP_ a b] ->
  a ≠ b ->
  a ≤ highestPhysicalQubit (initialLayout qc) ->
  b ≤ highestPhysicalQubit (initialLayout qc) ->
  decomposeSWAP qc false ≫= cancelCNOTs
  = Ok (set_ops qc [SWAP_ (Nat.min a b) (Nat.max a b)]).
Proof.
  intros Hops Hab Ha Hb.
  unfold decomposeSWAP. rewrite Hops.
  rewrite decomposeSWAP_loop_cons. simpl.
  unfold insert_decomposition, insert_at_it.
  rewrite !decomposeSWAP_loop_cons. simpl.
  assert (E : decomposeSWAP_loop false [] = Ok []) by (by simp decomposeSWAP_loop).
  rewrite E. simpl.
  unfold cancelCNOTs. simpl.
  set (n := highestPhysicalQubit (initialLayout qc) + 1).
  assert (Han : a < n) by (unfold n; lia).
  assert (Hbn : b < n) by (unfold n; lia).
  (* slot 0 *)
  rewrite (at_ok _ _ _ (lookup_DAG_ n b Hbn)). simpl.
  unfold addToDag. simpl.
  rewrite (push_back_at_ok _ _ _ _ (lookup_DAG_ n a Han)). simpl.
  assert (L1 : <[a:=[0]]> (DAG_ n) !! b = Some []).
  { rewrite list_lookup_insert_ne by done. by apply lookup_DAG_. }
  rewrite (push_back_at_ok _ _ _ _ L1). simpl.
  set (dag1 := <[b:=[0]]> (<[a:=[0]]> (DAG_ n))).
  assert (Hlen1 : length dag1 = n).
  { unfold dag1, DAG_. by rewrite !length_insert, length_replicate. }
  assert (L1a : dag1 !! a = Some [0]).
  { unfold dag1. rewrite list_lookup_insert_ne by done.
    apply list_lookup_insert_eq. unfold DAG_. by rewrite length_replicate. }
  assert (L1b : dag1 !! b = Some [0]).
  { unfold dag1. apply list_lookup_insert_eq.
    unfold DAG_. by rewrite length_insert, length_replicate. }
  (* slot 1 *)
  rewrite (at_ok _ _ _ L1a). simpl. rewrite (at_ok _ _ _ L1b). simpl.
  rewrite (bool_decide_eq_false_2 (a = b)) by done. simpl.
  unfold addToDag. simpl.
  rewrite (push_back_at_ok _ _ _ _ L1b). simpl.
  assert (L2 : <[b:=[0; 1]]> dag1 !! a = Some [0]).
  { by rewrite list_lookup_insert_ne. }
  rewrite (push_back_at_ok _ _ _ _ L2). simpl.
  set (dag2 := <[a:=[0; 1]]> (<[b:=[0; 1]]> dag1)).
  assert (L2a : dag2 !! a = Some [0; 1]).
  { unfold dag2. apply list_lookup_insert_eq. rewrite length_insert. lia. }
  assert (L2b : dag2 !! b = Some [0; 1]).
  { unfold dag2. rewrite list_lookup_insert_ne by done.
    apply list_lookup_insert_eq. lia. }
  (* slot 2 *)
  rewrite (at_ok _ _ _ L2b). simpl. rewrite (at_ok _ _ _ L2a). simpl.
  rewrite (bool_decide_eq_false_2 (b = a)) by done. simpl.
  rewrite !bool_decide_eq_true_2 by done. simpl.
  rewrite (pop_back_at_ok _ _ _ 1 L2b) by done. simpl.
  assert (L3 : <[b:=[0]]> dag2 !! a = Some [0; 1]).
  { by rewrite list_lookup_insert_ne. }
  rewrite (pop_back_at_ok _ _ _ 1 L3) by done. simpl.
  unfold removeIdentities, set_ops, SWAP_, StandardN. simpl.
  do 4 f_equal.
  destruct (decide (b < a)).
  - by rewrite Nat.min_r, Nat.max_l by lia.
  - by rewrite Nat.min_l, Nat.max_r by lia.
Qed.

Lemma cancelCNOTs_after_decomposeSWAP_witness :
  decomposeSWAP (circuit 3 [SWAP_ 2 0]) false ≫= cancelCNOTs
  = Ok (circuit 3 [SWAP_ 0 2]).
Proof.
  apply (cancelCNOTs_after_decomposeSWAP (circuit 3 [SWAP_ 2 0]) 2 0);
    [reflexivity|lia|vm_compute; lia|vm_compute; lia].
Defined.

(** ** swapReconstruction: further properties *)

Lemma swapReconstruction_steps_untouched ps : forall v dag v' dag',
  Forall (fun o => isStandardOperation o = true -> isCNOT o = false) v ->
  for_each swapReconstruction_step (v, dag) ps = Ok (v', dag') -> v' = v.
Proof.
  induction ps as [|p ps IH]; intros v dag v' dag' Hv H; simpl in H.
  - by injection H as <- <-.
  - apply bind_inv in H as ([v1 dag1] & Hstep & H).
    assert (v1 = v) as ->; [|by eapply IH].
    unfold swapReconstruction_step in Hstep.
    apply bind_inv in Hstep as (it & Hit & Hstep).
    apply subscript_inv in Hit.
    destruct (isStandardOperation it) eqn:Hstd; simpl in Hstep.
    + rewrite Forall_forall in Hv.
      rewrite (Hv it) in Hstep; [|by eapply list_elem_of_lookup_2|done].
      simpl in Hstep.
      apply bind_inv in Hstep as (d & _ & Hstep). by injection Hstep as <- <-.
    + apply bind_inv in Hstep as (d & _ & Hstep). by injection Hstep as <- <-.
Qed.

(** X8.  [swapReconstruction] rewrites CNOTs only: on a circuit none of
    whose gates is a CNOT (type X with exactly one control, a positive one)
    a run that returns has done what [removeIdentities] does and nothing
    more. *)
Theorem swapReconstruction_touches_only_CNOT (qc qc' : QuantumComputation) :
  Forall (fun o => isStandardOperation o = true -> isCNOT o = false) (ops qc) ->
  swapReconstruction qc = Ok qc' ->
  qc' = removeIdentities qc.
Proof.
  intros Hv H. unfold swapReconstruction in H.
  apply bind_inv in H as ([v dag] & Hrun & H). injection H as <-.
  apply swapReconstruction_steps_untouched in Hrun as ->; [|done].
  by destruct qc.
Qed.

Lemma swapReconstruction_touches_only_CNOT_witness :
  circuit 3 [H_ 0; StandardC (Control.mk 0 Control.Neg) 1 OpType.X; SWAP_ 1 2;
             Compound_ [CNOT 0 1; CNOT 1 0]]
  = removeIdentities
      (circuit 3 [H_ 0; I_ 2; StandardC (Control.mk 0 Control.Neg) 1 OpType.X;
                  SWAP_ 1 2; Compound_ [CNOT 0 1; CNOT 1 0]]).
Proof.
  apply swapReconstruction_touches_only_CNOT; [|reflexivity].
  repeat constructor; simpl; discriminate.
Defined.

(** X9.  [swapReconstruction] undoes [decomposeSWAP]: of the three CNOTs
    put for a SWAP on two different qubits of the layout, the first two
    become a SWAP (targets ascending) and a CNOT, and that CNOT cancels
    against the third, so one SWAP is left. *)
Theorem swapReconstruction_after_decomposeSWAP (qc : QuantumComputation) (a b : Qubit) :
  ops qc = [SWAP_ a b] ->
  a ≠ b ->
  a ≤ highestPhysicalQubit (initialLayout qc) ->
  b ≤ highestPhysicalQubit (initialLayout qc) ->
  decomposeSWAP qc false ≫= swapReconstruction
  = Ok (set_ops qc [SWAP_ (Nat.min a b) (Nat.max a b)]).
Proof.
  intros Hops Hab Ha Hb.
  unfold decomposeSWAP. rewrite Hops.
  rewrite decomposeSWAP_loop_cons. simpl.
  unfold insert_decomposition, insert_at_it.
  rewrite !decomposeSWAP_loop_cons. simpl.
  assert (E : decomposeSWAP_loop false [] = Ok []) by (by simp decomposeSWAP_loop).
  rewrite E. simpl.
  unfold swapReconstruction. simpl.
  set (n := highestPhysicalQubit (initialLayout qc) + 1).
  assert (Han : a < n) by (unfold n; lia).
  assert (Hbn : b < n) by (unfold n; lia).
  (* slot 0 *)
  rewrite (at_ok _ _ _ (lookup_DAG_ n a Han)). simpl.
  rewrite (at_ok _ _ _ (lookup_DAG_ n b Hbn)). simpl.
  unfold addToDag. simpl.
  rewrite (push_back_at_ok _ _ _ _ (lookup_DAG_ n a Han)). simpl.
  assert (L1 : <[a:=[0]]> (DAG_ n) !! b = Some []).
  { rewrite list_lookup_insert_ne by done. by apply lookup_DAG_. }
  rewrite (push_back_at_ok _ _ _ _ L1). simpl.
  set (dag1 := <[b:=[0]]> (<[a:=[0]]> (DAG_ n))).
  assert (Hlen1 : length dag1 = n).
  { unfold dag1, DAG_. by rewrite !length_insert, length_replicate. }
  assert (L1a : dag1 !! a = Some [0]).
  { unfold dag1. rewrite list_lookup_insert_ne by done.
    apply list_lookup_insert_eq. unfold DAG_. by rewrite length_replicate. }
  assert (L1b : dag1 !! b = Some [0]).
  { unfold dag1. apply list_lookup_insert_eq.
    unfold DAG_. by rewrite length_insert, length_replicate. }
  (* slot 1: the reversed CNOT *)
  rewrite (at_ok _ _ _ L1a). simpl. rewrite (at_ok _ _ _ L1b). simpl.
  rewrite (bool_decide_eq_false_2 (b = a)) by done.
  rewrite !bool_decide_eq_true_2 by done. simpl.
  rewrite (pop_back_at_ok _ _ _ 0 L1b) by done. simpl.
  assert (L2 : <[b:=[]]> dag1 !! a = Some [0]).
  { by rewrite list_lookup_insert_ne. }
  rewrite (pop_back_at_ok _ _ _ 0 L2) by done. simpl.
  set (dag2 := <[a:=[]]> (<[b:=[]]> dag1)).
  assert (L2a : dag2 !! a = Some []).
  { unfold dag2. apply list_lookup_insert_eq. rewrite length_insert. lia. }
  assert (L2b : dag2 !! b = Some []).
  { unfold dag2. rewrite list_lookup_insert_ne by done.
    apply list_lookup_insert_eq. lia. }
  assert (Hlen2 : length dag2 = n).
  { unfold dag2. by rewrite !length_insert. }
  assert (Hlanes : exists dag3,
            dag3 !! a = Some [0; 1] /\ dag3 !! b = Some [0; 1]
            /\ (d ← push_back_all dag2
                       (if decide (b < a) then [b; a] else [a; b]) 0;
                 d ← push_back_at d a 1; push_back_at d b 1) = Ok dag3).
  { destruct (decide (b < a)); simpl.
    - rewrite (push_back_at_ok _ _ _ _ L2b). simpl.
      rewrite (push_back_at_ok _ _ _ []) by (by rewrite list_lookup_insert_ne). simpl.
      rewrite (push_back_at_ok _ _ _ [0])
        by (apply list_lookup_insert_eq; rewrite length_insert; lia). simpl.
      rewrite (push_back_at_ok _ _ _ [0]).
      2:{ rewrite list_lookup_insert_ne by done.
          rewrite list_lookup_insert_ne by done.
          apply list_lookup_insert_eq. lia. }
      eexists. split; [|split; [|reflexivity]].
      + rewrite list_lookup_insert_ne by done.
        apply list_lookup_insert_eq. rewrite !length_insert. lia.
      + apply list_lookup_insert_eq. rewrite !length_insert. lia.
    - rewrite (push_back_at_ok _ _ _ _ L2a). simpl.
      rewrite (push_back_at_ok _ _ _ []) by (by rewrite list_lookup_insert_ne). simpl.
      rewrite (push_back_at_ok _ _ _ [0]).
      2:{ rewrite list_lookup_insert_ne by done.
          apply list_lookup_insert_eq. lia. }
      simpl.
      rewrite (push_back_at_ok _ _ _ [0]).
      2:{ rewrite list_lookup_insert_ne by done.
          apply list_lookup_insert_eq. rewrite !length_insert. lia. }
      eexists. split; [|split; [|reflexivity]].
      + rewrite list_lookup_insert_ne by done.
        apply list_lookup_insert_eq. rewrite !length_insert. lia.
      + apply list_lookup_insert_eq. rewrite !length_insert. lia. }
  destruct Hlanes as (dag3 & L3a & L3b & Hpush).
  unfold addToDag. simpl.
  apply bind_inv in Hpush as (d0 & H0 & Hpush). rewrite H0. simpl.
  apply bind_inv in Hpush as (d1 & H1 & H2). rewrite H1. simpl. rewrite H2. simpl.
  (* slot 2: the same CNOT again *)
  rewrite (at_ok _ _ _ L3a). simpl. rewrite (at_ok _ _ _ L3b). simpl.
  rewrite !bool_decide_eq_true_2 by done. simpl.
  rewrite (pop_back_at_ok _ _ _ 1 L3a) by done.
  assert (L4 : <[a:=removelast [0; 1]]> dag3 !! b = Some [0; 1]).
  { by rewrite list_lookup_insert_ne. }
  rewrite bind_Ok.
  rewrite (pop_back_at_ok _ _ _ 1 L4) by done.
  simpl.
  unfold removeIdentities, set_ops, SWAP_, StandardN. simpl.
  do 4 f_equal.
  destruct (decide (b < a)).
  - by rewrite Nat.min_r, Nat.max_l by lia.
  - by rewrite Nat.min_l, Nat.max_r by lia.
Qed.

Lemma swapReconstruction_after_decomposeSWAP_witness :
  decomposeSWAP (circuit 3 [SWAP_ 2 0]) false ≫= swapReconstruction
  = Ok (circuit 3 [SWAP_ 0 2]).
Proof.
  apply (swapReconstruction_after_decomposeSWAP (circuit 3 [SWAP_ 2 0]) 2 0);
    [reflexivity|lia|vm_compute; lia|vm_compute; lia].
Defined.

(** ** reorderOperations: what the new order keeps *)

Lemma laneCount_pos v q p o :
  v !! p = Some o -> (0 < laneCount v q p <-> q ∈ dagQubits o).
Proof.
  intros Hv. unfold laneCount. rewrite Hv.
  induction (dagQubits o) as [|x xs IH].
  - simpl. split; [lia|by intros ?%elem_of_nil].
  - destruct (decide (x = q)) as [->|Hne].
    + rewrite filter_cons_True by done. simpl. split; [intros _; by left|lia].
    + rewrite filter_cons_False by done. rewrite IH, elem_of_cons.
      split; [by right|]. by intros [->|].
Qed.

(** The operation at the head of a lane that a turn of the loop moves. *)
Lemma reorder_qubit_moved v dag r d q r' d' tr :
  ReorderInv v dag r tr ->
  reorder_qubit dag (r, d) q = Ok (r', d') ->
  newOps r' = newOps r
  \/ exists lane p o, dag !! q = Some lane /\ p ∈ lane /\ v !! p = Some o
                      /\ newOps r' = newOps r ++ [o].
Proof.
  intros Hinv Hq. rewrite reorder_qubit_unfold in Hq.
  destruct (at_ (dagIterators r) q) as [it|] eqn:Hit; [|discriminate]. simpl in Hq.
  destruct (at_ dag q) as [lane|] eqn:Hlane; [|discriminate]. simpl in Hq.
  apply at_inv in Hit, Hlane.
  destruct (bool_decide (it = length lane)); [injection Hq as <- <-; by left|].
  destruct (subscript lane it) as [p|] eqn:Hp; [|discriminate]. simpl in Hq.
  destruct (subscript (slots r) p) as [slot|] eqn:Hslot; [|discriminate]. simpl in Hq.
  apply subscript_inv in Hp, Hslot.
  destruct slot as [o|]; [|discriminate].
  destruct (reorder_executable _ _ _ _ _ _) as [ex|]; [|discriminate].
  simpl in Hq. destruct ex; simpl in Hq; injection Hq as <- <-; [|by left].
  right. exists lane, p, o. repeat split; try done.
  - by eapply list_elem_of_lookup_2.
  - assert (Hlt : p < length v).
    { rewrite <- (inv_slots_len _ _ _ _ Hinv). by eapply lookup_lt_Some. }
    destruct (lookup_lt_is_Some_2 v p Hlt) as [o' Ho'].
    pose proof (inv_slots _ _ _ _ Hinv p o' Ho') as Hs. rewrite Hslot in Hs.
    destruct (decide (p ∈ map fst tr)); [discriminate|]. by injection Hs as ->.
Qed.

Section Moved.

Variables (v : list Operation) (dag : DAG).

Lemma reorder_sweep_moved qs : forall r d r' d' tr,
  ReorderInv v dag r tr ->
  for_each (reorder_qubit dag) (r, d) qs = Ok (r', d') ->
  Forall (inSomeLane v dag) (newOps r) -> Forall (inSomeLane v dag) (newOps r').
Proof.
  induction qs as [|q qs IH]; intros r d r' d' tr Hinv Hs HP.
  - by injection Hs as <- <-.
  - rewrite for_each_cons in Hs.
    destruct (reorder_qubit dag (r, d) q) as [[r1 d1]|] eqn:H1; [|discriminate].
    simpl in Hs.
    assert (HP1 : Forall (inSomeLane v dag) (newOps r1)).
    { destruct (reorder_qubit_moved _ _ _ _ _ _ _ _ Hinv H1)
        as [->|(lane & p & o & Hl & Hp & Hv & ->)]; [done|].
      apply Forall_app. split; [done|]. constructor; [|constructor].
      by exists p, q, lane. }
    destruct (reorder_qubit_inv _ _ _ _ _ _ _ _ Hinv H1)
      as [(-> & -> & _)|[(-> & ->)|(-> & _ & p & a & o & Hinv1 & _)]];
      by eapply IH.
Qed.

Lemma reorder_while_moved fuel : forall r res tr,
  ReorderInv v dag r tr ->
  reorder_while fuel dag r = Ok res ->
  Forall (inSomeLane v dag) (newOps r) -> Forall (inSomeLane v dag) (newOps res).
Proof.
  induction fuel as [|fuel IH]; intros r res tr Hinv Hw HP; [discriminate|].
  rewrite reorder_while_S in Hw.
  destruct (for_each _ _ _) as [[r1 d1]|] eqn:Hs; [|discriminate].
  simpl in Hw.
  pose proof (reorder_sweep_moved _ _ _ _ _ _ (ReorderInv_moved _ _ _ _ false Hinv) Hs HP)
    as HP1.
  destruct (reorder_sweep_inv _ _ _ _ _ _ _ _ (ReorderInv_moved _ _ _ _ false Hinv) Hs)
    as [[tr1 Hinv1] _].
  destruct d1; [by injection Hw as <-|].
  destruct (moved r1); [|discriminate]. simpl in Hw. by eapply IH.
Qed.

End Moved.

(** What a run that returns has done, in terms of the slots of the old
    vector: the new vector lists the operations of the slots [ps], which
    are all different; on every lane the slots of [ps] come in the order of
    the lane; every slot that is entered in a lane is among [ps], and every
    operation moved is entered in a lane. *)
Lemma reorderOperations_trace (qc qc' : QuantumComputation) :
  reorderOperations qc = Ok qc' ->
  let v := ops qc in
  exists ps : list nat,
    Forall2 (fun o p => v !! p = Some o) (ops qc') ps
    /\ NoDup ps
    /\ (forall q p o, v !! p = Some o -> q ∈ dagQubits o ->
          flat_map (fun p => replicate (laneCount v q p) p) (seq 0 (length v))
          = flat_map (fun p => replicate (laneCount v q p) p) ps
          /\ NoDup (flat_map (fun p => replicate (laneCount v q p) p) ps))
    /\ Forall (fun o => dagQubits o <> []) (ops qc').
Proof.
  intros H v. unfold reorderOperations, constructDAG in H.
  set (n := highestPhysicalQubit (initialLayout qc) + 1) in *.
  fold v in H.
  destruct (for_each (constructDAG_step v) (DAG_ n) (seq 0 (length v)))
    as [dag1|] eqn:Hdag1; [|discriminate].
  rewrite bind_Ok in H.
  destruct (reorder_while _ dag1 _) as [res|] eqn:Hrun; [|discriminate].
  rewrite bind_Ok in H. injection H as <-.
  change (ops (set_ops qc (newOps res))) with (newOps res).
  destruct (constructDAG_steps_inv v (DAG_ n) [] (DAG_ n) dag1 _
              (filled_nil _) Hdag1) as (Hlt1 & Hrange1 & Hf1).
  rewrite app_nil_l in Hf1. unfold DAG_ in Hrange1, Hf1.
  rewrite length_replicate in Hrange1.
  pose proof (filled_length _ _ _ Hf1) as Hlen1. rewrite length_replicate in Hlen1.
  destruct (reorder_while_inv v dag1 _ _ _ [] (ReorderInv_init v dag1) Hrun)
    as [[tr Hinv] Hend].
  pose proof (inv_ops _ _ _ _ Hinv) as Htr.
  assert (Hlane1 : forall q, q < n ->
            flat_map (fun p => replicate (laneCount v q p) p) (seq 0 (length v))
            = passed q tr).
  { intros q Hq. rewrite <- lane_over.
    destruct (Hend q ltac:(lia)) as (lane & Hl & Hit).
    rewrite (filled_lanes n _ _ Hf1 q Hq) in Hl. injection Hl as <-.
    destruct (inv_iters _ _ _ _ Hinv q _ _ (filled_lanes n _ _ Hf1 q Hq) Hit) as [_ Ht].
    by rewrite firstn_all in Ht. }
  assert (Hq_range : forall q p o, v !! p = Some o -> q ∈ dagQubits o -> q < n).
  { intros q p o Hv Hq. apply (Hrange1 q p). unfold dagEntries.
    apply list_elem_of_In, in_flat_map. exists p. split.
    - apply in_seq. apply lookup_lt_Some in Hv. lia.
    - apply list_elem_of_In. unfold slotEntries. rewrite Hv.
      apply list_elem_of_fmap. by exists q. }
  exists (map fst tr). split; [|split; [|split]].
  - apply Forall2_fmap_r. exact Htr.
  - apply (inv_nodup _ _ _ _ Hinv).
  - intros q p o Hv Hq. pose proof (Hq_range q p o Hv Hq) as Hqn.
    rewrite (Hlane1 q Hqn).
    rewrite (lane_over_order v q tr (seq 0 (length v))).
    + split; [done|]. apply NoDup_passed, (inv_nodup _ _ _ _ Hinv).
    + apply (inv_nodup _ _ _ _ Hinv).
    + intros e He. apply list_elem_of_lookup in He as [j Hj].
      destruct (Forall2_lookup_r _ _ _ _ _ Htr Hj) as (o' & _ & Ho').
      apply list_elem_of_In, in_seq. apply lookup_lt_Some in Ho'. lia.
    + by apply Hlane1.
  - assert (HP : Forall (inSomeLane v dag1) (newOps res)).
    { eapply reorder_while_moved; [apply ReorderInv_init|exact Hrun|constructor]. }
    eapply Forall_impl; [exact HP|].
    intros o (p & q & lane & Hv & Hl & Hp) Hnil.
    assert (Hq : q < n) by (apply lookup_lt_Some in Hl; lia).
    rewrite (filled_lanes n _ _ Hf1 q Hq) in Hl. injection Hl as <-.
    rewrite lane_over in Hp. apply elem_of_lane_over in Hp as [_ Hc].
    apply (laneCount_pos v q p o Hv) in Hc. rewrite Hnil in Hc.
    by apply elem_of_nil in Hc.
Qed.

Lemma slots_fmap (v os : list Operation) (ps : list nat) (d : Operation) :
  Forall2 (fun o p => v !! p = Some o) os ps ->
  os = map (fun p => nth p v d) ps.
Proof.
  induction 1 as [|o p os ps Hv _ IH]; simpl; [done|].
  rewrite <- IH. f_equal. symmetry. by apply nth_lookup_Some.
Qed.

Lemma filter_fmap_slots {A B} (g : A -> B) (P : B -> Prop)
    `{!forall x, Decision (P x)} (l : list A) :
  filter P (map g l) = map g (filter (fun x => P (g x)) l).
Proof.
  induction l as [|x l IH]; simpl; [done|].
  destruct (decide (P (g x))).
  - rewrite !filter_cons_True by done. simpl. by rewrite IH.
  - rewrite !filter_cons_False by done. done.
Qed.

Lemma lane_filter v q (d : Operation) (l : list nat) :
  Forall (fun p => p < length v) l ->
  NoDup (flat_map (fun p => replicate (laneCount v q p) p) l) ->
  flat_map (fun p => replicate (laneCount v q p) p) l
  = filter (fun p => onLane q (nth p v d)) l.
Proof.
  induction l as [|p l IH]; intros Hlt Hnd; [done|].
  inversion Hlt as [|? ? Hp Hl]; subst.
  pose proof (NoDup_lane_over v q (p :: l) p Hnd ltac:(by left)) as Hle.
  simpl in Hnd. apply NoDup_app in Hnd as (_ & _ & Hnd').
  destruct (lookup_lt_is_Some_2 v p Hp) as [o Ho].
  pose proof (laneCount_pos v q p o Ho) as Hc.
  cbn [flat_map]. rewrite (IH Hl Hnd').
  destruct (decide (q ∈ dagQubits o)) as [Hin|Hin].
  - rewrite filter_cons_True by (unfold onLane; by rewrite (nth_lookup_Some _ _ d _ Ho)).
    apply Hc in Hin. replace (laneCount v q p) with 1 by lia. done.
  - rewrite filter_cons_False by (unfold onLane; by rewrite (nth_lookup_Some _ _ d _ Ho)).
    destruct (laneCount v q p); [done|]. exfalso. apply Hin, Hc. lia.
Qed.

(** X10.  [reorderOperations] keeps the order on every qubit: for each
    qubit [q], the operations entered in lane [q] follow one another in the
    result as they do in the circuit given.  Only operations that share no
    lane change places. *)
Theorem reorderOperations_keeps_lane_order (qc qc' : QuantumComputation) (q : Qubit) :
  reorderOperations qc = Ok qc' ->
  filter (onLane q) (ops qc') = filter (onLane q) (ops qc).
Proof.
  intros H. destruct (reorderOperations_trace qc qc' H) as (ps & Hps & Hnd & Hlanes & _).
  set (v := ops qc) in *. set (d := Standard1 0 OpType.I).
  assert (Hlt : Forall (fun p => p < length v) ps).
  { apply Forall_forall. intros p Hp. apply list_elem_of_lookup in Hp as [j Hj].
    destruct (Forall2_lookup_r _ _ _ _ _ Hps Hj) as (o & _ & Ho).
    by eapply lookup_lt_Some. }
  assert (Hseq : Forall (fun p => p < length v) (seq 0 (length v))).
  { apply Forall_forall. intros p Hp. apply list_elem_of_In, in_seq in Hp. lia. }
  rewrite (slots_fmap v _ ps d Hps).
  transitivity (filter (onLane q) (map (fun p => nth p v d) (seq 0 (length v))));
    [|by rewrite map_nth_seq].
  rewrite !filter_fmap_slots. f_equal.
  destruct (decide (Exists (onLane q) v)) as [Hex|Hno].
  - apply Exists_exists in Hex as (o & Ho & Hq).
    apply list_elem_of_lookup in Ho as [p Hp].
    destruct (Hlanes q p o Hp Hq) as [Heq Hnd'].
    rewrite <- (lane_filter v q d ps Hlt Hnd').
    rewrite <- Heq in Hnd'. rewrite <- (lane_filter v q d _ Hseq Hnd'). by symmetry.
  - assert (Hnone : forall l, Forall (fun p => p < length v) l ->
                      filter (fun p => onLane q (nth p v d)) l = []).
    { intros l Hl. induction Hl as [|p l Hp _ IH]; [done|].
      rewrite filter_cons_False; [done|].
      intros Hq. apply Hno, Exists_exists.
      destruct (lookup_lt_is_Some_2 v p Hp) as [o Ho].
      rewrite (nth_lookup_Some _ _ d _ Ho) in Hq.
      exists o. split; [by eapply list_elem_of_lookup_2|done]. }
    by rewrite !Hnone.
Qed.

Lemma reorderOperations_keeps_lane_order_witness :
  filter (onLane 0) [H_ 1; H_ 0; CNOT 0 1; X_ 0; X_ 1]
  = filter (onLane 0) [H_ 0; H_ 1; CNOT 0 1; X_ 0; X_ 1].
Proof.
  apply (reorderOperations_keeps_lane_order
           (circuit 2 [H_ 0; H_ 1; CNOT 0 1; X_ 0; X_ 1])
           (circuit 2 [H_ 1; H_ 0; CNOT 0 1; X_ 0; X_ 1]) 0).
  vm_compute. reflexivity.
Defined.

(** X11.  When [reorderOperations] returns, its result holds every
    operation that is entered in at least one lane, each once.  An
    operation that names no qubit (an empty Compound, say) is in no lane,
    is never scheduled, and is dropped when the vector is replaced. *)
Theorem reorderOperations_permutes (qc qc' : QuantumComputation) :
  reorderOperations qc = Ok qc' ->
  ops qc' ≡ₚ filter (fun o => ¬ laneless o) (ops qc).
Proof.
  intros H. destruct (reorderOperations_trace qc qc' H) as (ps & Hps & Hnd & Hlanes & Hall).
  set (v := ops qc) in *. set (d := Standard1 0 OpType.I).
  rewrite (slots_fmap v _ ps d Hps).
  transitivity (filter (fun o => ¬ laneless o)
                  (map (fun p => nth p v d) (seq 0 (length v))));
    [|by rewrite map_nth_seq].
  rewrite filter_fmap_slots. apply fmap_Permutation.
  apply NoDup_Permutation; [done|apply NoDup_filter, NoDup_ListNoDup, seq_NoDup|].
  intros p. rewrite list_elem_of_filter. split.
  - intros Hp. apply list_elem_of_lookup in Hp as [j Hj].
    destruct (Forall2_lookup_r _ _ _ _ _ Hps Hj) as (o & Hoj & Ho).
    rewrite (nth_lookup_Some _ _ d _ Ho). split.
    + rewrite Forall_forall in Hall. apply Hall. by eapply list_elem_of_lookup_2.
    + apply list_elem_of_In, in_seq. apply lookup_lt_Some in Ho. lia.
  - intros [Hl Hp]. apply list_elem_of_In, in_seq in Hp.
    destruct (lookup_lt_is_Some_2 v p ltac:(lia)) as [o Ho].
    rewrite (nth_lookup_Some _ _ d _ Ho) in Hl. unfold laneless in Hl.
    destruct (dagQubits o) as [|q qs] eqn:Hq; [done|].
    destruct (Hlanes q p o Ho) as [Heq _]; [rewrite Hq; by left|].
    assert (Hin : p ∈ flat_map (fun p => replicate (laneCount v q p) p)
                        (seq 0 (length v))).
    { apply elem_of_lane_over. split; [apply list_elem_of_In, in_seq; lia|].
      apply (laneCount_pos v q p o Ho). rewrite Hq. by left. }
    rewrite Heq in Hin. by apply elem_of_lane_over in Hin as [? _].
Qed.

Lemma reorderOperations_permutes_witness :
  [H_ 1; H_ 0; CNOT 0 1; X_ 0; X_ 1]
  ≡ₚ filter (fun o => ¬ laneless o) [H_ 0; Compound_ []; H_ 1; CNOT 0 1; X_ 0; X_ 1].
Proof.
  apply (reorderOperations_permutes
           (circuit 2 [H_ 0; Compound_ []; H_ 1; CNOT 0 1; X_ 0; X_ 1])
           (circuit 2 [H_ 1; H_ 0; CNOT 0 1; X_ 0; X_ 1])).
  vm_compute. reflexivity.
Defined.

(** ** deferMeasurements: deferral and its limits *)

Lemma isUnitary_not_measurement o : isUnitary o = true -> isMeasurement o = false.
Proof. by destruct o. Qed.

(** The scan passes unitary operations up to the end of the vector. *)
Lemma defer_scan_unitary fuel targets classics q c v it : forall opIt cip,
  Forall (fun o => isUnitary o = true) (drop opIt v) ->
  opIt ≤ length v -> length v - opIt < fuel ->
  defer_scan fuel targets classics q c v it opIt cip = Ok (v, it).
Proof.
  induction fuel as [|fuel IH]; intros opIt cip Hu Hle Hfuel; [lia|].
  simpl. destruct (decide (opIt = length v)) as [->|Hne].
  - by rewrite bool_decide_eq_true_2.
  - rewrite bool_decide_eq_false_2 by done.
    destruct (lookup_lt_is_Some_2 v opIt) as [o Ho]; [lia|].
    unfold subscript. rewrite Ho. simpl.
    rewrite (drop_S _ _ _ Ho) in Hu. inversion Hu as [|? ? Huo Hu']; subst.
    rewrite Huo. replace (opIt + 1) with (S opIt) by lia.
    apply IH; [done|lia|lia].
Qed.

(** The scan passes unitary operations and halts for ever on an operation
    that stalls. *)
Lemma defer_scan_stalls fuel targets classics q c pre mid s post it : forall k cip,
  Forall (fun o => isUnitary o = true) (drop k mid) ->
  stalls s -> k ≤ length mid -> length mid - k < fuel ->
  defer_scan fuel targets classics q c (pre ++ mid ++ s :: post) it
    (length pre + k) cip
  = Throw NonTermination.
Proof.
  intros k cip Hu (Hs1 & Hs2 & Hs3 & Hs4). revert k cip Hu.
  induction fuel as [|fuel IH]; intros k cip Hu Hle Hfuel; [lia|].
  simpl. rewrite bool_decide_eq_false_2
    by (rewrite !length_app; simpl; lia).
  unfold subscript. rewrite lookup_app_r by lia.
  replace (length pre + k - length pre) with k by lia.
  destruct (decide (k = length mid)) as [->|Hne].
  - rewrite list_lookup_middle by done. simpl. rewrite Hs1.
    rewrite decide_False by done.
    unfold isMeasurement in Hs3. rewrite Hs3.
    by destruct s.
  - destruct (lookup_lt_is_Some_2 mid k) as [o Ho]; [lia|].
    rewrite lookup_app_l by lia. rewrite Ho. simpl.
    rewrite (drop_S _ _ _ Ho) in Hu. inversion Hu as [|? ? Huo Hu']; subst.
    rewrite Huo. replace (length pre + k + 1) with (length pre + S k) by lia.
    apply IH; [done|lia|lia].
Qed.

(** The outer loop steps over operations that are no measurement. *)
Lemma defer_loop_steps fuel (v : list Operation) (m : MeasureMap) n : forall it,
  Forall (fun o => isMeasurement o = false) (take n (drop it v)) ->
  it + n ≤ length v -> 
  defer_loop (n + fuel) v it m = defer_loop fuel v (it + n) m.
Proof.
  induction n as [|n IH]; intros it Hn Hle.
  - by rewrite Nat.add_0_r.
  - destruct (lookup_lt_is_Some_2 v it) as [o Ho]; [lia|].
    rewrite (drop_S _ _ _ Ho) in Hn. simpl in Hn.
    inversion Hn as [|? ? Hmo Hn']; subst.
    change (S n + fuel) with (S (n + fuel)).
    rewrite (defer_loop_step_over _ _ _ _ o Ho Hmo).
    replace (it + S n) with (it + 1 + n) by lia.
    apply IH; [|lia]. by replace (it + 1) with (S it) by lia.
Qed.

Lemma defer_loop_end fuel (v : list Operation) (m : MeasureMap) :
  defer_loop (S fuel) v (length v) m = Ok (v, m).
Proof. simpl. by rewrite bool_decide_eq_true_2. Qed.

(** The turn of the outer loop on a measurement of one qubit that is not
    the last operation. *)
Lemma defer_loop_measure fuel (v : list Operation) it (m : MeasureMap) nq q c :
  v !! it = Some (NonUnitaryOperation_measure1 nq q c) -> it + 1 ≠ length v ->
  defer_loop (S fuel) v it m
  = ('(v', it') ← defer_scan (S (length (erase v it)) * S (length (erase v it)))
                    [q] [c] q c (erase v it) it it it;
     defer_loop fuel v' (it' + 1) (<[q := c]> m)).
Proof.
  intros Hv Hne. simpl.
  rewrite bool_decide_eq_false_2 by (apply lookup_lt_Some in Hv; lia).
  unfold subscript. rewrite Hv. simpl.
  rewrite (bool_decide_eq_false_2 (it + 1 = length v)) by done.
  reflexivity.
Qed.

Section Deferral.

Variable initializeIOMapping : QuantumComputation -> QuantumComputation.

(** The iteration over the map of the deferred measurements visits every
    entry once, in an order of its own. *)
Variable measurement_order : MeasureMap -> list (Qubit * nat).
Hypothesis measurement_order_perm : forall m, measurement_order m ≡ₚ map_to_list m.

(** X12.  A measurement of one qubit into one bit that is followed by
    unitary operations only is deferred to the end: the pass removes it,
    leaves every other operation where it is, appends one fresh Measure of
    the same qubit into the same bit, clears the output permutation and
    rebuilds the I/O mapping.  The operations in front of it hold no
    measurement. *)
Theorem deferMeasurements_defers (qc : QuantumComputation)
    (pre post : list Operation) (nq : nat) (q : Qubit) (c : nat) :
  ops qc = pre ++ NonUnitaryOperation_measure1 nq q c :: post ->
  Forall (fun o => isMeasurement o = false) pre ->
  post ≠ [] ->
  Forall (fun o => isUnitary o = true) post ->
  deferMeasurements initializeIOMapping measurement_order qc
  = Ok (initializeIOMapping
          (mkQC (pre ++ post ++ [NonUnitaryOperation_measure1 (nqubits qc) q c])
             (nqubits qc) (initialLayout qc) ∅)).
Proof using measurement_order_perm.
  intros Hops Hpre Hne Hpost. unfold deferMeasurements. rewrite Hops.
  set (M := NonUnitaryOperation_measure1 nq q c).
  assert (Hlen : length (pre ++ M :: post) = length pre + S (length post)).
  { rewrite length_app. simpl. lia. }
  destruct post as [|p0 post]; [done|]. simpl in Hlen.
  (* up to the measurement *)
  replace (S (length (pre ++ M :: p0 :: post)))
    with (length pre + S (S (S (length post)))) by (rewrite Hlen; lia).
  rewrite (defer_loop_steps _ _ _ (length pre) 0).
  2:{ rewrite drop_0, take_app_length. exact Hpre. }
  2:{ rewrite Hlen. lia. }
  rewrite !Nat.add_0_l.
  (* the measurement is erased and the scan runs to the end *)
  rewrite (defer_loop_measure _ _ _ _ nq q c).
  2:{ by rewrite list_lookup_middle. }
  2:{ rewrite Hlen. lia. }
  unfold erase. rewrite delete_middle.
  rewrite defer_scan_unitary.
  2:{ rewrite drop_app_length. exact Hpost. }
  2:{ rewrite length_app. lia. }
  2:{ rewrite length_app. simpl. lia. }
  cbn [mbind result_bind].
  (* the rest of the vector *)
  replace (S (S (length post))) with (length post + 2) by lia.
  replace (pre ++ p0 :: post) with ((pre ++ [p0]) ++ post)
    by (by rewrite <- app_assoc).
  replace (length pre + 1) with (length (pre ++ [p0]))
    by (rewrite length_app; simpl; lia).
  rewrite defer_loop_steps.
  2:{ rewrite drop_app_length, firstn_all.
      inversion Hpost as [|? ? _ Hpost']; subst.
      eapply Forall_impl; [exact Hpost'|]. apply isUnitary_not_measurement. }
  2:{ rewrite !length_app. simpl. lia. }
  replace (length (pre ++ [p0]) + length post) with (length ((pre ++ [p0]) ++ post))
    by (rewrite !length_app; simpl; lia).
  rewrite defer_loop_end. cbn [mbind result_bind].
  rewrite bool_decide_eq_false_2.
  2:{ intros Hempty. apply (f_equal (fun m => m !! q)) in Hempty.
      by rewrite lookup_insert_eq, lookup_empty in Hempty. }
  pose proof (measurement_order_perm {[q := c]}) as Hp.
  rewrite map_to_list_singleton in Hp. apply Permutation_singleton_r in Hp.
  rewrite insert_empty, Hp. simpl.
  unfold measure, set_ops. simpl. by rewrite <- !app_assoc.
Qed.

(** X13.  A measurement that is deferred must not be followed by a
    barrier: when the scan after the erased measurement, having passed
    unitary operations, comes upon an operation that is not unitary and is
    neither a Reset, nor a Measure, nor classic-controlled, no branch of the
    loop body advances the scan, and the pass never returns. *)
Theorem deferMeasurements_stalls (qc : QuantumComputation)
    (pre mid post : list Operation) (s : Operation) (nq : nat) (q : Qubit) (c : nat) :
  ops qc = pre ++ NonUnitaryOperation_measure1 nq q c :: mid ++ s :: post ->
  Forall (fun o => isMeasurement o = false) pre ->
  Forall (fun o => isUnitary o = true) mid ->
  stalls s ->
  deferMeasurements initializeIOMapping measurement_order qc = Throw NonTermination.
Proof.
  intros Hops Hpre Hmid Hs. unfold deferMeasurements. rewrite Hops.
  set (M := NonUnitaryOperation_measure1 nq q c).
  assert (Hlen : length (pre ++ M :: mid ++ s :: post)
                 = length pre + S (length mid + S (length post))).
  { rewrite !length_app. simpl. rewrite length_app. simpl. lia. }
  replace (S (length (pre ++ M :: mid ++ s :: post)))
    with (length pre + S (S (length mid + S (length post)))) by (rewrite Hlen; lia).
  rewrite (defer_loop_steps _ _ _ (length pre) 0).
  2:{ rewrite drop_0, take_app_length. exact Hpre. }
  2:{ rewrite Hlen. lia. }
  rewrite !Nat.add_0_l.
  rewrite (defer_loop_measure _ _ _ _ nq q c).
  2:{ by rewrite list_lookup_middle. }
  2:{ rewrite Hlen. lia. }
  unfold erase. rewrite delete_middle.
  set (fuel := S (length (pre ++ mid ++ s :: post)) * S (length (pre ++ mid ++ s :: post))).
  pose proof (defer_scan_stalls fuel [q] [c] q c pre mid s post (length pre)
                0 (length pre)) as Hscan.
  rewrite Nat.add_0_r in Hscan. rewrite Hscan; [done|by rewrite drop_0|done|lia|].
  unfold fuel. rewrite !length_app. simpl. lia.
Qed.

End Deferral.

Lemma deferMeasurements_defers_witness :
  deferMeasurements (fun qc => qc) map_to_list
    (circuit 2 [H_ 0; NonUnitaryOperation_measure1 2 0 0; X_ 1; CNOT 0 1])
  = Ok (mkQC [H_ 0; X_ 1; CNOT 0 1; NonUnitaryOperation_measure1 2 0 0]
          2 (identityLayout 2) ∅).
Proof.
  apply (deferMeasurements_defers (fun qc => qc) map_to_list
           (fun m => Permutation_refl _)
           (circuit 2 [H_ 0; NonUnitaryOperation_measure1 2 0 0; X_ 1; CNOT 0 1])
           [H_ 0] [X_ 1; CNOT 0 1] 2 0 0).
  - reflexivity.
  - repeat constructor.
  - discriminate.
  - repeat constructor.
Defined.

Lemma deferMeasurements_stalls_witness :
  deferMeasurements (fun qc => qc) map_to_list
    (circuit 2 [H_ 0; NonUnitaryOperation_measure1 2 0 0; X_ 1; Barrier_ 2 [0; 1]; X_ 0])
  = Throw NonTermination.
Proof.
  apply (deferMeasurements_stalls (fun qc => qc) map_to_list
           (circuit 2 [H_ 0; NonUnitaryOperation_measure1 2 0 0; X_ 1;
                       Barrier_ 2 [0; 1]; X_ 0])
           [H_ 0] [X_ 1] [X_ 0] (Barrier_ 2 [0; 1]) 2 0 0).
  - reflexivity.
  - repeat constructor.
  - repeat constructor.
  - repeat split; discriminate.
Defined.

(** ** backpropagateOutputPermutation *)

Lemma injective_img_size (m : Permutation_) :
  injective m -> size (map_img m : gset Qubit) = size m.
Proof.
  induction m as [|i x m Hi IH] using map_ind; intros Hinj.
  - by rewrite map_img_empty_L, size_empty, map_size_empty.
  - rewrite map_img_insert_notin_L by done.
    rewrite map_size_insert_None by done.
    rewrite size_union.
    + rewrite size_singleton, IH; [done|].
      intros k1 k2 l H1 H2. apply (Hinj k1 k2 l).
      * rewrite lookup_insert_ne; [done|]. intros ->. by rewrite Hi in H1.
      * rewrite lookup_insert_ne; [done|]. intros ->. by rewrite Hi in H2.
    + apply disjoint_singleton_l. intros Hx. apply elem_of_map_img in Hx as [k Hk].
      assert (i = k); [|subst; by rewrite Hi in Hk].
      apply (Hinj i k x); [by rewrite lookup_insert_eq|].
      rewrite lookup_insert_ne; [done|]. intros ->. by rewrite Hi in Hk.
Qed.

Lemma BackpropInv_value n perm missing k l :
  BackpropInv n (perm, missing) -> perm !! k = Some l -> l < n /\ (l ∉ missing) /\ k < n.
Proof.
  intros [Hdom Hall Hdis Hinj Hsize] Hk. simpl in *.
  assert (Hl : l ∈ (map_img perm : gset Qubit)) by (by eapply elem_of_map_img_2).
  split; [|split].
  - assert (Hin : l ∈ (set_seq 0 n : gset Qubit))
      by (rewrite <- Hall; apply elem_of_union; by left).
    apply elem_of_set_seq in Hin. lia.
  - intros Hm. by apply (Hdis l).
  - assert (Hin : k ∈ (set_seq 0 n : gset Qubit)).
    { apply Hdom. apply elem_of_dom. by exists l. }
    apply elem_of_set_seq in Hin. lia.
Qed.

Lemma BackpropInv_missing n perm missing l :
  BackpropInv n (perm, missing) -> l ∈ missing ->
  l < n /\ forall k, perm !! k ≠ Some l.
Proof.
  intros [Hdom Hall Hdis Hinj Hsize] Hl. simpl in *. split.
  - assert (Hin : l ∈ (set_seq 0 n : gset Qubit))
      by (rewrite <- Hall; apply elem_of_union; by right).
    apply elem_of_set_seq in Hin. lia.
  - intros k Hk. apply (Hdis l); [by eapply elem_of_map_img_2|done].
Qed.

(** As long as a physical qubit below [n] has no entry, a logical qubit is
    missing. *)
Lemma BackpropInv_nonempty n perm missing t :
  BackpropInv n (perm, missing) -> perm !! t = None -> t < n -> missing ≠ ∅.
Proof.
  intros [Hdom Hall Hdis Hinj Hsize] Ht Hlt. simpl in *. intros ->.
  rewrite size_empty in Hsize.
  assert (Hsub : dom perm ⊆ ((set_seq 0 n : gset Qubit) ∖ {[t]})).
  { intros k Hk. apply elem_of_difference. split; [by apply Hdom|].
    intros ->%elem_of_singleton. apply elem_of_dom in Hk as [l Hl]. by rewrite Ht in Hl. }
  apply subseteq_size in Hsub. rewrite size_dom in Hsub.
  rewrite size_difference in Hsub.
  - rewrite size_set_seq, size_singleton in Hsub. lia.
  - intros x ->%elem_of_singleton. apply elem_of_set_seq. lia.
Qed.

(** Two entries exchange their logical qubits. *)
Lemma BackpropInv_swap n perm missing t0 t1 l0 l1 :
  BackpropInv n (perm, missing) ->
  perm !! t0 = Some l0 -> perm !! t1 = Some l1 ->
  BackpropInv n (<[t1 := l0]> (<[t0 := l1]> perm), missing).
Proof.
  intros Hinv H0 H1. pose proof Hinv as [Hdom Hall Hdis Hinj Hsize]. simpl in *.
  set (perm' := <[t1 := l0]> (<[t0 := l1]> perm)).
  assert (Hlk : forall k l, perm' !! k = Some l <->
            (k = t1 /\ l = l0) \/ (k ≠ t1 /\ k = t0 /\ l = l1)
            \/ (k ≠ t1 /\ k ≠ t0 /\ perm !! k = Some l)).
  { intros k l. unfold perm'. rewrite lookup_insert_Some, lookup_insert_Some.
    split.
    - intros [[<- <-]|[? [[<- <-]|[? ?]]]]; auto.
    - intros [[-> ->]|[(? & -> & ->)|(? & ? & ?)]]; auto. }
  assert (Himg : forall l, (exists k, perm' !! k = Some l) <-> exists k, perm !! k = Some l).
  { intros l. split.
    - intros (k & Hk). apply Hlk in Hk as [[-> ->]|[(_ & -> & ->)|(_ & _ & Hk)]]; eauto.
    - intros (k & Hk).
      destruct (decide (k = t0)) as [->|Hk0].
      + assert (El : l = l0) by congruence. rewrite El.
        exists t1. apply Hlk. by left.
      + destruct (decide (k = t1)) as [->|Hk1].
        * assert (El : l = l1) by congruence. rewrite El.
          exists t0. apply Hlk. right. left. done.
        * exists k. apply Hlk. right. right. done. }
  assert (Hdom' : dom perm' = dom perm).
  { apply set_eq. intros k. rewrite !elem_of_dom. unfold is_Some. split.
    - intros (l & Hk). apply Hlk in Hk as [[-> ->]|[(_ & -> & ->)|(_ & _ & Hk)]]; eauto.
    - intros (l & Hk).
      destruct (decide (k = t1)) as [->|Hk1]; [exists l0; apply Hlk; by left|].
      destruct (decide (k = t0)) as [->|Hk0]; [exists l1; apply Hlk; right; by left|].
      exists l. apply Hlk. right. right. done. }
  assert (Himg' : map_img perm' = (map_img perm : gset Qubit)).
  { apply set_eq. intros l. rewrite !elem_of_map_img. apply Himg. }
  constructor; simpl; fold perm'.
  - by rewrite Hdom'.
  - by rewrite Himg'.
  - by rewrite Himg'.
  - intros k1 k2 l Hk1 Hk2. apply Hlk in Hk1, Hk2.
    destruct Hk1 as [[E1 E1']|[(N1 & E1 & E1')|(N1 & N1' & Hk1)]];
      destruct Hk2 as [[E2 E2']|[(N2 & E2 & E2')|(N2 & N2' & Hk2)]].
    + congruence.
    + assert (t0 = t1) by (apply (Hinj t0 t1 l0); congruence). congruence.
    + assert (k2 = t0) by (apply (Hinj k2 t0 l0); congruence). congruence.
    + assert (t0 = t1) by (apply (Hinj t0 t1 l0); congruence). congruence.
    + congruence.
    + assert (k2 = t1) by (apply (Hinj k2 t1 l1); congruence). congruence.
    + assert (k1 = t0) by (apply (Hinj k1 t0 l0); congruence). congruence.
    + assert (k1 = t1) by (apply (Hinj k1 t1 l1); congruence). congruence.
    + by apply (Hinj k1 k2 l).
  - rewrite <- Hsize. f_equal. by rewrite <- !size_dom, Hdom'.
Qed.

(** A physical qubit without entry gets a missing logical qubit. *)
Lemma BackpropInv_fill n perm missing i l :
  BackpropInv n (perm, missing) ->
  perm !! i = None -> i < n -> l ∈ missing ->
  BackpropInv n (<[i := l]> perm, missing ∖ {[l]}).
Proof.
  intros Hinv Hi Hlt Hl. pose proof Hinv as [Hdom Hall Hdis Hinj Hsize]. simpl in *.
  destruct (BackpropInv_missing _ _ _ _ Hinv Hl) as [Hln Hfresh].
  constructor; simpl.
  - rewrite dom_insert_L. intros k [->%elem_of_singleton|Hk]%elem_of_union.
    + apply elem_of_set_seq. lia.
    + by apply Hdom.
  - rewrite map_img_insert_notin_L by done. rewrite <- Hall.
    apply set_eq. intros x. rewrite !elem_of_union, elem_of_difference, elem_of_singleton.
    destruct (decide (x = l)) as [El|Hne].
    + rewrite El. tauto.
    + tauto.
  - rewrite map_img_insert_notin_L by done.
    intros x Hx [Hm Hne]%elem_of_difference.
    apply elem_of_union in Hx as [Hx|Hx].
    + by apply Hne.
    + by apply (Hdis x).
  - intros k1 k2 x Hk1 Hk2. apply lookup_insert_Some in Hk1, Hk2.
    destruct Hk1 as [[E1 E1']|[N1 Hk1]]; destruct Hk2 as [[E2 E2']|[N2 Hk2]].
    + congruence.
    + destruct (Hfresh k2). congruence.
    + destruct (Hfresh k1). congruence.
    + by apply (Hinj k1 k2 x).
  - rewrite map_size_insert_None by done.
    rewrite size_difference by (by apply singleton_subseteq_l).
    rewrite size_singleton.
    destruct (size missing) eqn:Hs; [|lia].
    apply size_empty_inv in Hs. apply Hs in Hl. by apply elem_of_empty in Hl.
Qed.

Lemma BackpropInv_complete n perm missing :
  BackpropInv n (perm, missing) -> size perm = n -> complete_layout n perm.
Proof.
  intros [Hdom Hall Hdis Hinj Hsize] Hn. simpl in *.
  assert (Hm : missing = ∅).
  { apply leibniz_equiv, size_empty_inv. lia. }
  split; [|split; [|done]].
  - apply set_subseteq_size_eq; [done|].
    rewrite size_set_seq, size_dom. lia.
  - rewrite <- Hall, Hm. by rewrite union_empty_r_L.
Qed.

Lemma BackpropInv_init n perm :
  partial_layout n perm ->
  BackpropInv n
    (perm, list_to_set (filter (fun i => i ∉ (map_img perm : gset Qubit)) (seq 0 n))).
Proof.
  intros [Hrange Hinj].
  set (missing := list_to_set _ : gset Qubit).
  assert (Hmiss : forall l, l ∈ missing <-> l < n /\ l ∉ (map_img perm : gset Qubit)).
  { intros l. unfold missing. rewrite elem_of_list_to_set, list_elem_of_filter.
    rewrite list_elem_of_In, in_seq. split; intros [? ?]; split; (done || lia). }
  assert (Hall : map_img perm ∪ missing = (set_seq 0 n : gset Qubit)).
  { apply set_eq. intros l. rewrite elem_of_union, Hmiss, elem_of_set_seq. split.
    - intros [Hl|[Hl _]]; [|lia]. apply elem_of_map_img in Hl as [k Hk].
      destruct (Hrange k l Hk). lia.
    - intros [_ Hl]. destruct (decide (l ∈ (map_img perm : gset Qubit))); [by left|].
      right. split; [lia|done]. }
  assert (Hdis : (map_img perm : gset Qubit) ## missing).
  { intros l Hl Hm. apply Hmiss in Hm as [_ Hm]. done. }
  constructor; simpl; try done.
  - intros k Hk. apply elem_of_dom in Hk as [l Hl]. apply elem_of_set_seq.
    destruct (Hrange k l Hl). lia.
  - rewrite <- (injective_img_size perm Hinj), <- size_union by done.
    by rewrite Hall, size_set_seq.
Qed.

Section BackpropagateProofs.

Variable begin_ : gset Qubit -> Qubit.
Hypothesis begin_elem : forall s : gset Qubit, s ≠ ∅ -> begin_ s ∈ s.

Lemma take_missing_ok (t : Qubit) (missing : gset Qubit) :
  missing ≠ ∅ ->
  exists l, take_missing begin_ t missing = Ok (l, missing ∖ {[l]}) /\ l ∈ missing.
Proof using begin_elem.
  intros Hne. unfold take_missing.
  destruct (decide (t ∈ missing)); [by exists t|].
  rewrite decide_False by done. exists (begin_ missing). split; [done|].
  by apply begin_elem.
Qed.

(** An entry moves to a physical qubit without one, and its old place gets
    a missing logical qubit. *)
Lemma BackpropInv_assign n perm missing t0 t1 l0 :
  BackpropInv n (perm, missing) ->
  perm !! t0 = Some l0 -> perm !! t1 = None -> t1 < n ->
  exists st',
    (let permutation := <[t1 := l0]> perm in
     '(l, missingLogicalQubits) ← take_missing begin_ t0 missing;
     Ok (<[t0 := l]> permutation, missingLogicalQubits)) = Ok st'
    /\ BackpropInv n st'.
Proof using begin_elem.
  intros Hinv H0 H1 Hlt.
  destruct (take_missing_ok t0 missing) as (l & -> & Hl).
  { by eapply BackpropInv_nonempty. }
  simpl. eexists. split; [reflexivity|].
  assert (Hne : t0 ≠ t1) by congruence.
  (* first give [t1] the fresh qubit, then exchange the two entries *)
  pose proof (BackpropInv_fill n perm missing t1 l Hinv H1 Hlt Hl) as Hinv1.
  pose proof (BackpropInv_swap n _ _ t1 t0 l l0 Hinv1) as Hinv2.
  rewrite lookup_insert_eq, lookup_insert_ne in Hinv2 by done.
  specialize (Hinv2 eq_refl H0).
  replace (<[t0:=l]> (<[t1:=l0]> perm))
    with (<[t0:=l]> (<[t1:=l0]> (<[t1:=l]> perm))); [done|].
  by rewrite insert_insert_eq.
Qed.

Lemma backpropagate_swap_inv n o st :
  BackpropInv n st ->
  (getType o = OpType.SWAP -> isControlled o = false ->
   length (getTargets o) = 2 -> Forall (fun t => t < n) (getTargets o)) ->
  exists st', backpropagate_swap begin_ o st = Ok st' /\ BackpropInv n st'.
Proof using begin_elem.
  intros Hinv Hrange. destruct st as [perm missing]. unfold backpropagate_swap.
  destruct (bool_decide (getType o = OpType.SWAP)) eqn:Hty; [|by exists (perm, missing)].
  destruct (isControlled o) eqn:Hc; [by exists (perm, missing)|].
  destruct (bool_decide (length (getTargets o) = 2)) eqn:Hlen;
    [|by exists (perm, missing)].
  apply bool_decide_eq_true in Hty, Hlen. specialize (Hrange Hty eq_refl Hlen).
  simpl. destruct (getTargets o) as [|t0 [|t1 [|]]]; try discriminate.
  inversion Hrange as [|? ? Ht0 Hr]; subst. inversion Hr as [|? ? Ht1 _]; subst.
  simpl.
  destruct (perm !! t0) as [l0|] eqn:H0; destruct (perm !! t1) as [l1|] eqn:H1.
  - eexists. split; [reflexivity|]. by apply BackpropInv_swap.
  - by apply BackpropInv_assign.
  - by apply BackpropInv_assign.
  - by exists (perm, missing).
Qed.

Lemma backpropagate_at_inv n : forall o st,
  swaps_below n o -> BackpropInv n st ->
  exists st', backpropagate_at begin_ o st = Ok st' /\ BackpropInv n st'.
Proof using begin_elem.
  fix IH 1. intros o st Ho Hinv.
  destruct o as [b|b cs|b nq qs cls|b op r e];
    try (apply backpropagate_swap_inv; [done|exact Ho]).
  simpl in *. revert st Hinv. induction cs as [|c cs IHcs]; intros st Hinv.
  - by exists st.
  - destruct Ho as [Hc Hcs].
    destruct (IHcs Hcs st Hinv) as (st1 & -> & Hinv1). simpl.
    by apply IH.
Qed.

Lemma backpropagate_loop_inv n v : forall st,
  Forall (swaps_below n) v -> BackpropInv n st ->
  exists st', backpropagate_loop begin_ v st = Ok st' /\ BackpropInv n st'.
Proof using begin_elem.
  induction v as [|o v IH]; intros st Hv Hinv; simpl.
  - by exists st.
  - inversion Hv as [|? ? Ho Hv']; subst.
    destruct (IH st Hv' Hinv) as (st1 & -> & Hinv1). simpl.
    by apply backpropagate_at_inv.
Qed.

Lemma backpropagate_fill_inv n is_ : forall st,
  Forall (fun i => i < n) is_ -> BackpropInv n st ->
  exists st', backpropagate_fill begin_ is_ st = Ok st' /\ BackpropInv n st'
    /\ (forall i, i ∈ is_ \/ is_Some (st.1 !! i) -> is_Some (st'.1 !! i)).
Proof using begin_elem.
  induction is_ as [|i is_ IH]; intros [perm missing] His Hinv; simpl.
  - exists (perm, missing). split; [done|split; [done|]]. intros i [Hi|Hi]; [|done].
    by apply elem_of_nil in Hi.
  - inversion His as [|? ? Hi His']; subst.
    destruct (perm !! i) as [l|] eqn:Hl.
    + destruct (IH (perm, missing) His' Hinv) as (st' & -> & Hinv' & Hkeys).
      exists st'. split; [done|split; [done|]]. intros j [Hj|Hj].
      * apply elem_of_cons in Hj as [->|Hj]; apply Hkeys; [right|by left].
        simpl. by rewrite Hl.
      * apply Hkeys. by right.
    + destruct (take_missing_ok i missing) as (l & -> & Hin).
      { by eapply BackpropInv_nonempty. }
      simpl.
      destruct (IH (<[i:=l]> perm, missing ∖ {[l]}) His') as (st' & -> & Hinv' & Hkeys).
      { by apply BackpropInv_fill. }
      exists st'. split; [done|split; [done|]]. intros j Hj. apply Hkeys. simpl.
      destruct (decide (j = i)) as [->|Hne].
      * right. by rewrite lookup_insert_eq.
      * destruct Hj as [Hj|Hj].
        -- apply elem_of_cons in Hj as [->|Hj]; [done|by left].
        -- right. by rewrite lookup_insert_ne.
Qed.

(** X14.  From an output permutation that maps some physical qubits below
    the number [n] of qubits one-to-one to logical qubits below [n], and a
    circuit whose uncontrolled two-qubit SWAPs name qubits below [n],
    [backpropagateOutputPermutation] returns, leaves the operations as they
    are, and installs an initial layout that maps the physical qubits
    [0 .. n-1] one-to-one onto the logical qubits [0 .. n-1], whichever
    missing logical qubit the unordered set hands out first. *)
Theorem backpropagateOutputPermutation_complete (qc : QuantumComputation) :
  partial_layout (nqubits qc) (outputPermutation qc) ->
  Forall (swaps_below (nqubits qc)) (ops qc) ->
  exists layout,
    backpropagateOutputPermutation begin_ qc = Ok (set_initialLayout qc layout)
    /\ complete_layout (nqubits qc) layout.
Proof using begin_elem.
  intros Hperm Hops. unfold backpropagateOutputPermutation.
  set (n := nqubits qc) in *.
  destruct (backpropagate_loop_inv n (ops qc) _ Hops (BackpropInv_init n _ Hperm))
    as ([perm missing] & -> & Hinv).
  rewrite bind_Ok. destruct (decide (size perm = n)) as [Hsize|Hsize].
  - rewrite bool_decide_eq_true_2 by done. exists perm. split; [done|].
    by eapply BackpropInv_complete.
  - rewrite bool_decide_eq_false_2 by done.
    destruct (backpropagate_fill_inv n (seq 0 n) (perm, missing))
      as ([perm' missing'] & -> & Hinv' & Hkeys); [|done|].
    { apply Forall_forall. intros i Hi. apply list_elem_of_In, in_seq in Hi. lia. }
    simpl. exists perm'. split; [done|].
    eapply BackpropInv_complete; [exact Hinv'|].
    assert (Hd : dom perm' = (set_seq 0 n : gset Qubit)).
    { apply set_eq. intros i. split; [apply (bp_dom _ _ Hinv')|].
      intros Hi. apply elem_of_set_seq in Hi. apply elem_of_dom. apply Hkeys.
      left. apply list_elem_of_In, in_seq. lia. }
    assert (Hs : size (dom perm' : gset Qubit) = size perm') by apply size_dom.
    rewrite <- Hs, Hd. apply size_set_seq.
Qed.

End BackpropagateProofs.

Lemma first_element_elem (s : gset Qubit) : s ≠ ∅ -> first_element s ∈ s.
Proof.
  intros Hne. unfold first_element.
  destruct (elements s) as [|x l] eqn:He.
  - by apply elements_empty_inv, leibniz_equiv in He.
  - simpl. apply elem_of_elements. rewrite He. by left.
Qed.

Lemma backpropagateOutputPermutation_complete_witness :
  let qc := mkQC [SWAP_ 0 1; H_ 0; Compound_ [SWAP_ 1 2; X_ 0]] 3
              (identityLayout 3) {[1 := 1]} in
  exists layout,
    backpropagateOutputPermutation first_element qc = Ok (set_initialLayout qc layout)
    /\ complete_layout 3 layout.
Proof.
  intros qc.
  apply (backpropagateOutputPermutation_complete first_element first_element_elem qc).
  - unfold qc. simpl. split.
    + intros k l [<- <-]%lookup_singleton_Some. lia.
    + intros k1 k2 l [<- <-]%lookup_singleton_Some [<- _]%lookup_singleton_Some. done.
  - repeat constructor; simpl; try discriminate; intros; repeat constructor; lia.
Defined.

(** ** eliminateResets *)

Lemma renameQubits_type m o : getType (renameQubits m o) = getType o.
Proof.
  unfold renameQubits.
  destruct o as [b|b cs|b nq qs cls|b op r e]; simpl; try done.
  - by destruct (existsb isNonUnitaryOperation cs).
  - by destruct (decide (type b = OpType.Measure)).
Qed.

Lemma eliminateResets_children_type cs : forall st,
  Forall (fun o => getType o ≠ OpType.Reset) (eliminateResets_children cs st).1.
Proof.
  induction cs as [|c cs IH]; intros st; simpl; [constructor|].
  destruct (decide (getType c = OpType.Reset)) as [|Hne]; [apply IH|].
  specialize (IH st). destruct (eliminateResets_children cs st) as [rest' st'].
  simpl in *. constructor; [by rewrite renameQubits_type|done].
Qed.

Lemma eliminateResets_loop_type v : forall st,
  Forall (fun o => getType o ≠ OpType.Reset) (eliminateResets_loop v st).1.
Proof.
  induction v as [|o v IH]; intros st; simpl; [constructor|].
  destruct (decide (getType o = OpType.Reset)) as [|Hne]; [apply IH|].
  destruct (negb (bool_decide (st.2 = []))).
  - destruct o as [b|b cs|b nq qs cls|b op r e].
    + specialize (IH st). destruct (eliminateResets_loop v st) as [rest' st'].
      simpl in *. constructor; [by rewrite renameQubits_type|done].
    + destruct (eliminateResets_children cs st) as [cs' st1].
      specialize (IH st1). destruct (eliminateResets_loop v st1) as [rest' st'].
      simpl in *. constructor; [by rewrite renameQubits_type|done].
    + specialize (IH st). destruct (eliminateResets_loop v st) as [rest' st'].
      simpl in *. constructor; [by rewrite renameQubits_type|done].
    + specialize (IH st). destruct (eliminateResets_loop v st) as [rest' st'].
      simpl in *. constructor; [by rewrite renameQubits_type|done].
  - specialize (IH st). destruct (eliminateResets_loop v st) as [rest' st'].
    simpl in *. by constructor.
Qed.

(** X15.  [eliminateResets] leaves no operation of type Reset at the top
    level of the circuit. *)
Theorem eliminateResets_no_Reset (qc : QuantumComputation) :
  Forall (fun o => getType o ≠ OpType.Reset) (ops (eliminateResets qc)).
Proof.
  unfold eliminateResets.
  pose proof (eliminateResets_loop_type (ops qc) (qc, [])) as H.
  destruct (eliminateResets_loop (ops qc) (qc, [])) as [v [qc' m]]. exact H.
Qed.

(** As long as the map is empty the loop steps over everything that is no
    Reset. *)
Lemma eliminateResets_loop_idle pre rest qc :
  Forall (fun o => getType o ≠ OpType.Reset) pre ->
  eliminateResets_loop (pre ++ rest) (qc, [])
  = let '(rest', st') := eliminateResets_loop rest (qc, []) in (pre ++ rest', st').
Proof.
  induction 1 as [|o pre Ho _ IH]; simpl.
  - by destruct (eliminateResets_loop rest (qc, [])).
  - rewrite decide_False by done. rewrite IH.
    by destruct (eliminateResets_loop rest (qc, [])).
Qed.

(** X16.  [eliminateResets] looks into a Compound only after it has found
    a Reset at the top level: a circuit without a Reset at the top level is
    returned as it is, also when a Reset stands inside a Compound. *)
Theorem eliminateResets_top_level_only (qc : QuantumComputation) :
  Forall (fun o => getType o ≠ OpType.Reset) (ops qc) ->
  eliminateResets qc = qc.
Proof.
  intros H. unfold eliminateResets.
  pose proof (eliminateResets_loop_idle (ops qc) [] qc H) as E.
  rewrite app_nil_r in E. rewrite E. simpl. rewrite app_nil_r. by destruct qc.
Qed.

Lemma eliminateResets_top_level_only_witness :
  let qc := circuit 2 [H_ 0; Compound_ [X_ 0; Reset_ 2 [1]; CNOT 0 1]; X_ 1] in
  eliminateResets qc = qc.
Proof.
  intros qc. apply (eliminateResets_top_level_only qc).
  repeat constructor; discriminate.
Defined.

Lemma elem_of_Controls_emplace (x y : Control.t) (cs : Controls) :
  y ∈ Controls_emplace x cs <-> y = x \/ y ∈ cs.
Proof.
  induction cs as [|c cs IH]; simpl.
  - rewrite list_elem_of_singleton, elem_of_nil. tauto.
  - destruct (Control_lt x c) eqn:H1; [by rewrite elem_of_cons|].
    destruct (Control_lt c x) eqn:H2.
    + rewrite !elem_of_cons, IH. tauto.
    + assert (x = c) as ->.
      { unfold Control_lt in H1, H2.
        destruct x as [qx tx], c as [qc tc]. simpl in *.
        apply orb_false_iff in H1 as [H1 H1'], H2 as [H2 H2'].
        apply bool_decide_eq_false in H1, H2.
        assert (qx = qc) as -> by lia.
        rewrite bool_decide_eq_true_2 in H1', H2' by done.
        destruct tx, tc; simpl in *; try done. }
      rewrite elem_of_cons. tauto.
Qed.

Lemma elem_of_Controls_erase (c y : Control.t) (cs : Controls) :
  NoDup cs -> y ∈ Controls_erase c cs <-> y ∈ cs /\ y ≠ c.
Proof.
  induction 1 as [|x cs Hx _ IH]; simpl.
  - rewrite elem_of_nil. tauto.
  - destruct (decide (x = c)) as [->|Hne].
    + rewrite elem_of_cons. split.
      * intros Hy. split; [by right|]. by intros ->.
      * intros [[->|Hy] Hyc]; done.
    + rewrite !elem_of_cons, IH. split.
      * intros [->|[Hy Hyc]]; split; auto.
      * intros [[->|Hy] Hyc]; auto.
Qed.

Lemma Controls_find_Some q cs c :
  Controls_find q cs = Some c -> c ∈ cs /\ Control.qubit c = q.
Proof.
  induction cs as [|x cs IH]; simpl; [done|].
  destruct (decide (Control.qubit x = q)) as [Hq|Hq].
  - intros [= <-]. split; [by left|done].
  - intros H. destruct (IH H). split; [by right|done].
Qed.

Lemma Controls_find_None q cs :
  Controls_find q cs = None -> forall c, c ∈ cs -> Control.qubit c ≠ q.
Proof.
  induction cs as [|x cs IH]; simpl; intros H c Hc; [by apply elem_of_nil in Hc|].
  destruct (decide (Control.qubit x = q)) as [Hq|Hq]; [done|].
  apply elem_of_cons in Hc as [->|Hc]; [done|by apply IH].
Qed.

Lemma moveQubit_other q n t : t ≠ q -> moveQubit q n t = t.
Proof. intros. unfold moveQubit. by rewrite decide_False. Qed.

(** One entry of the map applied to a set with at most one control on a
    qubit: the control on [q], if there is one, moves to [n] and keeps its
    polarity. *)
Lemma changeControls_single q n cs :
  NoDup (map Control.qubit cs) ->
  forall c, c ∈ changeControls cs [(q, n)] <->
    exists c0, c0 ∈ cs /\ c = Control.mk (moveQubit q n (Control.qubit c0)) (Control.type c0).
Proof.
  intros Hnd c. unfold changeControls.
  assert (Hcs : NoDup cs) by (by eapply NoDup_fmap_1).
  assert (Hkeep : (forall c0, c0 ∈ cs -> Control.qubit c0 ≠ q) ->
            c ∈ cs <-> exists c0, c0 ∈ cs
              /\ c = Control.mk (moveQubit q n (Control.qubit c0)) (Control.type c0)).
  { intros Hno. split.
    - intros Hc. exists c. split; [done|].
      rewrite moveQubit_other by (by apply Hno). by destruct c.
    - intros (c0 & Hc0 & ->). rewrite moveQubit_other by (by apply Hno).
      by destruct c0. }
  destruct cs as [|x cs'] eqn:Ecs.
  { simpl. apply Hkeep. by intros ? ?%elem_of_nil. }
  rewrite <- Ecs in *. rewrite bool_decide_eq_false_2 by (by rewrite Ecs). simpl.
  destruct (Controls_find q cs) as [c1|] eqn:Hfind.
  2:{ apply Hkeep. by apply Controls_find_None. }
  apply Controls_find_Some in Hfind as [Hc1 Hq1].
  rewrite elem_of_Controls_emplace, elem_of_Controls_erase by done.
  assert (Huniq : forall c0, c0 ∈ cs -> Control.qubit c0 = q -> c0 = c1).
  { intros c0 Hc0 Hq0. apply list_elem_of_lookup in Hc0 as [i Hi], Hc1 as [j Hj].
    assert (i = j); [|congruence].
    apply (NoDup_lookup _ i j q Hnd); rewrite list_lookup_fmap.
    - by rewrite Hi; simpl; rewrite Hq0.
    - by rewrite Hj; simpl; rewrite Hq1. }
  split.
  - intros [->|[Hc Hne]].
    + exists c1. split; [done|]. unfold moveQubit. by rewrite decide_True.
    + exists c. split; [done|].
      rewrite moveQubit_other; [by destruct c|].
      intros Hq. apply Hne. by apply Huniq.
  - intros (c0 & Hc0 & ->).
    destruct (decide (Control.qubit c0 = q)) as [Hq|Hq].
    + left. rewrite (Huniq c0 Hc0 Hq). unfold moveQubit. by rewrite decide_True.
    + right. rewrite moveQubit_other by done.
      replace {| Control.qubit := Control.qubit c0; Control.type := Control.type c0 |}
        with c0 by (by destruct c0).
      split; [done|]. intros ->. done.
Qed.

Lemma changeTargets_single q n ts :
  changeTargets ts [(q, n)] = map (moveQubit q n) ts.
Proof.
  unfold changeTargets. apply map_ext. intros t. simpl. unfold moveQubit.
  destruct (decide (q = t)) as [->|Hne].
  - by rewrite decide_True.
  - by rewrite decide_False by congruence.
Qed.

Lemma renameQubits_movedTo q n o :
  plainGate o -> movedTo q n o (renameQubits [(q, n)] o).
Proof.
  intros (Hstd & Hty & Hnd).
  destruct o as [b|b cs|b nq qs cls|b op r e]; try discriminate.
  unfold renameQubits. simpl in *. repeat split.
  - apply changeTargets_single.
  - by apply changeControls_single.
  - by apply changeControls_single.
Qed.

Lemma eliminateResets_loop_gates m post qc :
  m ≠ [] -> Forall plainGate post ->
  eliminateResets_loop post (qc, m) = (map (renameQubits m) post, (qc, m)).
Proof.
  intros Hm. induction 1 as [|o post (Hstd & Hty & Hnd) _ IH]; simpl; [done|].
  rewrite decide_False by done. rewrite bool_decide_eq_false_2 by done. simpl.
  destruct o as [b|b cs|b nq qs cls|b op r e]; try discriminate.
  by rewrite IH.
Qed.

Lemma movedTo_untouched q n o o' :
  q ≠ n -> movedTo q n o o' -> ¬ touches q o'.
Proof.
  intros Hne (_ & _ & Ht & Hc) [Hq|Hq].
  - rewrite Ht in Hq. apply list_elem_of_fmap in Hq as (t & Hq & _).
    unfold moveQubit in Hq. destruct (decide (t = q)); congruence.
  - apply list_elem_of_fmap in Hq as (c & Hq & Hin).
    apply Hc in Hin as (c0 & _ & ->). simpl in Hq.
    unfold moveQubit in Hq. destruct (decide (Control.qubit c0 = q)); congruence.
Qed.

(** X17.  What [eliminateResets] makes of one Reset of the qubit [q] among
    gates: the operations in front of the Reset stay as they are, the Reset
    is erased, the circuit gets the new qubit [n] (its old number of qubits)
    with the identity entry in both layouts, and in every gate behind the
    Reset the qubit [q] is renamed to [n], in the targets and in the
    controls, whose polarity is kept.  A qubit [q] of the old circuit is
    named by no gate behind the Reset any more. *)
Theorem eliminateResets_single (qc : QuantumComputation)
    (pre post : list Operation) (nq : nat) (q : Qubit) :
  ops qc = pre ++ Reset_ nq [q] :: post ->
  Forall (fun o => getType o ≠ OpType.Reset) pre ->
  Forall plainGate post ->
  let n := nqubits qc in
  exists post',
    eliminateResets qc
    = mkQC (pre ++ post') (S n) (<[n := n]> (initialLayout qc))
        (<[n := n]> (outputPermutation qc))
    /\ Forall2 (movedTo q n) post post'
    /\ (q < n -> Forall (fun o' => ¬ touches q o') post').
Proof.
  intros Hops Hpre Hpost n.
  exists (map (renameQubits [(q, n)]) post). split; [|split].
  - unfold eliminateResets. rewrite Hops.
    rewrite (eliminateResets_loop_idle pre _ qc Hpre). simpl.
    rewrite eliminateResets_loop_gates by done. reflexivity.
  - apply Forall2_fmap_r, Forall_Forall2_diag.
    eapply Forall_impl; [exact Hpost|]. intros o Ho. by apply renameQubits_movedTo.
  - intros Hq. apply Forall_fmap.
    eapply Forall_impl; [exact Hpost|]. intros o Ho. simpl.
    apply (movedTo_untouched q n o); [lia|by apply renameQubits_movedTo].
Qed.

Lemma eliminateResets_single_witness :
  let qc := circuit 2 [H_ 0; CNOT 0 1; Reset_ 2 [0]; H_ 0;
                       StandardC (Control.mk 0 Control.Neg) 1 OpType.X] in
  exists post',
    eliminateResets qc
    = mkQC ([H_ 0; CNOT 0 1] ++ post') 3 (<[2 := 2]> (identityLayout 2))
        (<[2 := 2]> (identityLayout 2))
    /\ Forall2 (movedTo 0 2) [H_ 0; StandardC (Control.mk 0 Control.Neg) 1 OpType.X] post'
    /\ (0 < 2 -> Forall (fun o' => ¬ touches 0 o') post').
Proof.
  intros qc.
  apply (eliminateResets_single qc [H_ 0; CNOT 0 1]
           [H_ 0; StandardC (Control.mk 0 Control.Neg) 1 OpType.X] 2 0).
  - reflexivity.
  - repeat constructor; discriminate.
  - repeat constructor; simpl; try discriminate. intros H. by apply elem_of_nil in H.
Defined.

(** ** NonUnitaryOperation::equals *)

Lemma measurements_under_spec perm : forall qs cs ls acc,
  logicalQubits perm qs = Some ls -> length qs <= length cs ->
  measurements_under perm qs cs acc = Ok (list_to_set (zip ls cs) ∪ acc).
Proof.
  unfold logicalQubits.
  induction qs as [|q qs IH]; intros cs ls acc Hl Hlen.
  - assert (ls = []) as ->.
    { destruct (decide (perm = ∅)); [by injection Hl as <-|].
      simpl in Hl. by injection Hl as <-. }
    simpl. by rewrite union_empty_l_L.
  - destruct cs as [|c cs]; simpl in Hlen; [lia|].
    simpl. destruct (decide (perm = ∅)) as [He|Hne].
    + injection Hl as <-. rewrite (IH cs qs); [|by destruct (decide (perm = ∅))|lia].
      simpl. f_equal. rewrite !union_assoc_L.
      f_equal. apply union_comm_L.
    + simpl in Hl. destruct (perm !! q) as [q'|] eqn:Hq; [|done]. simpl in Hl.
      destruct (mapM (fun q => perm !! q) qs) as [ls'|] eqn:Hls; [|done].
      simpl in Hl. injection Hl as <-.
      rewrite (IH cs ls'); [|by destruct (decide (perm = ∅))|lia].
      simpl. f_equal. rewrite !union_assoc_L.
      f_equal. apply union_comm_L.
Qed.

Lemma measurements_under_missing perm : forall qs cs acc q,
  perm ≠ ∅ -> q ∈ qs -> perm !! q = None -> length qs <= length cs ->
  measurements_under perm qs cs acc = Throw out_of_range.
Proof.
  induction qs as [|x qs IH]; intros cs acc q Hne Hq Hnone Hlen.
  - by apply elem_of_nil in Hq.
  - destruct cs as [|c cs]; simpl in Hlen; [lia|].
    simpl. rewrite decide_False by done.
    destruct (perm !! x) as [x'|] eqn:Hx; [|done].
    apply elem_of_cons in Hq as [->|Hq]; [congruence|].
    apply (IH cs _ q); [done|done|done|lia].
Qed.

Lemma measurements_under_result perm : forall qs cs acc,
  length qs <= length cs ->
  (exists s, measurements_under perm qs cs acc = Ok s)
  \/ measurements_under perm qs cs acc = Throw out_of_range.
Proof.
  induction qs as [|x qs IH]; intros cs acc Hlen; simpl; [left; by eexists|].
  destruct cs as [|c cs]; simpl in Hlen; [lia|].
  destruct (decide (perm = ∅)); [apply IH; lia|].
  destruct (perm !! x); [apply IH; lia|by right].
Qed.

Section EqualsProofs.

Variable Operation_equals : Operation -> Operation -> Permutation_ -> Permutation_ -> bool.

(** X18.  [equals] compares two Measures by the pairs of logical qubit and
    classical bit they record, whatever the order of the pairs: when both
    permutations are empty or have every measured qubit as a key, and the
    pairs of the one Measure are the pairs of the other in some order, the
    result is true. *)
Theorem NonUnitaryOperation_equals_unordered (b b2 : Base) (nq nq2 : nat)
    (qs cs qs2 cs2 ls ls2 : list nat) (perm1 perm2 : Permutation_) :
  type b = OpType.Measure -> type b2 = OpType.Measure ->
  length qs = length cs -> length qs2 = length cs2 ->
  logicalQubits perm1 qs = Some ls -> logicalQubits perm2 qs2 = Some ls2 ->
  zip ls cs ≡ₚ zip ls2 cs2 ->
  NonUnitaryOperation_equals Operation_equals b nq qs cs
    (NonUnitaryOperation b2 nq2 qs2 cs2) perm1 perm2 = Ok true.
Proof.
  intros Hb Hb2 Hlen Hlen2 Hl Hl2 Hperm. unfold NonUnitaryOperation_equals.
  rewrite Hb, Hb2. rewrite bool_decide_eq_true_2 by done. simpl.
  assert (Hls : length ls = length qs).
  { unfold logicalQubits in Hl. destruct (decide (perm1 = ∅)); [by injection Hl as <-|].
    symmetry. by eapply length_mapM. }
  assert (Hls2 : length ls2 = length qs2).
  { unfold logicalQubits in Hl2. destruct (decide (perm2 = ∅)); [by injection Hl2 as <-|].
    symmetry. by eapply length_mapM. }
  assert (Hq : length qs = length qs2).
  { apply Permutation_length in Hperm. rewrite !length_zip in Hperm. lia. }
  rewrite bool_decide_eq_true_2 by done. simpl.
  rewrite (measurements_under_spec perm1 qs cs ls) by (done || lia). simpl.
  rewrite (measurements_under_spec perm2 qs2 cs2 ls2) by (done || lia). simpl.
  f_equal. apply bool_decide_eq_true_2. f_equal.
  by apply list_to_set_perm_L.
Qed.

(** X19.  A permutation that is not empty must have every measured qubit
    as a key: [equals] on two Measures of equally many qubits throws
    [std::out_of_range] when a qubit of the first Measure is no key of the
    first permutation. *)
Theorem NonUnitaryOperation_equals_missing_key (b b2 : Base) (nq nq2 : nat)
    (qs cs qs2 cs2 : list nat) (perm1 perm2 : Permutation_) (q : Qubit) :
  type b = OpType.Measure -> type b2 = OpType.Measure ->
  length qs = length cs -> length qs = length qs2 ->
  perm1 ≠ ∅ -> q ∈ qs -> perm1 !! q = None ->
  NonUnitaryOperation_equals Operation_equals b nq qs cs
    (NonUnitaryOperation b2 nq2 qs2 cs2) perm1 perm2 = Throw out_of_range.
Proof.
  intros Hb Hb2 Hlen Hq Hne Hin Hnone. unfold NonUnitaryOperation_equals.
  rewrite Hb, Hb2. rewrite bool_decide_eq_true_2 by done. simpl.
  rewrite bool_decide_eq_true_2 by done. simpl.
  rewrite (measurements_under_missing perm1 qs cs ∅ q) by (done || lia). done.
Qed.

(** X20.  On Measures whose registers agree in length, [equals] is
    symmetric: exchanging the two operations together with their
    permutations gives the same answer, or the same exception. *)
Theorem NonUnitaryOperation_equals_symmetric (b b2 : Base) (nq nq2 : nat)
    (qs cs qs2 cs2 : list nat) (perm1 perm2 : Permutation_) :
  type b = OpType.Measure -> type b2 = OpType.Measure ->
  length qs = length cs -> length qs2 = length cs2 ->
  NonUnitaryOperation_equals Operation_equals b nq qs cs
    (NonUnitaryOperation b2 nq2 qs2 cs2) perm1 perm2
  = NonUnitaryOperation_equals Operation_equals b2 nq2 qs2 cs2
      (NonUnitaryOperation b nq qs cs) perm2 perm1.
Proof.
  intros Hb Hb2 Hlen Hlen2. unfold NonUnitaryOperation_equals.
  rewrite Hb, Hb2. rewrite bool_decide_eq_true_2 by done. simpl.
  destruct (decide (length qs = length qs2)) as [Hq|Hq].
  - rewrite !bool_decide_eq_true_2 by done. simpl.
    destruct (measurements_under_result perm1 qs cs ∅) as [[s1 ->]| ->]; [lia| |];
      destruct (measurements_under_result perm2 qs2 cs2 ∅) as [[s2 ->]| ->];
      try lia; simpl; try done.
    f_equal. apply bool_decide_ext. split; by intros ->.
  - rewrite !bool_decide_eq_false_2 by done. done.
Qed.

End EqualsProofs.

Lemma NonUnitaryOperation_equals_unordered_witness :
  NonUnitaryOperation_equals (fun _ _ _ _ => false) (mkBase OpType.Measure [] []) 3
    [0; 1] [0; 1] (Measure_ 3 [2; 0] [1; 0]) ∅ {[0 := 0; 2 := 1]} = Ok true.
Proof.
  apply (NonUnitaryOperation_equals_unordered (fun _ _ _ _ => false)
           (mkBase OpType.Measure [] []) (mkBase OpType.Measure [] []) 3 3
           [0; 1] [0; 1] [2; 0] [1; 0] [0; 1] [1; 0] ∅ {[0 := 0; 2 := 1]});
    try reflexivity.
  simpl. apply Permutation_swap.
Defined.

Lemma NonUnitaryOperation_equals_missing_key_witness :
  NonUnitaryOperation_equals (fun _ _ _ _ => false) (mkBase OpType.Measure [] []) 3
    [0; 1] [0; 1] (Measure_ 3 [0; 1] [0; 1]) {[0 := 0]} ∅ = Throw out_of_range.
Proof.
  apply (NonUnitaryOperation_equals_missing_key (fun _ _ _ _ => false)
           (mkBase OpType.Measure [] []) (mkBase OpType.Measure [] []) 3 3
           [0; 1] [0; 1] [0; 1] [0; 1] {[0 := 0]} ∅ 1); try reflexivity.
  - intros H. apply (f_equal (fun m => m !! 0)) in H. discriminate H.
  - apply elem_of_cons. right. apply elem_of_cons. by left.
Defined.

Lemma NonUnitaryOperation_equals_symmetric_witness :
  NonUnitaryOperation_equals (fun _ _ _ _ => false) (mkBase OpType.Measure [] []) 3
    [0; 1] [0; 1] (Measure_ 3 [0] [1]) ∅ {[0 := 1]}
  = NonUnitaryOperation_equals (fun _ _ _ _ => false) (mkBase OpType.Measure [] []) 3
      [0] [1] (Measure_ 3 [0; 1] [0; 1]) {[0 := 1]} ∅.
Proof.
  apply (NonUnitaryOperation_equals_symmetric (fun _ _ _ _ => false)
           (mkBase OpType.Measure [] []) (mkBase OpType.Measure [] []) 3 3
           [0; 1] [0; 1] [0] [1] ∅ {[0 := 1]}); reflexivity.
Defined.

(** ** decomposeSWAP: the directed mode, and what either mode leaves *)

Lemma SWAP_targets_inv (o : Operation) t :
  SWAP_targets o = Ok t -> t = swapQubits o.
Proof.
  unfold SWAP_targets, swapQubits, subscript.
  destruct (getTargets o) as [|a [|b ts]]; simpl; try discriminate.
  by intros [= <-].
Qed.

Lemma decomposeSWAP_children_nil d : decomposeSWAP_children d [] = Ok [].
Proof. by simp decomposeSWAP_children. Qed.

Lemma decomposeSWAP_loop_nil d : decomposeSWAP_loop d [] = Ok [].
Proof. by simp decomposeSWAP_loop. Qed.

(** The loops step over the operations put for a SWAP. *)
Lemma decomposeSWAP_children_replacement d a b rest :
  decomposeSWAP_children d (swapReplacement d a b ++ rest)
  = (rest' ← decomposeSWAP_children d rest; Ok (swapReplacement d a b ++ rest')).
Proof.
  destruct d; simpl; rewrite !decomposeSWAP_children_cons; simpl;
    by destruct (decomposeSWAP_children _ rest).
Qed.

Lemma decomposeSWAP_loop_replacement d a b rest :
  decomposeSWAP_loop d (swapReplacement d a b ++ rest)
  = (rest' ← decomposeSWAP_loop d rest; Ok (swapReplacement d a b ++ rest')).
Proof.
  destruct d; simpl; rewrite !decomposeSWAP_loop_cons; simpl;
    by destruct (decomposeSWAP_loop _ rest).
Qed.

Lemma insert_decomposition_replacement d a b rest :
  insert_decomposition d a b rest = swapReplacement d a b ++ rest.
Proof. by destruct d. Qed.

Lemma decomposeSWAP_children_result d cs : forall cs',
  decomposeSWAP_children d cs = Ok cs' ->
  cs' = flat_map (decomposed_child_in d) cs.
Proof.
  induction cs as [|c cs IH]; intros cs' H.
  - rewrite decomposeSWAP_children_nil in H. by injection H as <-.
  - rewrite decomposeSWAP_children_cons in H. simpl. unfold decomposed_child_in at 1.
    destruct (isSWAPgate c) eqn:Hsw.
    + destruct (SWAP_targets c) as [t|] eqn:Ht; [|discriminate].
      apply SWAP_targets_inv in Ht as ->.
      rewrite insert_decomposition_replacement in H.
      rewrite decomposeSWAP_children_replacement in H.
      apply bind_inv in H as (rest' & Hrest & [= <-]). by rewrite (IH _ Hrest).
    + apply bind_inv in H as (rest' & Hrest & [= <-]). by rewrite (IH _ Hrest).
Qed.

Lemma decomposeSWAP_loop_result d v : forall v',
  decomposeSWAP_loop d v = Ok v' -> v' = flat_map (decomposed_in d) v.
Proof.
  induction v as [|o v IH]; intros v' H.
  - rewrite decomposeSWAP_loop_nil in H. by injection H as <-.
  - rewrite decomposeSWAP_loop_cons in H. simpl. unfold decomposed_in at 1.
    destruct (isSWAPgate o) eqn:Hsw.
    + destruct (SWAP_targets o) as [t|] eqn:Ht; [|discriminate].
      apply SWAP_targets_inv in Ht as ->.
      rewrite insert_decomposition_replacement in H.
      rewrite decomposeSWAP_loop_replacement in H.
      apply bind_inv in H as (rest' & Hrest & [= <-]). by rewrite (IH _ Hrest).
    + destruct o as [b|b cs|b nq qs cls|b op r e].
      * apply bind_inv in H as (rest' & Hrest & [= <-]). by rewrite (IH _ Hrest).
      * apply bind_inv in H as (cs' & Hcs & H).
        apply bind_inv in H as (rest' & Hrest & [= <-]).
        by rewrite (IH _ Hrest), (decomposeSWAP_children_result _ _ _ Hcs).
      * apply bind_inv in H as (rest' & Hrest & [= <-]). by rewrite (IH _ Hrest).
      * apply bind_inv in H as (rest' & Hrest & [= <-]). by rewrite (IH _ Hrest).
Qed.

Lemma swapReplacement_free d a b :
  Forall (fun c => isSWAPgate c = false /\ isCompoundOperation c = false)
    (swapReplacement d a b).
Proof. destruct d; by repeat constructor. Qed.

Lemma decomposed_child_in_free d cs :
  Forall (fun c => isSWAPgate c = false) (flat_map (decomposed_child_in d) cs).
Proof.
  induction cs as [|c cs IH]; simpl; [constructor|].
  apply Forall_app. split; [|done]. unfold decomposed_child_in.
  destruct (isSWAPgate c) eqn:Hsw; [|by repeat constructor].
  eapply Forall_impl; [apply swapReplacement_free|]. by intros x [? _].
Qed.

Lemma decomposed_in_free d v : SWAP_free (flat_map (decomposed_in d) v).
Proof.
  unfold SWAP_free. induction v as [|o v IH]; simpl; [constructor|].
  apply Forall_app. split; [|done]. unfold decomposed_in.
  destruct (isSWAPgate o) eqn:Hsw.
  - eapply Forall_impl; [apply swapReplacement_free|].
    intros c [Hc Hn]. split; [done|]. intros b cs ->. done.
  - destruct o as [b|b cs|b nq qs cls|b op r e]; repeat constructor; try done.
    intros b' cs' [= <- <-]. apply decomposed_child_in_free.
Qed.

Lemma decomposeSWAP_children_free d cs :
  Forall (fun c => isSWAPgate c = false) cs -> decomposeSWAP_children d cs = Ok cs.
Proof.
  induction 1 as [|c cs Hc _ IH]; [apply decomposeSWAP_children_nil|].
  rewrite decomposeSWAP_children_cons, Hc, IH. done.
Qed.

Lemma decomposeSWAP_loop_free d v : SWAP_free v -> decomposeSWAP_loop d v = Ok v.
Proof.
  induction 1 as [|o v [Ho Hcs] _ IH]; [apply decomposeSWAP_loop_nil|].
  rewrite decomposeSWAP_loop_cons, Ho, IH.
  destruct o as [b|b cs|b nq qs cls|b op r e]; try done.
  rewrite decomposeSWAP_children_free; [done|]. by apply (Hcs b cs).
Qed.

(** The loops return when every SWAP names two qubits. *)
Lemma decomposeSWAP_children_ok d cs :
  (forall c, c ∈ cs -> two_targets c) ->
  exists cs', decomposeSWAP_children d cs = Ok cs'.
Proof.
  induction cs as [|c cs IH]; intros Hwf; [exists []; apply decomposeSWAP_children_nil|].
  destruct IH as [cs' Hcs']; [intros x Hx; apply Hwf; by right|].
  rewrite decomposeSWAP_children_cons.
  destruct (isSWAPgate c) eqn:Hsw.
  - rewrite (SWAP_targets_two c) by (apply Hwf; [by left|done]).
    rewrite insert_decomposition_replacement, decomposeSWAP_children_replacement, Hcs'.
    by eexists.
  - rewrite Hcs'. by eexists.
Qed.

Lemma decomposeSWAP_loop_ok d v :
  swaps_two_targets v -> exists v', decomposeSWAP_loop d v = Ok v'.
Proof.
  induction v as [|o v IH]; intros Hwf; [exists []; apply decomposeSWAP_loop_nil|].
  destruct IH as [v' Hv']; [intros x Hx; apply Hwf; by right|].
  destruct (Hwf o ltac:(by left)) as [Ho Hcs].
  rewrite decomposeSWAP_loop_cons.
  destruct (isSWAPgate o) eqn:Hsw.
  - rewrite (SWAP_targets_two o) by (by apply Ho).
    rewrite insert_decomposition_replacement, decomposeSWAP_loop_replacement, Hv'.
    by eexists.
  - destruct o as [b|b cs|b nq qs cls|b op r e]; rewrite Hv'; try by eexists.
    destruct (decomposeSWAP_children_ok d cs) as [cs' ->]; [by apply (Hcs b cs)|].
    by eexists.
Qed.

(** X21.  With [directed = true] every SWAP at the top level or among the
    children of a top-level Compound is replaced, in place, by
    CNOT(a,b); H(b); H(a); CNOT(a,b); H(b); H(a); CNOT(a,b) on its two
    qubits: all three CNOTs have the direction of the first.  Everything
    else stays as it is. *)
Theorem decomposeSWAP_directed (qc : QuantumComputation) :
  swaps_two_targets (ops qc) ->
  decomposeSWAP qc true = Ok (set_ops qc (flat_map (decomposed_in true) (ops qc))).
Proof.
  intros Hwf. unfold decomposeSWAP.
  destruct (decomposeSWAP_loop_ok true (ops qc) Hwf) as [v' Hv'].
  rewrite Hv'. simpl. by rewrite (decomposeSWAP_loop_result _ _ _ Hv').
Qed.

Lemma decomposeSWAP_directed_witness :
  decomposeSWAP (circuit 3 [H_ 2; SWAP_ 0 1; Compound_ [SWAP_ 1 2; X_ 0]]) true
  = Ok (circuit 3 [H_ 2; CNOT 0 1; H_ 1; H_ 0; CNOT 0 1; H_ 1; H_ 0; CNOT 0 1;
                   Compound_ [CNOT 1 2; H_ 2; H_ 1; CNOT 1 2; H_ 2; H_ 1; CNOT 1 2;
                              X_ 0]]).
Proof.
  apply (decomposeSWAP_directed
           (circuit 3 [H_ 2; SWAP_ 0 1; Compound_ [SWAP_ 1 2; X_ 0]])).
  intros o Ho. apply list_elem_of_In in Ho. simpl in Ho.
  destruct Ho as [<-|[<-|[<-|[]]]].
  - split; [discriminate|]. intros b cs Heq. discriminate Heq.
  - split; [intros _; simpl; lia|]. intros b cs Heq. discriminate Heq.
  - split; [discriminate|]. intros b cs Heq. injection Heq as <- <-.
    intros c Hc. apply list_elem_of_In in Hc. simpl in Hc.
    destruct Hc as [<-|[<-|[]]]; [intros _; simpl; lia|discriminate].
Defined.

(** X22.  In either mode, when [decomposeSWAP] returns, no SWAP gate is
    left at the top level or among the children of a top-level Compound,
    and a second run returns the result unchanged. *)
Theorem decomposeSWAP_SWAP_free (qc qc' : QuantumComputation) (d : bool) :
  decomposeSWAP qc d = Ok qc' ->
  SWAP_free (ops qc') /\ decomposeSWAP qc' d = Ok qc'.
Proof.
  unfold decomposeSWAP at 1. intros H.
  apply bind_inv in H as (v' & Hv' & [= <-]).
  rewrite (decomposeSWAP_loop_result _ _ _ Hv'). simpl.
  split; [apply decomposed_in_free|].
  unfold decomposeSWAP. simpl.
  by rewrite decomposeSWAP_loop_free by apply decomposed_in_free.
Qed.

Lemma decomposeSWAP_SWAP_free_witness :
  let qc' := circuit 2 [CNOT 0 1; CNOT 1 0; CNOT 0 1; Compound_ [Compound_ [SWAP_ 0 1]]] in
  SWAP_free (ops qc') /\ decomposeSWAP qc' false = Ok qc'.
Proof.
  intros qc'.
  apply (decomposeSWAP_SWAP_free
           (circuit 2 [SWAP_ 0 1; Compound_ [Compound_ [SWAP_ 0 1]]]) qc' false).
  unfold decomposeSWAP, qc'. simpl ops.
  rewrite decomposeSWAP_loop_cons. simpl.
  unfold insert_decomposition, insert_at_it.
  rewrite !decomposeSWAP_loop_cons. simpl.
  rewrite !decomposeSWAP_children_cons. simpl.
  by simp decomposeSWAP_children decomposeSWAP_loop.
Defined.


(** *** The DSU as its callers see it *)

(** Giving the block of a key a place in the circuit changes neither the
    blocks nor their bodies. *)
Lemma place_Sound d r pos :
  Sound d -> is_Some (parent d !! r) ->
  Sound (set_currentBlockInCircuit d r (Some pos)).
Proof.
  intros [[k Hinv] [h Hrank]] Hr. split; [exists k|exists h; exact Hrank].
  destruct Hinv as [I1 I2 I3 I4 I5 I6 I7]. split; try done.
  intros q Hq. cbn [set_currentBlockInCircuit parent] in Hq.
  destruct (I7 q Hq) as [E1 E2]. split; [|done].
  unfold currentBlockInCircuit_at, set_currentBlockInCircuit. cbn.
  rewrite lookup_insert_ne; [done|].
  intros ->. rewrite Hq in Hr. by destruct Hr.
Qed.

Lemma reachable_Kept n st : reachable n st -> Kept n st.
Proof.
  induction 1 as [slots Hn|st q d r _ IH Hf|st a b st' _ IH Hu|st i st' _ IH Hf
                 |st r pos _ IH Hr].
  5: { destruct IH as [Hs Hn]. split; [|done]. cbn [dsu set_dsu].
       apply place_Sound; [done|by eexists]. }
  - split; [|done]. split.
    + exists 0. apply (empty_dsu_inv 0 slots).
    + exists (fun _ => 0). unfold rank_ok, isroot, blk.
      cbn [parent dsu]. split; [|split].
      * intros q p. by rewrite empty_lookup.
      * intros r q _. rewrite empty_lookup. simpl. lia.
      * intros r q. by rewrite empty_lookup.
  - destruct IH as [Hs Hn]. destruct (find_keeps (dsu st) q Hs) as [_ Hok].
    destruct (Hok _ Hf) as (Hs' & _ & _). by split.
  - destruct (unionBlock_keeps n st a b IH) as [_ Hok]. by apply Hok.
  - destruct (finalizeBlock_keeps n st i IH) as [_ Hok]. by apply Hok.
Qed.

(** On a sound DSU [findBlock] returns, and names the one root whose block
    holds the qubit. *)
Lemma find_root d q :
  Sound d ->
  exists d' r, find d q = Ok (d', r) /\ Sound d' /\ same_blocks d d'
    /\ parent d' !! r = Some r /\ isroot d r = true /\ q ∈ blk d r.
Proof.
  intros Hs. pose proof Hs as [[k Hinv] [h Hrank]].
  destruct (find_total k h d q Hinv Hrank) as (d' & r & Hf & _).
  destruct (find_keeps d q Hs) as [_ Hok].
  destruct (Hok _ Hf) as (Hs' & Hsame & Hr). cbn [fst snd] in *.
  destruct (find_spec k d q d' r Hinv Hf) as (_ & _ & _ & Hq).
  exists d', r. pose proof Hsame as (Hroot & Hblk & _).
  split; [done|]. split; [done|]. split; [done|]. split; [done|]. split.
  - rewrite <- Hroot. by apply isroot_key.
  - by rewrite <- Hblk.
Qed.

Lemma together_find d a b :
  Sound d -> together d a b ->
  exists d1 d2 r, find d a = Ok (d1, r) /\ find d1 b = Ok (d2, r).
Proof.
  intros Hs (r0 & Hr0 & Ha & Hb). pose proof Hs as [[k Hinv] _].
  destruct (find_root d a Hs) as (d1 & r & Hf1 & Hs1 & Hsame1 & _ & Hr & Har).
  destruct (find_root d1 b Hs1) as (d2 & r' & Hf2 & _ & _ & _ & Hr' & Hbr').
  assert (r = r0) as -> by (by apply (blocks_disjoint k d Hinv r r0 a)).
  destruct Hsame1 as (Hroot & Hblk & _).
  rewrite Hroot in Hr'. rewrite Hblk in Hbr'.
  assert (r' = r0) as -> by (by apply (blocks_disjoint k d Hinv r' r0 b)).
  by exists d1, d2, r0.
Qed.

(** A key that is its own parent is found at once, and nothing changes. *)
Lemma find_root_key d r : parent d !! r = Some r -> find d r = Ok (d, r).
Proof.
  intros Hr. unfold find, find_fuel. cbn [findBlock].
  rewrite decide_False by (by rewrite Hr). rewrite Hr.
  by rewrite decide_True.
Qed.

(** Path compression leaves the qubit asked for right below the root. *)
Lemma findBlock_compressed fuel d q d' r :
  findBlock fuel d q = Ok (d', r) -> parent d' !! q = Some r.
Proof.
  destruct fuel as [|fuel]; [done|]. cbn [findBlock].
  destruct (decide (parent d !! q = None)) as [Hn|Hn].
  - unfold singleton_block, set_currentBlockOperations, set_currentBlockInCircuit,
      set_bitBlocks, set_parent. cbn [parent].
    rewrite lookup_insert_eq. rewrite decide_True by done.
    intros [= <- <-]. cbn [parent]. by rewrite lookup_insert_eq.
  - destruct (parent d !! q) as [p|] eqn:Hp; [|done].
    destruct (decide (p = q)) as [->|Hpq].
    + by intros [= <- <-].
    + intros H. apply bind_inv in H as ([d1 r1] & _ & H).
      injection H as <- <-. unfold set_parent. cbn [parent].
      by rewrite lookup_insert_eq.
Qed.

Lemma find_compressed d q r :
  parent d !! q = Some r -> parent d !! r = Some r -> find d q = Ok (d, r).
Proof.
  intros Hq Hr. destruct (decide (r = q)) as [->|Hne].
  - by apply find_root_key.
  - unfold find, find_fuel. cbn [findBlock].
    rewrite decide_False by (by rewrite Hq). rewrite Hq.
    rewrite decide_False by done.
    rewrite decide_False by (by rewrite Hr). rewrite Hr.
    rewrite decide_True by done. rewrite bind_Ok.
    unfold set_parent. rewrite insert_id by done. by destruct d.
Qed.

(** X23: In a DSU built from the empty one by [findBlock], [unionBlock] and
    [finalizeBlock], a successful [unionBlock] of two qubits puts them into
    one block: [findBlock] then returns the same representative for
    both. *)
Theorem unionBlock_joins n st a b st' :
  reachable n st -> unionBlock st a b = Ok st' ->
  exists d1 d2 r,
    find (dsu st') a = Ok (d1, r) /\ find d1 b = Ok (d2, r).
Proof.
  intros Hreach Hu. apply reachable_Kept in Hreach as HK.
  destruct (unionBlock_keeps n st a b HK) as [_ Hok].
  destruct (Hok _ Hu) as [Hs' _]. apply together_find; [done|].
  destruct HK as [[[k Hinv] _] _].
  destruct (unionBlock_spec k st a b st' Hinv Hu)
    as (_ & r1 & r2 & Hr1 & Ha & Hr2 & Hb & Hcase).
  destruct Hcase as [(-> & Hsame & _)|(Hne & d2 & w & l & Hwl & Hsame & _ & Hw & Hl & E)].
  - eapply together_same; [exact Hsame|]. by exists r2.
  - assert (Hwl' : w <> l) by (destruct Hwl as [[-> ->]|[-> ->]]; congruence).
    destruct (union_dsu_united d2 w l Hw Hl Hwl') as [Hun _].
    rewrite <- E in Hun. pose proof (united_blk_w _ _ _ _ Hun) as Hblk.
    destruct Hsame as (S1 & S2 & _).
    exists w. split.
    + eapply united_root; [exact Hun| |done]. by apply isroot_key.
    + rewrite Hblk, !S2. rewrite !elem_of_app.
      destruct Hwl as [[-> ->]|[-> ->]]; auto.
Qed.

(** X24: [findBlock] compresses the path once and for all: in a DSU built
    by its methods, asking again for the same qubit, or for the
    representative that was returned, gives that representative and leaves
    the DSU as it is. *)
Theorem findBlock_stable n st q d r :
  reachable n st -> find (dsu st) q = Ok (d, r) ->
  find d q = Ok (d, r) /\ find d r = Ok (d, r).
Proof.
  intros Hreach Hf. apply reachable_Kept in Hreach as [[[k Hinv] _] _].
  pose proof (findBlock_compressed _ _ _ _ _ Hf) as Hq.
  destruct (find_spec k _ _ _ _ Hinv Hf) as (_ & _ & Hr & _).
  split.
  - by apply find_compressed.
  - by apply find_root_key.
Qed.


Lemma unionBlock_joins_witness :
  exists d1 d2 r,
    find (dsu (mkCollect [] (union_dsu (singleton_block (singleton_block (mkDSU ∅ ∅ ∅ ∅) 0) 1) 0 1) [])) 0
      = Ok (d1, r) /\ find d1 1 = Ok (d2, r).
Proof.
  apply (unionBlock_joins 0 (mkCollect [] (mkDSU ∅ ∅ ∅ ∅) []) 0 1).
  - by constructor.
  - vm_compute. reflexivity.
Defined.

Lemma findBlock_stable_witness :
  let d := set_parent (union_dsu (union_dsu
             (singleton_block (singleton_block (singleton_block (mkDSU ∅ ∅ ∅ ∅) 1) 2) 0)
             1 2) 0 1) 2 0 in
  find d 2 = Ok (d, 0) /\ find d 0 = Ok (d, 0).
Proof.
  apply (findBlock_stable 0
    (mkCollect [] (union_dsu (union_dsu
       (singleton_block (singleton_block (singleton_block (mkDSU ∅ ∅ ∅ ∅) 1) 2) 0)
       1 2) 0 1) []) 2).
  - apply (reachable_union 0 (mkCollect [] (union_dsu
       (singleton_block (singleton_block (mkDSU ∅ ∅ ∅ ∅) 1) 2) 1 2) []) 0 1).
    + apply (reachable_union 0 (mkCollect [] (mkDSU ∅ ∅ ∅ ∅) []) 1 2).
      * by constructor.
      * vm_compute. reflexivity.
    + vm_compute. reflexivity.
  - vm_compute. reflexivity.
Defined.


(** *** singleQubitGateFusion *)

Lemma alter_as_insert {A} (f : A -> A) i (l : list A) x :
  l !! i = Some x -> alter f i l = <[i := f x]> l.
Proof.
  intros Hx. apply list_eq. intros j. destruct (decide (i = j)) as [<-|Hne].
  - rewrite list_lookup_alter_eq, Hx. symmetry. apply list_lookup_insert_eq.
    by eapply lookup_lt_Some.
  - rewrite list_lookup_alter_ne by done. by rewrite list_lookup_insert_ne.
Qed.

Lemma types_on_snoc q gs q' t :
  types_on q (gs ++ [(q', t)])
  = types_on q gs ++ (if decide (q' = q) then [t] else []).
Proof.
  unfold types_on. rewrite filter_app, map_app. f_equal.
  rewrite filter_cons, filter_nil. simpl. by destruct (decide (q' = q)).
Qed.

Lemma fusion_slots_length seen k gs : length (fusion_slots seen k gs) = length gs.
Proof.
  revert seen k. induction gs as [|[q t] gs IH]; intros seen k; [done|].
  destruct k; simpl; by rewrite IH.
Qed.

Lemma fusion_slots_0 seen gs : fusion_slots seen 0 gs = gates gs.
Proof. induction gs as [|[q t] gs IH]; [done|]. simpl. by rewrite IH. Qed.

(** The slot of the gate the pass comes to next holds that gate. *)
Lemma fusion_slots_lookup_next gs : forall seen k q t,
  gs !! k = Some (q, t) -> fusion_slots seen k gs !! k = Some (Standard1 q t).
Proof.
  induction gs as [|[q0 t0] gs IH]; intros seen k q t H; [done|].
  destruct k as [|k]; simpl in *.
  - by injection H as -> ->.
  - by apply IH.
Qed.

(** A gate on a qubit not seen so far changes no slot. *)
Lemma fusion_slots_step_unseen gs : forall seen k q t,
  gs !! k = Some (q, t) -> q ∉ seen -> q ∉ map fst (take k gs) ->
  fusion_slots seen (S k) gs = fusion_slots seen k gs.
Proof.
  induction gs as [|[q0 t0] gs IH]; intros seen k q t H Hs Hpre; [done|].
  destruct k as [|k].
  - simpl in H. injection H as -> ->. simpl.
    rewrite decide_False by done. by rewrite !fusion_slots_0.
  - simpl in H. simpl in Hpre. apply not_elem_of_cons in Hpre as [Hq Hpre].
    cbn [fusion_slots]. f_equal.
    + destruct (decide (q0 ∈ seen)); [done|].
      rewrite (take_S_r _ _ _ H), types_on_snoc.
      rewrite decide_False by done. by rewrite app_nil_r.
    + eapply IH; [done| |done]. by apply not_elem_of_cons.
Qed.

(** A gate on a qubit seen outside the vector becomes an identity. *)
Lemma fusion_slots_step_seen gs : forall seen k q t,
  gs !! k = Some (q, t) -> q ∈ seen ->
  fusion_slots seen (S k) gs = <[k := Standard1 q OpType.I]> (fusion_slots seen k gs).
Proof.
  induction gs as [|[q0 t0] gs IH]; intros seen k q t H Hs; [done|].
  destruct k as [|k].
  - simpl in H. injection H as -> ->. simpl.
    rewrite decide_True by done. by rewrite !fusion_slots_0.
  - simpl in H. cbn [fusion_slots]. simpl. f_equal.
    + destruct (decide (q0 ∈ seen)) as [|Hq0]; [done|].
      rewrite (take_S_r _ _ _ H), types_on_snoc.
      rewrite decide_False; [by rewrite app_nil_r|].
      intros ->. done.
    + eapply IH; [done|]. by apply elem_of_cons; right.
Qed.

(** A gate on a qubit seen in the vector is taken up by the slot of the
    first gate on that qubit, and becomes an identity. *)
Lemma fusion_slots_step_first r1 : forall seen k' q t0 r2 t,
  r2 !! k' = Some (q, t) -> q ∉ seen -> q ∉ map fst r1 ->
  let c := fold_left fuse_step (types_on q (take k' r2)) (Single t0) in
  let k := length r1 + S k' in
  fusion_slots seen k (r1 ++ (q, t0) :: r2) !! length r1 = Some (slot_repr q c) /\
  fusion_slots seen (S k) (r1 ++ (q, t0) :: r2)
  = <[length r1 := slot_repr q (fuse_step c t)]>
      (<[k := Standard1 q OpType.I]> (fusion_slots seen k (r1 ++ (q, t0) :: r2))).
Proof.
  induction r1 as [|[q1 t1] r1 IH]; intros seen k' q t0 r2 t H Hs Hr1 c k.
  - subst k c. simpl. rewrite !decide_False by done. split; [reflexivity|].
    f_equal.
    + rewrite (take_S_r _ _ _ H), types_on_snoc.
      rewrite decide_True by done. by rewrite fold_left_app.
    + eapply fusion_slots_step_seen; [done|]. by apply elem_of_cons; left.
  - simpl in Hr1. apply not_elem_of_cons in Hr1 as [Hq Hr1].
    destruct (IH (q1 :: seen) k' q t0 r2 t H) as [IH1 IH2];
      [by apply not_elem_of_cons|done|].
    subst k c. cbn [length Nat.add app fusion_slots]. split; [exact IH1|].
    simpl. f_equal; [|exact IH2].
    destruct (decide (q1 ∈ seen)); [done|]. do 2 f_equal.
    assert (Hk : (r1 ++ (q, t0) :: r2) !! (length r1 + S k') = Some (q, t)).
    { rewrite lookup_app_r by lia.
      replace (length r1 + S k' - length r1) with (S k') by lia. done. }
    rewrite (take_S_r _ _ _ Hk), types_on_snoc.
    rewrite decide_False by done. by rewrite app_nil_r.
Qed.

(** The Compound in a slot holds the types that are kept, with at most an
    identity below them. *)
Lemma fuse_step_reduce c kept t :
  OpType.I ∉ kept -> t <> OpType.I ->
  stack_of c = kept \/ stack_of c = OpType.I :: kept ->
  (OpType.I ∉ reduce_step kept t) /\
  (stack_of (fuse_step c t) = reduce_step kept t \/
   stack_of (fuse_step c t) = OpType.I :: reduce_step kept t).
Proof.
  intros HI Ht Hc. split.
  - unfold reduce_step. destruct (last kept) as [x|] eqn:Hlast.
    + destruct (bool_decide (INVERSE_MAP x = Some t)).
      * destruct (last_Some kept x) as [(l' & ->) _]; [done|].
        rewrite removelast_last. intros Hin. apply HI.
        apply elem_of_app. by left.
      * intros [Hin|Hin%list_elem_of_singleton]%elem_of_app; [by apply HI|done].
    + by intros Hin%list_elem_of_singleton.
  - destruct c as [t0|l]; simpl in Hc.
    + destruct Hc as [<-|Hc].
      * unfold reduce_step. simpl.
        destruct (bool_decide (INVERSE_MAP t0 = Some t)); simpl; auto.
      * injection Hc as -> <-. unfold reduce_step. simpl.
        rewrite bool_decide_eq_false_2 by congruence. simpl. auto.
    + destruct Hc as [-> | ->].
      * left. unfold reduce_step. simpl.
        destruct (last kept) as [x|]; [|done].
        by destruct (bool_decide (INVERSE_MAP x = Some t)).
      * right. unfold reduce_step. simpl.
        destruct kept as [|y kept]; simpl.
        { rewrite bool_decide_eq_false_2 by congruence. done. }
        change (last (OpType.I :: y :: kept)) with (last (y :: kept)).
        destruct (last (y :: kept)) as [x|] eqn:Hlast.
        -- by destruct (bool_decide (INVERSE_MAP x = Some t)).
        -- by apply last_None in Hlast.
Qed.

Lemma fuse_run_reduce ts : forall c kept,
  OpType.I ∉ kept -> OpType.I ∉ ts ->
  stack_of c = kept \/ stack_of c = OpType.I :: kept ->
  (OpType.I ∉ fold_left reduce_step ts kept) /\
  (stack_of (fold_left fuse_step ts c) = fold_left reduce_step ts kept \/
   stack_of (fold_left fuse_step ts c) = OpType.I :: fold_left reduce_step ts kept).
Proof.
  induction ts as [|t ts IH]; intros c kept HI Hts Hc; [done|].
  apply not_elem_of_cons in Hts as [Ht Hts]. simpl.
  destruct (fuse_step_reduce c kept t HI) as [HI' Hc']; [congruence|done|].
  by apply IH.
Qed.

Lemma removeIdentities_children_gates q l :
  removeIdentities_children (map (Standard1 q) l)
  = map (Standard1 q) (filter (fun t => t <> OpType.I) l).
Proof.
  induction l as [|t l IH]; [done|]. simpl. rewrite filter_cons.
  change (getType (Standard1 q t)) with t.
  destruct (decide (t = OpType.I)) as [->|Ht].
  - by rewrite decide_False by (by intros ?).
  - rewrite decide_True by done. simpl. by rewrite IH.
Qed.

Lemma filter_not_I (kept : list OpType.t) :
  OpType.I ∉ kept -> filter (fun t => t <> OpType.I) kept = kept.
Proof.
  induction kept as [|t l IH]; [done|]. intros [Ht Hl]%not_elem_of_cons.
  rewrite filter_cons, decide_True by congruence. by rewrite IH.
Qed.

(** What [removeIdentities] leaves of the slot of the first gate on a
    qubit. *)
Lemma removeIdentities_loop_slot q t ts rest :
  t <> OpType.I -> OpType.I ∉ ts ->
  removeIdentities_loop (slot_repr q (fold_left fuse_step ts (Single t)) :: rest)
  = fused q (t :: ts) ++ removeIdentities_loop rest.
Proof.
  intros Ht Hts. unfold fused, reduce. cbn [fold_left].
  change (reduce_step [] t) with [t].
  destruct (fuse_run_reduce ts (Single t) [t]) as [HI Hc];
    [by intros ?%list_elem_of_singleton|done|by left|].
  destruct (fold_left fuse_step ts (Single t)) as [x|l]; simpl in Hc.
  - cbn [slot_repr removeIdentities_loop]. change (getType (Standard1 q x)) with x.
    destruct Hc as [Hc|Hc].
    + rewrite <- Hc in *. rewrite decide_False; [done|].
      intros ->. apply HI. by left.
    + injection Hc as -> <-. by rewrite decide_True.
  - cbn [slot_repr removeIdentities_loop].
    change (getType (Compound_ (map (Standard1 q) l))) with OpType.Compound.
    rewrite decide_False by done. unfold Compound_.
    rewrite removeIdentities_children_gates.
    assert (Hf : filter (fun t => t <> OpType.I) l = fold_left reduce_step ts [t]).
    { destruct Hc as [-> | ->]; [by apply filter_not_I|].
      rewrite filter_cons, decide_False by (by intros ?). by apply filter_not_I. }
    rewrite Hf. by destruct (fold_left reduce_step ts [t]) as [|a [|b r]].
Qed.

Lemma removeIdentities_loop_slots gs : forall seen k,
  Forall (fun g => g.2 <> OpType.I) gs -> length gs <= k ->
  removeIdentities_loop (fusion_slots seen k gs) = fusion_result seen gs.
Proof.
  induction gs as [|[q t] gs IH]; intros seen k Hgs Hk; [done|].
  apply Forall_cons in Hgs as [Ht Hgs]. simpl in Ht, Hk.
  destruct k as [|k]; [lia|]. cbn [fusion_slots fusion_result].
  rewrite take_ge by lia.
  destruct (decide (q ∈ seen)).
  - cbn [removeIdentities_loop]. change (getType (Standard1 q OpType.I)) with OpType.I.
    rewrite decide_True by done. apply IH; [done|lia].
  - rewrite removeIdentities_loop_slot; [|done|].
    + f_equal. apply IH; [done|lia].
    + unfold types_on. intros (g & Hg & Hin)%list_elem_of_fmap.
      apply list_elem_of_filter in Hin as [_ Hin].
      rewrite Forall_forall in Hgs. by apply (Hgs g Hin).
Qed.

(** A Compound of gates on one qubit involves at most that qubit. *)
Lemma involvedQubits_gates dag q l :
  involvedQubits dag (Compound_ (map (Standard1 q) l)) <= 1.
Proof.
  unfold involvedQubits.
  assert (Hq : forall q', actsOn (Compound_ (map (Standard1 q) l)) q' = true -> q' = q).
  { intros q'. simpl. intros (c & Hc & Hact)%existsb_exists.
    apply in_map_iff in Hc as (t & <- & _). simpl in Hact.
    rewrite orb_false_r in Hact. apply orb_prop in Hact as [Hact|Hact]; [|done].
    by apply bool_decide_eq_true in Hact. }
  generalize dependent (actsOn (Compound_ (map (Standard1 q) l))). intros f Hq.
  assert (H : forall len a n0,
    fold_left (fun n q' => if f q' then S n else n) (seq a len) n0
    <= n0 + (if decide (a <= q < a + len) then 1 else 0)).
  { induction len as [|len IH]; intros a n0; simpl; [lia|].
    specialize (IH (S a)). destruct (f a) eqn:Hfa.
    - apply Hq in Hfa as ->. etransitivity; [apply IH|].
      rewrite decide_False by lia. rewrite decide_True by lia. lia.
    - etransitivity; [apply IH|].
      destruct (decide (S a <= q < S a + len)).
      + rewrite decide_True by lia. lia.
      + lia. }
  etransitivity; [apply H|]. destruct (decide _); lia.
Qed.

Lemma fusion_lanes_keep n k gs dag q t lane s :
  fusion_lanes n k gs dag -> gs !! k = Some (q, t) ->
  dag !! q = Some lane -> last lane = Some s ->
  fusion_lanes n (S k) gs dag.
Proof.
  intros [Hn Hl] Hk Hq Hs. split; [done|]. intros q' lane' Hq'.
  specialize (Hl q' lane' Hq'). destruct (last lane') as [s'|] eqn:Hlast.
  - destruct Hl as (r1 & t0 & r2 & ? & ? & ? & ?). exists r1, t0, r2.
    split; [done|]. split; [done|]. split; [done|lia].
  - rewrite (take_S_r _ _ _ Hk), map_app. simpl.
    intros [Hin|Hin%list_elem_of_singleton]%elem_of_app; [done|].
    subst q'. congruence.
Qed.

Lemma fusion_lanes_push n k gs dag q t lane s :
  fusion_lanes n k gs dag -> gs !! k = Some (q, t) ->
  dag !! q = Some lane -> last lane = Some s ->
  fusion_lanes n (S k) gs (<[q := lane ++ [s]]> dag).
Proof.
  intros Hl Hk Hq Hs.
  pose proof (fusion_lanes_keep _ _ _ _ _ _ _ _ Hl Hk Hq Hs) as [Hn Hl'].
  split; [by rewrite length_insert|]. intros q' lane' Hq'.
  destruct (decide (q = q')) as [<-|Hne].
  - rewrite list_lookup_insert_eq in Hq' by (by eapply lookup_lt_Some).
    injection Hq' as <-. rewrite last_snoc.
    specialize (Hl' q lane Hq). by rewrite Hs in Hl'.
  - rewrite list_lookup_insert_ne in Hq' by done. by apply Hl'.
Qed.

Lemma fusion_lanes_first n k gs dag q t lane :
  fusion_lanes n k gs dag -> gs !! k = Some (q, t) ->
  dag !! q = Some lane -> last lane = None ->
  fusion_lanes n (S k) gs (<[q := lane ++ [k]]> dag).
Proof.
  intros [Hn Hl] Hk Hq Hs. split; [by rewrite length_insert|].
  intros q' lane' Hq'. destruct (decide (q = q')) as [<-|Hne].
  - rewrite list_lookup_insert_eq in Hq' by (by eapply lookup_lt_Some).
    injection Hq' as <-. rewrite last_snoc.
    specialize (Hl q lane Hq). rewrite Hs in Hl.
    exists (take k gs), t, (drop (S k) gs).
    split; [symmetry; by apply take_drop_middle|]. split; [done|].
    split; [|lia]. rewrite length_take.
    apply lookup_lt_Some in Hk. lia.
  - rewrite list_lookup_insert_ne in Hq' by done.
    specialize (Hl q' lane' Hq'). destruct (last lane') as [s'|] eqn:Hlast.
    + destruct Hl as (r1 & t0 & r2 & ? & ? & ? & ?). exists r1, t0, r2.
      split; [done|]. split; [done|]. split; [done|lia].
    + rewrite (take_S_r _ _ _ Hk), map_app. simpl.
      intros [Hin|Hin%list_elem_of_singleton]%elem_of_app; [done|].
      by subst q'.
Qed.

Lemma notSingleQubit_Standard1 q t : notSingleQubit (Standard1 q t) = false.
Proof.
  reflexivity.
Qed.

(** One round of the loop on a circuit of single-qubit gates. *)
Lemma singleQubitGateFusion_step_gates n gs k q t dag :
  gs !! k = Some (q, t) -> q < n -> fusion_lanes n k gs dag ->
  exists dag',
    singleQubitGateFusion_step (fusion_slots [] k gs, dag) k = Ok (fusion_slots [] (S k) gs, dag')
    /\ fusion_lanes n (S k) gs dag'.
Proof.
  intros Hk Hq Hl. pose proof Hl as [Hn Hlanes].
  destruct (lookup_lt_is_Some_2 dag q) as [lane Hlane]; [lia|].
  unfold singleQubitGateFusion_step.
  rewrite (subscript_ok _ _ _ (fusion_slots_lookup_next gs [] k q t Hk)), bind_Ok.
  change (isStandardOperation (Standard1 q t)) with true. cbn [negb].
  rewrite notSingleQubit_Standard1.
  change (at_ (getTargets (Standard1 q t)) 0) with (Ok (A:=Qubit) q).
  rewrite bind_Ok, (at_ok _ _ _ Hlane), bind_Ok.
  pose proof (Hlanes q lane Hlane) as Hlast.
  destruct (last lane) as [s|] eqn:Hs.
  - destruct Hlast as (r1 & t0 & r2 & Hgs & Hr1 & -> & Hlt).
    assert (Hk' : r2 !! (k - length r1 - 1) = Some (q, t)).
    { rewrite Hgs in Hk. rewrite lookup_app_r in Hk by lia.
      replace (k - length r1) with (S (k - length r1 - 1)) in Hk by lia. done. }
    destruct (fusion_slots_step_first r1 [] (k - length r1 - 1) q t0 r2 t Hk')
      as [Hlook Hnext]; [by apply not_elem_of_nil|done|].
    replace (length r1 + S (k - length r1 - 1)) with k in Hlook, Hnext by lia.
    rewrite <- Hgs in Hlook, Hnext. rewrite Hnext.
    pose proof (fusion_slots_lookup_next gs [] k q t Hk) as Hit.
    set (c := fold_left fuse_step (types_on q (take (k - length r1 - 1) r2)) (Single t0))
      in *.
    set (v := fusion_slots [] k gs) in *.
    rewrite (subscript_ok _ _ _ Hlook), bind_Ok.
    assert (Hcomm : forall x y,
      <[length r1 := x]> (<[k := y]> v) = <[k := y]> (<[length r1 := x]> v)).
    { intros x y. apply list_insert_insert_ne. lia. }
    destruct c as [x|l]; cbn [slot_repr fuse_step].
    + (* the slot holds a single gate *)
      change (isCompoundOperation (Standard1 q x)) with false.
      rewrite notSingleQubit_Standard1. cbn [negb andb].
      change (getType (Standard1 q x)) with x.
      change (getType (Standard1 q t)) with t.
      unfold Standard1 at 1. cbv iota. fold (Standard1 q x).
      destruct (bool_decide (INVERSE_MAP x = Some t)).
      * exists dag. split; [|by eapply fusion_lanes_keep].
        unfold update_slot.
        rewrite (alter_as_insert _ _ _ _ Hlook).
        rewrite (alter_as_insert _ k _ (Standard1 q t));
          [|by rewrite list_lookup_insert_ne by lia].
        by rewrite Hcomm.
      * change (at_ (getTargets (Standard1 q x)) 0) with (Ok (A:=Qubit) q).
        rewrite bind_Ok, (push_back_at_ok _ _ _ _ Hlane), bind_Ok.
        eexists. split; [|by eapply fusion_lanes_push].
        unfold update_slot.
        rewrite (alter_as_insert _ k _ _ Hit).
        rewrite (alter_as_insert _ (length r1) _ (Standard1 q x));
          [|by rewrite list_lookup_insert_ne by lia].
        done.
    + (* the slot holds a Compound *)
      cbn [Compound_ isCompoundOperation negb andb].
      pose proof (involvedQubits_gates dag q l) as Hinv.
      rewrite decide_False by lia.
      exists dag. split; [|by eapply fusion_lanes_keep].
      replace (last (map (Standard1 q) l)) with (Standard1 q <$> last l)
        by (symmetry; apply fmap_last).
      unfold update_slot.
      destruct (last l) as [y|] eqn:Hy; cbn [fmap option_fmap option_map].
      * change (getType (Standard1 q y)) with y.
        change (getType (Standard1 q t)) with t.
        destruct (bool_decide (INVERSE_MAP y = Some t)).
        -- rewrite (alter_as_insert _ _ _ _ Hlook).
           rewrite (alter_as_insert _ k _ (Standard1 q t));
             [|by rewrite list_lookup_insert_ne by lia].
           rewrite Hcomm.
           destruct (last_Some l y) as [(l' & ->) _]; [done|].
           cbn [slot_repr]. unfold Compound_. rewrite map_app. simpl map.
           by rewrite !removelast_last.
        -- rewrite (alter_as_insert _ _ _ _ Hlook).
           rewrite (alter_as_insert _ k _ (Standard1 q t));
             [|by rewrite list_lookup_insert_ne by lia].
           rewrite Hcomm. cbn [slot_repr]. unfold Compound_.
           by rewrite map_app.
      * apply last_None in Hy as ->.
        rewrite (alter_as_insert _ _ _ _ Hlook).
        rewrite (alter_as_insert _ k _ (Standard1 q t));
          [|by rewrite list_lookup_insert_ne by lia].
        by rewrite Hcomm.
  - (* the first gate on the qubit *)
    unfold addToDag.
    change (getTargets (Standard1 q t)) with [q].
    change (map Control.qubit (getControls (Standard1 q t))) with (@nil Qubit).
    cbn [push_back_all]. rewrite bind_Ok.
    rewrite (push_back_at_ok _ _ _ _ Hlane), !bind_Ok.
    eexists. split; [|by eapply fusion_lanes_first].
    f_equal. f_equal. symmetry.
    eapply fusion_slots_step_unseen; [done|by apply not_elem_of_nil|done].
Qed.

Lemma singleQubitGateFusion_loop_gates n gs :
  Forall (fun g => g.1 < n) gs ->
  forall m k dag,
    k + m = length gs -> fusion_lanes n k gs dag ->
    exists dag',
      for_each singleQubitGateFusion_step (fusion_slots [] k gs, dag) (seq k m)
      = Ok (fusion_slots [] (length gs) gs, dag').
Proof.
  intros Hgs. induction m as [|m IH]; intros k dag Hk Hl.
  - exists dag. simpl. do 3 f_equal. lia.
  - destruct (lookup_lt_is_Some_2 gs k) as [[q t] Hg]; [lia|].
    assert (Hq : q < n).
    { rewrite Forall_forall in Hgs.
      apply (Hgs (q, t)). by eapply list_elem_of_lookup_2. }
    destruct (singleQubitGateFusion_step_gates n gs k q t dag Hg Hq Hl)
      as (dag1 & Hstep & Hl1).
    destruct (IH (S k) dag1) as (dag' & Hrun); [lia|done|].
    exists dag'. cbn [seq for_each]. by rewrite Hstep, bind_Ok.
Qed.

(** X26.  On a circuit of uncontrolled single-qubit gates (none of them an
    identity, all on qubits of the layout) the pass treats every qubit on
    its own: the first gate on a qubit is replaced by what the run of all
    gates on that qubit is fused to, and the later gates on that qubit
    vanish.  A run is fused by cancelling a gate against its predecessor
    when [INVERSE_MAP] pairs them; what is kept becomes nothing, one gate,
    or one Compound. *)
Theorem singleQubitGateFusion_fuses_runs (qc : QuantumComputation)
    (gs : list (Qubit * OpType.t)) :
  ops qc = gates gs ->
  Forall (fun g => g.1 <= highestPhysicalQubit (initialLayout qc)
                   /\ g.2 <> OpType.I) gs ->
  singleQubitGateFusion qc = Ok (set_ops qc (fusion_result [] gs)).
Proof.
  intros Hops Hgs. unfold singleQubitGateFusion.
  set (n := highestPhysicalQubit (initialLayout qc) + 1).
  assert (Hlen : length (ops qc) = length gs)
    by (rewrite Hops; unfold gates; apply length_map).
  assert (Hl0 : fusion_lanes n 0 gs (DAG_ n)).
  { split; [apply length_replicate|]. intros q lane Hq.
    apply lookup_replicate in Hq as [-> _]. simpl.
    apply not_elem_of_nil. }
  destruct (singleQubitGateFusion_loop_gates n gs) with (m := length gs) (k := 0)
    (dag := DAG_ n) as (dag' & Hrun); [|done|done|].
  { eapply Forall_impl; [exact Hgs|]. intros g [Hg _]. unfold n. simpl. lia. }
  rewrite fusion_slots_0, <- Hops, <- Hlen in Hrun. rewrite Hrun, bind_Ok.
  unfold removeIdentities. cbn [ops set_ops].
  rewrite removeIdentities_loop_slots; [reflexivity| |lia].
  eapply Forall_impl; [exact Hgs|]. by intros g [_ Hg].
Qed.

Lemma singleQubitGateFusion_fuses_runs_witness :
  singleQubitGateFusion
    (circuit 2 (gates [(0, OpType.X); (1, OpType.S); (0, OpType.H); (0, OpType.H);
                       (1, OpType.T); (0, OpType.X); (0, OpType.Z)]))
  = Ok (circuit 2 [Standard1 0 OpType.Z;
                   Compound_ [Standard1 1 OpType.S; Standard1 1 OpType.T]]).
Proof.
  etransitivity.
  - apply (singleQubitGateFusion_fuses_runs
      (circuit 2 (gates [(0, OpType.X); (1, OpType.S); (0, OpType.H); (0, OpType.H);
                         (1, OpType.T); (0, OpType.X); (0, OpType.Z)]))
      [(0, OpType.X); (1, OpType.S); (0, OpType.H); (0, OpType.H);
       (1, OpType.T); (0, OpType.X); (0, OpType.Z)]).
    + reflexivity.
    + repeat constructor; simpl; try (vm_compute; lia); discriminate.
  - vm_compute. reflexivity.
Defined.

Lemma singleQubitGateFusion_steps_untouched ps : forall v dag v' dag',
  Forall (fun o => isStandardOperation o = true -> notSingleQubit o = true) v ->
  for_each singleQubitGateFusion_step (v, dag) ps = Ok (v', dag') -> v' = v.
Proof.
  induction ps as [|p ps IH]; intros v dag v' dag' Hv H; simpl in H.
  - by injection H as <- <-.
  - apply bind_inv in H as ([v1 dag1] & Hstep & H).
    assert (v1 = v) as ->; [|by eapply IH].
    unfold singleQubitGateFusion_step in Hstep.
    apply bind_inv in Hstep as (it & Hit & Hstep).
    apply subscript_inv in Hit.
    destruct (isStandardOperation it) eqn:Hstd; simpl in Hstep.
    + rewrite Forall_forall in Hv.
      rewrite (Hv it) in Hstep; [|by eapply list_elem_of_lookup_2|done].
      apply bind_inv in Hstep as (d & _ & Hstep). by injection Hstep as <- <-.
    + apply bind_inv in Hstep as (d & _ & Hstep). by injection Hstep as <- <-.
Qed.

(** X27.  [singleQubitGateFusion] rewrites uncontrolled gates with at most
    one target only: on a circuit whose Standard operations all have a
    control or more than one target, a run that returns has done what
    [removeIdentities] does and nothing more. *)
Theorem singleQubitGateFusion_touches_only_single_qubit_gates
    (qc qc' : QuantumComputation) :
  Forall (fun o => isStandardOperation o = true -> notSingleQubit o = true) (ops qc) ->
  singleQubitGateFusion qc = Ok qc' ->
  qc' = removeIdentities qc.
Proof.
  intros Hv H. unfold singleQubitGateFusion in H.
  apply bind_inv in H as ([v dag] & Hrun & H). injection H as <-.
  apply singleQubitGateFusion_steps_untouched in Hrun as ->; [|done].
  by destruct qc.
Qed.

Lemma singleQubitGateFusion_touches_only_single_qubit_gates_witness :
  circuit 2 [StandardC (Control_ 0) 1 OpType.X;
                     Compound_ [Standard1 0 OpType.H; Standard1 0 OpType.H];
                     StandardN [] [0; 1] OpType.SWAP]
  = removeIdentities
      (circuit 2 [StandardC (Control_ 0) 1 OpType.X;
                          Compound_ [Standard1 0 OpType.H; Standard1 0 OpType.H];
                          StandardC (Control_ 1) 0 OpType.I;
                          StandardN [] [0; 1] OpType.SWAP]).
Proof.
  apply (singleQubitGateFusion_touches_only_single_qubit_gates
    (circuit 2 [StandardC (Control_ 0) 1 OpType.X;
                        Compound_ [Standard1 0 OpType.H; Standard1 0 OpType.H];
                        StandardC (Control_ 1) 0 OpType.I;
                        StandardN [] [0; 1] OpType.SWAP])).
  - repeat constructor; simpl; try discriminate; intros _; reflexivity.
  - vm_compute. reflexivity.
Defined.

(** X28.  The pass does not ask what kind of operation it fuses a gate
    with.  When an operation that is neither a Standard operation nor a
    Compound, has no control and the one target [q] (a Reset of [q], say)
    is followed by a single-qubit gate on [q], the two fusion_slots are replaced
    by one Compound whose first child is a newly constructed
    StandardOperation on [q] that carries the type of that operation. *)
Theorem singleQubitGateFusion_absorbs_other_kinds (qc : QuantumComputation)
    (o : Operation) (q : Qubit) (g : OpType.t) :
  ops qc = [o; Standard1 q g] ->
  isStandardOperation o = false -> isCompoundOperation o = false ->
  getControls o = [] -> getTargets o = [q] ->
  q <= highestPhysicalQubit (initialLayout qc) ->
  getType o <> OpType.I -> g <> OpType.I ->
  INVERSE_MAP (getType o) <> Some g ->
  singleQubitGateFusion qc
  = Ok (set_ops qc [Compound_ [Standard1 q (getType o); Standard1 q g]]).
Proof.
  intros Hops Hstd Hcomp Hctl Htgt Hq HoI HgI Hinv.
  unfold singleQubitGateFusion. rewrite Hops. cbn [length seq for_each].
  set (n := highestPhysicalQubit (initialLayout qc) + 1).
  assert (L0 : DAG_ n !! q = Some []) by (apply lookup_DAG_; unfold n; lia).
  (* the first slot *)
  assert (Hadd : addNonStandardOperationToDag (DAG_ n) o 0
                 = Ok (<[q := [0]]> (DAG_ n))).
  { destruct o as [b|b cs|b nq qs cs|b cop r e]; try discriminate.
    - cbn [addNonStandardOperationToDag]. rewrite Htgt. cbn [push_back_all].
      by rewrite (push_back_at_ok _ _ _ _ L0).
    - cbn [addNonStandardOperationToDag]. simpl in Hctl, Htgt.
      rewrite Hctl, Htgt. cbn [map push_back_all]. rewrite bind_Ok.
      by rewrite (push_back_at_ok _ _ _ _ L0). }
  assert (Hstep0 : singleQubitGateFusion_step ([o; Standard1 q g], DAG_ n) 0
                   = Ok ([o; Standard1 q g], <[q := [0]]> (DAG_ n))).
  { unfold singleQubitGateFusion_step.
    change (subscript [o; Standard1 q g] 0) with (Ok (A:=Operation) o).
    rewrite bind_Ok, Hstd. cbn [negb]. by rewrite Hadd, !bind_Ok. }
  (* the second slot *)
  assert (L1 : <[q := [0]]> (DAG_ n) !! q = Some [0]).
  { apply list_lookup_insert_eq. by eapply lookup_lt_Some. }
  assert (Hstep1 : exists dag',
    singleQubitGateFusion_step ([o; Standard1 q g], <[q := [0]]> (DAG_ n)) 1
    = Ok ([Compound_ [Standard1 q (getType o); Standard1 q g];
           Standard1 q OpType.I], dag')).
  { unfold singleQubitGateFusion_step.
    change (subscript [o; Standard1 q g] 1) with (Ok (A:=Operation) (Standard1 q g)).
    rewrite bind_Ok.
    change (isStandardOperation (Standard1 q g)) with true. cbn [negb].
    rewrite notSingleQubit_Standard1.
    change (at_ (getTargets (Standard1 q g)) 0) with (Ok (A:=Qubit) q).
    rewrite bind_Ok, (at_ok _ _ _ L1), bind_Ok. cbn [last].
    change (subscript [o; Standard1 q g] 0) with (Ok (A:=Operation) o).
    rewrite bind_Ok, Hcomp.
    assert (Hns : notSingleQubit o = false).
    { unfold notSingleQubit. rewrite Hctl, Htgt. reflexivity. }
    rewrite Hns. cbn [negb andb].
    change (getType (Standard1 q g)) with g.
    destruct o as [b|b cs|b nq qs cs|b cop r e]; try discriminate; cbv iota;
      rewrite bool_decide_eq_false_2 by done;
      rewrite Htgt; change (at_ [q] 0) with (Ok (A:=Qubit) q);
      rewrite bind_Ok, (push_back_at_ok _ _ _ _ L1), !bind_Ok;
      by eexists. }
  destruct Hstep1 as [dag' Hstep1].
  rewrite Hstep0, bind_Ok, Hstep1, !bind_Ok.
  unfold removeIdentities, set_ops.
  cbn [ops nqubits initialLayout outputPermutation].
  do 2 f_equal. cbn [removeIdentities_loop].
  change (getType (Compound_ [Standard1 q (getType o); Standard1 q g]))
    with OpType.Compound.
  rewrite decide_False by done. unfold Compound_ at 1.
  cbn [removeIdentities_children].
  change (getType (Standard1 q (getType o))) with (getType o).
  change (getType (Standard1 q g)) with g.
  rewrite !decide_False by done.
  change (getType (Standard1 q OpType.I)) with OpType.I.
  by rewrite decide_True.
Qed.

Lemma singleQubitGateFusion_absorbs_other_kinds_witness :
  singleQubitGateFusion
    (circuit 2 [NonUnitaryOperation_general 2 [0] OpType.Reset;
                        Standard1 0 OpType.H])
  = Ok (circuit 2
          [Compound_ [Standard1 0 OpType.Reset; Standard1 0 OpType.H]]).
Proof.
  apply (singleQubitGateFusion_absorbs_other_kinds
    (circuit 2 [NonUnitaryOperation_general 2 [0] OpType.Reset;
                        Standard1 0 OpType.H])
    (NonUnitaryOperation_general 2 [0] OpType.Reset) 0 OpType.H);
    try reflexivity; try discriminate.
  vm_compute. lia.
Defined.

(** *** constructDAG *)

Lemma for_each_throw_at {S} (f : S -> nat -> result S) ps : forall s e,
  for_each f s ps = Throw e -> exists s' p, p ∈ ps /\ f s' p = Throw e.
Proof.
  induction ps as [|p ps IH]; intros s e H; [discriminate|].
  rewrite for_each_cons in H. destruct (f s p) as [s1|e1] eqn:H1.
  - destruct (IH s1 e H) as (s' & p' & Hin & Hf).
    exists s', p'. split; [by right|done].
  - injection H as <-. exists s, p. split; [by left|done].
Qed.

Lemma dagEntries_below n v :
  Forall (names_below n) v ->
  forall q x, (q, x) ∈ dagEntries v (seq 0 (length v)) -> q < n.
Proof.
  intros Hv q x Hin. unfold dagEntries in Hin.
  apply list_elem_of_In, in_flat_map in Hin as (p & _ & Hin).
  unfold slotEntries in Hin. destruct (v !! p) as [o|] eqn:Ho; [|done].
  apply in_map_iff in Hin as (q' & [= -> ->] & Hq).
  rewrite Forall_forall in Hv.
  assert (Ho' : names_below n o) by (apply Hv; by eapply list_elem_of_lookup_2).
  unfold names_below in Ho'. rewrite Forall_forall in Ho'.
  by apply Ho', list_elem_of_In.
Qed.

(** X29.  When every qubit that a top-level operation is entered for
    (controls and targets of a gate or of the gate under a classical
    condition, used qubits of a Compound, targets of a non-unitary
    operation) is at most the highest physical qubit of the initial layout,
    [constructDAG] returns a DAG with one lane for each of the qubits
    0..highest, and the lane of [q] holds the slots of the operations that
    name [q], in program order. *)
Theorem constructDAG_lanes (qc : QuantumComputation) :
  let n := highestPhysicalQubit (initialLayout qc) + 1 in
  Forall (names_below n) (ops qc) ->
  exists dag,
    constructDAG qc = Ok dag /\ length dag = n /\
    forall q, q < n -> dag !! q = Some (lane_slots (ops qc) q).
Proof.
  intros n Hv. unfold constructDAG. fold n.
  destruct (constructDAG_steps_ok (ops qc) (DAG_ n) [] (DAG_ n)
              (seq 0 (length (ops qc)))) as (dag & Hrun & Hf).
  - apply filled_nil.
  - apply Forall_forall. intros p Hp%elem_of_seq. lia.
  - intros q x Hin. unfold DAG_. rewrite length_replicate.
    by eapply dagEntries_below.
  - exists dag. split; [done|]. simpl in Hf. split.
    + rewrite (filled_length _ _ _ Hf). apply length_replicate.
    + intros q Hq. rewrite (filled_lanes n _ dag Hf q Hq).
      unfold dagEntries, lane_slots. rewrite entries_on_flat_map.
      f_equal. apply flat_map_ext. intros p. apply entries_on_slot.
Qed.

(** X30.  When some top-level operation is entered for a qubit above the
    highest physical qubit of the initial layout, [constructDAG] throws
    [std::out_of_range], from [dag.at]. *)
Theorem constructDAG_out_of_range (qc : QuantumComputation) :
  Exists (fun o => ~ names_below (highestPhysicalQubit (initialLayout qc) + 1) o)
    (ops qc) ->
  constructDAG qc = Throw out_of_range.
Proof.
  set (n := highestPhysicalQubit (initialLayout qc) + 1). intros Hex.
  destruct (constructDAG qc) as [dag|e] eqn:Hrun.
  - exfalso. unfold constructDAG in Hrun. fold n in Hrun.
    destruct (constructDAG_steps_inv (ops qc) (DAG_ n) [] (DAG_ n) dag _
                (filled_nil _) Hrun) as (_ & Hin & _).
    apply Exists_exists in Hex as (o & Ho & Hnot). apply Hnot.
    apply Forall_forall. intros q Hq.
    apply list_elem_of_lookup in Ho as [p Hp].
    specialize (Hin q p). unfold DAG_ in Hin. rewrite length_replicate in Hin.
    apply Hin. unfold dagEntries.
    apply list_elem_of_In, in_flat_map. exists p. split.
    + apply list_elem_of_In, elem_of_seq. apply lookup_lt_Some in Hp. lia.
    + unfold slotEntries. rewrite Hp. apply in_map_iff. exists q.
      split; [done|by apply list_elem_of_In].
  - f_equal. unfold constructDAG in Hrun.
    apply for_each_throw_at in Hrun as (dag & p & Hp & Hstep).
    apply elem_of_seq in Hp.
    destruct (lookup_lt_is_Some_2 (ops qc) p) as [o Ho]; [lia|].
    rewrite (constructDAG_step_eq _ _ _ _ Ho) in Hstep.
    by apply push_back_all_throw in Hstep.
Qed.

Lemma constructDAG_lanes_witness :
  exists dag,
    constructDAG (circuit 2 [Standard1 0 OpType.H;
                             StandardC (Control_ 0) 1 OpType.X;
                             Compound_ [Standard1 1 OpType.Z];
                             NonUnitaryOperation_measure1 2 0 0]) = Ok dag
    /\ length dag = 2
    /\ dag !! 0 = Some [0; 1; 3] /\ dag !! 1 = Some [1; 2].
Proof.
  destruct (constructDAG_lanes
    (circuit 2 [Standard1 0 OpType.H;
                StandardC (Control_ 0) 1 OpType.X;
                Compound_ [Standard1 1 OpType.Z];
                NonUnitaryOperation_measure1 2 0 0])) as (dag & Hrun & Hlen & Hl).
  - repeat constructor.
  - exists dag. split; [done|]. split; [done|].
    split; [apply (Hl 0)|apply (Hl 1)]; vm_compute; lia.
Defined.

Lemma constructDAG_out_of_range_witness :
  constructDAG (circuit 2 [Standard1 0 OpType.H; StandardC (Control_ 0) 2 OpType.X])
  = Throw out_of_range.
Proof.
  apply (constructDAG_out_of_range
    (circuit 2 [Standard1 0 OpType.H; StandardC (Control_ 0) 2 OpType.X])).
  apply Exists_cons_tl, Exists_cons_hd. intros H.
  apply Forall_cons in H as [_ H]. apply Forall_cons in H as [H _].
  vm_compute in H. lia.
Defined.
